(** * Wire codec of envoy/extensions/common/tap/v4alpha/common.pb.go

    A shallow embedding of the generated gogo-protobuf codec for
    [CommonExtensionConfig], [CommonExtensionConfig_TapDSConfig] and
    [AdminConfig], and the properties of its size, marshal and unmarshal
    routines.

    Conventions of the embedding.
    - A Go [[]byte] is a [list byte]; a slice that may be [nil] is an
      [option (list byte)]; a Go [string] is the list of its bytes.
    - Go's [int] is the 64-bit signed integer of amd64.  Integers are [Z];
      every conversion and every arithmetic step that can leave the range
      on some input is written with its wrap-around ([uint64], [int],
      [int32], [uint8]).  Lengths of slices are taken with [len] and are
      not wrapped.
    - A pointer that may be [nil] is an [option].
    - A call returns an [outcome]: a value, a Go [error], or a run-time
      panic.  Loops run on fuel; [OutOfFuel] is shown to be unreachable.
    - The fields [XXX_NoUnkeyedLiteral] and [XXX_sizecache] are never read
      or written by the routines below and are left out of the records. *)

From Stdlib Require Import String.
From Stdlib Require Import ZArith List Lia Bool.
From Stdlib Require Import Init.Byte Strings.Byte.
Import ListNotations.
Local Open Scope Z_scope.

(** ** Outcomes *)

Inductive error : Type :=
| ErrInvalidLengthCommon          (* "proto: negative length found during unmarshaling" *)
| ErrIntOverflowCommon            (* "proto: integer overflow" *)
| ErrUnexpectedEndOfGroupCommon   (* "proto: unexpected end of group" *)
| ErrUnexpectedEOF                (* io.ErrUnexpectedEOF *)
| ErrEndGroupForNonGroup (msg : string)
    (* "proto: <msg>: wiretype end group for non-group" *)
| ErrIllegalTag (msg : string) (fieldNum wire : Z)
    (* "proto: <msg>: illegal tag %d (wire type %d)" *)
| ErrWrongWireType (wireType : Z) (field : string)
    (* "proto: wrong wireType = %d for field <field>" *)
| ErrIllegalWireType (wireType : Z)
    (* "proto: illegal wireType %d" *)
| ErrForeign (text : string).
    (* an error value made by a message type of another package *)

Inductive panic : Type :=
| IndexOutOfRange
| SliceBoundsOutOfRange
| NilDereference
| MakeSliceLenOutOfRange.

Inductive outcome (A : Type) : Type :=
| Ok (a : A)
| Err (e : error)
| Panic (p : panic)
| OutOfFuel.

Arguments Ok {A} a.
Arguments Err {A} e.
Arguments Panic {A} p.
Arguments OutOfFuel {A}.

Definition bind {A B : Type} (c : outcome A) (k : A -> outcome B) : outcome B :=
  match c with
  | Ok a => k a
  | Err e => Err e
  | Panic p => Panic p
  | OutOfFuel => OutOfFuel
  end.

Notation "x <- c ;; k" := (bind c (fun x => k))
  (at level 61, c at next level, right associativity).
Notation "' p <- c ;; k" := (bind c (fun x => let 'p := x in k))
  (at level 61, p pattern, c at next level, right associativity).

(** ** Integers and bytes *)

Definition uint64 (z : Z) : Z := z mod 2 ^ 64.
Definition int (z : Z) : Z := (z + 2 ^ 63) mod 2 ^ 64 - 2 ^ 63.
Definition int32 (z : Z) : Z := (z + 2 ^ 31) mod 2 ^ 32 - 2 ^ 31.

Definition byte_val (b : byte) : Z := Z.of_N (Byte.to_N b).

Definition uint8 (z : Z) : byte :=
  match Byte.of_N (Z.to_N (z mod 256)) with
  | Some b => b
  | None => x00
  end.

Definition len {A : Type} (l : list A) : Z := Z.of_nat (List.length l).

(** [s[:n]] and [s[n:]] on lists, with [Z] bounds. *)
Definition take {A : Type} (n : Z) (l : list A) : list A := firstn (Z.to_nat n) l.
Definition drop {A : Type} (n : Z) (l : list A) : list A := skipn (Z.to_nat n) l.

(** math/bits.Len64: the number of bits needed to represent [x]; 0 for 0. *)
Definition Len64 (x : Z) : Z := if x =? 0 then 0 else Z.log2 x + 1.

Definition sovCommon (x : Z) : Z := (Len64 (Z.lor x 1) + 6) / 7.

(** ** Buffers written by the marshal routines

    The buffer under construction is threaded through the calls.  All the
    slices the marshal routines take of it have their capacity equal to
    their length (the buffer comes from [make([]byte, size)]), so a slice
    expression panics exactly when it leaves the length. *)

Definition make (size : Z) : outcome (list byte) :=
  if size <? 0 then Panic MakeSliceLenOutOfRange
  else Ok (repeat x00 (Z.to_nat size)).

(** [dAtA[:n]] *)
Definition slice_to (dAtA : list byte) (n : Z) : outcome (list byte) :=
  if (0 <=? n) && (n <=? len dAtA) then Ok (take n dAtA)
  else Panic SliceBoundsOutOfRange.

(** [dAtA[i:]] *)
Definition slice_from (dAtA : list byte) (i : Z) : outcome (list byte) :=
  if (0 <=? i) && (i <=? len dAtA) then Ok (drop i dAtA)
  else Panic SliceBoundsOutOfRange.

(** [dAtA[i] = b] *)
Definition store (dAtA : list byte) (i : Z) (b : byte) : outcome (list byte) :=
  if (0 <=? i) && (i <? len dAtA)
  then Ok (take i dAtA ++ b :: drop (i + 1) dAtA)
  else Panic IndexOutOfRange.

(** [copy(dAtA[i:], src)]: copies [min(len(dAtA[i:]), len(src))] bytes. *)
Definition copy_at (dAtA : list byte) (i : Z) (src : list byte) : outcome (list byte) :=
  dst <- slice_from dAtA i ;;
  let n := Z.min (len dst) (len src) in
  Ok (take i dAtA ++ take n src ++ drop n dst).

(** The loop of [encodeVarintCommon]; a [uint64] has at most ten groups of
    seven bits. *)
Fixpoint encodeVarint_loop (fuel : nat) (dAtA : list byte) (offset v : Z)
  : outcome (list byte * Z * Z) :=
  match fuel with
  | O => OutOfFuel
  | S fuel' =>
      if 128 <=? v then
        dAtA <- store dAtA offset (uint8 (Z.lor (Z.land v 127) 128)) ;;
        encodeVarint_loop fuel' dAtA (offset + 1) (Z.shiftr v 7)
      else Ok (dAtA, offset, v)
  end.

Definition encodeVarintCommon (dAtA : list byte) (offset v : Z)
  : outcome (list byte * Z) :=
  let offset := offset - sovCommon v in
  let base := offset in
  '(dAtA, offset, v) <- encodeVarint_loop 10 dAtA offset v ;;
  dAtA <- store dAtA offset (uint8 v) ;;
  Ok (dAtA, base).

(** ** Reading from the input of the unmarshal routines

    A cursor is the read position [iNdEx] together with the bytes from
    there on, [dAtA[iNdEx:]]; [iNdEx >= l] is [rest = []]. *)

Record cursor : Type := Cursor { iNdEx : Z; rest : list byte }.

(** [wire |= uint64(b&0x7F) << shift], the result a [uint64] again *)
Definition or_uint64 (v : Z) (b : byte) (shift : Z) : Z :=
  uint64 (Z.lor v (uint64 (Z.shiftl (Z.land (byte_val b) 127) shift))).

(** [msglen |= int(b&0x7F) << shift], the result an [int] again *)
Definition or_int (v : Z) (b : byte) (shift : Z) : Z :=
  int (Z.lor v (int (Z.shiftl (Z.land (byte_val b) 127) shift))).

(** The varint loop
    [for shift := uint(0); ; shift += 7 { ... }] that every routine repeats,
    with the accumulating statement as [acc]. *)
Fixpoint read_varint (acc : Z -> byte -> Z -> Z) (shift v : Z) (i : Z)
  (bs : list byte) {struct bs} : outcome (Z * cursor) :=
  if 64 <=? shift then Err ErrIntOverflowCommon
  else
    match bs with
    | [] => Err ErrUnexpectedEOF
    | b :: bs' =>
        let v' := acc v b shift in
        if byte_val b <? 128 then Ok (v', Cursor (i + 1) bs')
        else read_varint acc (shift + 7) v' (i + 1) bs'
    end.

Definition varint (acc : Z -> byte -> Z -> Z) (c : cursor) : outcome (Z * cursor) :=
  read_varint acc 0 0 (iNdEx c) (rest c).

(** *** skipCommon *)

(** The [switch wireType] of [skipCommon]: the cursor behind the value of
    the field, and the nesting depth. *)
Definition skip_value (wireType depth : Z) (c : cursor) : outcome (cursor * Z) :=
  match wireType with
  | 0 =>
      '(_, c) <- varint (fun v _ _ => v) c ;;
      Ok (c, depth)
  | 1 => Ok (Cursor (int (iNdEx c + 8)) (drop 8 (rest c)), depth)
  | 2 =>
      '(length, c) <- varint or_int c ;;
      if length <? 0 then Err ErrInvalidLengthCommon
      else Ok (Cursor (int (iNdEx c + length)) (drop length (rest c)), depth)
  | 3 => Ok (c, depth + 1)
  | 4 =>
      if depth =? 0 then Err ErrUnexpectedEndOfGroupCommon
      else Ok (c, depth - 1)
  | 5 => Ok (Cursor (int (iNdEx c + 4)) (drop 4 (rest c)), depth)
  | _ => Err (ErrIllegalWireType wireType)
  end.

(** [for iNdEx < l { ... }; return 0, io.ErrUnexpectedEOF] *)
Fixpoint skipCommon_loop (fuel : nat) (depth : Z) (c : cursor) : outcome Z :=
  match rest c with
  | [] => Err ErrUnexpectedEOF
  | _ :: _ =>
      match fuel with
      | O => OutOfFuel
      | S fuel' =>
          '(wire, c) <- varint or_uint64 c ;;
          let wireType := int (Z.land wire 7) in
          '(c, depth) <- skip_value wireType depth c ;;
          if iNdEx c <? 0 then Err ErrInvalidLengthCommon
          else if depth =? 0 then Ok (iNdEx c)
          else skipCommon_loop fuel' depth c
      end
  end.

Definition skipCommon (dAtA : list byte) : outcome Z :=
  skipCommon_loop (List.length dAtA) 0 (Cursor 0 dAtA).

(** *** The steps shared by the three [Unmarshal] routines *)

(** The tag at the head of every iteration. *)
Definition read_tag (msg : string) (c : cursor) : outcome (Z * Z * cursor) :=
  '(wire, c) <- varint or_uint64 c ;;
  let fieldNum := int32 (Z.shiftr wire 3) in
  let wireType := int (Z.land wire 7) in
  if wireType =? 4 then Err (ErrEndGroupForNonGroup msg)
  else if fieldNum <=? 0 then Err (ErrIllegalTag msg fieldNum wire)
  else Ok (fieldNum, wireType, c).

(** [var msglen int; for ... { msglen |= int(b&0x7F) << shift }] *)
Definition read_msglen (c : cursor) : outcome (Z * cursor) :=
  varint or_int c.

(** [var stringLen uint64; for ... ; intStringLen := int(stringLen)] *)
Definition read_stringLen (c : cursor) : outcome (Z * cursor) :=
  '(stringLen, c) <- varint or_uint64 c ;;
  Ok (int stringLen, c).

(** The bounds checks after a length prefix, and [dAtA[iNdEx:postIndex]]. *)
Definition payload (l : Z) (length : Z) (c : cursor) : outcome (list byte * cursor) :=
  if length <? 0 then Err ErrInvalidLengthCommon
  else
    let postIndex := int (iNdEx c + length) in
    if postIndex <? 0 then Err ErrInvalidLengthCommon
    else if postIndex >? l then Err ErrUnexpectedEOF
    else Ok (take (postIndex - iNdEx c) (rest c),
             Cursor postIndex (drop (postIndex - iNdEx c) (rest c))).

(** The [default:] arm: [skipCommon] on the bytes from the tag on, then the
    same three checks on [skippy], and [dAtA[iNdEx:iNdEx+skippy]]. *)
Definition skip_unknown (l : Z) (preIndex : cursor) : outcome (list byte * cursor) :=
  skippy <- skipCommon (rest preIndex) ;;
  payload l skippy preIndex.

(** [append(m.XXX_unrecognized, chunk...)] *)
Definition append (s : option (list byte)) (chunk : list byte) : option (list byte) :=
  match s, chunk with
  | None, [] => None
  | None, _ :: _ => Some chunk
  | Some u, _ => Some (u ++ chunk)
  end.

(** The loop [for iNdEx < l { ... }] and the check after it. *)
Fixpoint unmarshal_loop {M : Type} (step : Z -> M -> cursor -> outcome (M * cursor))
  (fuel : nat) (l : Z) (m : M) (c : cursor) : outcome M :=
  if iNdEx c <? l then
    match fuel with
    | O => OutOfFuel
    | S fuel' =>
        '(m, c) <- step l m c ;;
        unmarshal_loop step fuel' l m c
    end
  else if iNdEx c >? l then Err ErrUnexpectedEOF
  else Ok m.

(** ** Message types of other packages

    [v3.TapConfig] and [v4alpha.ConfigSource] are generated in packages of
    their own.  The routines below only call their [Size],
    [MarshalToSizedBuffer] and [Unmarshal] methods and take their zero value,
    so they enter as the operations of an interface.  [msg_MarshalToSizedBuffer]
    receives the slice it may write and returns it as it leaves it. *)

Class Message (T : Type) : Type := {
  msg_zero : T;
  msg_Size : T -> Z;
  msg_MarshalToSizedBuffer : T -> list byte -> outcome (list byte * Z);
  msg_Unmarshal : T -> list byte -> outcome T
}.

(** The two message types this file imports. *)
Class Externals : Type := {
  v3_TapConfig : Type;
  v4alpha_ConfigSource : Type;
  TapConfig_ops :: Message v3_TapConfig;
  ConfigSource_ops :: Message v4alpha_ConfigSource
}.

(** [f(dAtA[:i])] for an [f] that writes into the slice it is given. *)
Definition in_prefix {A : Type} (dAtA : list byte) (i : Z)
  (f : list byte -> outcome (list byte * A)) : outcome (list byte * A) :=
  p <- slice_to dAtA i ;;
  '(p, a) <- f p ;;
  Ok (p ++ drop i dAtA, a).

(** [f(dAtA[i:])] *)
Definition in_suffix {A : Type} (dAtA : list byte) (i : Z)
  (f : list byte -> outcome (list byte * A)) : outcome (list byte * A) :=
  s <- slice_from dAtA i ;;
  '(s, a) <- f s ;;
  Ok (take i dAtA ++ s, a).

(** A length-delimited nested message written in front of position [i]:
    [size, err := x.MarshalToSizedBuffer(dAtA[:i]); i -= size;
     i = encodeVarintCommon(dAtA, i, uint64(size)); i--; dAtA[i] = tag]. *)
Definition put_message (tag : byte) (marshal : list byte -> outcome (list byte * Z))
  (dAtA : list byte) (i : Z) : outcome (list byte * Z) :=
  '(dAtA, size) <- in_prefix dAtA i marshal ;;
  let i := i - size in
  '(dAtA, i) <- encodeVarintCommon dAtA i (uint64 size) ;;
  let i := i - 1 in
  dAtA <- store dAtA i tag ;;
  Ok (dAtA, i).

(** [if m.XXX_unrecognized != nil { i -= len(...); copy(dAtA[i:], ...) }] *)
Definition put_unrecognized (u : option (list byte)) (dAtA : list byte) (i : Z)
  : outcome (list byte * Z) :=
  match u with
  | Some u =>
      let i := i - len u in
      dAtA <- copy_at dAtA i u ;;
      Ok (dAtA, i)
  | None => Ok (dAtA, i)
  end.

(** [if len(s) > 0 { i -= len(s); copy(dAtA[i:], s);
     i = encodeVarintCommon(dAtA, i, uint64(len(s))); i--; dAtA[i] = tag }] *)
Definition put_string (tag : byte) (s : list byte) (dAtA : list byte) (i : Z)
  : outcome (list byte * Z) :=
  if len s >? 0 then
    let i := i - len s in
    dAtA <- copy_at dAtA i s ;;
    '(dAtA, i) <- encodeVarintCommon dAtA i (uint64 (len s)) ;;
    let i := i - 1 in
    dAtA <- store dAtA i tag ;;
    Ok (dAtA, i)
  else Ok (dAtA, i).

(** ** AdminConfig *)

Record AdminConfig : Type := {
  ConfigId : list byte;
  AdminConfig_XXX_unrecognized : option (list byte)
}.

Definition AdminConfig_zero : AdminConfig :=
  {| ConfigId := []; AdminConfig_XXX_unrecognized := None |}.

Definition AdminConfig_GetConfigId (m : option AdminConfig) : list byte :=
  match m with
  | Some m => ConfigId m
  | None => []
  end.

Definition AdminConfig_Size (m : option AdminConfig) : Z :=
  match m with
  | None => 0
  | Some m =>
      let n := 0 in
      let l := len (ConfigId m) in
      let n := if l >? 0 then n + (1 + l + sovCommon (uint64 l)) else n in
      let n := match AdminConfig_XXX_unrecognized m with
               | Some u => n + len u
               | None => n
               end in
      n
  end.

Definition AdminConfig_MarshalToSizedBuffer (m : AdminConfig) (dAtA : list byte)
  : outcome (list byte * Z) :=
  let i := len dAtA in
  '(dAtA, i) <- put_unrecognized (AdminConfig_XXX_unrecognized m) dAtA i ;;
  '(dAtA, i) <- put_string x0a (ConfigId m) dAtA i ;;
  Ok (dAtA, len dAtA - i).

Definition AdminConfig_Marshal (m : AdminConfig) : outcome (list byte) :=
  let size := AdminConfig_Size (Some m) in
  dAtA <- make size ;;
  '(dAtA, n) <- in_prefix dAtA size (AdminConfig_MarshalToSizedBuffer m) ;;
  slice_to dAtA n.

Definition AdminConfig_Unmarshal_field (l : Z) (m : AdminConfig) (c : cursor)
  : outcome (AdminConfig * cursor) :=
  let preIndex := c in
  '(fieldNum, wireType, c) <- read_tag "AdminConfig" c ;;
  match fieldNum with
  | 1 =>
      if negb (wireType =? 2) then Err (ErrWrongWireType wireType "ConfigId")
      else
        '(intStringLen, c) <- read_stringLen c ;;
        '(s, c) <- payload l intStringLen c ;;
        Ok ({| ConfigId := s;
               AdminConfig_XXX_unrecognized := AdminConfig_XXX_unrecognized m |}, c)
  | _ =>
      '(chunk, c) <- skip_unknown l preIndex ;;
      Ok ({| ConfigId := ConfigId m;
             AdminConfig_XXX_unrecognized :=
               append (AdminConfig_XXX_unrecognized m) chunk |}, c)
  end.

Definition AdminConfig_Unmarshal (m : AdminConfig) (dAtA : list byte)
  : outcome AdminConfig :=
  unmarshal_loop AdminConfig_Unmarshal_field (List.length dAtA) (len dAtA) m
    (Cursor 0 dAtA).

Definition filter_1 : AdminConfig :=
  {| ConfigId := list_byte_of_string "filter-1";
     AdminConfig_XXX_unrecognized := None |}.


Section Codec.

Context {E : Externals}.

(** ** CommonExtensionConfig_TapDSConfig *)

Record CommonExtensionConfig_TapDSConfig : Type := {
  ConfigSource : option v4alpha_ConfigSource;
  Name : list byte;
  TapDSConfig_XXX_unrecognized : option (list byte)
}.

Definition TapDSConfig_zero : CommonExtensionConfig_TapDSConfig :=
  {| ConfigSource := None; Name := []; TapDSConfig_XXX_unrecognized := None |}.

Definition TapDSConfig_GetConfigSource (m : option CommonExtensionConfig_TapDSConfig)
  : option v4alpha_ConfigSource :=
  match m with
  | Some m => ConfigSource m
  | None => None
  end.

Definition TapDSConfig_GetName (m : option CommonExtensionConfig_TapDSConfig)
  : list byte :=
  match m with
  | Some m => Name m
  | None => []
  end.

Definition TapDSConfig_Size (m : option CommonExtensionConfig_TapDSConfig) : Z :=
  match m with
  | None => 0
  | Some m =>
      let n := 0 in
      let n := match ConfigSource m with
               | Some cs =>
                   let l := msg_Size cs in
                   n + (1 + l + sovCommon (uint64 l))
               | None => n
               end in
      let l := len (Name m) in
      let n := if l >? 0 then n + (1 + l + sovCommon (uint64 l)) else n in
      let n := match TapDSConfig_XXX_unrecognized m with
               | Some u => n + len u
               | None => n
               end in
      n
  end.

Definition TapDSConfig_MarshalToSizedBuffer (m : CommonExtensionConfig_TapDSConfig)
  (dAtA : list byte) : outcome (list byte * Z) :=
  let i := len dAtA in
  '(dAtA, i) <- put_unrecognized (TapDSConfig_XXX_unrecognized m) dAtA i ;;
  '(dAtA, i) <- put_string x12 (Name m) dAtA i ;;
  '(dAtA, i) <-
    match ConfigSource m with
    | Some cs => put_message x0a (msg_MarshalToSizedBuffer cs) dAtA i
    | None => Ok (dAtA, i)
    end ;;
  Ok (dAtA, len dAtA - i).

Definition TapDSConfig_Marshal (m : CommonExtensionConfig_TapDSConfig)
  : outcome (list byte) :=
  let size := TapDSConfig_Size (Some m) in
  dAtA <- make size ;;
  '(dAtA, n) <- in_prefix dAtA size (TapDSConfig_MarshalToSizedBuffer m) ;;
  slice_to dAtA n.

Definition TapDSConfig_Unmarshal_field (l : Z) (m : CommonExtensionConfig_TapDSConfig)
  (c : cursor) : outcome (CommonExtensionConfig_TapDSConfig * cursor) :=
  let preIndex := c in
  '(fieldNum, wireType, c) <- read_tag "TapDSConfig" c ;;
  match fieldNum with
  | 1 =>
      if negb (wireType =? 2) then Err (ErrWrongWireType wireType "ConfigSource")
      else
        '(msglen, c) <- read_msglen c ;;
        '(s, c) <- payload l msglen c ;;
        let cs := match ConfigSource m with
                  | Some cs => cs
                  | None => msg_zero
                  end in
        cs <- msg_Unmarshal cs s ;;
        Ok ({| ConfigSource := Some cs;
               Name := Name m;
               TapDSConfig_XXX_unrecognized := TapDSConfig_XXX_unrecognized m |}, c)
  | 2 =>
      if negb (wireType =? 2) then Err (ErrWrongWireType wireType "Name")
      else
        '(intStringLen, c) <- read_stringLen c ;;
        '(s, c) <- payload l intStringLen c ;;
        Ok ({| ConfigSource := ConfigSource m;
               Name := s;
               TapDSConfig_XXX_unrecognized := TapDSConfig_XXX_unrecognized m |}, c)
  | _ =>
      '(chunk, c) <- skip_unknown l preIndex ;;
      Ok ({| ConfigSource := ConfigSource m;
             Name := Name m;
             TapDSConfig_XXX_unrecognized :=
               append (TapDSConfig_XXX_unrecognized m) chunk |}, c)
  end.

Definition TapDSConfig_Unmarshal (m : CommonExtensionConfig_TapDSConfig)
  (dAtA : list byte) : outcome CommonExtensionConfig_TapDSConfig :=
  unmarshal_loop TapDSConfig_Unmarshal_field (List.length dAtA) (len dAtA) m
    (Cursor 0 dAtA).

(** ** CommonExtensionConfig and its oneof *)

Record CommonExtensionConfig_AdminConfig : Type := {
  AdminConfig' : option AdminConfig
}.

Record CommonExtensionConfig_StaticConfig : Type := {
  StaticConfig : option v3_TapConfig
}.

Record CommonExtensionConfig_TapdsConfig : Type := {
  TapdsConfig : option CommonExtensionConfig_TapDSConfig
}.

(** A non-nil value of the interface [isCommonExtensionConfig_ConfigType]:
    a pointer, possibly nil, to one of the three wrapper structs. *)
Inductive isCommonExtensionConfig_ConfigType : Type :=
| ConfigType_AdminConfig (x : option CommonExtensionConfig_AdminConfig)
| ConfigType_StaticConfig (x : option CommonExtensionConfig_StaticConfig)
| ConfigType_TapdsConfig (x : option CommonExtensionConfig_TapdsConfig).

Record CommonExtensionConfig : Type := {
  ConfigType : option isCommonExtensionConfig_ConfigType;
  XXX_unrecognized : option (list byte)
}.

Definition CommonExtensionConfig_zero : CommonExtensionConfig :=
  {| ConfigType := None; XXX_unrecognized := None |}.

Definition GetConfigType (m : option CommonExtensionConfig)
  : option isCommonExtensionConfig_ConfigType :=
  match m with
  | Some m => ConfigType m
  | None => None
  end.

Definition GetAdminConfig (m : option CommonExtensionConfig)
  : outcome (option AdminConfig) :=
  match GetConfigType m with
  | Some (ConfigType_AdminConfig x) =>
      match x with
      | Some x => Ok (AdminConfig' x)
      | None => Panic NilDereference
      end
  | _ => Ok None
  end.

Definition GetStaticConfig (m : option CommonExtensionConfig)
  : outcome (option v3_TapConfig) :=
  match GetConfigType m with
  | Some (ConfigType_StaticConfig x) =>
      match x with
      | Some x => Ok (StaticConfig x)
      | None => Panic NilDereference
      end
  | _ => Ok None
  end.

Definition GetTapdsConfig (m : option CommonExtensionConfig)
  : outcome (option CommonExtensionConfig_TapDSConfig) :=
  match GetConfigType m with
  | Some (ConfigType_TapdsConfig x) =>
      match x with
      | Some x => Ok (TapdsConfig x)
      | None => Panic NilDereference
      end
  | _ => Ok None
  end.

Definition CommonExtensionConfig_AdminConfig_Size
  (m : option CommonExtensionConfig_AdminConfig) : Z :=
  match m with
  | None => 0
  | Some m =>
      match AdminConfig' m with
      | Some a =>
          let l := AdminConfig_Size (Some a) in
          0 + (1 + l + sovCommon (uint64 l))
      | None => 0
      end
  end.

Definition CommonExtensionConfig_StaticConfig_Size
  (m : option CommonExtensionConfig_StaticConfig) : Z :=
  match m with
  | None => 0
  | Some m =>
      match StaticConfig m with
      | Some a =>
          let l := msg_Size a in
          0 + (1 + l + sovCommon (uint64 l))
      | None => 0
      end
  end.

Definition CommonExtensionConfig_TapdsConfig_Size
  (m : option CommonExtensionConfig_TapdsConfig) : Z :=
  match m with
  | None => 0
  | Some m =>
      match TapdsConfig m with
      | Some a =>
          let l := TapDSConfig_Size (Some a) in
          0 + (1 + l + sovCommon (uint64 l))
      | None => 0
      end
  end.

Definition CommonExtensionConfig_AdminConfig_MarshalToSizedBuffer
  (m : option CommonExtensionConfig_AdminConfig) (dAtA : list byte)
  : outcome (list byte * Z) :=
  let i := len dAtA in
  match m with
  | None => Panic NilDereference
  | Some m =>
      '(dAtA, i) <-
        match AdminConfig' m with
        | Some a => put_message x0a (AdminConfig_MarshalToSizedBuffer a) dAtA i
        | None => Ok (dAtA, i)
        end ;;
      Ok (dAtA, len dAtA - i)
  end.

Definition CommonExtensionConfig_StaticConfig_MarshalToSizedBuffer
  (m : option CommonExtensionConfig_StaticConfig) (dAtA : list byte)
  : outcome (list byte * Z) :=
  let i := len dAtA in
  match m with
  | None => Panic NilDereference
  | Some m =>
      '(dAtA, i) <-
        match StaticConfig m with
        | Some a => put_message x12 (msg_MarshalToSizedBuffer a) dAtA i
        | None => Ok (dAtA, i)
        end ;;
      Ok (dAtA, len dAtA - i)
  end.

Definition CommonExtensionConfig_TapdsConfig_MarshalToSizedBuffer
  (m : option CommonExtensionConfig_TapdsConfig) (dAtA : list byte)
  : outcome (list byte * Z) :=
  let i := len dAtA in
  match m with
  | None => Panic NilDereference
  | Some m =>
      '(dAtA, i) <-
        match TapdsConfig m with
        | Some a => put_message x1a (TapDSConfig_MarshalToSizedBuffer a) dAtA i
        | None => Ok (dAtA, i)
        end ;;
      Ok (dAtA, len dAtA - i)
  end.

(** The two methods of the interface, by dynamic type. *)
Definition ConfigType_Size (x : isCommonExtensionConfig_ConfigType) : Z :=
  match x with
  | ConfigType_AdminConfig w => CommonExtensionConfig_AdminConfig_Size w
  | ConfigType_StaticConfig w => CommonExtensionConfig_StaticConfig_Size w
  | ConfigType_TapdsConfig w => CommonExtensionConfig_TapdsConfig_Size w
  end.

(** [MarshalTo]: [size := m.Size(); return m.MarshalToSizedBuffer(dAtA[:size])] *)
Definition ConfigType_MarshalTo (x : isCommonExtensionConfig_ConfigType)
  (dAtA : list byte) : outcome (list byte * Z) :=
  let size := ConfigType_Size x in
  in_prefix dAtA size
    match x with
    | ConfigType_AdminConfig w =>
        CommonExtensionConfig_AdminConfig_MarshalToSizedBuffer w
    | ConfigType_StaticConfig w =>
        CommonExtensionConfig_StaticConfig_MarshalToSizedBuffer w
    | ConfigType_TapdsConfig w =>
        CommonExtensionConfig_TapdsConfig_MarshalToSizedBuffer w
    end.

Definition CommonExtensionConfig_Size (m : option CommonExtensionConfig) : Z :=
  match m with
  | None => 0
  | Some m =>
      let n := 0 in
      let n := match ConfigType m with
               | Some x => n + ConfigType_Size x
               | None => n
               end in
      let n := match XXX_unrecognized m with
               | Some u => n + len u
               | None => n
               end in
      n
  end.

Definition CommonExtensionConfig_MarshalToSizedBuffer (m : CommonExtensionConfig)
  (dAtA : list byte) : outcome (list byte * Z) :=
  let i := len dAtA in
  '(dAtA, i) <- put_unrecognized (XXX_unrecognized m) dAtA i ;;
  '(dAtA, i) <-
    match ConfigType m with
    | Some x =>
        let size := ConfigType_Size x in
        let i := i - size in
        '(dAtA, _) <- in_suffix dAtA i (ConfigType_MarshalTo x) ;;
        Ok (dAtA, i)
    | None => Ok (dAtA, i)
    end ;;
  Ok (dAtA, len dAtA - i).

Definition CommonExtensionConfig_Marshal (m : CommonExtensionConfig)
  : outcome (list byte) :=
  let size := CommonExtensionConfig_Size (Some m) in
  dAtA <- make size ;;
  '(dAtA, n) <- in_prefix dAtA size (CommonExtensionConfig_MarshalToSizedBuffer m) ;;
  slice_to dAtA n.

Definition CommonExtensionConfig_Unmarshal_field (l : Z) (m : CommonExtensionConfig)
  (c : cursor) : outcome (CommonExtensionConfig * cursor) :=
  let preIndex := c in
  '(fieldNum, wireType, c) <- read_tag "CommonExtensionConfig" c ;;
  match fieldNum with
  | 1 =>
      if negb (wireType =? 2) then Err (ErrWrongWireType wireType "AdminConfig")
      else
        '(msglen, c) <- read_msglen c ;;
        '(s, c) <- payload l msglen c ;;
        v <- AdminConfig_Unmarshal AdminConfig_zero s ;;
        Ok ({| ConfigType :=
                 Some (ConfigType_AdminConfig (Some {| AdminConfig' := Some v |}));
               XXX_unrecognized := XXX_unrecognized m |}, c)
  | 2 =>
      if negb (wireType =? 2) then Err (ErrWrongWireType wireType "StaticConfig")
      else
        '(msglen, c) <- read_msglen c ;;
        '(s, c) <- payload l msglen c ;;
        v <- msg_Unmarshal msg_zero s ;;
        Ok ({| ConfigType :=
                 Some (ConfigType_StaticConfig (Some {| StaticConfig := Some v |}));
               XXX_unrecognized := XXX_unrecognized m |}, c)
  | 3 =>
      if negb (wireType =? 2) then Err (ErrWrongWireType wireType "TapdsConfig")
      else
        '(msglen, c) <- read_msglen c ;;
        '(s, c) <- payload l msglen c ;;
        v <- TapDSConfig_Unmarshal TapDSConfig_zero s ;;
        Ok ({| ConfigType :=
                 Some (ConfigType_TapdsConfig (Some {| TapdsConfig := Some v |}));
               XXX_unrecognized := XXX_unrecognized m |}, c)
  | _ =>
      '(chunk, c) <- skip_unknown l preIndex ;;
      Ok ({| ConfigType := ConfigType m;
             XXX_unrecognized := append (XXX_unrecognized m) chunk |}, c)
  end.

Definition CommonExtensionConfig_Unmarshal (m : CommonExtensionConfig)
  (dAtA : list byte) : outcome CommonExtensionConfig :=
  unmarshal_loop CommonExtensionConfig_Unmarshal_field (List.length dAtA) (len dAtA)
    m (Cursor 0 dAtA).

End Codec.

(** ** The other entry points of the file

    [sozCommon], the [MarshalTo] methods of the three messages and the
    branch of [XXX_Marshal] that does not go through the [proto] package. *)

(** [sovCommon(uint64((x << 1) ^ uint64((int64(x) >> 63))))], for a [uint64]
    [x]: the shift to the left wraps, the one to the right is arithmetic. *)
Definition sozCommon (x : Z) : Z :=
  sovCommon (uint64 (Z.lxor (uint64 (Z.shiftl x 1)) (uint64 (Z.shiftr (int x) 63)))).

(** A slice handed in by a caller: the bytes of its array from its first
    element up to its capacity, [b[:cap(b)]], and its length.  [MarshalTo]
    and [XXX_Marshal] reslice their argument, which the bounds of a slice
    expression allow up to the capacity. *)
Record slice : Type := Slice { upto_cap : list byte; slice_len : Z }.

Definition cap (b : slice) : Z := len (upto_cap b).

(** [size := m.Size(); return m.MarshalToSizedBuffer(dAtA[:size])]; the
    array is returned as the call leaves it. *)
Definition MarshalTo_of (Size : Z) (MarshalToSizedBuffer : list byte -> outcome (list byte * Z))
  (dAtA : slice) : outcome (list byte * Z) :=
  let size := Size in
  in_prefix (upto_cap dAtA) size MarshalToSizedBuffer.

(** [if deterministic { return xxx_messageInfo_X.Marshal(b, m, deterministic) }
     else { b = b[:cap(b)]; n, err := m.MarshalToSizedBuffer(b);
            if err != nil { return nil, err }; return b[:n], nil }].
    The result is the array as the call leaves it and the slice returned. *)
Definition XXX_Marshal_of
  (InternalMessageInfo_Marshal : slice -> bool -> outcome (list byte * list byte))
  (MarshalToSizedBuffer : list byte -> outcome (list byte * Z))
  (b : slice) (deterministic : bool) : outcome (list byte * list byte) :=
  if deterministic then InternalMessageInfo_Marshal b deterministic
  else
    let b := upto_cap b in
    '(b, n) <- MarshalToSizedBuffer b ;;
    r <- slice_to b n ;;
    Ok (b, r).

Definition AdminConfig_MarshalTo (m : AdminConfig) (dAtA : slice)
  : outcome (list byte * Z) :=
  MarshalTo_of (AdminConfig_Size (Some m)) (AdminConfig_MarshalToSizedBuffer m) dAtA.

Definition AdminConfig_XXX_Marshal
  (InternalMessageInfo_Marshal : AdminConfig -> slice -> bool -> outcome (list byte * list byte))
  (m : AdminConfig) (b : slice) (deterministic : bool) : outcome (list byte * list byte) :=
  XXX_Marshal_of (InternalMessageInfo_Marshal m) (AdminConfig_MarshalToSizedBuffer m)
    b deterministic.

Section EntryPoints.

Context {E : Externals}.

Definition TapDSConfig_MarshalTo (m : CommonExtensionConfig_TapDSConfig) (dAtA : slice)
  : outcome (list byte * Z) :=
  MarshalTo_of (TapDSConfig_Size (Some m)) (TapDSConfig_MarshalToSizedBuffer m) dAtA.

Definition CommonExtensionConfig_MarshalTo (m : CommonExtensionConfig) (dAtA : slice)
  : outcome (list byte * Z) :=
  MarshalTo_of (CommonExtensionConfig_Size (Some m))
    (CommonExtensionConfig_MarshalToSizedBuffer m) dAtA.

Definition TapDSConfig_XXX_Marshal
  (InternalMessageInfo_Marshal :
     CommonExtensionConfig_TapDSConfig -> slice -> bool -> outcome (list byte * list byte))
  (m : CommonExtensionConfig_TapDSConfig) (b : slice) (deterministic : bool)
  : outcome (list byte * list byte) :=
  XXX_Marshal_of (InternalMessageInfo_Marshal m) (TapDSConfig_MarshalToSizedBuffer m)
    b deterministic.

Definition CommonExtensionConfig_XXX_Marshal
  (InternalMessageInfo_Marshal :
     CommonExtensionConfig -> slice -> bool -> outcome (list byte * list byte))
  (m : CommonExtensionConfig) (b : slice) (deterministic : bool)
  : outcome (list byte * list byte) :=
  XXX_Marshal_of (InternalMessageInfo_Marshal m)
    (CommonExtensionConfig_MarshalToSizedBuffer m) b deterministic.

End EntryPoints.

(** ** The wire image of a message

    The bytes a message is expected to marshal to, written as a list: the
    known fields in field order, then the unrecognized bytes. *)

Fixpoint uvarint_groups (n : nat) (v : Z) : list byte :=
  match n with
  | O => []
  | S n' =>
      if 128 <=? v then uint8 (Z.lor (Z.land v 127) 128) :: uvarint_groups n' (Z.shiftr v 7)
      else [uint8 v]
  end.

Definition uvarint (v : Z) : list byte := uvarint_groups 10 v.

Definition bytes_of (u : option (list byte)) : list byte :=
  match u with
  | Some u => u
  | None => []
  end.

Definition string_field (tag : byte) (s : list byte) : list byte :=
  if len s >? 0 then tag :: uvarint (uint64 (len s)) ++ s else [].

Definition message_field (tag : byte) (w : list byte) : list byte :=
  tag :: uvarint (uint64 (len w)) ++ w.

Definition AdminConfig_wire (m : AdminConfig) : list byte :=
  string_field x0a (ConfigId m) ++ bytes_of (AdminConfig_XXX_unrecognized m).

(** A routine that writes [bs] in front of position [i] of the buffer and
    moves [i] back by their number. *)
Definition emits (f : list byte -> Z -> outcome (list byte * Z)) (bs : list byte) : Prop :=
  forall dAtA i, len bs <= i <= len dAtA ->
    f dAtA i = Ok (take (i - len bs) dAtA ++ bs ++ drop i dAtA, i - len bs).

(** A [MarshalToSizedBuffer] that fills the end of its buffer with [bs]. *)
Definition marshals (g : list byte -> outcome (list byte * Z)) (bs : list byte) : Prop :=
  forall dAtA, len bs <= len dAtA ->
    g dAtA = Ok (take (len dAtA - len bs) dAtA ++ bs, len bs).

(** What the marshal routines of this file rely on in an imported message
    type: its [Size] is the number of bytes its [MarshalToSizedBuffer]
    writes, at the end of the buffer it is given. *)
Definition marshal_contract {T : Type} {ops : Message T} (wire : T -> list byte) : Prop :=
  forall t, msg_Size t = len (wire t) /\ marshals (msg_MarshalToSizedBuffer t) (wire t).

(** What a round trip relies on: its [Unmarshal] on a fresh value reads back
    what was marshalled. *)
Definition unmarshal_contract {T : Type} {ops : Message T} (wire : T -> list byte) : Prop :=
  forall t, msg_Unmarshal msg_zero (wire t) = Ok t.

Section Wire.

Context {E : Externals}.
Variable TapConfig_wire : v3_TapConfig -> list byte.
Variable ConfigSource_wire : v4alpha_ConfigSource -> list byte.

Definition TapDSConfig_wire (m : CommonExtensionConfig_TapDSConfig) : list byte :=
  match ConfigSource m with
  | Some cs => message_field x0a (ConfigSource_wire cs)
  | None => []
  end ++ string_field x12 (Name m) ++ bytes_of (TapDSConfig_XXX_unrecognized m).

Definition ConfigType_wire (x : isCommonExtensionConfig_ConfigType) : list byte :=
  match x with
  | ConfigType_AdminConfig (Some {| AdminConfig' := Some a |}) =>
      message_field x0a (AdminConfig_wire a)
  | ConfigType_StaticConfig (Some {| StaticConfig := Some a |}) =>
      message_field x12 (TapConfig_wire a)
  | ConfigType_TapdsConfig (Some {| TapdsConfig := Some a |}) =>
      message_field x1a (TapDSConfig_wire a)
  | _ => []
  end.

Definition CommonExtensionConfig_wire (m : CommonExtensionConfig) : list byte :=
  match ConfigType m with
  | Some x => ConfigType_wire x
  | None => []
  end ++ bytes_of (XXX_unrecognized m).

(** The oneof is unset, or holds a wrapper pointer that is not nil. *)
Definition wrapper_present (m : CommonExtensionConfig) : Prop :=
  match ConfigType m with
  | Some (ConfigType_AdminConfig None)
  | Some (ConfigType_StaticConfig None)
  | Some (ConfigType_TapdsConfig None) => False
  | _ => True
  end.

End Wire.

(** ** The common shape of the three [Unmarshal] loops

    The three loop bodies differ in their [case] arms only.  [generic_field]
    is the body with the arms as a table; each routine's body is shown
    equal to an instance of it, and the facts about a loop body are proved
    once. *)

Inductive len_kind : Type := MsgLen | StringLen.

Definition read_length (k : len_kind) (c : cursor) : outcome (Z * cursor) :=
  match k with
  | MsgLen => read_msglen c
  | StringLen => read_stringLen c
  end.

Record field_arm (M : Type) : Type := {
  arm_name : string;
  arm_len : len_kind;
  arm_store : M -> list byte -> outcome M
}.

Arguments arm_name {M} _.
Arguments arm_len {M} _.
Arguments arm_store {M} _ _ _.

Definition generic_field {M : Type} (msg : string)
  (arms : Z -> option (field_arm M)) (add_unrecognized : M -> list byte -> M)
  (l : Z) (m : M) (c : cursor) : outcome (M * cursor) :=
  let preIndex := c in
  '(fieldNum, wireType, c) <- read_tag msg c ;;
  match arms fieldNum with
  | Some arm =>
      if negb (wireType =? 2) then Err (ErrWrongWireType wireType (arm_name arm))
      else
        '(n, c) <- read_length (arm_len arm) c ;;
        '(s, c) <- payload l n c ;;
        m <- arm_store arm m s ;;
        Ok (m, c)
  | None =>
      '(chunk, c) <- skip_unknown l preIndex ;;
      Ok (add_unrecognized m chunk, c)
  end.

Definition AdminConfig_arms (fieldNum : Z) : option (field_arm AdminConfig) :=
  match fieldNum with
  | 1 => Some {| arm_name := "ConfigId"; arm_len := StringLen;
                 arm_store := fun m s =>
                   Ok {| ConfigId := s;
                         AdminConfig_XXX_unrecognized := AdminConfig_XXX_unrecognized m |} |}
  | _ => None
  end.

Definition AdminConfig_add_unrecognized (m : AdminConfig) (chunk : list byte) : AdminConfig :=
  {| ConfigId := ConfigId m;
     AdminConfig_XXX_unrecognized := append (AdminConfig_XXX_unrecognized m) chunk |}.

Section Arms.

Context {E : Externals}.

Definition TapDSConfig_arms (fieldNum : Z)
  : option (field_arm CommonExtensionConfig_TapDSConfig) :=
  match fieldNum with
  | 1 => Some {| arm_name := "ConfigSource"; arm_len := MsgLen;
                 arm_store := fun m s =>
                   let cs := match ConfigSource m with
                             | Some cs => cs
                             | None => msg_zero
                             end in
                   cs <- msg_Unmarshal cs s ;;
                   Ok {| ConfigSource := Some cs;
                         Name := Name m;
                         TapDSConfig_XXX_unrecognized := TapDSConfig_XXX_unrecognized m |} |}
  | 2 => Some {| arm_name := "Name"; arm_len := StringLen;
                 arm_store := fun m s =>
                   Ok {| ConfigSource := ConfigSource m;
                         Name := s;
                         TapDSConfig_XXX_unrecognized := TapDSConfig_XXX_unrecognized m |} |}
  | _ => None
  end.

Definition TapDSConfig_add_unrecognized (m : CommonExtensionConfig_TapDSConfig)
  (chunk : list byte) : CommonExtensionConfig_TapDSConfig :=
  {| ConfigSource := ConfigSource m;
     Name := Name m;
     TapDSConfig_XXX_unrecognized := append (TapDSConfig_XXX_unrecognized m) chunk |}.

Definition set_ConfigType (m : CommonExtensionConfig)
  (x : isCommonExtensionConfig_ConfigType) : CommonExtensionConfig :=
  {| ConfigType := Some x; XXX_unrecognized := XXX_unrecognized m |}.

Definition CommonExtensionConfig_arms (fieldNum : Z)
  : option (field_arm CommonExtensionConfig) :=
  match fieldNum with
  | 1 => Some {| arm_name := "AdminConfig"; arm_len := MsgLen;
                 arm_store := fun m s =>
                   v <- AdminConfig_Unmarshal AdminConfig_zero s ;;
                   Ok (set_ConfigType m
                         (ConfigType_AdminConfig (Some {| AdminConfig' := Some v |}))) |}
  | 2 => Some {| arm_name := "StaticConfig"; arm_len := MsgLen;
                 arm_store := fun m s =>
                   v <- msg_Unmarshal msg_zero s ;;
                   Ok (set_ConfigType m
                         (ConfigType_StaticConfig (Some {| StaticConfig := Some v |}))) |}
  | 3 => Some {| arm_name := "TapdsConfig"; arm_len := MsgLen;
                 arm_store := fun m s =>
                   v <- TapDSConfig_Unmarshal TapDSConfig_zero s ;;
                   Ok (set_ConfigType m
                         (ConfigType_TapdsConfig (Some {| TapdsConfig := Some v |}))) |}
  | _ => None
  end.

Definition CommonExtensionConfig_add_unrecognized (m : CommonExtensionConfig)
  (chunk : list byte) : CommonExtensionConfig :=
  {| ConfigType := ConfigType m;
     XXX_unrecognized := append (XXX_unrecognized m) chunk |}.

End Arms.

(** ** Fields the schema does not know

    [is_unknown_field known f]: [f] is one whole field as the decoder sees
    it: its tag has a field number that is legal (positive as an [int32])
    and not among the [case] labels, it is no end-group marker, and
    [skipCommon] delimits exactly [f]. *)

Definition is_unknown_field (known : Z -> bool) (f : list byte) : bool :=
  match varint or_uint64 (Cursor 0 f) with
  | Ok (wire, _) =>
      let fieldNum := int32 (Z.shiftr wire 3) in
      let wireType := int (Z.land wire 7) in
      negb (wireType =? 4) && (0 <? fieldNum) && negb (known fieldNum)
      && match skipCommon f with
         | Ok n => n =? len f
         | _ => false
         end
  | _ => false
  end.

Inductive unknown_fields (known : Z -> bool) : list byte -> Prop :=
| unknown_fields_nil : unknown_fields known []
| unknown_fields_cons f d :
    is_unknown_field known f = true -> unknown_fields known d ->
    unknown_fields known (f ++ d).

Definition has_arm {M : Type} (arms : Z -> option (field_arm M)) (fieldNum : Z) : bool :=
  match arms fieldNum with
  | Some _ => true
  | None => false
  end.

(** ** The wire format

    The encoding of protocol buffers, written down apart from the routines
    that read it.  A varint is at most nine bytes with the high bit set and
    one byte without; its value has seven bits per byte, the low group
    first.  A field is a tag, a varint whose low three bits are the wire
    type and whose other bits are the field number, and behind it, by wire
    type: a varint (0), eight bytes (1), a length and as many bytes (2),
    fields up to an end-group tag (3), four bytes (5).

    The grammar is the widest one: a varint need not be the shortest for
    its value, a reader keeps the low 64 bits of it, a field inside a group
    may have any number and the number of an end-group tag is not compared
    with the one of its group.  Every standard encoding is in it. *)

Fixpoint is_varint_upto (n : nat) (v : list byte) : bool :=
  match n, v with
  | S n', b :: v' =>
      if byte_val b <? 128 then match v' with [] => true | _ :: _ => false end
      else is_varint_upto n' v'
  | _, _ => false
  end.

Definition is_varint (v : list byte) : Prop := is_varint_upto 10 v = true.

(** The value of the bytes of a varint, not truncated. *)
Fixpoint varint_value (v : list byte) : Z :=
  match v with
  | [] => 0
  | b :: v' => Z.land (byte_val b) 127 + 128 * varint_value v'
  end.

(** The tag bytes [t] of a field, and the 64 bits [wire] a reader keeps of
    their value: the wire type is [Z.land wire 7], the field number
    [Z.shiftr wire 3]. *)
Definition is_tag (t : list byte) (wire : Z) : Prop :=
  is_varint t /\ wire = uint64 (varint_value t).

(** [wire_field wire f]: the bytes [f] are one field with tag value [wire];
    [wire_fields u]: the bytes [u] are fields one after the other.  The
    length prefix of a length-delimited field is the length of its payload
    (a Go length is below 2^63). *)
Inductive wire_field : Z -> list byte -> Prop :=
| wire_field_varint wire t v :
    is_tag t wire -> Z.land wire 7 = 0 -> is_varint v -> wire_field wire (t ++ v)
| wire_field_fixed64 wire t v :
    is_tag t wire -> Z.land wire 7 = 1 -> len v = 8 -> wire_field wire (t ++ v)
| wire_field_bytes wire t n s :
    is_tag t wire -> Z.land wire 7 = 2 ->
    is_varint n -> uint64 (varint_value n) = len s ->
    wire_field wire (t ++ n ++ s)
| wire_field_group wire t u we e :
    is_tag t wire -> Z.land wire 7 = 3 ->
    wire_fields u -> is_tag e we -> Z.land we 7 = 4 ->
    wire_field wire (t ++ u ++ e)
| wire_field_fixed32 wire t v :
    is_tag t wire -> Z.land wire 7 = 5 -> len v = 4 -> wire_field wire (t ++ v)
with wire_fields : list byte -> Prop :=
| wire_fields_nil : wire_fields []
| wire_fields_cons wire f u :
    wire_field wire f -> wire_fields u -> wire_fields (f ++ u).

Scheme wire_field_mutual := Minimality for wire_field Sort Prop
  with wire_fields_mutual := Minimality for wire_fields Sort Prop.
Combined Scheme wire_format_mutual from wire_field_mutual, wire_fields_mutual.

(** The bytes that close [d] open groups: for each, fields and an end-group
    tag. *)
Fixpoint closes_groups (d : nat) (x : list byte) : Prop :=
  match d with
  | O => x = []
  | S d' =>
      exists u we e x',
        x = u ++ e ++ x' /\ wire_fields u /\ is_tag e we /\ Z.land we 7 = 4
        /\ closes_groups d' x'
  end.

(** The value behind the tag of a field that is no group. *)
Definition is_value (wireType : Z) (v : list byte) : Prop :=
  match wireType with
  | 0 => is_varint v
  | 1 => len v = 8
  | 2 => exists n s, v = n ++ s /\ is_varint n /\ uint64 (varint_value n) = len s
  | 5 => len v = 4
  | _ => False
  end.

(** A field in the wire format whose number, as the [int32] a decoder takes
    it for, is positive and not a [case] label. *)
Definition unknown_wire_field (known : Z -> bool) (f : list byte) : Prop :=
  exists wire,
    wire_field wire f
    /\ 0 < int32 (Z.shiftr wire 3) /\ known (int32 (Z.shiftr wire 3)) = false.

(** An input as a sequence of fields, and the fields among them whose
    number is not a [case] label, in their order. *)
Inductive input_fields (known : Z -> bool) : list byte -> list byte -> Prop :=
| input_fields_nil : input_fields known [] []
| input_fields_known wire f d u :
    wire_field wire f -> known (int32 (Z.shiftr wire 3)) = true ->
    input_fields known d u -> input_fields known (f ++ d) u
| input_fields_unknown wire f d u :
    wire_field wire f -> known (int32 (Z.shiftr wire 3)) = false ->
    input_fields known d u -> input_fields known (f ++ d) (f ++ u).

(** What a decoder with the [case] labels [arms] makes of an input, field
    by field: a field of the schema, length-delimited, goes through its
    arm; a field the schema does not know is added to the unrecognized
    bytes. *)
Inductive decodes {M : Type} (arms : Z -> option (field_arm M))
  (add : M -> list byte -> M) : M -> list byte -> M -> Prop :=
| decodes_nil m : decodes arms add m [] m
| decodes_known m wire t n s arm m1 d m' :
    is_tag t wire -> Z.land wire 7 = 2 -> 0 < int32 (Z.shiftr wire 3) ->
    arms (int32 (Z.shiftr wire 3)) = Some arm ->
    is_varint n -> uint64 (varint_value n) = len s ->
    arm_store arm m s = Ok m1 ->
    decodes arms add m1 d m' ->
    decodes arms add m (t ++ n ++ s ++ d) m'
| decodes_unknown m f d m' :
    unknown_wire_field (has_arm arms) f ->
    decodes arms add (add m f) d m' ->
    decodes arms add m (f ++ d) m'.

(** Fields of the wire format that the schema does not know, one after the
    other. *)
Inductive unknown_wire_fields (known : Z -> bool) : list byte -> Prop :=
| unknown_wire_fields_nil : unknown_wire_fields known []
| unknown_wire_fields_cons f d :
    unknown_wire_field known f -> unknown_wire_fields known d ->
    unknown_wire_fields known (f ++ d).

(** ** Statements about a decoder

    The properties below are stated once, for a message type [M] with its
    [Unmarshal], its loop body [field], the name [msg] it reports, the table
    [arms] of its [case] labels and the update [add] of its [default:] arm,
    and then read at each of the three message types. *)

(** Fields the schema does not know are kept: after any input [d1] that
    decodes, a run [u] of such fields is accepted and its bytes are
    appended, as they are and in their order, to the unrecognized bytes. *)
Definition keeps_unknown_fields {M : Type} (arms : Z -> option (field_arm M))
  (Unmarshal : M -> list byte -> outcome M) (add : M -> list byte -> M) : Prop :=
  forall m d1 m1 u,
    Unmarshal m d1 = Ok m1 -> unknown_fields (has_arm arms) u ->
    len (d1 ++ u) < 2 ^ 63 ->
    Unmarshal m (d1 ++ u) = Ok (add m1 u).

(** [f] is one whole field for the decoder in state [m1] at the end of
    [d1]: one iteration reads it to its last byte. *)
Definition whole_field {M : Type} (field : Z -> M -> cursor -> outcome (M * cursor))
  (d1 : list byte) (m1 : M) (f : list byte) (m2 : M) : Prop :=
  field (len (d1 ++ f)) m1 (Cursor (len d1) f) = Ok (m2, Cursor (len (d1 ++ f)) []).

(** An input that stops inside a field is reported as truncated; an input
    that stops where a field ends decodes. *)
Definition cut_inside_a_field_fails {M : Type}
  (Unmarshal : M -> list byte -> outcome M)
  (field : Z -> M -> cursor -> outcome (M * cursor)) : Prop :=
  forall m d1 m1 f m2,
    Unmarshal m d1 = Ok m1 -> whole_field field d1 m1 f m2 -> f <> [] ->
    len (d1 ++ f) < 2 ^ 63 ->
    Unmarshal m (d1 ++ f) = Ok m2
    /\ forall p q, f = p ++ q -> p <> [] -> q <> [] ->
         Unmarshal m (d1 ++ p) = Err ErrUnexpectedEOF.

(** A prefix of an input that decodes is reported as truncated or decodes:
    no other error, no panic, and the loop ends. *)
Definition prefix_fails_or_decodes {M : Type}
  (Unmarshal : M -> list byte -> outcome M) : Prop :=
  forall m d m1 p q,
    Unmarshal m d = Ok m1 -> len d < 2 ^ 63 -> d = p ++ q ->
    Unmarshal m p = Err ErrUnexpectedEOF \/ exists m', Unmarshal m p = Ok m'.

(** The tag of the next field, behind an input [d1] that decodes, has a
    field number of the schema and a wire type other than 2. *)
Definition wire_type_is_checked {M : Type} (msg : string)
  (arms : Z -> option (field_arm M)) (Unmarshal : M -> list byte -> outcome M) : Prop :=
  forall m d1 m1 bs wire c arm,
    Unmarshal m d1 = Ok m1 ->
    varint or_uint64 (Cursor (len d1) bs) = Ok (wire, c) ->
    arms (int32 (Z.shiftr wire 3)) = Some arm ->
    len (d1 ++ bs) < 2 ^ 63 ->
    let wireType := int (Z.land wire 7) in
    (wireType <> 2 -> wireType <> 4 ->
       Unmarshal m (d1 ++ bs) = Err (ErrWrongWireType wireType (arm_name arm)))
    /\ (wireType = 4 -> Unmarshal m (d1 ++ bs) = Err (ErrEndGroupForNonGroup msg)).

(** The error of the iteration the loop reaches behind an input [d1] that
    decodes is the error of [Unmarshal]. *)
Definition reports_the_error_reached {M : Type}
  (Unmarshal : M -> list byte -> outcome M)
  (field : Z -> M -> cursor -> outcome (M * cursor)) : Prop :=
  forall m d1 m1 bs e,
    Unmarshal m d1 = Ok m1 -> bs <> [] -> len (d1 ++ bs) < 2 ^ 63 ->
    field (len (d1 ++ bs)) m1 (Cursor (len d1) bs) = Err e ->
    Unmarshal m (d1 ++ bs) = Err e.

Definition continuation_bytes (pre : list byte) : Prop :=
  Forall (fun b => 128 <= byte_val b) pre.

(** Varints and length prefixes in one iteration of a loop. *)
Definition checks_varints_and_lengths {M : Type} (msg : string)
  (arms : Z -> option (field_arm M))
  (field : Z -> M -> cursor -> outcome (M * cursor)) : Prop :=
  (* a tag of ten continuation bytes *)
  (forall l m j pre r,
     continuation_bytes pre -> len pre = 10 ->
     field l m (Cursor j (pre ++ r)) = Err ErrIntOverflowCommon)
  (* a length prefix of ten continuation bytes *)
  /\ (forall l m c fn arm j pre r,
        read_tag msg c = Ok (fn, 2, Cursor j (pre ++ r)) -> arms fn = Some arm ->
        continuation_bytes pre -> len pre = 10 ->
        field l m c = Err ErrIntOverflowCommon)
  (* the length prefix [n] of a field of the schema, read up to [c2] *)
  /\ (forall l m c fn arm c1 n c2,
        read_tag msg c = Ok (fn, 2, c1) -> arms fn = Some arm ->
        read_length (arm_len arm) c1 = Ok (n, c2) -> 0 <= iNdEx c2 < 2 ^ 63 ->
        (n < 0 -> field l m c = Err ErrInvalidLengthCommon)
        /\ (0 <= n -> 2 ^ 63 <= iNdEx c2 + n ->
              field l m c = Err ErrInvalidLengthCommon)
        /\ (0 <= n -> l < iNdEx c2 + n < 2 ^ 63 ->
              field l m c = Err ErrUnexpectedEOF))
  (* a field the schema does not know that [skipCommon] ends past the input *)
  /\ (forall l m j bs fn wt c1 skippy,
        read_tag msg (Cursor j bs) = Ok (fn, wt, c1) -> arms fn = None ->
        skipCommon bs = Ok skippy -> 0 <= j -> 0 <= skippy ->
        l < j + skippy < 2 ^ 63 ->
        field l m (Cursor j bs) = Err ErrUnexpectedEOF).

(** An error of [skipCommon] in the [default:] arm is the error of the
    iteration. *)
Definition returns_the_error_of_skipCommon {M : Type} (msg : string)
  (arms : Z -> option (field_arm M))
  (field : Z -> M -> cursor -> outcome (M * cursor)) : Prop :=
  forall l m j bs fn wt c1 e,
    read_tag msg (Cursor j bs) = Ok (fn, wt, c1) -> arms fn = None ->
    skipCommon bs = Err e ->
    field l m (Cursor j bs) = Err e.

(** Varints and length prefixes in [skipCommon], on the first field of its
    input. *)
Definition skipCommon_checks : Prop :=
  (* a tag of ten continuation bytes *)
  (forall pre r,
     continuation_bytes pre -> len pre = 10 ->
     skipCommon (pre ++ r) = Err ErrIntOverflowCommon)
  (* a varint value or a length prefix of ten continuation bytes *)
  /\ (forall bs wire j pre r,
        varint or_uint64 (Cursor 0 bs) = Ok (wire, Cursor j (pre ++ r)) ->
        int (Z.land wire 7) = 0 \/ int (Z.land wire 7) = 2 ->
        continuation_bytes pre -> len pre = 10 ->
        skipCommon bs = Err ErrIntOverflowCommon)
  (* the length prefix [n] of a length-delimited field, read up to [c2]:
     no test against the end of the input *)
  /\ (forall bs wire c1 n c2,
        len bs < 2 ^ 63 ->
        varint or_uint64 (Cursor 0 bs) = Ok (wire, c1) -> int (Z.land wire 7) = 2 ->
        varint or_int c1 = Ok (n, c2) ->
        (n < 0 -> skipCommon bs = Err ErrInvalidLengthCommon)
        /\ (0 <= n -> 2 ^ 63 <= iNdEx c2 + n ->
              skipCommon bs = Err ErrInvalidLengthCommon)
        /\ (0 <= n -> iNdEx c2 + n < 2 ^ 63 ->
              skipCommon bs = Ok (iNdEx c2 + n))).

(** A tag whose field number, as an [int32], is not positive. *)
Definition illegal_tag_is_rejected {M : Type} (msg : string)
  (Unmarshal : M -> list byte -> outcome M) : Prop :=
  forall m d1 m1 bs wire c,
    Unmarshal m d1 = Ok m1 ->
    varint or_uint64 (Cursor (len d1) bs) = Ok (wire, c) ->
    int (Z.land wire 7) <> 4 -> int32 (Z.shiftr wire 3) <= 0 ->
    len (d1 ++ bs) < 2 ^ 63 ->
    Unmarshal m (d1 ++ bs)
    = Err (ErrIllegalTag msg (int32 (Z.shiftr wire 3)) wire).

(** Decoding two inputs one after the other into the same message, and
    decoding them as one input. *)
Definition decodes_in_sequence {M : Type}
  (Unmarshal : M -> list byte -> outcome M) : Prop :=
  forall m d1 m1 d2 m2,
    Unmarshal m d1 = Ok m1 -> len (d1 ++ d2) < 2 ^ 63 ->
    (Unmarshal m (d1 ++ d2) = Ok m2 <-> Unmarshal m1 d2 = Ok m2).

(** [ErrUnexpectedEndOfGroupCommon] is never what comes back. *)
Definition never_unexpected_end_of_group {M : Type}
  (Unmarshal : M -> list byte -> outcome M) : Prop :=
  forall m d, Unmarshal m d <> Err ErrUnexpectedEndOfGroupCommon.

(** Fields that [skipCommon] steps over whole, one after the other. *)
Inductive skipped_fields : list byte -> Prop :=
| skipped_fields_nil : skipped_fields []
| skipped_fields_cons f d :
    skipCommon f = Ok (len f) -> skipped_fields d -> skipped_fields (f ++ d).

(** Fields the schema does not know are kept wherever they stand: behind
    any input [d1] that decodes, a run [u] of them is read to its last byte
    and added as it is to the unrecognized bytes, and decoding goes on
    behind it. *)
Definition keeps_unknown_fields_anywhere {M : Type} (arms : Z -> option (field_arm M))
  (Unmarshal : M -> list byte -> outcome M) (add : M -> list byte -> M) : Prop :=
  forall m d1 m1 u,
    Unmarshal m d1 = Ok m1 -> unknown_wire_fields (has_arm arms) u ->
    len (d1 ++ u) < 2 ^ 63 ->
    Unmarshal m (d1 ++ u) = Ok (add m1 u)
    /\ forall d2 m2,
         len (d1 ++ u ++ d2) < 2 ^ 63 ->
         (Unmarshal m (d1 ++ u ++ d2) = Ok m2 <-> Unmarshal (add m1 u) d2 = Ok m2).

(** An input that decodes is a sequence of fields, and after decoding the
    unrecognized bytes are those of the receiver and behind them the fields
    of the input that the schema does not know, as they are and in their
    order. *)
Definition stores_the_unknown_fields {M : Type} (arms : Z -> option (field_arm M))
  (Unmarshal : M -> list byte -> outcome M) (unrecognized : M -> option (list byte))
  : Prop :=
  forall m d m',
    len d < 2 ^ 63 -> Unmarshal m d = Ok m' ->
    (exists u, input_fields (has_arm arms) d u)
    /\ (forall u, input_fields (has_arm arms) d u ->
          unrecognized m' = append (unrecognized m) u
          /\ bytes_of (unrecognized m') = bytes_of (unrecognized m) ++ u).

Section OneofField.

Context {E : Externals}.

(** The wrapper a field of [CommonExtensionConfig] with number [fieldNum]
    and payload [s] stands for: the one of that number, around the message
    [s] decodes to from a fresh value. *)
Definition oneof_of_field (fieldNum : Z) (s : list byte)
  (x : isCommonExtensionConfig_ConfigType) : Prop :=
  (fieldNum = 1
   /\ exists v, AdminConfig_Unmarshal AdminConfig_zero s = Ok v
                /\ x = ConfigType_AdminConfig (Some {| AdminConfig' := Some v |}))
  \/ (fieldNum = 2
      /\ exists v, msg_Unmarshal msg_zero s = Ok v
                   /\ x = ConfigType_StaticConfig (Some {| StaticConfig := Some v |}))
  \/ (fieldNum = 3
      /\ exists v, TapDSConfig_Unmarshal TapDSConfig_zero s = Ok v
                   /\ x = ConfigType_TapdsConfig (Some {| TapdsConfig := Some v |})).

End OneofField.

(** ** Messages that survive a round trip *)

(** An empty, non-nil [XXX_unrecognized] comes back as nil. *)
Definition normalize (u : option (list byte)) : option (list byte) :=
  append None (bytes_of u).

Definition AdminConfig_canon (m : AdminConfig) : AdminConfig :=
  {| ConfigId := ConfigId m;
     AdminConfig_XXX_unrecognized := normalize (AdminConfig_XXX_unrecognized m) |}.

(** The unrecognized bytes are what decoding leaves there, and the encoding
    fits a slice. *)
Definition AdminConfig_valid (m : AdminConfig) : Prop :=
  unknown_fields (has_arm AdminConfig_arms) (bytes_of (AdminConfig_XXX_unrecognized m))
  /\ len (AdminConfig_wire m) < 2 ^ 63.

Section RoundTrip.

Context {E : Externals}.
Variable TapConfig_wire : v3_TapConfig -> list byte.
Variable ConfigSource_wire : v4alpha_ConfigSource -> list byte.

Definition TapDSConfig_canon (m : CommonExtensionConfig_TapDSConfig)
  : CommonExtensionConfig_TapDSConfig :=
  {| ConfigSource := ConfigSource m;
     Name := Name m;
     TapDSConfig_XXX_unrecognized := normalize (TapDSConfig_XXX_unrecognized m) |}.

Definition TapDSConfig_valid (m : CommonExtensionConfig_TapDSConfig) : Prop :=
  unknown_fields (has_arm TapDSConfig_arms) (bytes_of (TapDSConfig_XXX_unrecognized m))
  /\ len (TapDSConfig_wire ConfigSource_wire m) < 2 ^ 63.

Definition ConfigType_canon (x : isCommonExtensionConfig_ConfigType)
  : isCommonExtensionConfig_ConfigType :=
  match x with
  | ConfigType_AdminConfig (Some {| AdminConfig' := Some a |}) =>
      ConfigType_AdminConfig (Some {| AdminConfig' := Some (AdminConfig_canon a) |})
  | ConfigType_TapdsConfig (Some {| TapdsConfig := Some a |}) =>
      ConfigType_TapdsConfig (Some {| TapdsConfig := Some (TapDSConfig_canon a) |})
  | _ => x
  end.

Definition CommonExtensionConfig_canon (m : CommonExtensionConfig)
  : CommonExtensionConfig :=
  {| ConfigType := option_map ConfigType_canon (ConfigType m);
     XXX_unrecognized := normalize (XXX_unrecognized m) |}.

(** The oneof is unset or holds a wrapper with its message in it. *)
Definition ConfigType_valid (x : option isCommonExtensionConfig_ConfigType) : Prop :=
  match x with
  | None => True
  | Some (ConfigType_AdminConfig (Some {| AdminConfig' := Some a |})) =>
      AdminConfig_valid a
  | Some (ConfigType_StaticConfig (Some {| StaticConfig := Some _ |})) => True
  | Some (ConfigType_TapdsConfig (Some {| TapdsConfig := Some a |})) =>
      TapDSConfig_valid a
  | _ => False
  end.

Definition CommonExtensionConfig_valid (m : CommonExtensionConfig) : Prop :=
  ConfigType_valid (ConfigType m)
  /\ unknown_fields (has_arm CommonExtensionConfig_arms) (bytes_of (XXX_unrecognized m))
  /\ len (CommonExtensionConfig_wire TapConfig_wire ConfigSource_wire m) < 2 ^ 63.

End RoundTrip.

(** ** What decoding leaves in a message *)

(** The unrecognized bytes are nil, or whole fields with numbers the schema
    does not know, one after the other and at least one. *)
Definition unrecognized_decoded {M : Type} (arms : Z -> option (field_arm M))
  (u : option (list byte)) : Prop :=
  unknown_fields (has_arm arms) (bytes_of u) /\ u <> Some [].

Definition AdminConfig_decoded (m : AdminConfig) : Prop :=
  unrecognized_decoded AdminConfig_arms (AdminConfig_XXX_unrecognized m).

Section Decoded.

Context {E : Externals}.

Definition TapDSConfig_decoded (m : CommonExtensionConfig_TapDSConfig) : Prop :=
  unrecognized_decoded TapDSConfig_arms (TapDSConfig_XXX_unrecognized m).

(** The oneof is unset, or a wrapper with a message as decoding leaves it. *)
Definition ConfigType_decoded (x : option isCommonExtensionConfig_ConfigType) : Prop :=
  match x with
  | None => True
  | Some (ConfigType_AdminConfig (Some {| AdminConfig' := Some a |})) =>
      AdminConfig_decoded a
  | Some (ConfigType_StaticConfig (Some {| StaticConfig := Some _ |})) => True
  | Some (ConfigType_TapdsConfig (Some {| TapdsConfig := Some a |})) =>
      TapDSConfig_decoded a
  | _ => False
  end.

Definition CommonExtensionConfig_decoded (m : CommonExtensionConfig) : Prop :=
  ConfigType_decoded (ConfigType m)
  /\ unrecognized_decoded CommonExtensionConfig_arms (XXX_unrecognized m).

End Decoded.

(** ** Merging

    What decoding the encoding of [m] into a receiver [m0] gives: a string
    that is not empty and a oneof that is set replace those of the receiver,
    the unrecognized bytes are appended. *)

Definition AdminConfig_merge (m0 m : AdminConfig) : AdminConfig :=
  {| ConfigId := if len (ConfigId m) >? 0 then ConfigId m else ConfigId m0;
     AdminConfig_XXX_unrecognized :=
       append (AdminConfig_XXX_unrecognized m0)
         (bytes_of (AdminConfig_XXX_unrecognized m)) |}.

Section Merge.

Context {E : Externals}.

Definition TapDSConfig_merge (m0 m : CommonExtensionConfig_TapDSConfig)
  : CommonExtensionConfig_TapDSConfig :=
  {| ConfigSource := match ConfigSource m with
                     | Some cs => Some cs
                     | None => ConfigSource m0
                     end;
     Name := if len (Name m) >? 0 then Name m else Name m0;
     TapDSConfig_XXX_unrecognized :=
       append (TapDSConfig_XXX_unrecognized m0)
         (bytes_of (TapDSConfig_XXX_unrecognized m)) |}.

Definition CommonExtensionConfig_merge (m0 m : CommonExtensionConfig)
  : CommonExtensionConfig :=
  {| ConfigType := match ConfigType m with
                   | Some x => Some (ConfigType_canon x)
                   | None => ConfigType m0
                   end;
     XXX_unrecognized :=
       append (XXX_unrecognized m0) (bytes_of (XXX_unrecognized m)) |}.

End Merge.

(** ** A stand-in for the imported message types

    A message with one optional flag, field 1 as a varint.  It serves to
    instantiate [v3.TapConfig] and [v4alpha.ConfigSource] in examples. *)

Definition Flag_wire (t : bool) : list byte := if t then [x08; x01] else [].

#[local] Instance Flag_ops : Message bool := {|
  msg_zero := false;
  msg_Size t := len (Flag_wire t);
  msg_MarshalToSizedBuffer t dAtA :=
    let i := len dAtA - len (Flag_wire t) in
    dAtA <- copy_at dAtA i (Flag_wire t) ;;
    Ok (dAtA, len dAtA - i);
  msg_Unmarshal m dAtA :=
    match dAtA with
    | [] => Ok m
    | [tag; v] =>
        if (byte_val tag =? 8) && (byte_val v <? 128) then Ok (negb (byte_val v =? 0))
        else Err (ErrForeign "Flag")
    | _ => Err (ErrForeign "Flag")
    end
|}.

Definition Flag_externals : Externals := {|
  v3_TapConfig := bool;
  v4alpha_ConfigSource := bool;
  TapConfig_ops := Flag_ops;
  ConfigSource_ops := Flag_ops
|}.

(** Example messages over the stand-in. *)

Definition unrecognized_example : AdminConfig :=
  {| ConfigId := []; AdminConfig_XXX_unrecognized := Some [x0a; x01; x41] |}.

Definition newer_schema_example : AdminConfig :=
  {| ConfigId := [x61]; AdminConfig_XXX_unrecognized := Some [x10; x05] |}.

Definition tapds_example (name : list byte)
  : @CommonExtensionConfig_TapDSConfig Flag_externals :=
  @Build_CommonExtensionConfig_TapDSConfig Flag_externals (Some true) name None.

Definition static_example : @CommonExtensionConfig Flag_externals :=
  {| ConfigType :=
       Some (ConfigType_StaticConfig
               (Some (@Build_CommonExtensionConfig_StaticConfig Flag_externals (Some true))));
     XXX_unrecognized := Some [x20; x07] |}.

Definition admin_example : @CommonExtensionConfig Flag_externals :=
  {| ConfigType := Some (ConfigType_AdminConfig (Some {| AdminConfig' := Some filter_1 |}));
     XXX_unrecognized := None |}.

Definition nil_wrapper_example : @CommonExtensionConfig Flag_externals :=
  {| ConfigType := Some (ConfigType_AdminConfig None); XXX_unrecognized := None |}.

Definition nil_wrapper_decoded : @CommonExtensionConfig Flag_externals :=
  {| ConfigType := Some (ConfigType_AdminConfig None);
     XXX_unrecognized := Some [x20; x07] |}.

Definition admin_A_decoded : @CommonExtensionConfig Flag_externals :=
  {| ConfigType :=
       Some (ConfigType_AdminConfig
               (Some {| AdminConfig' :=
                          Some {| ConfigId := [x41];
                                  AdminConfig_XXX_unrecognized := None |} |}));
     XXX_unrecognized := None |}.

Definition tapds_empty_decoded : @CommonExtensionConfig Flag_externals :=
  {| ConfigType :=
       Some (ConfigType_TapdsConfig
               (Some (@Build_CommonExtensionConfig_TapdsConfig Flag_externals
                        (Some TapDSConfig_zero))));
     XXX_unrecognized := None |}.

Definition nil_payload_example : @CommonExtensionConfig Flag_externals :=
  {| ConfigType := Some (ConfigType_AdminConfig (Some {| AdminConfig' := None |}));
     XXX_unrecognized := None |}.

Definition static_example_decoded : @CommonExtensionConfig Flag_externals :=
  {| ConfigType :=
       Some (ConfigType_StaticConfig
               (Some (@Build_CommonExtensionConfig_StaticConfig Flag_externals (Some true))));
     XXX_unrecognized := None |}.

(** * Properties *)

(** ** Lists with integer bounds *)

Lemma len_nonneg {A} (l : list A) : 0 <= len l.
Proof. unfold len; lia. Qed.

Lemma len_nil {A} : len (@nil A) = 0.
Proof. reflexivity. Qed.

Lemma len_cons {A} (x : A) l : len (x :: l) = 1 + len l.
Proof. unfold len. change (List.length (x :: l)) with (S (List.length l)). lia. Qed.

Lemma len_app {A} (a b : list A) : len (a ++ b) = len a + len b.
Proof. unfold len; rewrite length_app; lia. Qed.

Lemma len_zero_nil {A} (l : list A) : len l = 0 -> l = [].
Proof.
  destruct l; [reflexivity | ]. rewrite len_cons. pose proof (len_nonneg l). lia.
Qed.

Lemma len_repeat {A} (x : A) n : len (repeat x n) = Z.of_nat n.
Proof. unfold len; now rewrite repeat_length. Qed.

Lemma len_take {A} n (l : list A) : 0 <= n <= len l -> len (take n l) = n.
Proof. unfold len, take; intros; rewrite length_firstn; lia. Qed.

Lemma len_drop {A} n (l : list A) : 0 <= n <= len l -> len (drop n l) = len l - n.
Proof. unfold len, drop; intros; rewrite length_skipn; lia. Qed.

Lemma take_drop {A} n (l : list A) : take n l ++ drop n l = l.
Proof. apply firstn_skipn. Qed.

Lemma take_all {A} n (l : list A) : len l <= n -> take n l = l.
Proof. unfold len, take; intros; apply firstn_all2; lia. Qed.

Lemma take_nonpos {A} n (l : list A) : n <= 0 -> take n l = [].
Proof. unfold take; intros; replace (Z.to_nat n) with O by lia; reflexivity. Qed.

Lemma drop_nonpos {A} n (l : list A) : n <= 0 -> drop n l = l.
Proof. unfold drop; intros; replace (Z.to_nat n) with O by lia; reflexivity. Qed.

Lemma drop_all {A} n (l : list A) : len l <= n -> drop n l = [].
Proof. unfold len, drop; intros; apply skipn_all2; lia. Qed.

Lemma take_app_l {A} n (a b : list A) : n <= len a -> take n (a ++ b) = take n a.
Proof.
  unfold len, take; intros; rewrite firstn_app.
  replace (Z.to_nat n - length a)%nat with O by lia.
  simpl; apply app_nil_r.
Qed.

Lemma take_app_r {A} n (a b : list A) : len a <= n -> take n (a ++ b) = a ++ take (n - len a) b.
Proof.
  unfold len, take; intros; rewrite firstn_app.
  rewrite firstn_all2 by lia. do 2 f_equal; lia.
Qed.

Lemma drop_app_l {A} n (a b : list A) : n <= len a -> drop n (a ++ b) = drop n a ++ b.
Proof.
  unfold len, drop; intros; rewrite skipn_app.
  replace (Z.to_nat n - length a)%nat with O by lia. reflexivity.
Qed.

Lemma drop_app_r {A} n (a b : list A) : len a <= n -> drop n (a ++ b) = drop (n - len a) b.
Proof.
  unfold len, drop; intros; rewrite skipn_app.
  rewrite skipn_all2 by lia. simpl. f_equal; lia.
Qed.

Lemma take_app_len {A} (a b : list A) : take (len a) (a ++ b) = a.
Proof. rewrite take_app_l by lia. apply take_all; lia. Qed.

Lemma drop_app_len {A} (a b : list A) : drop (len a) (a ++ b) = b.
Proof. rewrite drop_app_r by lia. apply drop_nonpos; lia. Qed.

Lemma take_take {A} n k (l : list A) : n <= k -> take n (take k l) = take n l.
Proof.
  unfold take; intros; rewrite firstn_firstn. f_equal; lia.
Qed.

Lemma drop_drop {A} n k (l : list A) : 0 <= n -> 0 <= k -> drop n (drop k l) = drop (k + n) l.
Proof.
  unfold drop; intros; rewrite skipn_skipn. f_equal; lia.
Qed.

Lemma take_cons {A} n (x : A) l : 0 < n -> take n (x :: l) = x :: take (n - 1) l.
Proof.
  unfold take; intros. replace (Z.to_nat n) with (S (Z.to_nat (n - 1))) by lia.
  reflexivity.
Qed.

Lemma drop_cons {A} n (x : A) l : 0 < n -> drop n (x :: l) = drop (n - 1) l.
Proof.
  unfold drop; intros. replace (Z.to_nat n) with (S (Z.to_nat (n - 1))) by lia.
  reflexivity.
Qed.

(** ** Integers and bytes *)

Lemma uint64_small z : 0 <= z < 2 ^ 64 -> uint64 z = z.
Proof. unfold uint64; intros; apply Z.mod_small; lia. Qed.

Lemma uint64_range z : 0 <= uint64 z < 2 ^ 64.
Proof. unfold uint64; apply Z.mod_pos_bound; lia. Qed.

Lemma int_range z : - 2 ^ 63 <= int z < 2 ^ 63.
Proof.
  unfold int. pose proof (Z.mod_pos_bound (z + 2 ^ 63) (2 ^ 64) ltac:(lia)). lia.
Qed.

Lemma int_small z : - 2 ^ 63 <= z < 2 ^ 63 -> int z = z.
Proof. unfold int; intros; rewrite Z.mod_small; lia. Qed.

Lemma int32_small z : - 2 ^ 31 <= z < 2 ^ 31 -> int32 z = z.
Proof. unfold int32; intros; rewrite Z.mod_small; lia. Qed.

Lemma int_wraps_negative z : 2 ^ 63 <= z < 2 ^ 64 -> int z = z - 2 ^ 64.
Proof.
  unfold int; intros.
  replace (z + 2 ^ 63) with ((z - 2 ^ 63) + 1 * 2 ^ 64) by lia.
  rewrite Z.mod_add by lia. rewrite Z.mod_small; lia.
Qed.

Lemma byte_val_range b : 0 <= byte_val b < 256.
Proof.
  unfold byte_val. pose proof (Byte.to_N_bounded b). lia.
Qed.

Lemma byte_val_uint8 z : byte_val (uint8 z) = z mod 256.
Proof.
  unfold byte_val, uint8.
  assert (H : 0 <= z mod 256 < 256) by (apply Z.mod_pos_bound; lia).
  destruct (Byte.of_N (Z.to_N (z mod 256))) eqn:Hb.
  - apply Byte.to_of_N in Hb. rewrite Hb. lia.
  - apply Byte.of_N_None_iff in Hb. lia.
Qed.

Lemma uint8_byte_val b : uint8 (byte_val b) = b.
Proof.
  unfold uint8. pose proof (byte_val_range b) as H.
  rewrite Z.mod_small by lia. unfold byte_val. rewrite N2Z.id.
  now rewrite Byte.of_to_N.
Qed.

(** ** The size of a varint and its bytes *)

Lemma sovCommon_log2 v : 0 <= v -> sovCommon v = (Z.log2 v + 7) / 7.
Proof.
  intros Hv. unfold sovCommon, Len64.
  destruct (Z.lor v 1 =? 0) eqn:H0.
  - apply Z.eqb_eq, Z.lor_eq_0_iff in H0. lia.
  - rewrite Z.log2_lor by lia. change (Z.log2 1) with 0.
    pose proof (Z.log2_nonneg v). rewrite Z.max_l by lia. f_equal; lia.
Qed.

Lemma sovCommon_small v : 0 <= v < 128 -> sovCommon v = 1.
Proof.
  intros Hv. rewrite sovCommon_log2 by lia.
  assert (0 <= Z.log2 v < 7).
  { split; [apply Z.log2_nonneg | ].
    destruct (Z.eq_dec v 0) as [-> | ]; [reflexivity | ].
    apply Z.log2_lt_pow2; lia. }
  replace (Z.log2 v + 7) with (Z.log2 v + 1 * 7) by lia.
  rewrite Z.div_add by lia. rewrite Z.div_small; lia.
Qed.

Lemma sovCommon_step v : 128 <= v -> sovCommon v = 1 + sovCommon (Z.shiftr v 7).
Proof.
  intros Hv. rewrite !sovCommon_log2 by (try apply Z.shiftr_nonneg; lia).
  rewrite Z.log2_shiftr by lia.
  assert (7 <= Z.log2 v) by (apply Z.log2_le_pow2; lia).
  rewrite Z.max_r by lia.
  replace (Z.log2 v + 7) with (Z.log2 v - 7 + 7 + 1 * 7) by lia.
  rewrite Z.div_add by lia. lia.
Qed.

Lemma sovCommon_pos v : 0 <= v -> 1 <= sovCommon v.
Proof.
  intros Hv. rewrite sovCommon_log2 by lia.
  pose proof (Z.log2_nonneg v).
  apply Z.div_le_lower_bound; lia.
Qed.

Lemma shiftr7_bound n v : 0 <= v < 2 ^ (7 * (Z.of_nat (S n))) -> 128 <= v ->
  0 <= Z.shiftr v 7 < 2 ^ (7 * Z.of_nat n).
Proof.
  intros Hv H128. rewrite Z.shiftr_div_pow2 by lia.
  split; [apply Z.div_pos; lia | ].
  apply Z.div_lt_upper_bound; [lia | ].
  rewrite <- Z.pow_add_r by lia.
  replace (7 + 7 * Z.of_nat n) with (7 * Z.of_nat (S n)) by lia. lia.
Qed.

Lemma uvarint_groups_S n v :
  uvarint_groups (S n) v
  = if 128 <=? v then uint8 (Z.lor (Z.land v 127) 128) :: uvarint_groups n (Z.shiftr v 7)
    else [uint8 v].
Proof. reflexivity. Qed.

Lemma encodeVarint_loop_S n dAtA offset v :
  encodeVarint_loop (S n) dAtA offset v
  = if 128 <=? v then
      dAtA <- store dAtA offset (uint8 (Z.lor (Z.land v 127) 128)) ;;
      encodeVarint_loop n dAtA (offset + 1) (Z.shiftr v 7)
    else Ok (dAtA, offset, v).
Proof. reflexivity. Qed.

Lemma len_uvarint_groups n : forall v, 0 <= v < 2 ^ (7 * Z.of_nat (S n)) ->
  len (uvarint_groups (S n) v) = sovCommon v.
Proof.
  induction n as [ | n IH]; intros v Hv; rewrite uvarint_groups_S.
  - change (2 ^ (7 * Z.of_nat 1)) with 128 in Hv.
    destruct (128 <=? v) eqn:H; [apply Z.leb_le in H; lia | ].
    rewrite sovCommon_small by lia. reflexivity.
  - destruct (128 <=? v) eqn:H.
    + apply Z.leb_le in H. rewrite len_cons, sovCommon_step by lia.
      f_equal. apply IH. apply shiftr7_bound; lia.
    + apply Z.leb_gt in H. rewrite sovCommon_small by lia. reflexivity.
Qed.

Lemma len_uvarint v : 0 <= v < 2 ^ 64 -> len (uvarint v) = sovCommon v.
Proof.
  intros Hv. apply len_uvarint_groups.
  change (2 ^ (7 * Z.of_nat 10)) with (2 ^ 70). lia.
Qed.

Lemma uvarint_nonempty v : uvarint v <> [].
Proof.
  unfold uvarint. cbn [uvarint_groups]. destruct (128 <=? v); discriminate.
Qed.

(** ** Writing into the buffer *)

Lemma store_spec dAtA i b : 0 <= i < len dAtA ->
  store dAtA i b = Ok (take i dAtA ++ b :: drop (i + 1) dAtA).
Proof.
  intros H. unfold store.
  destruct (0 <=? i) eqn:H1; [ | apply Z.leb_gt in H1; lia].
  destruct (i <? len dAtA) eqn:H2; [ | apply Z.ltb_ge in H2; lia].
  reflexivity.
Qed.

Lemma copy_at_spec dAtA i src : 0 <= i -> i + len src <= len dAtA ->
  copy_at dAtA i src = Ok (take i dAtA ++ src ++ drop (i + len src) dAtA).
Proof.
  intros H0 H. pose proof (len_nonneg src) as Hs.
  unfold copy_at, slice_from.
  destruct (0 <=? i) eqn:H1; [ | apply Z.leb_gt in H1; lia].
  destruct (i <=? len dAtA) eqn:H2; [ | apply Z.leb_gt in H2; lia].
  cbn [andb bind]. rewrite len_drop by lia.
  rewrite Z.min_r by lia. rewrite (take_all (len src) src) by lia.
  rewrite drop_drop by lia. reflexivity.
Qed.

Lemma encodeVarint_body n : forall v dAtA offset (base : Z),
  0 <= v < 2 ^ (7 * Z.of_nat (S n)) -> 0 <= offset ->
  offset + len (uvarint_groups (S n) v) <= len dAtA ->
  ('(dAtA, offset, v) <- encodeVarint_loop (S n) dAtA offset v ;;
   dAtA <- store dAtA offset (uint8 v) ;;
   Ok (dAtA, base))
  = Ok (take offset dAtA ++ uvarint_groups (S n) v
          ++ drop (offset + len (uvarint_groups (S n) v)) dAtA, base).
Proof.
  induction n as [ | n IH]; intros v dAtA offset base Hv Ho Hl.
  - change (2 ^ (7 * Z.of_nat 1)) with 128 in Hv.
    cbn [encodeVarint_loop uvarint_groups] in *.
    destruct (128 <=? v) eqn:H; [apply Z.leb_le in H; lia | ].
    cbn [bind]. rewrite len_cons, len_nil in *.
    rewrite store_spec by lia. reflexivity.
  - rewrite (encodeVarint_loop_S (S n)). rewrite (uvarint_groups_S (S n)) in *.
    destruct (128 <=? v) eqn:H.
    + apply Z.leb_le in H. rewrite len_cons in *.
      pose proof (len_nonneg (uvarint_groups (S n) (Z.shiftr v 7))) as Hg.
      rewrite store_spec by lia. cbn [bind].
      set (b := uint8 (Z.lor (Z.land v 127) 128)).
      assert (Hlt : len (take offset dAtA) = offset) by (apply len_take; lia).
      rewrite IH.
      * f_equal. f_equal.
        rewrite take_app_r by lia. rewrite Hlt.
        replace (offset + 1 - offset) with 1 by lia.
        rewrite take_cons by lia. rewrite (take_nonpos (1 - 1)) by lia.
        rewrite <- app_assoc. cbn [app]. do 3 f_equal.
        rewrite drop_app_r by lia. rewrite Hlt.
        rewrite drop_cons by lia. rewrite drop_drop by lia.
        f_equal. lia.
      * apply shiftr7_bound; lia.
      * lia.
      * rewrite len_app, Hlt, len_cons, len_drop by lia. lia.
    + cbn [bind]. rewrite len_cons, len_nil in *.
      rewrite store_spec by lia. reflexivity.
Qed.

Lemma encodeVarintCommon_spec dAtA i v :
  0 <= v < 2 ^ 64 -> sovCommon v <= i <= len dAtA ->
  encodeVarintCommon dAtA i v
  = Ok (take (i - sovCommon v) dAtA ++ uvarint v ++ drop i dAtA, i - sovCommon v).
Proof.
  intros Hv Hi. unfold encodeVarintCommon.
  pose proof (len_uvarint v Hv) as Hlen. unfold uvarint in *.
  rewrite encodeVarint_body.
  - rewrite Hlen. replace (i - sovCommon v + sovCommon v) with i by lia. reflexivity.
  - change (2 ^ (7 * Z.of_nat 10)) with (2 ^ 70). lia.
  - lia.
  - lia.
Qed.

(** ** Routines that write in front of a position *)

Lemma frame_len (d a : list byte) k i :
  0 <= k -> k + len a = i -> i <= len d ->
  len (take k d ++ a ++ drop i d) = len d.
Proof.
  intros. pose proof (len_nonneg a).
  rewrite !len_app, len_take, len_drop by lia. lia.
Qed.

Lemma frame_take (d rest : list byte) k j :
  j <= k -> 0 <= k <= len d ->
  take j (take k d ++ rest) = take j d.
Proof.
  intros. rewrite take_app_l by (rewrite len_take; lia). apply take_take; lia.
Qed.

Lemma frame_drop (d rest : list byte) k :
  0 <= k <= len d -> drop k (take k d ++ rest) = rest.
Proof.
  intros. rewrite <- (len_take k d) at 1 by lia. apply drop_app_len.
Qed.

Lemma frame_take_len (d rest : list byte) k :
  0 <= k <= len d -> take k (take k d ++ rest) = take k d.
Proof.
  intros. rewrite <- (len_take k d) at 1 by lia. apply take_app_len.
Qed.

Lemma emits_nil : emits (fun dAtA i => Ok (dAtA, i)) [].
Proof.
  intros dAtA i _. rewrite len_nil, Z.sub_0_r. cbn [app].
  now rewrite take_drop.
Qed.

Lemma emits_bind f g a b :
  emits f a -> emits g b ->
  emits (fun dAtA i => '(dAtA, i) <- f dAtA i ;; g dAtA i) (b ++ a).
Proof.
  intros Hf Hg dAtA i Hi. rewrite len_app in Hi.
  pose proof (len_nonneg a). pose proof (len_nonneg b).
  rewrite Hf by lia. cbn [bind].
  rewrite Hg by (rewrite frame_len; lia).
  rewrite (frame_take dAtA _ (i - len a)) by lia.
  rewrite <- (app_nil_r (take _ _ ++ _ ++ drop i dAtA)) at 1.
  rewrite <- !app_assoc, frame_drop by lia.
  rewrite app_nil_r, len_app.
  replace (i - (len b + len a)) with (i - len a - len b) by lia.
  reflexivity.
Qed.

Lemma emits_ext f g bs :
  (forall d i, len bs <= i <= len d -> f d i = g d i) -> emits f bs -> emits g bs.
Proof. intros H Hf d i Hi. rewrite <- H by assumption. now apply Hf. Qed.

Lemma in_prefix_marshals g w dAtA i :
  marshals g w -> len w <= i <= len dAtA ->
  in_prefix dAtA i g = Ok (take (i - len w) dAtA ++ w ++ drop i dAtA, len w).
Proof.
  intros Hg Hi. pose proof (len_nonneg w).
  unfold in_prefix, slice_to.
  destruct (0 <=? i) eqn:H1; [ | apply Z.leb_gt in H1; lia].
  destruct (i <=? len dAtA) eqn:H2; [ | apply Z.leb_gt in H2; lia].
  cbn [andb bind]. rewrite Hg by (rewrite len_take; lia).
  cbn [bind]. rewrite len_take, take_take by lia.
  now rewrite <- app_assoc.
Qed.

Lemma emits_put_unrecognized u : emits (put_unrecognized u) (bytes_of u).
Proof.
  destruct u as [u | ]; [ | apply emits_nil].
  intros dAtA i Hi. cbn [put_unrecognized bytes_of] in *. pose proof (len_nonneg u).
  rewrite copy_at_spec by lia. cbn [bind].
  replace (i - len u + len u) with i by lia. reflexivity.
Qed.

Lemma emits_varint_tag tag v :
  0 <= v < 2 ^ 64 ->
  emits (fun dAtA i =>
           '(dAtA, i) <- encodeVarintCommon dAtA i v ;;
           let i := i - 1 in
           dAtA <- store dAtA i tag ;;
           Ok (dAtA, i))
        (tag :: uvarint v).
Proof.
  intros Hv dAtA i Hi. rewrite len_cons, len_uvarint in Hi by lia.
  pose proof (sovCommon_pos v ltac:(lia)) as Hs.
  rewrite encodeVarintCommon_spec by lia. cbn [bind].
  rewrite store_spec by (rewrite frame_len by (try rewrite len_uvarint; lia); lia).
  rewrite (frame_take dAtA _ (i - sovCommon v)) by lia.
  replace (i - sovCommon v - 1 + 1) with (i - sovCommon v) by lia.
  rewrite frame_drop by lia.
  rewrite len_cons, len_uvarint by lia.
  replace (i - (1 + sovCommon v)) with (i - sovCommon v - 1) by lia.
  reflexivity.
Qed.

Lemma emits_put_string tag s : emits (put_string tag s) (string_field tag s).
Proof.
  unfold put_string, string_field.
  destruct (len s >? 0) eqn:Hs; [ | apply emits_nil].
  pose proof (emits_bind (fun dAtA i => dAtA <- copy_at dAtA (i - len s) s ;; Ok (dAtA, i - len s))
                (fun dAtA i =>
                   '(dAtA, i) <- encodeVarintCommon dAtA i (uint64 (len s)) ;;
                   let i := i - 1 in
                   dAtA <- store dAtA i tag ;;
                   Ok (dAtA, i))
                s (tag :: uvarint (uint64 (len s)))) as H.
  rewrite <- app_comm_cons in H.
  refine (emits_ext _ _ _ _ (H _ _)).
  - intros d i _. destruct (copy_at d (i - len s) s); reflexivity.
  - intros dAtA i Hi. pose proof (len_nonneg s).
    rewrite copy_at_spec by lia. cbn [bind].
    replace (i - len s + len s) with i by lia. reflexivity.
  - apply emits_varint_tag, uint64_range.
Qed.

Lemma emits_put_message tag g w :
  marshals g w -> emits (put_message tag g) (message_field tag w).
Proof.
  intros Hg. unfold put_message, message_field.
  pose proof (emits_bind (fun dAtA i => '(dAtA, size) <- in_prefix dAtA i g ;; Ok (dAtA, i - size))
                (fun dAtA i =>
                   '(dAtA, i) <- encodeVarintCommon dAtA i (uint64 (len w)) ;;
                   let i := i - 1 in
                   dAtA <- store dAtA i tag ;;
                   Ok (dAtA, i))
                w (tag :: uvarint (uint64 (len w)))) as H.
  rewrite <- app_comm_cons in H.
  refine (emits_ext _ _ _ _ (H _ _)).
  - intros d i Hi. rewrite len_cons, len_app in Hi.
    pose proof (len_nonneg (uvarint (uint64 (len w)))).
    rewrite (in_prefix_marshals g w) by (assumption || lia). reflexivity.
  - intros dAtA i Hi. rewrite (in_prefix_marshals g w) by assumption. reflexivity.
  - apply emits_varint_tag, uint64_range.
Qed.

Lemma marshals_of_emits f bs :
  emits f bs ->
  marshals (fun dAtA => '(dAtA', i) <- f dAtA (len dAtA) ;; Ok (dAtA', len dAtA' - i)) bs.
Proof.
  intros Hf dAtA Hl. pose proof (len_nonneg bs).
  rewrite Hf by lia. cbn [bind].
  rewrite frame_len by lia.
  rewrite (drop_all (len dAtA)), app_nil_r by lia.
  do 2 f_equal. lia.
Qed.

Lemma marshals_ext f g bs : (forall d, f d = g d) -> marshals f bs -> marshals g bs.
Proof. intros H Hf d Hd. rewrite <- H. now apply Hf. Qed.

Lemma marshals_seq2 f g a b :
  emits f a -> emits g b ->
  marshals (fun dAtA =>
              let i := len dAtA in
              '(dAtA, i) <- f dAtA i ;;
              '(dAtA, i) <- g dAtA i ;;
              Ok (dAtA, len dAtA - i)) (b ++ a).
Proof.
  intros Hf Hg.
  refine (marshals_ext _ _ _ _ (marshals_of_emits _ _ (emits_bind _ _ _ _ Hf Hg))).
  intros d. cbn beta zeta.
  destruct (f d (len d)) as [[d1 i1] | | | ]; reflexivity.
Qed.

Lemma marshals_seq3 f g h a b c :
  emits f a -> emits g b -> emits h c ->
  marshals (fun dAtA =>
              let i := len dAtA in
              '(dAtA, i) <- f dAtA i ;;
              '(dAtA, i) <- g dAtA i ;;
              '(dAtA, i) <- h dAtA i ;;
              Ok (dAtA, len dAtA - i)) (c ++ b ++ a).
Proof.
  intros Hf Hg Hh. rewrite app_assoc.
  refine (marshals_ext _ _ _ _
            (marshals_of_emits _ _ (emits_bind _ _ _ _ Hf (emits_bind _ _ _ _ Hg Hh)))).
  intros d. cbn beta zeta.
  destruct (f d (len d)) as [[d1 i1] | | | ]; cbn [bind]; try reflexivity.
  destruct (g d1 i1) as [[d2 i2] | | | ]; reflexivity.
Qed.

(** [Marshal]: [make], [MarshalToSizedBuffer(dAtA[:size])], [dAtA[:n]]. *)
Lemma Marshal_of_marshals g w :
  marshals g w ->
  (dAtA <- make (len w) ;;
   '(dAtA, n) <- in_prefix dAtA (len w) g ;;
   slice_to dAtA n) = Ok w.
Proof.
  intros Hg. pose proof (len_nonneg w) as Hw. unfold make.
  destruct (len w <? 0) eqn:H; [apply Z.ltb_lt in H; lia | ].
  cbn [bind].
  set (z := repeat x00 (Z.to_nat (len w))).
  assert (Hz : len z = len w) by (unfold z; rewrite len_repeat; lia).
  rewrite (in_prefix_marshals g w) by (assumption || lia).
  cbn [bind]. rewrite Z.sub_diag, (take_nonpos 0), (drop_all (len w)) by lia.
  cbn [app]. rewrite app_nil_r. unfold slice_to.
  rewrite Z.leb_refl.
  destruct (0 <=? len w) eqn:H1; [ | apply Z.leb_gt in H1; lia].
  cbn [andb]. now rewrite take_all by lia.
Qed.

(** ** The marshal routines write the wire image *)

Lemma len_string_field tag s :
  len (string_field tag s)
  = if len s >? 0 then 1 + len s + sovCommon (uint64 (len s)) else 0.
Proof.
  unfold string_field. destruct (len s >? 0); [ | reflexivity].
  rewrite len_cons, len_app, len_uvarint by apply uint64_range. lia.
Qed.

Lemma len_message_field tag w :
  len (message_field tag w) = 1 + len w + sovCommon (uint64 (len w)).
Proof.
  unfold message_field.
  rewrite len_cons, len_app, len_uvarint by apply uint64_range. lia.
Qed.

Lemma AdminConfig_Size_wire m : AdminConfig_Size (Some m) = len (AdminConfig_wire m).
Proof.
  unfold AdminConfig_Size, AdminConfig_wire. cbv zeta.
  rewrite len_app, len_string_field.
  destruct (len (ConfigId m) >? 0), (AdminConfig_XXX_unrecognized m);
    cbn [bytes_of]; change (@len byte []) with 0; lia.
Qed.

Lemma AdminConfig_marshals m :
  marshals (AdminConfig_MarshalToSizedBuffer m) (AdminConfig_wire m).
Proof.
  unfold AdminConfig_MarshalToSizedBuffer, AdminConfig_wire.
  apply (marshals_seq2 (put_unrecognized _) (put_string x0a _)).
  - apply emits_put_unrecognized.
  - apply emits_put_string.
Qed.

Lemma AdminConfig_Marshal_wire m : AdminConfig_Marshal m = Ok (AdminConfig_wire m).
Proof.
  unfold AdminConfig_Marshal. rewrite AdminConfig_Size_wire.
  apply Marshal_of_marshals, AdminConfig_marshals.
Qed.

Section MarshalFacts.

Context {E : Externals}.
Variable TapConfig_wire : v3_TapConfig -> list byte.
Variable ConfigSource_wire : v4alpha_ConfigSource -> list byte.
Hypothesis TapConfig_marshal : marshal_contract TapConfig_wire.
Hypothesis ConfigSource_marshal : marshal_contract ConfigSource_wire.

Local Abbreviation TapDS_w := (TapDSConfig_wire ConfigSource_wire).
Local Abbreviation oneof_w := (ConfigType_wire TapConfig_wire ConfigSource_wire).
Local Abbreviation Common_w :=
  (CommonExtensionConfig_wire TapConfig_wire ConfigSource_wire).

Lemma TapDSConfig_Size_wire m : TapDSConfig_Size (Some m) = len (TapDS_w m).
Proof.
  unfold TapDSConfig_Size, TapDSConfig_wire. cbv zeta.
  rewrite !len_app, len_string_field.
  destruct (ConfigSource m) as [cs | ].
  - rewrite len_message_field. rewrite (proj1 (ConfigSource_marshal cs)).
    destruct (len (Name m) >? 0), (TapDSConfig_XXX_unrecognized m);
      cbn [bytes_of]; change (@len byte []) with 0; lia.
  - destruct (len (Name m) >? 0), (TapDSConfig_XXX_unrecognized m);
      cbn [bytes_of]; change (@len byte []) with 0; lia.
Qed.

Lemma TapDSConfig_marshals m :
  marshals (TapDSConfig_MarshalToSizedBuffer m) (TapDS_w m).
Proof.
  unfold TapDSConfig_MarshalToSizedBuffer, TapDSConfig_wire.
  apply (marshals_seq3 (put_unrecognized _) (put_string x12 _)
           (fun dAtA i =>
              match ConfigSource m with
              | Some cs => put_message x0a (msg_MarshalToSizedBuffer cs) dAtA i
              | None => Ok (dAtA, i)
              end)).
  - apply emits_put_unrecognized.
  - apply emits_put_string.
  - destruct (ConfigSource m) as [cs | ]; [ | apply emits_nil].
    apply emits_put_message, ConfigSource_marshal.
Qed.

Lemma TapDSConfig_Marshal_wire m : TapDSConfig_Marshal m = Ok (TapDS_w m).
Proof.
  unfold TapDSConfig_Marshal. rewrite TapDSConfig_Size_wire.
  apply Marshal_of_marshals, TapDSConfig_marshals.
Qed.

Lemma ConfigType_Size_wire x : ConfigType_Size x = len (oneof_w x).
Proof.
  destruct x as [[[[a | ]] | ] | [[[a | ]] | ] | [[[a | ]] | ]];
    cbn [ConfigType_Size ConfigType_wire
         CommonExtensionConfig_AdminConfig_Size
         CommonExtensionConfig_StaticConfig_Size
         CommonExtensionConfig_TapdsConfig_Size
         AdminConfig' StaticConfig TapdsConfig];
    rewrite ?len_message_field; try reflexivity.
  - rewrite AdminConfig_Size_wire. lia.
  - rewrite (proj1 (TapConfig_marshal a)). lia.
  - rewrite TapDSConfig_Size_wire. lia.
Qed.

Lemma wrapper_marshals tag (g : list byte -> outcome (list byte * Z)) w :
  marshals g w ->
  marshals (fun dAtA =>
              '(dAtA', i) <- put_message tag g dAtA (len dAtA) ;;
              Ok (dAtA', len dAtA' - i))
           (message_field tag w).
Proof. intros Hg. apply marshals_of_emits, emits_put_message, Hg. Qed.

Lemma wrapper_marshals_nil :
  marshals (fun dAtA => '(dAtA', i) <- Ok (dAtA, len dAtA) ;; Ok (dAtA', len dAtA' - i)) [].
Proof. apply (marshals_of_emits _ _ emits_nil). Qed.

(** [MarshalTo] of a oneof value whose wrapper pointer is not nil. *)
Lemma ConfigType_MarshalTo_marshals x :
  match x with
  | ConfigType_AdminConfig None | ConfigType_StaticConfig None
  | ConfigType_TapdsConfig None => False
  | _ => True
  end ->
  forall s, len (oneof_w x) <= len s ->
    ConfigType_MarshalTo x s
    = Ok (oneof_w x ++ drop (len (oneof_w x)) s, len (oneof_w x)).
Proof.
  intros Hx s Hs. unfold ConfigType_MarshalTo.
  rewrite ConfigType_Size_wire.
  pose proof (len_nonneg (oneof_w x)).
  rewrite (in_prefix_marshals _ (oneof_w x)); [ | | lia].
  - rewrite Z.sub_diag, (take_nonpos 0) by lia. reflexivity.
  - destruct x as [[[[a | ]] | ] | [[[a | ]] | ] | [[[a | ]] | ]];
      try contradiction;
      cbn [ConfigType_wire
           CommonExtensionConfig_AdminConfig_MarshalToSizedBuffer
           CommonExtensionConfig_StaticConfig_MarshalToSizedBuffer
           CommonExtensionConfig_TapdsConfig_MarshalToSizedBuffer
           AdminConfig' StaticConfig TapdsConfig];
      first [ apply wrapper_marshals_nil | apply wrapper_marshals ].
    + apply AdminConfig_marshals.
    + apply TapConfig_marshal.
    + apply TapDSConfig_marshals.
Qed.

Lemma emits_oneof x :
  match x with
  | ConfigType_AdminConfig None | ConfigType_StaticConfig None
  | ConfigType_TapdsConfig None => False
  | _ => True
  end ->
  emits (fun dAtA i =>
           let size := ConfigType_Size x in
           let i := i - size in
           '(dAtA, _) <- in_suffix dAtA i (ConfigType_MarshalTo x) ;;
           Ok (dAtA, i))
        (oneof_w x).
Proof.
  intros Hx dAtA i Hi. cbn zeta. rewrite ConfigType_Size_wire.
  set (w := oneof_w x) in *. pose proof (len_nonneg w).
  unfold in_suffix, slice_from.
  destruct (0 <=? i - len w) eqn:H1; [ | apply Z.leb_gt in H1; lia].
  destruct (i - len w <=? len dAtA) eqn:H2; [ | apply Z.leb_gt in H2; lia].
  cbn [andb bind].
  rewrite ConfigType_MarshalTo_marshals by (assumption || (fold w; rewrite len_drop; lia)).
  fold w. cbn [bind]. rewrite drop_drop by lia.
  replace (i - len w + len w) with i by lia. reflexivity.
Qed.

Lemma CommonExtensionConfig_Size_wire m :
  CommonExtensionConfig_Size (Some m) = len (Common_w m).
Proof.
  unfold CommonExtensionConfig_Size, CommonExtensionConfig_wire. cbv zeta.
  rewrite len_app.
  destruct (ConfigType m) as [x | ]; [rewrite ConfigType_Size_wire | ];
    destruct (XXX_unrecognized m); cbn [bytes_of]; change (@len byte []) with 0; lia.
Qed.

Lemma CommonExtensionConfig_marshals m :
  wrapper_present m ->
  marshals (CommonExtensionConfig_MarshalToSizedBuffer m) (Common_w m).
Proof.
  intros Hm.
  unfold CommonExtensionConfig_MarshalToSizedBuffer, CommonExtensionConfig_wire.
  apply (marshals_seq2 (put_unrecognized _)
           (fun dAtA i =>
              match ConfigType m with
              | Some x =>
                  let size := ConfigType_Size x in
                  let i := i - size in
                  '(dAtA, _) <- in_suffix dAtA i (ConfigType_MarshalTo x) ;;
                  Ok (dAtA, i)
              | None => Ok (dAtA, i)
              end)).
  - apply emits_put_unrecognized.
  - unfold wrapper_present in Hm.
    destruct (ConfigType m) as [x | ]; [ | apply emits_nil].
    apply emits_oneof. destruct x as [[ | ] | [ | ] | [ | ]]; exact Hm || exact I.
Qed.

Lemma CommonExtensionConfig_Marshal_wire m :
  wrapper_present m ->
  CommonExtensionConfig_Marshal m = Ok (Common_w m).
Proof.
  intros Hm. unfold CommonExtensionConfig_Marshal. rewrite CommonExtensionConfig_Size_wire.
  apply Marshal_of_marshals, CommonExtensionConfig_marshals, Hm.
Qed.

End MarshalFacts.

(** ** Reading varints *)

Lemma bind_Ok {A B} (c : outcome A) (k : A -> outcome B) y :
  bind c k = Ok y -> exists x, c = Ok x /\ k x = Ok y.
Proof. destruct c; cbn [bind]; intros H; try discriminate. eauto. Qed.

Ltac inv_bind H :=
  let x := fresh "x" in
  let Hx := fresh "Hx" in
  apply bind_Ok in H; destruct H as [x [Hx H]].

Lemma read_varint_cons acc shift v i b bs :
  read_varint acc shift v i (b :: bs)
  = if 64 <=? shift then Err ErrIntOverflowCommon
    else if byte_val b <? 128 then Ok (acc v b shift, Cursor (i + 1) bs)
         else read_varint acc (shift + 7) (acc v b shift) (i + 1) bs.
Proof. reflexivity. Qed.

Lemma read_varint_nil acc shift v i :
  read_varint acc shift v i []
  = if 64 <=? shift then Err ErrIntOverflowCommon else Err ErrUnexpectedEOF.
Proof. reflexivity. Qed.

Lemma read_varint_inv acc bs : forall shift v i x c',
  read_varint acc shift v i bs = Ok (x, c') ->
  exists k, 1 <= k <= len bs /\ c' = Cursor (i + k) (drop k bs).
Proof.
  induction bs as [ | b bs IH]; intros shift v i x c' H.
  - rewrite read_varint_nil in H. destruct (64 <=? shift); discriminate.
  - rewrite read_varint_cons in H. pose proof (len_nonneg bs).
    destruct (64 <=? shift); [discriminate | ].
    destruct (byte_val b <? 128).
    + injection H as _ <-. exists 1. rewrite len_cons. split; [lia | ].
      rewrite drop_cons, drop_nonpos by lia. reflexivity.
    + apply IH in H. destruct H as [k [Hk ->]]. exists (k + 1).
      rewrite len_cons. split; [lia | ].
      rewrite drop_cons by lia. f_equal; [lia | f_equal; lia].
Qed.

Lemma read_varint_app acc bs : forall shift v i x c' r,
  read_varint acc shift v i bs = Ok (x, c') ->
  read_varint acc shift v i (bs ++ r) = Ok (x, Cursor (iNdEx c') (rest c' ++ r)).
Proof.
  induction bs as [ | b bs IH]; intros shift v i x c' r H.
  - rewrite read_varint_nil in H. destruct (64 <=? shift); discriminate.
  - rewrite <- app_comm_cons, read_varint_cons in *.
    destruct (64 <=? shift); [discriminate | ].
    destruct (byte_val b <? 128).
    + injection H as <- <-. reflexivity.
    + now apply IH.
Qed.

Lemma read_varint_prefix acc p : forall q shift v i x c',
  read_varint acc shift v i (p ++ q) = Ok (x, c') ->
  read_varint acc shift v i p = Err ErrUnexpectedEOF
  \/ exists rp, read_varint acc shift v i p = Ok (x, Cursor (iNdEx c') rp)
                /\ rest c' = rp ++ q.
Proof.
  induction p as [ | b p IH]; intros q shift v i x c' H.
  - left. rewrite read_varint_nil. destruct (64 <=? shift) eqn:Hs; [ | reflexivity].
    destruct q; cbn [app] in H;
      [rewrite read_varint_nil in H | rewrite read_varint_cons in H];
      rewrite Hs in H; discriminate.
  - rewrite <- app_comm_cons, read_varint_cons in *.
    destruct (64 <=? shift); [discriminate | ].
    destruct (byte_val b <? 128).
    + right. injection H as <- <-. exists p. split; reflexivity.
    + now apply IH.
Qed.

Lemma read_varint_shift acc bs : forall shift v i x c' i',
  read_varint acc shift v i bs = Ok (x, c') ->
  read_varint acc shift v i' bs = Ok (x, Cursor (iNdEx c' - i + i') (rest c')).
Proof.
  induction bs as [ | b bs IH]; intros shift v i x c' i' H.
  - rewrite read_varint_nil in H. destruct (64 <=? shift); discriminate.
  - rewrite read_varint_cons in *.
    destruct (64 <=? shift); [discriminate | ].
    destruct (byte_val b <? 128).
    + injection H as <- <-. cbn [iNdEx rest]. do 2 f_equal. f_equal. lia.
    + rewrite (IH _ _ _ _ _ (i' + 1) H). do 2 f_equal. f_equal. lia.
Qed.

(** Ten bytes with the continuation bit set overflow 64 bits. *)
Lemma read_varint_overflow acc pre : forall shift v i r,
  Forall (fun b => 128 <= byte_val b) pre ->
  64 <= shift + 7 * len pre ->
  read_varint acc shift v i (pre ++ r) = Err ErrIntOverflowCommon.
Proof.
  induction pre as [ | b pre IH]; intros shift v i r Hall Hlen.
  - change (@len byte []) with 0 in Hlen. cbn [app].
    destruct r; [rewrite read_varint_nil | rewrite read_varint_cons];
      destruct (64 <=? shift) eqn:Hs; try reflexivity; apply Z.leb_gt in Hs; lia.
  - rewrite <- app_comm_cons, read_varint_cons. rewrite len_cons in Hlen.
    inversion Hall as [ | ? ? Hb Hall']; subst.
    destruct (64 <=? shift); [reflexivity | ].
    destruct (byte_val b <? 128) eqn:Hlt; [apply Z.ltb_lt in Hlt; lia | ].
    apply IH; [assumption | lia].
Qed.

(** *** The accumulating statements add disjoint bits *)

Lemma land_low_high a k s :
  0 <= s -> 0 <= a < 2 ^ s -> Z.land a (k * 2 ^ s) = 0.
Proof.
  intros Hs Ha. apply Z.bits_inj'. intros n Hn.
  rewrite Z.land_spec, Z.bits_0, <- Z.shiftl_mul_pow2 by lia.
  destruct (Z.lt_ge_cases n s) as [Hlt | Hge].
  - rewrite (Z.shiftl_spec_low k s n) by lia. apply andb_false_r.
  - destruct (Z.eq_dec a 0) as [-> | Hnz]; [now rewrite Z.bits_0 | ].
    rewrite (Z.bits_above_log2 a n); [reflexivity | lia | ].
    assert (Z.log2 a < s) by (apply Z.log2_lt_pow2; lia). lia.
Qed.

Lemma lor_low_high a k s :
  0 <= s -> 0 <= a < 2 ^ s -> Z.lor a (k * 2 ^ s) = a + k * 2 ^ s.
Proof.
  intros Hs Ha. pose proof (land_low_high a k s Hs Ha) as H.
  rewrite <- Z.lxor_lor by assumption. symmetry. now apply Z.add_nocarry_lxor.
Qed.

Lemma land_127 x : Z.land x 127 = x mod 128.
Proof. change 127 with (Z.ones 7). rewrite Z.land_ones by lia. reflexivity. Qed.

Lemma or_uint64_add v b shift :
  0 <= shift -> 0 <= v < 2 ^ shift ->
  v + (byte_val b mod 128) * 2 ^ shift < 2 ^ 64 ->
  or_uint64 v b shift = v + (byte_val b mod 128) * 2 ^ shift.
Proof.
  intros Hs Hv Hb. unfold or_uint64.
  rewrite land_127, Z.shiftl_mul_pow2 by lia.
  assert (0 <= byte_val b mod 128) by (apply Z.mod_pos_bound; lia).
  rewrite (uint64_small (_ * _)) by nia. rewrite lor_low_high by assumption.
  apply uint64_small. nia.
Qed.

Lemma or_int_add v b shift :
  0 <= shift -> 0 <= v < 2 ^ shift ->
  v + (byte_val b mod 128) * 2 ^ shift < 2 ^ 63 ->
  or_int v b shift = v + (byte_val b mod 128) * 2 ^ shift.
Proof.
  intros Hs Hv Hb. unfold or_int.
  rewrite land_127, Z.shiftl_mul_pow2 by lia.
  assert (0 <= byte_val b mod 128) by (apply Z.mod_pos_bound; lia).
  rewrite (int_small (_ * _)) by nia. rewrite lor_low_high by assumption.
  apply int_small. nia.
Qed.

Lemma byte_val_continuation x :
  0 <= x -> byte_val (uint8 (Z.lor (Z.land x 127) 128)) = x mod 128 + 128.
Proof.
  intros Hx. rewrite byte_val_uint8, land_127.
  assert (0 <= x mod 128 < 128) by (apply Z.mod_pos_bound; lia).
  change 128 with (1 * 2 ^ 7) at 2. rewrite lor_low_high by (simpl; lia).
  apply Z.mod_small. lia.
Qed.

Lemma byte_val_last x : 0 <= x < 128 -> byte_val (uint8 x) = x.
Proof. intros Hx. rewrite byte_val_uint8. apply Z.mod_small. lia. Qed.

Lemma read_varint_uvarint_groups acc bound
  (Hacc : forall v b s, 0 <= s -> 0 <= v < 2 ^ s ->
     v + (byte_val b mod 128) * 2 ^ s < bound ->
     acc v b s = v + (byte_val b mod 128) * 2 ^ s)
  (Hbound : bound <= 2 ^ 64) n :
  forall x s v i r,
    0 <= x < 2 ^ (7 * Z.of_nat (S n)) -> 0 <= s < 64 -> 0 <= v < 2 ^ s ->
    v + x * 2 ^ s < bound ->
    read_varint acc s v i (uvarint_groups (S n) x ++ r)
    = Ok (v + x * 2 ^ s, Cursor (i + len (uvarint_groups (S n) x)) r).
Proof.
  induction n as [ | n IH]; intros x s v i r Hx Hs Hv Hb;
    rewrite uvarint_groups_S.
  - change (2 ^ (7 * Z.of_nat 1)) with 128 in Hx.
    destruct (128 <=? x) eqn:H; [apply Z.leb_le in H; lia | ].
    cbn [app]. rewrite read_varint_cons.
    destruct (64 <=? s) eqn:H64; [apply Z.leb_le in H64; lia | ].
    rewrite byte_val_last by lia.
    destruct (x <? 128) eqn:Hlt; [ | apply Z.ltb_ge in Hlt; lia].
    rewrite Hacc; rewrite ?byte_val_last, ?Z.mod_small by lia; try lia.
    reflexivity.
  - destruct (128 <=? x) eqn:H.
    + apply Z.leb_le in H. rewrite <- app_comm_cons, read_varint_cons.
      destruct (64 <=? s) eqn:H64; [apply Z.leb_le in H64; lia | ].
      rewrite byte_val_continuation by lia.
      assert (Hm : 0 <= x mod 128 < 128) by (apply Z.mod_pos_bound; lia).
      destruct (x mod 128 + 128 <? 128) eqn:Hlt; [apply Z.ltb_lt in Hlt; lia | ].
      pose proof (shiftr7_bound (S n) x Hx H) as Hsh.
      rewrite Z.shiftr_div_pow2 in * by lia. change (2 ^ 7) with 128 in *.
      pose proof (Z.div_mod x 128 ltac:(lia)) as Hdm.
      assert (Hp : 2 ^ (s + 7) = 128 * 2 ^ s)
        by (rewrite Z.pow_add_r by lia; change (2 ^ 7) with 128; lia).
      assert (Hpos : 0 < 2 ^ s) by (apply Z.pow_pos_nonneg; lia).
      assert (Hq : 1 <= x / 128) by (apply Z.div_le_lower_bound; lia).
      assert (Hs7 : s + 7 < 64).
      { destruct (Z.lt_ge_cases (s + 7) 64) as [ | Hge]; [assumption | exfalso].
        assert (2 ^ 64 <= 2 ^ (s + 7)) by (apply Z.pow_le_mono_r; lia).
        nia. }
      assert (Hbv : byte_val (uint8 (Z.lor (Z.land x 127) 128)) mod 128 = x mod 128).
      { rewrite byte_val_continuation by lia.
        rewrite <- Z.add_mod_idemp_r, Z.mod_same, Z.add_0_r, Z.mod_mod; lia. }
      rewrite Hacc by (rewrite ?Hbv; try lia; nia).
      rewrite Hbv.
      rewrite IH by (try lia; nia).
      rewrite len_cons. do 2 f_equal; [nia | f_equal; lia].
    + apply Z.leb_gt in H. cbn [app]. rewrite read_varint_cons.
      destruct (64 <=? s) eqn:H64; [apply Z.leb_le in H64; lia | ].
      rewrite byte_val_last by lia.
      destruct (x <? 128) eqn:Hlt; [ | apply Z.ltb_ge in Hlt; lia].
      rewrite Hacc; rewrite ?byte_val_last, ?Z.mod_small by lia; try lia.
      reflexivity.
Qed.

Lemma varint_uvarint_uint64 x i r :
  0 <= x < 2 ^ 64 ->
  varint or_uint64 (Cursor i (uvarint x ++ r)) = Ok (x, Cursor (i + len (uvarint x)) r).
Proof.
  intros Hx. unfold varint, uvarint. cbn [iNdEx rest].
  rewrite (read_varint_uvarint_groups or_uint64 (2 ^ 64)
             ltac:(intros; now apply or_uint64_add) ltac:(lia))
    by (change (2 ^ (7 * Z.of_nat 10)) with (2 ^ 70); lia).
  do 2 f_equal. lia.
Qed.

Lemma varint_uvarint_int x i r :
  0 <= x < 2 ^ 63 ->
  varint or_int (Cursor i (uvarint x ++ r)) = Ok (x, Cursor (i + len (uvarint x)) r).
Proof.
  intros Hx. unfold varint, uvarint. cbn [iNdEx rest].
  rewrite (read_varint_uvarint_groups or_int (2 ^ 63)
             ltac:(intros; now apply or_int_add) ltac:(lia))
    by (change (2 ^ (7 * Z.of_nat 10)) with (2 ^ 70); lia).
  do 2 f_equal. lia.
Qed.

(** ** skipCommon on a longer and on a shorter input *)

Lemma drop_app_some {A} n (p q : list A) : exists q', drop n (p ++ q) = drop n p ++ q'.
Proof.
  destruct (Z.le_gt_cases n (len p)).
  - exists q. now apply drop_app_l.
  - exists (drop (n - len p) q). rewrite drop_app_r, (drop_all n p) by lia. reflexivity.
Qed.

Lemma drop_app_nonempty {A} n (p r : list A) :
  drop n p <> [] -> drop n (p ++ r) = drop n p ++ r.
Proof.
  intros H. apply drop_app_l.
  destruct (Z.le_gt_cases n (len p)); [assumption | ].
  exfalso. apply H. apply drop_all. lia.
Qed.

Lemma length_drop_le {A} n (p : list A) : (List.length (drop n p) <= List.length p)%nat.
Proof. unfold drop. rewrite length_skipn. lia. Qed.

Lemma varint_progress acc j bs x c' :
  varint acc (Cursor j bs) = Ok (x, c') ->
  (List.length (rest c') < List.length bs)%nat /\ j < iNdEx c'.
Proof.
  unfold varint. cbn [iNdEx rest]. intros H.
  apply read_varint_inv in H. destruct H as [k [Hk ->]]. cbn [iNdEx rest].
  unfold drop, len in *. rewrite length_skipn. lia.
Qed.

Lemma skip_value_cases wt :
  wt = 0 \/ wt = 1 \/ wt = 2 \/ wt = 3 \/ wt = 4 \/ wt = 5
  \/ forall depth c, skip_value wt depth c = Err (ErrIllegalWireType wt).
Proof.
  destruct wt as [ | p | p]; [now left | | do 6 right; reflexivity].
  destruct p as [[p | p | ] | [p | p | ] | ]; try destruct p;
    first [ now left
          | now (right; left)
          | now (do 2 right; left)
          | now (do 3 right; left)
          | now (do 4 right; left)
          | now (do 5 right; left)
          | do 6 right; reflexivity ].
Qed.

Lemma skip_value_prefix wt depth j p q c' d' :
  skip_value wt depth (Cursor j (p ++ q)) = Ok (c', d') ->
  skip_value wt depth (Cursor j p) = Err ErrUnexpectedEOF
  \/ exists rp q', skip_value wt depth (Cursor j p) = Ok (Cursor (iNdEx c') rp, d')
                   /\ rest c' = rp ++ q'
                   /\ (List.length rp <= List.length p)%nat.
Proof.
  intros H.
  destruct (skip_value_cases wt) as [-> | [-> | [-> | [-> | [-> | [-> | Hbad]]]]]];
    [ | | | | | | rewrite Hbad in H; discriminate ];
    cbn [skip_value iNdEx rest] in *.
  - inv_bind H. destruct x as [x0 c1]. injection H as -> <-.
    unfold varint in *. cbn [iNdEx rest] in *.
    destruct (read_varint_prefix _ _ _ _ _ _ _ _ Hx) as [-> | [rp [Hp Hr]]];
      [now left | right].
    rewrite Hp. cbn [bind]. exists rp, q. repeat split; try assumption.
    apply read_varint_inv in Hp. destruct Hp as [k [Hk Hc]].
    injection Hc as _ ->. apply length_drop_le.
  - right. injection H as <- <-. cbn [iNdEx rest].
    destruct (drop_app_some 8 p q) as [q' Hq'].
    exists (drop 8 p), q'. repeat split; [assumption | apply length_drop_le].
  - inv_bind H. destruct x as [n c1].
    unfold varint in *. cbn [iNdEx rest] in *.
    destruct (read_varint_prefix _ _ _ _ _ _ _ _ Hx) as [-> | [rp [Hp Hr]]];
      [now left | right].
    rewrite Hp. cbn [bind iNdEx rest].
    destruct (n <? 0); [discriminate | ]. injection H as <- <-.
    cbn [iNdEx rest]. rewrite Hr.
    destruct (drop_app_some n rp q) as [q' Hq'].
    exists (drop n rp), q'. repeat split; [assumption | ].
    apply read_varint_inv in Hp. destruct Hp as [k [Hk Hc]].
    injection Hc as _ ->. etransitivity; apply length_drop_le.
  - right. injection H as <- <-. exists p, q. repeat split; reflexivity || lia.
  - right. destruct (depth =? 0); [discriminate | ].
    injection H as <- <-. exists p, q. repeat split; reflexivity || lia.
  - right. injection H as <- <-. cbn [iNdEx rest].
    destruct (drop_app_some 4 p q) as [q' Hq'].
    exists (drop 4 p), q'. repeat split; [assumption | apply length_drop_le].
Qed.

Lemma skip_value_app wt depth j f c' d' r :
  skip_value wt depth (Cursor j f) = Ok (c', d') ->
  exists rest'',
    skip_value wt depth (Cursor j (f ++ r)) = Ok (Cursor (iNdEx c') rest'', d')
    /\ (rest c' <> [] -> rest'' = rest c' ++ r)
    /\ (List.length rest'' <= List.length (f ++ r))%nat.
Proof.
  intros H.
  destruct (skip_value_cases wt) as [-> | [-> | [-> | [-> | [-> | [-> | Hbad]]]]]];
    [ | | | | | | rewrite Hbad in H; discriminate ];
    cbn [skip_value iNdEx rest] in *.
  - inv_bind H. destruct x as [x0 c1]. injection H as -> <-.
    unfold varint in *. cbn [iNdEx rest] in *.
    rewrite (read_varint_app _ _ _ _ _ _ _ r Hx). cbn [bind].
    eexists. repeat split.
    apply read_varint_inv in Hx. destruct Hx as [k [Hk ->]]. cbn [rest].
    rewrite !length_app. pose proof (length_drop_le k f). lia.
  - injection H as <- <-. cbn [iNdEx rest].
    eexists. repeat split; [apply drop_app_nonempty | apply length_drop_le].
  - inv_bind H. destruct x as [n c1].
    unfold varint in *. cbn [iNdEx rest] in *.
    rewrite (read_varint_app _ _ _ _ _ _ _ r Hx). cbn [bind iNdEx rest].
    destruct (n <? 0); [discriminate | ]. injection H as <- <-. cbn [iNdEx rest].
    eexists. repeat split; [apply drop_app_nonempty | ].
    apply read_varint_inv in Hx. destruct Hx as [k [Hk ->]]. cbn [rest].
    etransitivity; [apply length_drop_le | ].
    rewrite !length_app. pose proof (length_drop_le k f). lia.
  - injection H as <- <-. eexists. repeat split; reflexivity || lia.
  - destruct (depth =? 0); [discriminate | ].
    injection H as <- <-. eexists. repeat split; reflexivity || lia.
  - injection H as <- <-. cbn [iNdEx rest].
    eexists. repeat split; [apply drop_app_nonempty | apply length_drop_le].
Qed.

Lemma skipCommon_loop_step fuel depth j b bs :
  skipCommon_loop (S fuel) depth (Cursor j (b :: bs))
  = ('(wire, c) <- varint or_uint64 (Cursor j (b :: bs)) ;;
     '(c, depth) <- skip_value (int (Z.land wire 7)) depth c ;;
     if iNdEx c <? 0 then Err ErrInvalidLengthCommon
     else if depth =? 0 then Ok (iNdEx c)
     else skipCommon_loop fuel depth c).
Proof. reflexivity. Qed.

Lemma skipCommon_loop_nil fuel depth j :
  skipCommon_loop fuel depth (Cursor j []) = Err ErrUnexpectedEOF.
Proof. destruct fuel; reflexivity. Qed.

Lemma skipCommon_loop_prefix fuel : forall depth j p q n,
  skipCommon_loop fuel depth (Cursor j (p ++ q)) = Ok n ->
  forall fuel', (List.length p <= fuel')%nat ->
    skipCommon_loop fuel' depth (Cursor j p) = Err ErrUnexpectedEOF
    \/ skipCommon_loop fuel' depth (Cursor j p) = Ok n.
Proof.
  induction fuel as [ | fuel IH]; intros depth j p q n H fuel' Hfuel.
  - destruct p as [ | b p]; [left; apply skipCommon_loop_nil | ].
    cbn in H. discriminate.
  - destruct p as [ | b p]; [left; apply skipCommon_loop_nil | ].
    destruct fuel' as [ | fuel']; [cbn in Hfuel; lia | ].
    rewrite <- app_comm_cons in H. rewrite skipCommon_loop_step in *.
    inv_bind H. destruct x as [wire c1]. rewrite app_comm_cons in Hx.
    unfold varint in Hx |- *. cbn [iNdEx rest] in Hx |- *.
    destruct (read_varint_prefix _ _ _ _ _ _ _ _ Hx) as [-> | [rp1 [Hp1 Hr1]]];
      [now left | ].
    rewrite Hp1. cbn [bind].
    apply read_varint_inv in Hp1. destruct Hp1 as [k [Hk Hc]].
    injection Hc as _ Hrp1.
    assert (Hlen1 : (List.length rp1 < List.length (b :: p))%nat).
    { rewrite Hrp1. unfold drop, len in *. rewrite length_skipn. lia. }
    destruct c1 as [j1 r1]. cbn [iNdEx rest] in *. subst r1.
    inv_bind H. destruct x as [c2 d2].
    destruct (skip_value_prefix _ _ _ _ _ _ _ Hx0) as [-> | [rp2 [q2 [Hp2 [Hr2 Hlen2]]]]];
      [now left | ].
    rewrite Hp2. cbn [bind iNdEx].
    destruct (iNdEx c2 <? 0); [discriminate | ].
    destruct (d2 =? 0); [now right | ].
    destruct c2 as [j2 r2]. cbn [iNdEx rest] in *. subst r2.
    apply (IH _ _ _ _ _ H). cbn [List.length] in *. lia.
Qed.

Lemma skipCommon_loop_app fuel : forall depth j f n,
  skipCommon_loop fuel depth (Cursor j f) = Ok n ->
  forall r fuel', (List.length (f ++ r) <= fuel')%nat ->
    skipCommon_loop fuel' depth (Cursor j (f ++ r)) = Ok n.
Proof.
  induction fuel as [ | fuel IH]; intros depth j f n H r fuel' Hfuel.
  - destruct f; cbn in H; discriminate.
  - destruct f as [ | b f]; [cbn in H; discriminate | ].
    destruct fuel' as [ | fuel']; [cbn in Hfuel; lia | ].
    rewrite <- app_comm_cons. rewrite skipCommon_loop_step in *.
    inv_bind H. destruct x as [wire c1]. rewrite app_comm_cons.
    unfold varint in Hx |- *. cbn [iNdEx rest] in Hx |- *.
    rewrite (read_varint_app _ _ _ _ _ _ _ r Hx). cbn [bind].
    apply read_varint_inv in Hx. destruct Hx as [k [Hk ->]]. cbn [iNdEx rest] in *.
    assert (Hlen1 : (List.length (drop k (b :: f) ++ r) < List.length ((b :: f) ++ r))%nat).
    { rewrite !length_app. unfold drop, len in *. rewrite length_skipn. lia. }
    inv_bind H. destruct x as [c2 d2].
    destruct (skip_value_app _ _ _ _ _ _ r Hx) as [rest'' [Hs [Hr Hlen2]]].
    rewrite Hs. cbn [bind iNdEx].
    destruct (iNdEx c2 <? 0); [discriminate | ].
    destruct (d2 =? 0); [assumption | ].
    destruct c2 as [j2 r2]. cbn [iNdEx rest] in *.
    assert (Hne : r2 <> []).
    { intros ->. rewrite skipCommon_loop_nil in H. discriminate. }
    rewrite (Hr Hne). apply (IH _ _ _ _ H).
    rewrite <- (Hr Hne). cbn [List.length app] in *. lia.
Qed.

Lemma skipCommon_app f n r :
  skipCommon f = Ok n -> skipCommon (f ++ r) = Ok n.
Proof.
  unfold skipCommon. intros H. now apply (skipCommon_loop_app _ _ _ _ _ H).
Qed.

Lemma skipCommon_prefix p q n :
  skipCommon (p ++ q) = Ok n ->
  skipCommon p = Err ErrUnexpectedEOF \/ skipCommon p = Ok n.
Proof.
  unfold skipCommon. intros H. now apply (skipCommon_loop_prefix _ _ _ _ _ _ H).
Qed.

(** ** The pieces of a loop body *)

Lemma int_add_exact j n :
  0 <= j < 2 ^ 63 -> 0 <= n < 2 ^ 63 -> 0 <= int (j + n) -> int (j + n) = j + n.
Proof.
  intros Hj Hn Hp. destruct (Z.lt_ge_cases (j + n) (2 ^ 63)).
  - apply int_small. lia.
  - rewrite int_wraps_negative in * by lia. lia.
Qed.

Lemma read_varint_result acc (P : Z -> Prop) bs :
  (forall v b s, P (acc v b s)) ->
  forall shift v i x c', read_varint acc shift v i bs = Ok (x, c') -> P x.
Proof.
  intros HP. induction bs as [ | b bs IH]; intros shift v i x c' H.
  - rewrite read_varint_nil in H. destruct (64 <=? shift); discriminate.
  - rewrite read_varint_cons in H.
    destruct (64 <=? shift); [discriminate | ].
    destruct (byte_val b <? 128).
    + injection H as <- _. apply HP.
    + eapply IH, H.
Qed.

Lemma read_length_range k c n c' :
  read_length k c = Ok (n, c') -> - 2 ^ 63 <= n < 2 ^ 63.
Proof.
  destruct k; cbn [read_length]; unfold read_msglen, read_stringLen, varint; intros H.
  - apply (read_varint_result or_int (fun n => - 2 ^ 63 <= n < 2 ^ 63)) in H;
      [assumption | intros; apply int_range].
  - inv_bind H. destruct x as [x c1]. injection H as <- _. apply int_range.
Qed.

Lemma read_length_inv k j bs n c' :
  read_length k (Cursor j bs) = Ok (n, c') ->
  exists i, 1 <= i <= len bs /\ c' = Cursor (j + i) (drop i bs).
Proof.
  destruct k; cbn [read_length]; unfold read_msglen, read_stringLen, varint;
    cbn [iNdEx rest]; intros H.
  - eapply read_varint_inv, H.
  - inv_bind H. destruct x as [x c1]. injection H as _ <-.
    eapply read_varint_inv, Hx.
Qed.

Lemma read_length_app k j bs n c' r :
  read_length k (Cursor j bs) = Ok (n, c') ->
  read_length k (Cursor j (bs ++ r)) = Ok (n, Cursor (iNdEx c') (rest c' ++ r)).
Proof.
  destruct k; cbn [read_length]; unfold read_msglen, read_stringLen, varint;
    cbn [iNdEx rest]; intros H.
  - now apply read_varint_app.
  - inv_bind H. destruct x as [x c1]. injection H as <- <-.
    rewrite (read_varint_app _ _ _ _ _ _ _ r Hx). reflexivity.
Qed.

Lemma read_length_prefix k j p q n c' :
  read_length k (Cursor j (p ++ q)) = Ok (n, c') ->
  read_length k (Cursor j p) = Err ErrUnexpectedEOF
  \/ exists rp, read_length k (Cursor j p) = Ok (n, Cursor (iNdEx c') rp)
                /\ rest c' = rp ++ q.
Proof.
  destruct k; cbn [read_length]; unfold read_msglen, read_stringLen, varint;
    cbn [iNdEx rest]; intros H.
  - now apply read_varint_prefix.
  - inv_bind H. destruct x as [x c1]. injection H as <- <-.
    destruct (read_varint_prefix _ _ _ _ _ _ _ _ Hx) as [-> | [rp [-> Hr]]];
      [now left | right].
    exists rp. split; [reflexivity | assumption].
Qed.

Lemma read_length_uvarint k n j r :
  0 <= n < 2 ^ 63 ->
  read_length k (Cursor j (uvarint n ++ r)) = Ok (n, Cursor (j + len (uvarint n)) r).
Proof.
  intros Hn. destruct k; cbn [read_length]; unfold read_msglen, read_stringLen.
  - now apply varint_uvarint_int.
  - rewrite varint_uvarint_uint64 by lia. cbn [bind]. rewrite int_small by lia.
    reflexivity.
Qed.

Lemma payload_inv l n j bs s c' :
  payload l n (Cursor j bs) = Ok (s, c') ->
  0 <= n /\ 0 <= int (j + n) <= l
  /\ s = take (int (j + n) - j) bs
  /\ c' = Cursor (int (j + n)) (drop (int (j + n) - j) bs).
Proof.
  unfold payload. cbn [iNdEx rest]. intros H.
  destruct (n <? 0) eqn:Hn; [discriminate | ]. apply Z.ltb_ge in Hn.
  destruct (int (j + n) <? 0) eqn:Hp; [discriminate | ]. apply Z.ltb_ge in Hp.
  destruct (int (j + n) >? l) eqn:Hl; [discriminate | ].
  rewrite Z.gtb_ltb in Hl. apply Z.ltb_ge in Hl.
  injection H as <- <-. repeat split; assumption.
Qed.

Lemma payload_intro l n j bs :
  0 <= n -> 0 <= int (j + n) <= l ->
  payload l n (Cursor j bs)
  = Ok (take (int (j + n) - j) bs, Cursor (int (j + n)) (drop (int (j + n) - j) bs)).
Proof.
  intros Hn Hp. unfold payload. cbn [iNdEx rest].
  destruct (n <? 0) eqn:H1; [apply Z.ltb_lt in H1; lia | ].
  destruct (int (j + n) <? 0) eqn:H2; [apply Z.ltb_lt in H2; lia | ].
  destruct (int (j + n) >? l) eqn:H3;
    [rewrite Z.gtb_ltb in H3; apply Z.ltb_lt in H3; lia | ].
  reflexivity.
Qed.

Lemma payload_exact l n j bs :
  0 <= n -> 0 <= j -> j + n <= l -> l < 2 ^ 63 ->
  payload l n (Cursor j bs) = Ok (take n bs, Cursor (j + n) (drop n bs)).
Proof.
  intros Hn Hj Hl Hb. rewrite payload_intro; rewrite ?int_small by lia; try lia.
  replace (j + n - j) with n by lia. reflexivity.
Qed.

Lemma payload_negative l n c : n < 0 -> payload l n c = Err ErrInvalidLengthCommon.
Proof.
  intros Hn. unfold payload.
  destruct (n <? 0) eqn:H; [reflexivity | apply Z.ltb_ge in H; lia].
Qed.

Lemma payload_wraps l n c :
  0 <= n < 2 ^ 63 -> 0 <= iNdEx c < 2 ^ 63 -> 2 ^ 63 <= iNdEx c + n ->
  payload l n c = Err ErrInvalidLengthCommon.
Proof.
  intros Hn Hj Hw. unfold payload.
  destruct (n <? 0) eqn:H; [reflexivity | ].
  rewrite int_wraps_negative by lia.
  destruct (iNdEx c + n - 2 ^ 64 <? 0) eqn:H2; [reflexivity | apply Z.ltb_ge in H2; lia].
Qed.

Lemma payload_past_end l n c :
  0 <= n -> 0 <= iNdEx c -> iNdEx c + n < 2 ^ 63 -> l < iNdEx c + n ->
  payload l n c = Err ErrUnexpectedEOF.
Proof.
  intros Hn Hj Hb Hl. unfold payload.
  destruct (n <? 0) eqn:H; [apply Z.ltb_lt in H; lia | ].
  rewrite int_small by lia.
  destruct (iNdEx c + n <? 0) eqn:H2; [apply Z.ltb_lt in H2; lia | ].
  destruct (iNdEx c + n >? l) eqn:H3; [reflexivity | ].
  rewrite Z.gtb_ltb in H3. apply Z.ltb_ge in H3. lia.
Qed.

Lemma read_tag_inv msg c fn wt c' :
  read_tag msg c = Ok (fn, wt, c') ->
  exists wire, varint or_uint64 c = Ok (wire, c')
               /\ fn = int32 (Z.shiftr wire 3) /\ wt = int (Z.land wire 7)
               /\ wt <> 4 /\ 0 < fn.
Proof.
  unfold read_tag. intros H. inv_bind H. destruct x as [wire c1].
  destruct (int (Z.land wire 7) =? 4) eqn:H4; [discriminate | ].
  destruct (int32 (Z.shiftr wire 3) <=? 0) eqn:H0; [discriminate | ].
  injection H as <- <- <-. exists wire.
  apply Z.eqb_neq in H4. apply Z.leb_gt in H0. repeat split; assumption.
Qed.

Lemma read_tag_intro msg c wire c' :
  varint or_uint64 c = Ok (wire, c') ->
  int (Z.land wire 7) <> 4 -> 0 < int32 (Z.shiftr wire 3) ->
  read_tag msg c = Ok (int32 (Z.shiftr wire 3), int (Z.land wire 7), c').
Proof.
  intros Hv H4 H0. unfold read_tag. rewrite Hv. cbn [bind].
  destruct (int (Z.land wire 7) =? 4) eqn:E4; [apply Z.eqb_eq in E4; contradiction | ].
  destruct (int32 (Z.shiftr wire 3) <=? 0) eqn:E0; [apply Z.leb_le in E0; lia | ].
  reflexivity.
Qed.

Lemma read_tag_end_group msg c wire c' :
  varint or_uint64 c = Ok (wire, c') -> int (Z.land wire 7) = 4 ->
  read_tag msg c = Err (ErrEndGroupForNonGroup msg).
Proof.
  intros Hv H4. unfold read_tag. rewrite Hv. cbn [bind]. rewrite H4. reflexivity.
Qed.

(** A tag of one byte. *)
Lemma varint_one_byte acc j b bs :
  byte_val b < 128 -> varint acc (Cursor j (b :: bs)) = Ok (acc 0 b 0, Cursor (j + 1) bs).
Proof.
  intros Hb. unfold varint. cbn [iNdEx rest]. rewrite read_varint_cons.
  change (64 <=? 0) with false. cbv iota.
  destruct (byte_val b <? 128) eqn:H; [reflexivity | apply Z.ltb_ge in H; lia].
Qed.

(** *** Positions reached by skipCommon *)

Lemma skip_value_range wt depth j bs c' d' :
  0 <= j -> j + len bs < 2 ^ 63 ->
  skip_value wt depth (Cursor j bs) = Ok (c', d') -> 0 <= iNdEx c' ->
  j <= iNdEx c' /\ iNdEx c' + len (rest c') < 2 ^ 63
  /\ (List.length (rest c') <= List.length bs)%nat.
Proof.
  intros Hj Hb H Hpos. pose proof (len_nonneg bs) as Hl.
  assert (Hjump : forall n, 0 <= n < 2 ^ 63 -> 0 <= int (j + n) ->
            j <= int (j + n) /\ int (j + n) + len (drop n bs) < 2 ^ 63
            /\ (List.length (drop n bs) <= List.length bs)%nat).
  { intros n Hn Hp. pose proof (int_range (j + n)) as Hr.
    rewrite int_add_exact in * by lia.
    split; [lia | split; [ | apply length_drop_le]].
    destruct (Z.le_gt_cases n (len bs)).
    - rewrite len_drop by lia. lia.
    - rewrite drop_all by lia. change (@len byte []) with 0. lia. }
  destruct (skip_value_cases wt) as [-> | [-> | [-> | [-> | [-> | [-> | Hbad]]]]]];
    [ | | | | | | rewrite Hbad in H; discriminate ];
    cbn [skip_value iNdEx rest] in *.
  - inv_bind H. destruct x as [x0 c1]. injection H as <- _.
    unfold varint in Hx. cbn [iNdEx rest] in Hx.
    apply read_varint_inv in Hx. destruct Hx as [k [Hk ->]]. cbn [iNdEx rest] in *.
    split; [lia | split; [rewrite len_drop by lia; lia | apply length_drop_le]].
  - injection H as <- _. cbn [iNdEx rest] in *. apply Hjump; lia.
  - inv_bind H. destruct x as [n c1].
    unfold varint in Hx. cbn [iNdEx rest] in Hx.
    assert (Hn : - 2 ^ 63 <= n < 2 ^ 63).
    { apply (read_varint_result or_int (fun n => - 2 ^ 63 <= n < 2 ^ 63)) in Hx;
        [assumption | intros; apply int_range]. }
    apply read_varint_inv in Hx. destruct Hx as [k [Hk ->]]. cbn [iNdEx rest] in *.
    destruct (n <? 0) eqn:Hn0; [discriminate | ]. apply Z.ltb_ge in Hn0.
    injection H as <- _. cbn [iNdEx rest] in *.
    assert (Hk1 : 0 <= j + k < 2 ^ 63) by lia.
    pose proof (int_range (j + k + n)) as Hr.
    rewrite int_add_exact in * by lia.
    pose proof (length_drop_le k bs). pose proof (length_drop_le n (drop k bs)).
    split; [lia | split; [ | lia]].
    destruct (Z.le_gt_cases n (len (drop k bs))).
    + rewrite (len_drop n) by lia. rewrite (len_drop k) by lia. lia.
    + rewrite (drop_all n) by lia. change (@len byte []) with 0. lia.
  - injection H as <- _. cbn [iNdEx rest]. lia.
  - destruct (depth =? 0); [discriminate | ].
    injection H as <- _. cbn [iNdEx rest]. lia.
  - injection H as <- _. cbn [iNdEx rest] in *. apply Hjump; lia.
Qed.

Lemma skipCommon_loop_range fuel : forall depth j bs n,
  0 <= j -> j + len bs < 2 ^ 63 ->
  skipCommon_loop fuel depth (Cursor j bs) = Ok n -> j < n < 2 ^ 63.
Proof.
  induction fuel as [ | fuel IH]; intros depth j bs n Hj Hb H.
  - destruct bs; cbn in H; discriminate.
  - destruct bs as [ | b bs]; [cbn in H; discriminate | ].
    rewrite skipCommon_loop_step in H.
    inv_bind H. destruct x as [wire c1].
    unfold varint in Hx. cbn [iNdEx rest] in Hx.
    apply read_varint_inv in Hx. destruct Hx as [k [Hk ->]].
    inv_bind H. destruct x as [c2 d2].
    destruct (iNdEx c2 <? 0) eqn:Hneg; [discriminate | ]. apply Z.ltb_ge in Hneg.
    pose proof (len_nonneg (drop k (b :: bs))).
    apply skip_value_range in Hx; [ | lia | rewrite len_drop by lia; lia | assumption ].
    destruct Hx as [Hle [Hb2 _]].
    pose proof (len_nonneg (rest c2)).
    destruct (d2 =? 0).
    + injection H as <-. lia.
    + destruct c2 as [j2 r2]. cbn [iNdEx rest] in *.
      apply IH in H; lia.
Qed.

Lemma skipCommon_range bs n :
  len bs < 2 ^ 63 -> skipCommon bs = Ok n -> 0 < n < 2 ^ 63.
Proof.
  unfold skipCommon. intros Hb H. apply skipCommon_loop_range in H; lia.
Qed.

Lemma read_tag_app msg j bs fn wt c' r :
  read_tag msg (Cursor j bs) = Ok (fn, wt, c') ->
  read_tag msg (Cursor j (bs ++ r)) = Ok (fn, wt, Cursor (iNdEx c') (rest c' ++ r)).
Proof.
  intros H. apply read_tag_inv in H. destruct H as [wire [Hv [-> [-> [H4 H0]]]]].
  apply read_tag_intro; try assumption.
  unfold varint in *. cbn [iNdEx rest] in *. now apply read_varint_app.
Qed.

Lemma read_tag_prefix msg j p q fn wt c' :
  read_tag msg (Cursor j (p ++ q)) = Ok (fn, wt, c') ->
  read_tag msg (Cursor j p) = Err ErrUnexpectedEOF
  \/ exists rp, read_tag msg (Cursor j p) = Ok (fn, wt, Cursor (iNdEx c') rp)
                /\ rest c' = rp ++ q.
Proof.
  intros H. apply read_tag_inv in H. destruct H as [wire [Hv [-> [-> [H4 H0]]]]].
  unfold varint in Hv. cbn [iNdEx rest] in Hv.
  destruct (read_varint_prefix _ _ _ _ _ _ _ _ Hv) as [Hp | [rp [Hp Hr]]].
  - left. unfold read_tag, varint. cbn [iNdEx rest]. rewrite Hp. reflexivity.
  - right. exists rp. split; [ | assumption]. now apply read_tag_intro.
Qed.

Lemma read_tag_progress msg j bs fn wt c' :
  read_tag msg (Cursor j bs) = Ok (fn, wt, c') ->
  exists k, 1 <= k <= len bs /\ c' = Cursor (j + k) (drop k bs).
Proof.
  intros H. apply read_tag_inv in H. destruct H as [wire [Hv _]].
  unfold varint in Hv. cbn [iNdEx rest] in Hv. eapply read_varint_inv, Hv.
Qed.

(** ** One iteration of an [Unmarshal] loop *)

Section GenericField.

Context {M : Type} (msg : string) (arms : Z -> option (field_arm M))
  (add : M -> list byte -> M).

Local Abbreviation step := (generic_field msg arms add).

(** An iteration that succeeds moves the cursor forward inside the input. *)
Lemma generic_field_inv l m j bs m' c' :
  0 <= j -> j + len bs = l -> l < 2 ^ 63 ->
  step l m (Cursor j bs) = Ok (m', c') ->
  exists k, 1 <= k <= len bs /\ c' = Cursor (j + k) (drop k bs).
Proof.
  intros Hj Hl Hb H. unfold generic_field in H.
  inv_bind H. destruct x as [[fn wt] c1].
  apply read_tag_progress in Hx. destruct Hx as [k1 [Hk1 ->]].
  destruct (arms fn) as [arm | ].
  - destruct (negb (wt =? 2)); [discriminate | ].
    inv_bind H. destruct x as [n c2].
    pose proof (read_length_range _ _ _ _ Hx) as Hn.
    apply read_length_inv in Hx. destruct Hx as [k2 [Hk2 ->]].
    inv_bind H. destruct x as [s c3].
    apply payload_inv in Hx. destruct Hx as [Hn0 [Hp [_ ->]]].
    inv_bind H. injection H as _ <-.
    rewrite len_drop in Hk2 by lia.
    rewrite int_add_exact in * by lia.
    exists (k1 + k2 + n). split; [lia | ].
    replace (j + k1 + k2 + n - (j + k1 + k2)) with n by lia.
    rewrite !drop_drop by lia. f_equal; [lia | f_equal; lia].
  - inv_bind H. destruct x as [chunk c3]. injection H as _ <-.
    unfold skip_unknown in Hx. cbn [rest] in Hx. inv_bind Hx.
    pose proof (len_nonneg bs).
    apply skipCommon_range in Hx0; [ | lia].
    apply payload_inv in Hx. destruct Hx as [Hn0 [Hp [_ ->]]].
    rewrite int_add_exact in * by lia.
    exists x. split; [lia | ].
    replace (j + x - j) with x by lia. reflexivity.
Qed.

(** An iteration that succeeds does the same when more input follows. *)
Lemma generic_field_app l m j bs m' c' r :
  0 <= j -> j + len bs = l -> l + len r < 2 ^ 63 ->
  step l m (Cursor j bs) = Ok (m', c') ->
  step (l + len r) m (Cursor j (bs ++ r)) = Ok (m', Cursor (iNdEx c') (rest c' ++ r)).
Proof.
  intros Hj Hl Hb H. pose proof (len_nonneg r) as Hr. pose proof (len_nonneg bs).
  unfold generic_field in *.
  inv_bind H. destruct x as [[fn wt] c1].
  rewrite (read_tag_app _ _ _ _ _ _ r Hx). cbn [bind].
  apply read_tag_progress in Hx. destruct Hx as [k1 [Hk1 ->]]. cbn [iNdEx rest].
  destruct (arms fn) as [arm | ].
  - destruct (negb (wt =? 2)); [discriminate | ].
    inv_bind H. destruct x as [n c2].
    rewrite (read_length_app _ _ _ _ _ r Hx). cbn [bind].
    pose proof (read_length_range _ _ _ _ Hx) as Hn.
    apply read_length_inv in Hx. destruct Hx as [k2 [Hk2 ->]]. cbn [iNdEx rest].
    inv_bind H. destruct x as [s c3].
    apply payload_inv in Hx. destruct Hx as [Hn0 [Hp [-> ->]]].
    rewrite len_drop in Hk2 by lia.
    rewrite payload_intro by lia.
    rewrite int_add_exact in * by lia.
    replace (j + k1 + k2 + n - (j + k1 + k2)) with n in * by lia.
    assert (Hlen : n <= len (drop k2 (drop k1 bs))) by (rewrite !len_drop by (rewrite ?len_drop by lia; lia); lia).
    rewrite take_app_l, drop_app_l by assumption.
    cbn [bind]. inv_bind H. rewrite Hx. cbn [bind]. injection H as <- <-.
    reflexivity.
  - inv_bind H. destruct x as [chunk c3]. injection H as <- <-.
    unfold skip_unknown in *. cbn [rest] in *. inv_bind Hx.
    rewrite (skipCommon_app _ _ r Hx0). cbn [bind].
    apply skipCommon_range in Hx0; [ | lia].
    apply payload_inv in Hx. destruct Hx as [Hn0 [Hp [-> ->]]].
    rewrite payload_intro by lia.
    rewrite int_add_exact in * by lia.
    replace (j + x - j) with x in * by lia.
    rewrite take_app_l, drop_app_l by lia. reflexivity.
Qed.

(** An iteration that reads a whole field fails with [ErrUnexpectedEOF] on
    every input that stops inside this field. *)
Lemma generic_field_cut l m j f m' p q :
  0 <= j -> j + len f = l -> l < 2 ^ 63 ->
  step l m (Cursor j f) = Ok (m', Cursor l []) ->
  f = p ++ q -> q <> [] ->
  step (j + len p) m (Cursor j p) = Err ErrUnexpectedEOF.
Proof.
  intros Hj Hl Hb H -> Hq. rewrite len_app in Hl.
  pose proof (len_nonneg p). pose proof (len_nonneg q).
  assert (Hq' : 0 < len q).
  { destruct q; [contradiction | rewrite len_cons; pose proof (len_nonneg q); lia]. }
  unfold generic_field in *.
  inv_bind H. destruct x as [[fn wt] c1].
  destruct (read_tag_prefix _ _ _ _ _ _ _ Hx) as [-> | [rp1 [-> Hr1]]];
    [reflexivity | ].
  cbn [bind].
  apply read_tag_progress in Hx. destruct Hx as [k1 [Hk1 ->]]. cbn [iNdEx rest] in *.
  destruct (arms fn) as [arm | ].
  - destruct (negb (wt =? 2)); [discriminate | ].
    inv_bind H. destruct x as [n c2]. rewrite Hr1 in Hx.
    destruct (read_length_prefix _ _ _ _ _ _ Hx) as [-> | [rp2 [-> Hr2]]];
      [reflexivity | ].
    cbn [bind].
    pose proof (read_length_range _ _ _ _ Hx) as Hn.
    apply read_length_inv in Hx. destruct Hx as [k2 [Hk2 ->]]. cbn [iNdEx rest] in *.
    inv_bind H. destruct x as [s c3].
    apply payload_inv in Hx. destruct Hx as [Hn0 [Hp [_ ->]]].
    inv_bind H. injection H as _ Hpost _.
    assert (Hlen1 : len rp1 = len p - k1).
    { apply (f_equal len) in Hr1. rewrite len_drop, !len_app in Hr1 by lia.
      rewrite len_app in Hk1. lia. }
    rewrite !len_app in *.
    rewrite int_add_exact in * by lia.
    rewrite payload_past_end by (cbn [iNdEx]; lia). reflexivity.
  - inv_bind H. destruct x as [chunk c3]. injection H as _ ->.
    unfold skip_unknown in *. cbn [rest] in *. inv_bind Hx.
    pose proof Hx0 as Hrange.
    apply skipCommon_range in Hrange; [ | rewrite len_app; lia].
    apply payload_inv in Hx. destruct Hx as [Hn0 [Hp [_ Hc]]].
    injection Hc as Hpost _.
    destruct (skipCommon_prefix _ _ _ Hx0) as [-> | ->]; [reflexivity | ].
    cbn [bind]. rewrite !len_app in *.
    rewrite int_add_exact in * by lia.
    rewrite payload_past_end by (cbn [iNdEx]; lia). reflexivity.
Qed.

(** An iteration that succeeds on an input does, on a prefix of this input,
    the same or fails with [ErrUnexpectedEOF]. *)
Lemma generic_field_prefix l m j p q m' c' :
  0 <= j -> j + len p + len q = l -> l < 2 ^ 63 ->
  step l m (Cursor j (p ++ q)) = Ok (m', c') ->
  step (j + len p) m (Cursor j p) = Err ErrUnexpectedEOF
  \/ exists rp, step (j + len p) m (Cursor j p) = Ok (m', Cursor (iNdEx c') rp)
                /\ rest c' = rp ++ q.
Proof.
  intros Hj Hl Hb H.
  pose proof (len_nonneg p). pose proof (len_nonneg q).
  unfold generic_field in *.
  inv_bind H. destruct x as [[fn wt] c1].
  destruct (read_tag_prefix _ _ _ _ _ _ _ Hx) as [-> | [rp1 [-> Hr1]]];
    [left; reflexivity | ].
  cbn [bind].
  apply read_tag_progress in Hx. destruct Hx as [k1 [Hk1 ->]]. cbn [iNdEx rest] in *.
  rewrite len_app in Hk1.
  assert (Hlen1 : len rp1 = len p - k1).
  { apply (f_equal len) in Hr1. rewrite len_drop, !len_app in Hr1 by (rewrite len_app; lia).
    lia. }
  pose proof (len_nonneg rp1).
  destruct (arms fn) as [arm | ].
  - destruct (negb (wt =? 2)); [discriminate | ].
    inv_bind H. destruct x as [n c2]. rewrite Hr1 in Hx.
    destruct (read_length_prefix _ _ _ _ _ _ Hx) as [-> | [rp2 [-> Hr2]]];
      [left; reflexivity | ].
    cbn [bind].
    pose proof (read_length_range _ _ _ _ Hx) as Hn.
    apply read_length_inv in Hx. destruct Hx as [k2 [Hk2 ->]]. cbn [iNdEx rest] in *.
    rewrite len_app in Hk2.
    assert (Hlen2 : len rp2 = len rp1 - k2).
    { apply (f_equal len) in Hr2.
      rewrite len_drop, !len_app in Hr2 by (rewrite len_app; lia). lia. }
    pose proof (len_nonneg rp2).
    inv_bind H. destruct x as [s c3].
    apply payload_inv in Hx. destruct Hx as [Hn0 [Hp [-> ->]]].
    inv_bind H. injection H as <- <-.
    rewrite int_add_exact in * by lia.
    replace (j + k1 + k2 + n - (j + k1 + k2)) with n in * by lia.
    cbn [iNdEx rest]. rewrite Hr2 in *.
    destruct (Z_le_gt_dec (j + k1 + k2 + n) (j + len p)) as [Hin | Hout].
    + right. exists (drop n rp2).
      rewrite payload_exact by lia. cbn [bind].
      rewrite take_app_l in Hx by lia. rewrite Hx. cbn [bind].
      split; [reflexivity | apply drop_app_l; lia].
    + left. rewrite payload_past_end by (cbn [iNdEx]; lia). reflexivity.
  - inv_bind H. destruct x as [chunk c3]. injection H as <- <-.
    unfold skip_unknown in *. cbn [rest] in *. inv_bind Hx.
    pose proof Hx0 as Hrange.
    apply skipCommon_range in Hrange; [ | rewrite len_app; lia].
    apply payload_inv in Hx. destruct Hx as [Hn0 [Hp [-> ->]]].
    rewrite int_add_exact in * by lia.
    replace (j + x - j) with x in * by lia. cbn [iNdEx rest].
    destruct (skipCommon_prefix _ _ _ Hx0) as [-> | ->]; [left; reflexivity | ].
    cbn [bind].
    destruct (Z_le_gt_dec (j + x) (j + len p)) as [Hin | Hout].
    + right. exists (drop x p).
      rewrite payload_exact by lia. cbn [bind].
      rewrite take_app_l by lia.
      split; [reflexivity | apply drop_app_l; lia].
    + left. rewrite payload_past_end by (cbn [iNdEx]; lia). reflexivity.
Qed.

End GenericField.

Lemma read_tag_one_byte msg j b bs fn wt :
  (byte_val b <? 128) = true ->
  (int32 (Z.shiftr (or_uint64 0 b 0) 3), int (Z.land (or_uint64 0 b 0) 7)) = (fn, wt) ->
  (wt =? 4) = false -> (fn <=? 0) = false ->
  read_tag msg (Cursor j (b :: bs)) = Ok (fn, wt, Cursor (j + 1) bs).
Proof.
  intros Hb Hw H4 H0. injection Hw as Hfn Hwt.
  unfold read_tag. rewrite varint_one_byte by (apply Z.ltb_lt; assumption).
  cbn [bind]. rewrite Hfn, Hwt, H4, H0. reflexivity.
Qed.

Lemma read_length_overflow k j pre r :
  Forall (fun b => 128 <= byte_val b) pre -> 10 <= len pre ->
  read_length k (Cursor j (pre ++ r)) = Err ErrIntOverflowCommon.
Proof.
  intros Hall Hlen.
  destruct k; cbn [read_length]; unfold read_msglen, read_stringLen, varint;
    cbn [iNdEx rest]; rewrite read_varint_overflow by (assumption || lia); reflexivity.
Qed.

Lemma is_unknown_field_inv known f :
  is_unknown_field known f = true ->
  exists wire c,
    varint or_uint64 (Cursor 0 f) = Ok (wire, c)
    /\ int (Z.land wire 7) <> 4 /\ 0 < int32 (Z.shiftr wire 3)
    /\ known (int32 (Z.shiftr wire 3)) = false
    /\ skipCommon f = Ok (len f).
Proof.
  unfold is_unknown_field. intros H.
  destruct (varint or_uint64 (Cursor 0 f)) as [[wire c] | | | ]; try discriminate.
  cbv zeta in H. apply andb_prop in H. destruct H as [H Hs].
  apply andb_prop in H. destruct H as [H Hk].
  apply andb_prop in H. destruct H as [H4 H0].
  exists wire, c. split; [reflexivity | ].
  apply negb_true_iff, Z.eqb_neq in H4. apply Z.ltb_lt in H0.
  apply negb_true_iff in Hk.
  destruct (skipCommon f) as [n | | | ]; try discriminate.
  apply Z.eqb_eq in Hs. subst n. repeat split; assumption.
Qed.

Lemma is_unknown_field_nonempty known f : is_unknown_field known f = true -> f <> [].
Proof. intros H ->. discriminate. Qed.

Section GenericLoop.

Context {M : Type} (msg : string) (arms : Z -> option (field_arm M))
  (add : M -> list byte -> M).
Hypothesis add_nil : forall m, add m [] = m.
Hypothesis add_app : forall m a b, add (add m a) b = add m (a ++ b).

Local Abbreviation step := (generic_field msg arms add).
Local Abbreviation run :=
  (fun m d => unmarshal_loop step (List.length d) (len d) m (Cursor 0 d)).

(** The [default:] arm on a field the schema does not know. *)
Lemma generic_field_unknown m j f r :
  is_unknown_field (has_arm arms) f = true ->
  0 <= j -> j + len f + len r < 2 ^ 63 ->
  step (j + len f + len r) m (Cursor j (f ++ r)) = Ok (add m f, Cursor (j + len f) r).
Proof.
  intros Hf Hj Hb. pose proof (len_nonneg f) as Hlf. pose proof (len_nonneg r) as Hlr.
  apply is_unknown_field_inv in Hf.
  destruct Hf as [wire [c [Hv [H4 [H0 [Hk Hs]]]]]].
  unfold varint in Hv. cbn [iNdEx rest] in Hv.
  apply (read_varint_shift _ _ _ _ _ _ _ j) in Hv.
  apply (read_varint_app _ _ _ _ _ _ _ r) in Hv. cbn [iNdEx rest] in Hv.
  unfold generic_field.
  rewrite (read_tag_intro msg (Cursor j (f ++ r)) wire _ Hv H4 H0). cbn [bind].
  unfold has_arm in Hk. destruct (arms (int32 (Z.shiftr wire 3))); [discriminate | ].
  unfold skip_unknown. cbn [rest].
  rewrite (skipCommon_app _ _ r Hs). cbn [bind].
  rewrite payload_exact by lia. cbn [bind].
  now rewrite take_app_len, drop_app_len.
Qed.

(** A [case] arm on a field in the encoding the marshal routines produce. *)
Lemma generic_field_known m j tag fn arm s r m' :
  (forall j bs, read_tag msg (Cursor j (tag :: bs)) = Ok (fn, 2, Cursor (j + 1) bs)) ->
  arms fn = Some arm -> arm_store arm m s = Ok m' ->
  0 <= j -> j + len (message_field tag s) + len r < 2 ^ 63 ->
  step (j + len (message_field tag s) + len r) m (Cursor j (message_field tag s ++ r))
  = Ok (m', Cursor (j + len (message_field tag s)) r).
Proof.
  intros Htag Harm Hstore Hj Hb.
  pose proof (len_nonneg s). pose proof (len_nonneg r).
  rewrite len_message_field in *.
  pose proof (sovCommon_pos (uint64 (len s)) ltac:(apply uint64_range)) as Hsov.
  unfold generic_field, message_field.
  rewrite <- app_comm_cons, Htag. cbn [bind]. rewrite Harm.
  change (negb (2 =? 2)) with false. cbv iota.
  assert (Hs64 : 0 <= len s < 2 ^ 64) by lia.
  rewrite (uint64_small _ Hs64) in *.
  rewrite <- app_assoc, read_length_uvarint by lia. cbn [bind].
  rewrite len_uvarint by lia.
  rewrite payload_exact by lia. cbn [bind].
  rewrite take_app_len, drop_app_len, Hstore. cbn [bind].
  do 3 f_equal. lia.
Qed.

Lemma generic_field_wrong_wire_type l m c wire c' arm :
  varint or_uint64 c = Ok (wire, c') ->
  arms (int32 (Z.shiftr wire 3)) = Some arm -> 0 < int32 (Z.shiftr wire 3) ->
  int (Z.land wire 7) <> 2 -> int (Z.land wire 7) <> 4 ->
  step l m c = Err (ErrWrongWireType (int (Z.land wire 7)) (arm_name arm)).
Proof.
  intros Hv Harm H0 H2 H4. unfold generic_field.
  rewrite (read_tag_intro msg _ wire _ Hv H4 H0). cbn [bind]. rewrite Harm.
  destruct (int (Z.land wire 7) =? 2) eqn:E; [apply Z.eqb_eq in E; contradiction | ].
  reflexivity.
Qed.

Lemma generic_field_end_group l m c wire c' :
  varint or_uint64 c = Ok (wire, c') -> int (Z.land wire 7) = 4 ->
  step l m c = Err (ErrEndGroupForNonGroup msg).
Proof.
  intros Hv H4. unfold generic_field.
  rewrite (read_tag_end_group msg _ wire _ Hv H4). reflexivity.
Qed.

Lemma generic_field_tag_overflow l m j pre r :
  Forall (fun b => 128 <= byte_val b) pre -> 10 <= len pre ->
  step l m (Cursor j (pre ++ r)) = Err ErrIntOverflowCommon.
Proof.
  intros Hall Hlen. unfold generic_field, read_tag, varint. cbn [iNdEx rest].
  rewrite read_varint_overflow by (assumption || lia). reflexivity.
Qed.

Lemma generic_field_length_overflow l m c fn arm j pre r :
  read_tag msg c = Ok (fn, 2, Cursor j (pre ++ r)) -> arms fn = Some arm ->
  Forall (fun b => 128 <= byte_val b) pre -> 10 <= len pre ->
  step l m c = Err ErrIntOverflowCommon.
Proof.
  intros Htag Harm Hall Hlen. unfold generic_field.
  rewrite Htag. cbn [bind]. rewrite Harm.
  change (negb (2 =? 2)) with false. cbv iota.
  rewrite read_length_overflow by assumption. reflexivity.
Qed.

Lemma generic_field_length l m c fn arm c1 n c2 :
  read_tag msg c = Ok (fn, 2, c1) -> arms fn = Some arm ->
  read_length (arm_len arm) c1 = Ok (n, c2) -> 0 <= iNdEx c2 < 2 ^ 63 ->
  (n < 0 -> step l m c = Err ErrInvalidLengthCommon)
  /\ (0 <= n -> 2 ^ 63 <= iNdEx c2 + n -> step l m c = Err ErrInvalidLengthCommon)
  /\ (0 <= n -> l < iNdEx c2 + n < 2 ^ 63 -> step l m c = Err ErrUnexpectedEOF).
Proof.
  intros Htag Harm Hlen Hj.
  pose proof (read_length_range _ _ _ _ Hlen) as Hn.
  assert (Hstep : step l m c = ('(s, c) <- payload l n c2 ;;
                                  m <- arm_store arm m s ;; Ok (m, c))).
  { unfold generic_field. rewrite Htag. cbn [bind]. rewrite Harm.
    change (negb (2 =? 2)) with false. cbv iota. rewrite Hlen. reflexivity. }
  rewrite Hstep. repeat split; intros.
  - rewrite payload_negative by assumption. reflexivity.
  - rewrite payload_wraps by lia. reflexivity.
  - rewrite payload_past_end by lia. reflexivity.
Qed.

(** The [default:] arm reports a field that [skipCommon] places past the
    end of the input. *)
Lemma generic_field_unknown_past_end l m j bs fn wt c1 skippy :
  read_tag msg (Cursor j bs) = Ok (fn, wt, c1) -> arms fn = None ->
  skipCommon bs = Ok skippy -> 0 <= j -> l < j + skippy < 2 ^ 63 -> 0 <= skippy ->
  step l m (Cursor j bs) = Err ErrUnexpectedEOF.
Proof.
  intros Htag Harm Hs Hj Hl H0. unfold generic_field.
  rewrite Htag. cbn [bind]. rewrite Harm. unfold skip_unknown. cbn [rest].
  rewrite Hs. cbn [bind]. rewrite payload_past_end by (cbn [iNdEx]; lia).
  reflexivity.
Qed.

Lemma generic_field_skip_error l m j bs fn wt c1 e :
  read_tag msg (Cursor j bs) = Ok (fn, wt, c1) -> arms fn = None ->
  skipCommon bs = Err e ->
  step l m (Cursor j bs) = Err e.
Proof.
  intros Htag Harm Hs. unfold generic_field.
  rewrite Htag. cbn [bind]. rewrite Harm. unfold skip_unknown. cbn [rest].
  rewrite Hs. reflexivity.
Qed.

(** *** The loop *)

Lemma unmarshal_loop_done fuel l m bs :
  unmarshal_loop step fuel l m (Cursor l bs) = Ok m.
Proof.
  destruct fuel; cbn [unmarshal_loop iNdEx]; rewrite Z.ltb_irrefl;
    (destruct (l >? l) eqn:H; [rewrite Z.gtb_ltb, Z.ltb_irrefl in H; discriminate | ]);
    reflexivity.
Qed.

Lemma unmarshal_loop_S fuel l m j bs :
  j < l ->
  unmarshal_loop step (S fuel) l m (Cursor j bs)
  = ('(m, c) <- step l m (Cursor j bs) ;; unmarshal_loop step fuel l m c).
Proof.
  intros H. cbn [unmarshal_loop iNdEx].
  destruct (j <? l) eqn:E; [reflexivity | apply Z.ltb_ge in E; lia].
Qed.

(** A property of the message that every [case] arm and the [default:] arm
    keep holds when the loop ends. *)
Lemma unmarshal_loop_invariant (P : M -> Prop) :
  (forall fn arm m s m', arms fn = Some arm -> P m -> arm_store arm m s = Ok m' -> P m') ->
  (forall m u, P m -> P (add m u)) ->
  forall fuel l m c m', P m -> unmarshal_loop step fuel l m c = Ok m' -> P m'.
Proof.
  intros Harms Hadd.
  induction fuel as [ | fuel IH]; intros l m c m' Hm H; cbn [unmarshal_loop] in H;
    destruct (iNdEx c <? l).
  - discriminate.
  - destruct (iNdEx c >? l); [discriminate | ]. now injection H as <-.
  - inv_bind H. destruct x as [m2 c2]. apply (IH l m2 c2 m'); [ | assumption].
    unfold generic_field in Hx. inv_bind Hx. destruct x as [[fn wt] c1].
    destruct (arms fn) as [arm | ] eqn:Harm.
    + destruct (negb (wt =? 2)); [discriminate | ].
      inv_bind Hx. destruct x as [n c3]. inv_bind Hx. destruct x as [s c4].
      inv_bind Hx. injection Hx as <- _. eapply Harms; eassumption.
    + inv_bind Hx. destruct x as [chunk c3]. injection Hx as <- _. now apply Hadd.
  - destruct (iNdEx c >? l); [discriminate | ]. now injection H as <-.
Qed.

Lemma unmarshal_loop_app fuel : forall l m j bs m1,
  0 <= j -> j + len bs = l ->
  unmarshal_loop step fuel l m (Cursor j bs) = Ok m1 ->
  forall r fuel', l + len r < 2 ^ 63 -> (List.length (bs ++ r) <= fuel')%nat ->
    exists fuel'', (List.length r <= fuel'')%nat
      /\ unmarshal_loop step fuel' (l + len r) m (Cursor j (bs ++ r))
         = unmarshal_loop step fuel'' (l + len r) m1 (Cursor l r).
Proof.
  induction fuel as [ | fuel IH]; intros l m j bs m1 Hj Hl H r fuel' Hb Hfuel;
    pose proof (len_nonneg bs) as Hbs; pose proof (len_nonneg r) as Hr.
  - cbn [unmarshal_loop iNdEx] in H.
    destruct (j <? l) eqn:E; [discriminate | ]. apply Z.ltb_ge in E.
    assert (j = l) by lia. subst j.
    assert (bs = []) by (apply len_zero_nil; lia). subst bs.
    destruct (l >? l); [discriminate | ]. injection H as <-.
    exists fuel'. split; [exact Hfuel | reflexivity].
  - destruct (Z.eq_dec j l) as [-> | Hne].
    + assert (bs = []) by (apply len_zero_nil; lia). subst bs.
      rewrite unmarshal_loop_done in H. injection H as <-.
      exists fuel'. split; [exact Hfuel | reflexivity].
    + rewrite unmarshal_loop_S in H by lia.
      inv_bind H. destruct x as [m2 c2].
      pose proof (generic_field_inv msg arms add l m j bs m2 c2 Hj Hl ltac:(lia) Hx)
        as [k [Hk ->]].
      destruct fuel' as [ | fuel'].
      { exfalso. destruct bs; [rewrite len_nil in Hl; lia | cbn in Hfuel; lia]. }
      rewrite unmarshal_loop_S by lia.
      rewrite (generic_field_app msg arms add l m j bs m2 _ r Hj Hl Hb Hx).
      cbn [bind iNdEx rest].
      apply (IH l m2 (j + k) (drop k bs) m1); try lia.
      * rewrite len_drop by lia. lia.
      * assumption.
      * rewrite length_app in *. unfold drop, len in *. rewrite length_skipn. lia.
Qed.

Lemma unmarshal_loop_prefix fuel : forall l m j p q m1,
  0 <= j -> j + len p + len q = l -> l < 2 ^ 63 ->
  unmarshal_loop step fuel l m (Cursor j (p ++ q)) = Ok m1 ->
  forall fuel', (List.length p <= fuel')%nat ->
    unmarshal_loop step fuel' (j + len p) m (Cursor j p) = Err ErrUnexpectedEOF
    \/ exists m', unmarshal_loop step fuel' (j + len p) m (Cursor j p) = Ok m'.
Proof.
  induction fuel as [ | fuel IH]; intros l m j p q m1 Hj Hl Hb H fuel' Hfuel;
    pose proof (len_nonneg p) as Hp; pose proof (len_nonneg q) as Hq.
  - assert (p = []) as ->.
    { cbn [unmarshal_loop iNdEx] in H.
      destruct (j <? l) eqn:E; [discriminate | ]. apply Z.ltb_ge in E.
      apply len_zero_nil. lia. }
    change (@len byte []) with 0. rewrite Z.add_0_r.
    right. eexists. apply unmarshal_loop_done.
  - destruct p as [ | b p'].
    { change (@len byte []) with 0. rewrite Z.add_0_r.
      right. eexists. apply unmarshal_loop_done. }
    remember (b :: p') as p eqn:Ep.
    assert (Hpos : 0 < len p) by (subst p; rewrite len_cons; pose proof (len_nonneg p'); lia).
    destruct fuel' as [ | fuel']; [subst p; cbn in Hfuel; lia | ].
    rewrite unmarshal_loop_S in H by lia.
    inv_bind H. destruct x as [m2 c2].
    rewrite unmarshal_loop_S by lia.
    pose proof (generic_field_inv msg arms add l m j (p ++ q) m2 c2 Hj
                  ltac:(rewrite len_app; lia) Hb Hx) as [k [Hk Hc2]].
    destruct (generic_field_prefix msg arms add l m j p q m2 c2 Hj Hl Hb Hx)
      as [-> | [rp [-> Hrp]]]; [left; reflexivity | ].
    cbn [bind]. subst c2. cbn [iNdEx rest] in *.
    rewrite len_app in Hk.
    assert (Hlen : len rp = len p - k).
    { apply (f_equal len) in Hrp.
      rewrite len_drop, !len_app in Hrp by (rewrite len_app; lia). lia. }
    pose proof (len_nonneg rp).
    rewrite Hrp in H.
    replace (j + len p) with (j + k + len rp) by lia.
    apply (IH l m2 (j + k) rp q m1); try lia; try assumption.
    unfold len in *. cbn [List.length] in Hfuel. lia.
Qed.

Lemma run_nil m : run m [] = Ok m.
Proof. apply unmarshal_loop_done. Qed.

Lemma run_app m d1 m1 d2 :
  run m d1 = Ok m1 -> len (d1 ++ d2) < 2 ^ 63 ->
  exists fuel, (List.length d2 <= fuel)%nat
    /\ run m (d1 ++ d2)
       = unmarshal_loop step fuel (len (d1 ++ d2)) m1 (Cursor (len d1) d2).
Proof.
  intros H Hb. cbv beta in *. rewrite !len_app in *.
  apply (unmarshal_loop_app (List.length d1) (len d1) m 0 d1 m1
           (Z.le_refl 0) (Z.add_0_l _) H d2 (List.length (d1 ++ d2)) Hb (Nat.le_refl _)).
Qed.

Lemma run_step_error m d1 m1 bs e :
  run m d1 = Ok m1 -> bs <> [] -> len (d1 ++ bs) < 2 ^ 63 ->
  step (len (d1 ++ bs)) m1 (Cursor (len d1) bs) = Err e ->
  run m (d1 ++ bs) = Err e.
Proof.
  intros H Hne Hb Hstep.
  destruct (run_app m d1 m1 bs H Hb) as [fuel [Hfuel ->]].
  destruct fuel as [ | fuel]; [destruct bs; [contradiction | cbn in Hfuel; lia] | ].
  rewrite unmarshal_loop_S.
  - rewrite Hstep. reflexivity.
  - rewrite len_app. destruct bs; [contradiction | ].
    rewrite len_cons. pose proof (len_nonneg bs). lia.
Qed.

Lemma run_step_last m d1 m1 f m2 :
  run m d1 = Ok m1 -> f <> [] -> len (d1 ++ f) < 2 ^ 63 ->
  step (len (d1 ++ f)) m1 (Cursor (len d1) f) = Ok (m2, Cursor (len (d1 ++ f)) []) ->
  run m (d1 ++ f) = Ok m2.
Proof.
  intros H Hne Hb Hstep.
  destruct (run_app m d1 m1 f H Hb) as [fuel [Hfuel ->]].
  destruct fuel as [ | fuel]; [destruct f; [contradiction | cbn in Hfuel; lia] | ].
  rewrite unmarshal_loop_S.
  - rewrite Hstep. cbn [bind]. apply unmarshal_loop_done.
  - rewrite len_app. destruct f; [contradiction | ].
    rewrite len_cons. pose proof (len_nonneg f). lia.
Qed.

Lemma run_cut m d1 m1 f m2 p q :
  run m d1 = Ok m1 -> len (d1 ++ f) < 2 ^ 63 ->
  step (len (d1 ++ f)) m1 (Cursor (len d1) f) = Ok (m2, Cursor (len (d1 ++ f)) []) ->
  f = p ++ q -> p <> [] -> q <> [] ->
  run m (d1 ++ p) = Err ErrUnexpectedEOF.
Proof.
  intros H Hb Hstep Hf Hp Hq.
  pose proof (len_nonneg d1). pose proof (len_nonneg q).
  assert (Hb' : len (d1 ++ p) < 2 ^ 63) by (subst f; rewrite !len_app in *; lia).
  apply (run_step_error m d1 m1 p _ H Hp Hb').
  rewrite len_app in *.
  apply (generic_field_cut msg arms add (len d1 + len f) m1 (len d1) f m2 p q);
    try assumption; lia.
Qed.

Lemma run_prefix m d m1 p q :
  run m d = Ok m1 -> len d < 2 ^ 63 -> d = p ++ q ->
  run m p = Err ErrUnexpectedEOF \/ exists m', run m p = Ok m'.
Proof.
  intros H Hb ->. cbv beta in *. rewrite len_app in *.
  apply (unmarshal_loop_prefix _ _ m 0 p q m1 (Z.le_refl 0) eq_refl Hb H).
  apply Nat.le_refl.
Qed.

Lemma run_known_field m d1 m1 tag fn arm s m2 :
  run m d1 = Ok m1 ->
  (forall j bs, read_tag msg (Cursor j (tag :: bs)) = Ok (fn, 2, Cursor (j + 1) bs)) ->
  arms fn = Some arm -> arm_store arm m1 s = Ok m2 ->
  len (d1 ++ message_field tag s) < 2 ^ 63 ->
  run m (d1 ++ message_field tag s) = Ok m2.
Proof.
  intros H Htag Harm Hstore Hb.
  apply (run_step_last m d1 m1 _ m2 H); [discriminate | assumption | ].
  pose proof (generic_field_known m1 (len d1) tag fn arm s [] m2 Htag Harm Hstore) as Hk.
  rewrite app_nil_r in Hk. change (@len byte []) with 0 in Hk.
  rewrite Z.add_0_r in Hk. rewrite len_app in *.
  apply Hk; [apply len_nonneg | lia].
Qed.

Lemma run_unknown_fields m u :
  unknown_fields (has_arm arms) u ->
  forall d1 m1, run m d1 = Ok m1 -> len (d1 ++ u) < 2 ^ 63 ->
    run m (d1 ++ u) = Ok (add m1 u).
Proof.
  induction 1 as [ | f d Hf Hd IH]; intros d1 m1 H Hb.
  - rewrite app_nil_r, add_nil. assumption.
  - rewrite app_assoc, <- add_app. rewrite app_assoc in Hb.
    pose proof (len_nonneg d).
    apply IH; [ | assumption].
    apply (run_step_last m d1 m1 f _ H).
    + eapply is_unknown_field_nonempty, Hf.
    + rewrite len_app in Hb. lia.
    + pose proof (generic_field_unknown m1 (len d1) f [] Hf) as Hk.
      rewrite app_nil_r in Hk. change (@len byte []) with 0 in Hk.
      rewrite Z.add_0_r in Hk. rewrite !len_app in *.
      apply Hk; [apply len_nonneg | lia].
Qed.

End GenericLoop.

(** ** Varints and lengths in [skipCommon] *)

Lemma skipCommon_first bs wire c1 :
  varint or_uint64 (Cursor 0 bs) = Ok (wire, c1) ->
  skipCommon bs
  = ('(c, depth) <- skip_value (int (Z.land wire 7)) 0 c1 ;;
     if iNdEx c <? 0 then Err ErrInvalidLengthCommon
     else if depth =? 0 then Ok (iNdEx c)
     else skipCommon_loop (List.length bs - 1) depth c).
Proof.
  intros Hv. destruct bs as [ | b bs]; [discriminate | ].
  unfold skipCommon. cbn [List.length]. rewrite skipCommon_loop_step, Hv.
  cbn [bind]. rewrite Nat.sub_succ, Nat.sub_0_r. reflexivity.
Qed.

Lemma skipCommon_checked : skipCommon_checks.
Proof.
  unfold skipCommon_checks, continuation_bytes. split; [ | split].
  - intros pre r Hall Hlen.
    destruct pre as [ | b pre]; [discriminate | ].
    unfold skipCommon. rewrite <- app_comm_cons. cbn [List.length].
    rewrite skipCommon_loop_step. unfold varint. cbn [iNdEx rest].
    rewrite app_comm_cons, read_varint_overflow by (assumption || lia). reflexivity.
  - intros bs wire j pre r Hv Hwt Hall Hlen.
    rewrite (skipCommon_first _ _ _ Hv).
    destruct Hwt as [-> | ->]; cbn [skip_value]; unfold varint; cbn [iNdEx rest];
      rewrite read_varint_overflow by (assumption || lia); reflexivity.
  - intros bs wire c1 n c2 Hb Hv Hwt Hn.
    rewrite (skipCommon_first _ _ _ Hv), Hwt. cbn [skip_value]. rewrite Hn. cbn [bind].
    pose proof (len_nonneg bs) as Hbs.
    assert (Hrange : - 2 ^ 63 <= n < 2 ^ 63).
    { unfold varint in Hn.
      apply (read_varint_result or_int (fun n => - 2 ^ 63 <= n < 2 ^ 63)) in Hn;
        [assumption | intros; apply int_range]. }
    unfold varint in Hv, Hn. cbn [iNdEx rest] in Hv.
    apply read_varint_inv in Hv. destruct Hv as [k1 [Hk1 ->]]. cbn [iNdEx rest] in Hn.
    apply read_varint_inv in Hn. destruct Hn as [k2 [Hk2 ->]]. cbn [iNdEx rest].
    rewrite len_drop in Hk2 by lia.
    split; [ | split].
    + intros Hneg. destruct (n <? 0) eqn:E; [reflexivity | apply Z.ltb_ge in E; lia].
    + intros H0 Hw. destruct (n <? 0) eqn:E; [apply Z.ltb_lt in E; lia | ].
      cbn [bind iNdEx]. rewrite int_wraps_negative by lia.
      destruct (0 + k1 + k2 + n - 2 ^ 64 <? 0) eqn:E2;
        [reflexivity | apply Z.ltb_ge in E2; lia].
    + intros H0 Hw. destruct (n <? 0) eqn:E; [apply Z.ltb_lt in E; lia | ].
      cbn [bind iNdEx]. rewrite int_small by lia.
      destruct (0 + k1 + k2 + n <? 0) eqn:E2; [apply Z.ltb_lt in E2; lia | ].
      reflexivity.
Qed.

(** ** The loops end within their fuel

    [skipCommon_loop] and [unmarshal_loop] are given one unit of fuel for
    each byte of their input, and every iteration reads at least one byte:
    [OutOfFuel] is never the result. *)

Lemma bind_fuel {A B} (c : outcome A) (k : A -> outcome B) :
  c <> OutOfFuel -> (forall x, c = Ok x -> k x <> OutOfFuel) -> bind c k <> OutOfFuel.
Proof.
  intros Hc Hk. destruct c; cbn [bind]; try discriminate; [now apply Hk | contradiction].
Qed.

Lemma read_varint_fuel acc bs : forall shift v i,
  read_varint acc shift v i bs <> OutOfFuel.
Proof.
  induction bs as [ | b bs IH]; intros shift v i.
  - rewrite read_varint_nil. destruct (64 <=? shift); discriminate.
  - rewrite read_varint_cons. destruct (64 <=? shift); [discriminate | ].
    destruct (byte_val b <? 128); [discriminate | apply IH].
Qed.

Lemma skip_value_fuel wt depth c : skip_value wt depth c <> OutOfFuel.
Proof.
  destruct (skip_value_cases wt) as [-> | [-> | [-> | [-> | [-> | [-> | H]]]]]];
    [ | | | | | | rewrite H; discriminate ]; cbn [skip_value]; try discriminate.
  - apply bind_fuel; [apply read_varint_fuel | intros [x c1] _; discriminate].
  - apply bind_fuel; [apply read_varint_fuel | ].
    intros [x c1] _. destruct (x <? 0); discriminate.
  - destruct (depth =? 0); discriminate.
Qed.

Lemma skip_value_length wt depth c c' d' :
  skip_value wt depth c = Ok (c', d') ->
  (List.length (rest c') <= List.length (rest c))%nat.
Proof.
  destruct c as [j bs]. cbn [rest].
  destruct (skip_value_cases wt) as [-> | [-> | [-> | [-> | [-> | [-> | H]]]]]];
    [ | | | | | | rewrite H; discriminate ]; cbn [skip_value iNdEx rest]; intros H.
  - inv_bind H. destruct x as [x c1]. injection H as <- _.
    apply varint_progress in Hx. lia.
  - injection H as <- _. apply length_drop_le.
  - inv_bind H. destruct x as [x c1]. destruct (x <? 0); [discriminate | ].
    injection H as <- _. cbn [rest]. apply varint_progress in Hx.
    pose proof (length_drop_le x (rest c1)). lia.
  - injection H as <- _. apply Nat.le_refl.
  - destruct (depth =? 0); [discriminate | ]. injection H as <- _. apply Nat.le_refl.
  - injection H as <- _. apply length_drop_le.
Qed.

Lemma skipCommon_loop_fuel fuel : forall depth c,
  (List.length (rest c) <= fuel)%nat -> skipCommon_loop fuel depth c <> OutOfFuel.
Proof.
  induction fuel as [ | fuel IH]; intros depth [j bs] Hfuel; cbn [rest] in Hfuel;
    destruct bs as [ | b bs]; try (rewrite skipCommon_loop_nil; discriminate).
  - cbn [List.length] in Hfuel. lia.
  - rewrite skipCommon_loop_step.
    apply bind_fuel; [apply read_varint_fuel | ]. intros [wire c1] Hv.
    apply bind_fuel; [apply skip_value_fuel | ]. intros [c2 depth2] Hs.
    destruct (iNdEx c2 <? 0); [discriminate | ].
    destruct (depth2 =? 0); [discriminate | ].
    apply IH. apply varint_progress in Hv. apply skip_value_length in Hs.
    cbn [List.length] in *. lia.
Qed.

Lemma skipCommon_fuel dAtA : skipCommon dAtA <> OutOfFuel.
Proof. apply skipCommon_loop_fuel, Nat.le_refl. Qed.

Section Fuel.

Context {M : Type} (msg : string) (arms : Z -> option (field_arm M))
  (add : M -> list byte -> M).
Hypothesis arms_fuel :
  forall fn arm m s,
    arms fn = Some arm -> len s < 2 ^ 63 -> arm_store arm m s <> OutOfFuel.

Lemma payload_fuel l n c : payload l n c <> OutOfFuel.
Proof.
  unfold payload. destruct (n <? 0); [discriminate | ]. cbv zeta.
  destruct (_ <? 0); [discriminate | ]. destruct (_ >? l); discriminate.
Qed.

Lemma payload_length l n c s c' :
  payload l n c = Ok (s, c') -> (List.length s <= List.length (rest c))%nat.
Proof.
  destruct c as [j bs]. intros H. apply payload_inv in H.
  destruct H as [_ [_ [-> _]]]. unfold take. rewrite length_firstn. cbn [rest]. lia.
Qed.

Lemma generic_field_fuel l m c :
  len (rest c) < 2 ^ 63 -> generic_field msg arms add l m c <> OutOfFuel.
Proof.
  intros Hc. unfold generic_field.
  apply bind_fuel.
  { unfold read_tag. apply bind_fuel; [apply read_varint_fuel | ].
    intros [wire c1] _. destruct (_ =? 4); [discriminate | ].
    destruct (_ <=? 0); discriminate. }
  intros [[fn wt] c1] Htag. destruct (arms fn) as [arm | ] eqn:Harm.
  - destruct (negb (wt =? 2)); [discriminate | ].
    apply bind_fuel.
    { destruct (arm_len arm); cbn [read_length]; unfold read_msglen, read_stringLen.
      - apply read_varint_fuel.
      - apply bind_fuel; [apply read_varint_fuel | intros [x c2] _; discriminate]. }
    intros [n c2] Hn. apply bind_fuel; [apply payload_fuel | ].
    intros [s c3] Hs. apply bind_fuel; [ | discriminate].
    apply (arms_fuel fn); [assumption | ].
    destruct c as [j bs]. cbn [rest] in Hc.
    apply read_tag_progress in Htag. destruct Htag as [k1 [Hk1 ->]].
    apply read_length_inv in Hn. destruct Hn as [k2 [Hk2 ->]].
    apply payload_length in Hs. cbn [rest] in Hs.
    pose proof (length_drop_le k2 (drop k1 bs)). pose proof (length_drop_le k1 bs).
    unfold len in *. lia.
  - apply bind_fuel; [ | intros [chunk c3] _; discriminate].
    unfold skip_unknown. apply bind_fuel; [apply skipCommon_fuel | ].
    intros n _. apply payload_fuel.
Qed.

Lemma unmarshal_loop_fuel fuel : forall l m j bs,
  0 <= j -> j + len bs = l -> l < 2 ^ 63 -> (List.length bs <= fuel)%nat ->
  unmarshal_loop (generic_field msg arms add) fuel l m (Cursor j bs) <> OutOfFuel.
Proof.
  induction fuel as [ | fuel IH]; intros l m j bs Hj Hl Hb Hfuel;
    pose proof (len_nonneg bs) as Hbs.
  - destruct bs; [ | cbn in Hfuel; lia]. change (@len byte []) with 0 in Hl.
    replace j with l by lia. rewrite unmarshal_loop_done. discriminate.
  - destruct (Z.eq_dec j l) as [-> | Hne];
      [rewrite unmarshal_loop_done; discriminate | ].
    rewrite unmarshal_loop_S by lia.
    apply bind_fuel; [apply generic_field_fuel; cbn [rest]; lia | ].
    intros [m2 c2] Hstep.
    destruct (generic_field_inv msg arms add l m j bs m2 c2 Hj Hl Hb Hstep)
      as [k [Hk ->]].
    apply IH; try lia.
    + rewrite len_drop by lia. lia.
    + unfold drop, len in *. rewrite length_skipn. lia.
Qed.

End Fuel.

(** ** A decoder whose loop body is an instance of [generic_field] *)

Lemma unmarshal_loop_ext {M : Type} (f g : Z -> M -> cursor -> outcome (M * cursor)) :
  (forall l m c, f l m c = g l m c) ->
  forall fuel l m c, unmarshal_loop f fuel l m c = unmarshal_loop g fuel l m c.
Proof.
  intros Hfg. induction fuel as [ | fuel IH]; intros l m c; cbn [unmarshal_loop].
  - reflexivity.
  - rewrite Hfg. destruct (iNdEx c <? l); [ | reflexivity].
    destruct (g l m c) as [[m' c'] | | | ]; cbn [bind]; try reflexivity. apply IH.
Qed.

Section Decoder.

Context {M : Type} (msg : string) (arms : Z -> option (field_arm M))
  (add : M -> list byte -> M)
  (field : Z -> M -> cursor -> outcome (M * cursor))
  (Unmarshal : M -> list byte -> outcome M).
Hypothesis field_generic : forall l m c, field l m c = generic_field msg arms add l m c.
Hypothesis Unmarshal_loop :
  forall m d, Unmarshal m d = unmarshal_loop field (List.length d) (len d) m (Cursor 0 d).
Hypothesis add_nil : forall m, add m [] = m.
Hypothesis add_app : forall m a b, add (add m a) b = add m (a ++ b).
Hypothesis arms_positive : forall fn arm, arms fn = Some arm -> 0 < fn.

Lemma Unmarshal_run m d :
  Unmarshal m d
  = unmarshal_loop (generic_field msg arms add) (List.length d) (len d) m (Cursor 0 d).
Proof. rewrite Unmarshal_loop. now apply unmarshal_loop_ext. Qed.

Lemma decoder_nil m : Unmarshal m [] = Ok m.
Proof. rewrite Unmarshal_run. apply run_nil. Qed.

Lemma decoder_keeps_unknown_fields : keeps_unknown_fields arms Unmarshal add.
Proof.
  intros m d1 m1 u H Hu Hb. rewrite Unmarshal_run in *.
  now apply (run_unknown_fields msg arms add add_nil add_app m u Hu d1 m1).
Qed.

Lemma decoder_reports : reports_the_error_reached Unmarshal field.
Proof.
  intros m d1 m1 bs e H Hne Hb Hstep. rewrite Unmarshal_run in *.
  rewrite field_generic in Hstep.
  now apply (run_step_error msg arms add m d1 m1 bs e).
Qed.

Lemma decoder_cut : cut_inside_a_field_fails Unmarshal field.
Proof.
  intros m d1 m1 f m2 H Hf Hne Hb. unfold whole_field in Hf.
  rewrite field_generic in Hf. rewrite !Unmarshal_run in *. split.
  - now apply (run_step_last msg arms add m d1 m1 f m2).
  - intros p q Hpq Hp Hq. rewrite Unmarshal_run.
    now apply (run_cut msg arms add m d1 m1 f m2 p q).
Qed.

Lemma decoder_prefix : prefix_fails_or_decodes Unmarshal.
Proof.
  intros m d m1 p q H Hb Hd. rewrite !Unmarshal_run in *.
  now apply (run_prefix msg arms add m d m1 p q).
Qed.

Lemma decoder_wire_type : wire_type_is_checked msg arms Unmarshal.
Proof.
  intros m d1 m1 bs wire c arm H Hv Harm Hb wireType.
  assert (Hne : bs <> []).
  { intros ->. unfold varint in Hv. cbn in Hv. discriminate. }
  split.
  - intros H2 H4. apply (decoder_reports m d1 m1 bs _ H Hne Hb).
    rewrite field_generic.
    apply (generic_field_wrong_wire_type msg arms add _ _ _ wire c arm Hv Harm);
      [eapply arms_positive, Harm | assumption | assumption].
  - intros H4. apply (decoder_reports m d1 m1 bs _ H Hne Hb).
    rewrite field_generic.
    now apply (generic_field_end_group msg arms add _ _ _ wire c).
Qed.

Lemma decoder_checks : checks_varints_and_lengths msg arms field.
Proof.
  unfold checks_varints_and_lengths, continuation_bytes.
  split; [ | split; [ | split]]; intros; rewrite field_generic.
  - apply generic_field_tag_overflow; [assumption | lia].
  - eapply generic_field_length_overflow; eauto. lia.
  - eapply generic_field_length; eauto.
  - eapply generic_field_unknown_past_end; eauto.
Qed.

Lemma decoder_skip_error : returns_the_error_of_skipCommon msg arms field.
Proof.
  intros l m j bs fn wt c1 e Htag Harm Hs. rewrite field_generic.
  now apply (generic_field_skip_error msg arms add l m j bs fn wt c1 e).
Qed.

Lemma decoder_invariant (P : M -> Prop) :
  (forall fn arm m s m', arms fn = Some arm -> P m -> arm_store arm m s = Ok m' -> P m') ->
  (forall m u, P m -> P (add m u)) ->
  forall m d m', P m -> Unmarshal m d = Ok m' -> P m'.
Proof.
  intros Harms Hadd m d m' Hm H. rewrite Unmarshal_run in H.
  exact (unmarshal_loop_invariant msg arms add P Harms Hadd _ _ m _ m' Hm H).
Qed.

Lemma decoder_fuel :
  (forall fn arm m s,
     arms fn = Some arm -> len s < 2 ^ 63 -> arm_store arm m s <> OutOfFuel) ->
  forall m d, len d < 2 ^ 63 -> Unmarshal m d <> OutOfFuel.
Proof.
  intros Harms m d Hd. rewrite Unmarshal_run.
  apply (unmarshal_loop_fuel msg arms add Harms); [lia | lia | assumption | apply Nat.le_refl].
Qed.

Lemma decoder_known_field m d1 m1 tag fn arm s m2 :
  Unmarshal m d1 = Ok m1 ->
  (forall j bs, read_tag msg (Cursor j (tag :: bs)) = Ok (fn, 2, Cursor (j + 1) bs)) ->
  arms fn = Some arm -> arm_store arm m1 s = Ok m2 ->
  len (d1 ++ message_field tag s) < 2 ^ 63 ->
  Unmarshal m (d1 ++ message_field tag s) = Ok m2.
Proof.
  intros H Htag Harm Hstore Hb. rewrite Unmarshal_run in *.
  now apply (run_known_field msg arms add m d1 m1 tag fn arm s m2).
Qed.

End Decoder.

(** ** The three loop bodies as instances *)

Lemma append_nil u : append u [] = match u with Some u => Some u | None => None end.
Proof. destruct u as [u | ]; cbn [append]; [now rewrite app_nil_r | reflexivity]. Qed.

Lemma append_append u a b : append (append u a) b = append u (a ++ b).
Proof.
  destruct u as [u | ]; cbn [append].
  - now rewrite app_assoc.
  - destruct a as [ | x a]; cbn [append app]; reflexivity.
Qed.

Lemma bytes_of_append u a : bytes_of (append u a) = bytes_of u ++ a.
Proof. destruct u as [u | ], a; reflexivity. Qed.

Lemma AdminConfig_field_generic l m c :
  AdminConfig_Unmarshal_field l m c
  = generic_field "AdminConfig" AdminConfig_arms AdminConfig_add_unrecognized l m c.
Proof.
  unfold AdminConfig_Unmarshal_field, generic_field.
  destruct (read_tag "AdminConfig" c) as [[[fn wt] c1] | | | ]; cbn [bind]; try reflexivity.
  destruct fn as [ | [p | p | ] | p]; reflexivity.
Qed.

Lemma AdminConfig_add_nil m : AdminConfig_add_unrecognized m [] = m.
Proof.
  destruct m as [s u]. unfold AdminConfig_add_unrecognized. cbn [ConfigId AdminConfig_XXX_unrecognized].
  rewrite append_nil. destruct u; reflexivity.
Qed.

Lemma AdminConfig_add_app m a b :
  AdminConfig_add_unrecognized (AdminConfig_add_unrecognized m a) b
  = AdminConfig_add_unrecognized m (a ++ b).
Proof.
  unfold AdminConfig_add_unrecognized. cbn [ConfigId AdminConfig_XXX_unrecognized].
  now rewrite append_append.
Qed.

Lemma AdminConfig_arms_positive fn arm : AdminConfig_arms fn = Some arm -> 0 < fn.
Proof. destruct fn as [ | [p | p | ] | p]; cbn; intros H; try discriminate. lia. Qed.

Lemma AdminConfig_Unmarshal_loop m d :
  AdminConfig_Unmarshal m d
  = unmarshal_loop AdminConfig_Unmarshal_field (List.length d) (len d) m (Cursor 0 d).
Proof. reflexivity. Qed.

Lemma AdminConfig_Unmarshal_fuel m d :
  len d < 2 ^ 63 -> AdminConfig_Unmarshal m d <> OutOfFuel.
Proof.
  apply (decoder_fuel "AdminConfig" AdminConfig_arms AdminConfig_add_unrecognized
           _ _ AdminConfig_field_generic AdminConfig_Unmarshal_loop).
  intros fn arm m0 s Harm _.
  destruct fn as [ | [[p | p | ] | [p | p | ] | ] | p]; cbn in Harm; try discriminate.
  injection Harm as <-. discriminate.
Qed.

Section Instances.

Context {E : Externals}.

Lemma TapDSConfig_field_generic l m c :
  TapDSConfig_Unmarshal_field l m c
  = generic_field "TapDSConfig" TapDSConfig_arms TapDSConfig_add_unrecognized l m c.
Proof.
  unfold TapDSConfig_Unmarshal_field, generic_field.
  destruct (read_tag "TapDSConfig" c) as [[[fn wt] c1] | | | ]; cbn [bind]; try reflexivity.
  destruct fn as [ | [p | [p | p | ] | ] | p]; try reflexivity.
  cbn [TapDSConfig_arms arm_name arm_len arm_store read_length].
  destruct (negb (wt =? 2)); [reflexivity | ].
  destruct (read_msglen c1) as [[n c2] | | | ]; cbn [bind]; try reflexivity.
  destruct (payload l n c2) as [[s c3] | | | ]; cbn [bind]; try reflexivity.
  match goal with |- bind ?x _ = _ => destruct x end; reflexivity.
Qed.

Lemma TapDSConfig_add_nil m : TapDSConfig_add_unrecognized m [] = m.
Proof.
  destruct m as [cs s u]. unfold TapDSConfig_add_unrecognized.
  cbn [ConfigSource Name TapDSConfig_XXX_unrecognized].
  rewrite append_nil. destruct u; reflexivity.
Qed.

Lemma TapDSConfig_add_app m a b :
  TapDSConfig_add_unrecognized (TapDSConfig_add_unrecognized m a) b
  = TapDSConfig_add_unrecognized m (a ++ b).
Proof.
  unfold TapDSConfig_add_unrecognized.
  cbn [ConfigSource Name TapDSConfig_XXX_unrecognized].
  now rewrite append_append.
Qed.

Lemma TapDSConfig_arms_positive fn arm : TapDSConfig_arms fn = Some arm -> 0 < fn.
Proof.
  destruct fn as [ | [p | [p | p | ] | ] | p]; cbn; intros H; try discriminate; lia.
Qed.

Lemma TapDSConfig_Unmarshal_loop m d :
  TapDSConfig_Unmarshal m d
  = unmarshal_loop TapDSConfig_Unmarshal_field (List.length d) (len d) m (Cursor 0 d).
Proof. reflexivity. Qed.

Lemma CommonExtensionConfig_field_generic l m c :
  CommonExtensionConfig_Unmarshal_field l m c
  = generic_field "CommonExtensionConfig" CommonExtensionConfig_arms
      CommonExtensionConfig_add_unrecognized l m c.
Proof.
  unfold CommonExtensionConfig_Unmarshal_field, generic_field.
  destruct (read_tag "CommonExtensionConfig" c) as [[[fn wt] c1] | | | ];
    cbn [bind]; try reflexivity.
  destruct fn as [ | [[p | p | ] | [p | p | ] | ] | p]; try reflexivity;
    cbn [CommonExtensionConfig_arms arm_name arm_len arm_store read_length];
    (destruct (negb (wt =? 2)); [reflexivity | ]);
    (destruct (read_msglen c1) as [[n c2] | | | ]; cbn [bind]; try reflexivity);
    (destruct (payload l n c2) as [[s c3] | | | ]; cbn [bind]; try reflexivity);
    match goal with |- bind ?x _ = _ => destruct x end; reflexivity.
Qed.

Lemma CommonExtensionConfig_add_nil m : CommonExtensionConfig_add_unrecognized m [] = m.
Proof.
  destruct m as [x u]. unfold CommonExtensionConfig_add_unrecognized.
  cbn [ConfigType XXX_unrecognized].
  rewrite append_nil. destruct u; reflexivity.
Qed.

Lemma CommonExtensionConfig_add_app m a b :
  CommonExtensionConfig_add_unrecognized (CommonExtensionConfig_add_unrecognized m a) b
  = CommonExtensionConfig_add_unrecognized m (a ++ b).
Proof.
  unfold CommonExtensionConfig_add_unrecognized. cbn [ConfigType XXX_unrecognized].
  now rewrite append_append.
Qed.

Lemma CommonExtensionConfig_arms_positive fn arm :
  CommonExtensionConfig_arms fn = Some arm -> 0 < fn.
Proof.
  destruct fn as [ | [[p | p | ] | [p | p | ] | ] | p]; cbn; intros H;
    try discriminate; lia.
Qed.

Lemma CommonExtensionConfig_Unmarshal_loop m d :
  CommonExtensionConfig_Unmarshal m d
  = unmarshal_loop CommonExtensionConfig_Unmarshal_field (List.length d) (len d) m
      (Cursor 0 d).
Proof. reflexivity. Qed.

(** Decoding builds wrappers that are not nil. *)
Lemma CommonExtensionConfig_Unmarshal_wrapper_present m d m' :
  wrapper_present m -> CommonExtensionConfig_Unmarshal m d = Ok m' -> wrapper_present m'.
Proof.
  apply (decoder_invariant "CommonExtensionConfig" CommonExtensionConfig_arms
           CommonExtensionConfig_add_unrecognized
           _ _ CommonExtensionConfig_field_generic CommonExtensionConfig_Unmarshal_loop).
  - intros fn arm m0 s m1 Harm _ Hs.
    destruct fn as [ | [[p | p | ] | [p | p | ] | ] | p]; cbn in Harm; try discriminate;
      injection Harm as <-; cbn [arm_store] in Hs; inv_bind Hs; injection Hs as <-;
      exact I.
  - intros m0 u H. exact H.
Qed.

(** The two decoders that call into the imported types end within their
    fuel when the imported [Unmarshal] methods return. *)
Lemma TapDSConfig_Unmarshal_fuel m d :
  (forall t s, msg_Unmarshal (Message := ConfigSource_ops) t s <> OutOfFuel) ->
  len d < 2 ^ 63 -> TapDSConfig_Unmarshal m d <> OutOfFuel.
Proof.
  intros HC.
  apply (decoder_fuel "TapDSConfig" TapDSConfig_arms TapDSConfig_add_unrecognized
           _ _ TapDSConfig_field_generic TapDSConfig_Unmarshal_loop).
  intros fn arm m0 s Harm _.
  destruct fn as [ | [[p | p | ] | [p | p | ] | ] | p]; cbn in Harm; try discriminate;
    injection Harm as <-; cbn [arm_store]; [discriminate | ].
  apply bind_fuel; [apply HC | discriminate].
Qed.

Lemma CommonExtensionConfig_Unmarshal_fuel m d :
  (forall t s, msg_Unmarshal (Message := TapConfig_ops) t s <> OutOfFuel) ->
  (forall t s, msg_Unmarshal (Message := ConfigSource_ops) t s <> OutOfFuel) ->
  len d < 2 ^ 63 -> CommonExtensionConfig_Unmarshal m d <> OutOfFuel.
Proof.
  intros HT HC.
  apply (decoder_fuel "CommonExtensionConfig" CommonExtensionConfig_arms
           CommonExtensionConfig_add_unrecognized
           _ _ CommonExtensionConfig_field_generic CommonExtensionConfig_Unmarshal_loop).
  intros fn arm m0 s Harm Hs.
  destruct fn as [ | [[p | p | ] | [p | p | ] | ] | p]; cbn in Harm; try discriminate;
    injection Harm as <-; cbn [arm_store]; (apply bind_fuel; [ | discriminate]).
  - now apply TapDSConfig_Unmarshal_fuel.
  - apply HT.
  - now apply AdminConfig_Unmarshal_fuel.
Qed.

End Instances.

(** The tags the marshal routines write. *)
Lemma read_tag_x0a msg j bs :
  read_tag msg (Cursor j (x0a :: bs)) = Ok (1, 2, Cursor (j + 1) bs).
Proof. apply read_tag_one_byte; reflexivity. Qed.

Lemma read_tag_x12 msg j bs :
  read_tag msg (Cursor j (x12 :: bs)) = Ok (2, 2, Cursor (j + 1) bs).
Proof. apply read_tag_one_byte; reflexivity. Qed.

Lemma read_tag_x1a msg j bs :
  read_tag msg (Cursor j (x1a :: bs)) = Ok (3, 2, Cursor (j + 1) bs).
Proof. apply read_tag_one_byte; reflexivity. Qed.

(** ** The stand-in message keeps the contracts *)

Lemma Flag_marshal_contract : marshal_contract (ops := Flag_ops) Flag_wire.
Proof.
  intros t. split; [reflexivity | ].
  intros dAtA Hl. cbn [msg_MarshalToSizedBuffer Flag_ops].
  pose proof (len_nonneg (Flag_wire t)).
  rewrite copy_at_spec by lia. cbn [bind].
  replace (len dAtA - len (Flag_wire t) + len (Flag_wire t)) with (len dAtA) by lia.
  rewrite (drop_all (len dAtA)), app_nil_r by lia.
  rewrite len_app, len_take by lia. do 2 f_equal. lia.
Qed.

Lemma Flag_unmarshal_contract : unmarshal_contract (ops := Flag_ops) Flag_wire.
Proof. intros [ | ]; reflexivity. Qed.

(** * The claims *)

(** ** C1 *)

(** C1, as stated, at a [CommonExtensionConfig] whose [ConfigType] holds a
    nil pointer of type [CommonExtensionConfig_AdminConfig] (the first of the
    values [XXX_OneofWrappers] lists).  [Size] answers 0 on the nil receiver and [MarshalToSizedBuffer] of the
    wrapper dereferences it, so [Marshal] panics and returns no bytes. *)
Lemma C1_nil_wrapper_panics :
  CommonExtensionConfig_Marshal nil_wrapper_example = Panic NilDereference
  /\ ~ (exists b, CommonExtensionConfig_Marshal nil_wrapper_example = Ok b
                  /\ len b = CommonExtensionConfig_Size (Some nil_wrapper_example)).
Proof.
  split; [reflexivity | ].
  intros [b [H _]]. vm_compute in H. discriminate.
Qed.

(** C1 (amended): for every [AdminConfig], every
    [CommonExtensionConfig_TapDSConfig] and every [CommonExtensionConfig]
    whose oneof is unset or holds a wrapper pointer that is not nil, with any
    fields, variant and unrecognized bytes, [Marshal] succeeds and returns as
    many bytes as [Size] says; the imported message types are assumed to write
    [Size] bytes at the end of the buffer they are given. *)
Theorem C1_Marshal_length_is_Size {E : Externals}
  (TapConfig_wire : v3_TapConfig -> list byte)
  (ConfigSource_wire : v4alpha_ConfigSource -> list byte) :
  marshal_contract TapConfig_wire -> marshal_contract ConfigSource_wire ->
  (forall m : AdminConfig,
     exists b, AdminConfig_Marshal m = Ok b /\ len b = AdminConfig_Size (Some m))
  /\ (forall m : CommonExtensionConfig_TapDSConfig,
        exists b, TapDSConfig_Marshal m = Ok b /\ len b = TapDSConfig_Size (Some m))
  /\ (forall m : CommonExtensionConfig,
        wrapper_present m ->
        exists b, CommonExtensionConfig_Marshal m = Ok b
                  /\ len b = CommonExtensionConfig_Size (Some m)).
Proof.
  intros HT HC. repeat split.
  - intros m. exists (AdminConfig_wire m).
    split; [apply AdminConfig_Marshal_wire | now rewrite AdminConfig_Size_wire].
  - intros m. exists (TapDSConfig_wire ConfigSource_wire m).
    split; [now apply TapDSConfig_Marshal_wire | ].
    now rewrite (TapDSConfig_Size_wire ConfigSource_wire HC).
  - intros m Hm. exists (CommonExtensionConfig_wire TapConfig_wire ConfigSource_wire m).
    split; [now apply CommonExtensionConfig_Marshal_wire | ].
    now rewrite (CommonExtensionConfig_Size_wire TapConfig_wire ConfigSource_wire HT HC).
Qed.

Lemma C1_witness :
  exists b,
    CommonExtensionConfig_Marshal static_example = Ok b
    /\ len b = CommonExtensionConfig_Size (Some static_example).
Proof.
  apply (C1_Marshal_length_is_Size (E := Flag_externals) Flag_wire Flag_wire
           Flag_marshal_contract Flag_marshal_contract).
  exact I.
Defined.

(** ** C9 *)

(** C9: [Marshal] of [AdminConfig{ConfigId: "filter-1"}] returns the ten
    bytes [0x0a], [0x08] and the bytes of ["filter-1"], and [Unmarshal] of
    these bytes into a fresh value gives the message back. *)
Theorem C9_filter_1_round_trip :
  AdminConfig_Marshal filter_1
  = Ok (x0a :: x08 :: list_byte_of_string "filter-1")
  /\ len (x0a :: x08 :: list_byte_of_string "filter-1") = 10
  /\ AdminConfig_Unmarshal AdminConfig_zero (x0a :: x08 :: list_byte_of_string "filter-1")
     = Ok filter_1.
Proof. repeat split; vm_compute; reflexivity. Qed.

(** ** C10 *)

(** C10: every [Size] method returns 0 on a nil receiver, and every getter
    returns the zero value (the empty string or nil) when the receiver is nil
    or, for the getters of the oneof, when the oneof is unset or holds another
    variant; none of them fails there. *)
Theorem C10_nil_receivers {E : Externals} :
  (AdminConfig_Size None = 0
   /\ TapDSConfig_Size None = 0
   /\ CommonExtensionConfig_Size None = 0
   /\ CommonExtensionConfig_AdminConfig_Size None = 0
   /\ CommonExtensionConfig_StaticConfig_Size None = 0
   /\ CommonExtensionConfig_TapdsConfig_Size None = 0)
  /\ (AdminConfig_GetConfigId None = []
      /\ TapDSConfig_GetName None = []
      /\ TapDSConfig_GetConfigSource None = None
      /\ GetConfigType None = None
      /\ GetAdminConfig None = Ok None
      /\ GetStaticConfig None = Ok None
      /\ GetTapdsConfig None = Ok None)
  /\ (forall m : CommonExtensionConfig,
        (ConfigType m = None ->
           GetAdminConfig (Some m) = Ok None
           /\ GetStaticConfig (Some m) = Ok None
           /\ GetTapdsConfig (Some m) = Ok None)
        /\ (forall x, ConfigType m = Some (ConfigType_AdminConfig x) ->
              GetStaticConfig (Some m) = Ok None /\ GetTapdsConfig (Some m) = Ok None)
        /\ (forall x, ConfigType m = Some (ConfigType_StaticConfig x) ->
              GetAdminConfig (Some m) = Ok None /\ GetTapdsConfig (Some m) = Ok None)
        /\ (forall x, ConfigType m = Some (ConfigType_TapdsConfig x) ->
              GetAdminConfig (Some m) = Ok None /\ GetStaticConfig (Some m) = Ok None)).
Proof.
  split; [repeat split | split; [repeat split | ]].
  intros m. unfold GetAdminConfig, GetStaticConfig, GetTapdsConfig, GetConfigType.
  split; [ | split; [ | split]].
  - intros ->. repeat split.
  - intros x ->. split; reflexivity.
  - intros x ->. split; reflexivity.
  - intros x ->. split; reflexivity.
Qed.

Lemma C10_witness :
  GetStaticConfig (Some admin_example) = Ok None
  /\ GetTapdsConfig (Some admin_example) = Ok None.
Proof.
  refine (proj1 (proj2 (proj2 (proj2 (C10_nil_receivers (E := Flag_externals))) _)) _ _).
  reflexivity.
Defined.

(** ** C2 *)

Lemma normalize_id u : u <> Some [] -> normalize u = u.
Proof. destruct u as [[ | b u] | ]; intros H; [contradiction | reflexivity | reflexivity]. Qed.

Lemma string_field_message_field tag s :
  len s > 0 -> string_field tag s = message_field tag s.
Proof.
  intros H. unfold string_field, message_field.
  destruct (len s >? 0) eqn:E; [reflexivity | ].
  rewrite Z.gtb_ltb in E. apply Z.ltb_ge in E. lia.
Qed.

Lemma string_field_empty tag s : ~ len s > 0 -> string_field tag s = [] /\ s = [].
Proof.
  intros H. unfold string_field. pose proof (len_nonneg s).
  destruct (len s >? 0) eqn:E.
  - rewrite Z.gtb_ltb in E. apply Z.ltb_lt in E. lia.
  - split; [reflexivity | apply len_zero_nil; lia].
Qed.

Lemma AdminConfig_round_trip m :
  AdminConfig_valid m ->
  AdminConfig_Unmarshal AdminConfig_zero (AdminConfig_wire m) = Ok (AdminConfig_canon m).
Proof.
  intros [Hu Hb]. unfold AdminConfig_wire in *. destruct m as [s u].
  cbn [ConfigId AdminConfig_XXX_unrecognized] in *.
  pose proof (decoder_nil "AdminConfig" AdminConfig_arms AdminConfig_add_unrecognized
                _ _ AdminConfig_field_generic AdminConfig_Unmarshal_loop AdminConfig_zero) as H0.
  assert (H1 : AdminConfig_Unmarshal AdminConfig_zero ([] ++ string_field x0a s)
               = Ok {| ConfigId := s; AdminConfig_XXX_unrecognized := None |}).
  { destruct (Z_gt_dec (len s) 0) as [Hs | Hs].
    - rewrite string_field_message_field in * by assumption.
      eapply (decoder_known_field "AdminConfig" AdminConfig_arms AdminConfig_add_unrecognized
               _ _ AdminConfig_field_generic AdminConfig_Unmarshal_loop);
        [exact H0 | apply read_tag_x0a | reflexivity | reflexivity | ].
      cbn [app]. rewrite len_app in Hb. pose proof (len_nonneg (bytes_of u)). lia.
    - destruct (string_field_empty x0a s Hs) as [-> ->]. exact H0. }
  cbn [app] in H1.
  apply (decoder_keeps_unknown_fields "AdminConfig" AdminConfig_arms
           AdminConfig_add_unrecognized _ _ AdminConfig_field_generic
           AdminConfig_Unmarshal_loop AdminConfig_add_nil AdminConfig_add_app
           _ _ _ _ H1 Hu Hb).
Qed.

Section RoundTripFacts.

Context {E : Externals}.
Variable TapConfig_wire : v3_TapConfig -> list byte.
Variable ConfigSource_wire : v4alpha_ConfigSource -> list byte.
Hypothesis TapConfig_unmarshal : unmarshal_contract TapConfig_wire.
Hypothesis ConfigSource_unmarshal : unmarshal_contract ConfigSource_wire.

Lemma TapDSConfig_round_trip m :
  TapDSConfig_valid ConfigSource_wire m ->
  TapDSConfig_Unmarshal TapDSConfig_zero (TapDSConfig_wire ConfigSource_wire m)
  = Ok (TapDSConfig_canon m).
Proof.
  intros [Hu Hb]. unfold TapDSConfig_wire in *. destruct m as [cs s u].
  cbn [ConfigSource Name TapDSConfig_XXX_unrecognized] in *.
  set (F1 := match cs with
             | Some cs => message_field x0a (ConfigSource_wire cs)
             | None => []
             end) in *.
  rewrite !len_app in Hb.
  pose proof (len_nonneg F1) as HF1.
  pose proof (len_nonneg (string_field x12 s)) as HF2.
  pose proof (len_nonneg (bytes_of u)) as HF3.
  pose proof (decoder_nil "TapDSConfig" TapDSConfig_arms TapDSConfig_add_unrecognized
                _ _ TapDSConfig_field_generic TapDSConfig_Unmarshal_loop TapDSConfig_zero)
    as H0.
  assert (H1 : TapDSConfig_Unmarshal TapDSConfig_zero ([] ++ F1)
               = Ok {| ConfigSource := cs; Name := [];
                       TapDSConfig_XXX_unrecognized := None |}).
  { subst F1. destruct cs as [cs | ]; [ | exact H0].
    eapply (decoder_known_field "TapDSConfig" TapDSConfig_arms TapDSConfig_add_unrecognized
              _ _ TapDSConfig_field_generic TapDSConfig_Unmarshal_loop);
      [exact H0 | apply read_tag_x0a | reflexivity | | cbn [app]; lia].
    cbn [arm_store ConfigSource TapDSConfig_zero]. rewrite ConfigSource_unmarshal.
    reflexivity. }
  cbn [app] in H1.
  assert (H2 : TapDSConfig_Unmarshal TapDSConfig_zero (F1 ++ string_field x12 s)
               = Ok {| ConfigSource := cs; Name := s;
                       TapDSConfig_XXX_unrecognized := None |}).
  { destruct (Z_gt_dec (len s) 0) as [Hs | Hs].
    - rewrite string_field_message_field in * by assumption.
      eapply (decoder_known_field "TapDSConfig" TapDSConfig_arms TapDSConfig_add_unrecognized
                _ _ TapDSConfig_field_generic TapDSConfig_Unmarshal_loop);
        [exact H1 | apply read_tag_x12 | reflexivity | reflexivity | rewrite len_app; lia].
    - destruct (string_field_empty x12 s Hs) as [-> ->]. rewrite app_nil_r. exact H1. }
  rewrite app_assoc.
  apply (decoder_keeps_unknown_fields "TapDSConfig" TapDSConfig_arms
           TapDSConfig_add_unrecognized _ _ TapDSConfig_field_generic
           TapDSConfig_Unmarshal_loop TapDSConfig_add_nil TapDSConfig_add_app
           _ _ _ _ H2 Hu).
  rewrite !len_app. lia.
Qed.

Lemma CommonExtensionConfig_round_trip m :
  CommonExtensionConfig_valid TapConfig_wire ConfigSource_wire m ->
  CommonExtensionConfig_Unmarshal CommonExtensionConfig_zero
    (CommonExtensionConfig_wire TapConfig_wire ConfigSource_wire m)
  = Ok (CommonExtensionConfig_canon m).
Proof.
  intros [Hx [Hu Hb]]. unfold CommonExtensionConfig_wire in *. destruct m as [x u].
  cbn [ConfigType XXX_unrecognized] in *.
  set (F1 := match x with
             | Some x => ConfigType_wire TapConfig_wire ConfigSource_wire x
             | None => []
             end) in *.
  rewrite len_app in Hb.
  pose proof (len_nonneg F1) as HF1. pose proof (len_nonneg (bytes_of u)) as HF3.
  pose proof (decoder_nil "CommonExtensionConfig" CommonExtensionConfig_arms
                CommonExtensionConfig_add_unrecognized
                _ _ CommonExtensionConfig_field_generic CommonExtensionConfig_Unmarshal_loop
                CommonExtensionConfig_zero) as H0.
  assert (H1 : CommonExtensionConfig_Unmarshal CommonExtensionConfig_zero ([] ++ F1)
               = Ok {| ConfigType := option_map ConfigType_canon x;
                       XXX_unrecognized := None |}).
  { subst F1. destruct x as [[[[[a | ]] | ] | [[[a | ]] | ] | [[[a | ]] | ]] | ];
      cbn [ConfigType_valid] in Hx; try contradiction; try exact H0;
      cbn [ConfigType_wire option_map ConfigType_canon] in *.
    - eapply (decoder_known_field "CommonExtensionConfig" CommonExtensionConfig_arms
                CommonExtensionConfig_add_unrecognized
                _ _ CommonExtensionConfig_field_generic CommonExtensionConfig_Unmarshal_loop);
        [exact H0 | apply read_tag_x0a | reflexivity | | cbn [app]; lia].
      cbn [arm_store]. rewrite (AdminConfig_round_trip a Hx). reflexivity.
    - eapply (decoder_known_field "CommonExtensionConfig" CommonExtensionConfig_arms
                CommonExtensionConfig_add_unrecognized
                _ _ CommonExtensionConfig_field_generic CommonExtensionConfig_Unmarshal_loop);
        [exact H0 | apply read_tag_x12 | reflexivity | | cbn [app]; lia].
      cbn [arm_store]. rewrite TapConfig_unmarshal. reflexivity.
    - eapply (decoder_known_field "CommonExtensionConfig" CommonExtensionConfig_arms
                CommonExtensionConfig_add_unrecognized
                _ _ CommonExtensionConfig_field_generic CommonExtensionConfig_Unmarshal_loop);
        [exact H0 | apply read_tag_x1a | reflexivity | | cbn [app]; lia].
      cbn [arm_store]. rewrite (TapDSConfig_round_trip a Hx). reflexivity. }
  cbn [app] in H1.
  apply (decoder_keeps_unknown_fields "CommonExtensionConfig" CommonExtensionConfig_arms
           CommonExtensionConfig_add_unrecognized _ _ CommonExtensionConfig_field_generic
           CommonExtensionConfig_Unmarshal_loop CommonExtensionConfig_add_nil
           CommonExtensionConfig_add_app _ _ _ _ H1 Hu).
  rewrite len_app. lia.
Qed.

Lemma CommonExtensionConfig_valid_wrapper_present m :
  CommonExtensionConfig_valid TapConfig_wire ConfigSource_wire m -> wrapper_present m.
Proof.
  intros [Hx _]. unfold wrapper_present.
  destruct (ConfigType m) as [[[[[a | ]] | ] | [[[a | ]] | ] | [[[a | ]] | ]] | ];
    cbn [ConfigType_valid] in Hx; try contradiction; exact I.
Qed.

End RoundTripFacts.

(** C2, as stated, at [AdminConfig{XXX_unrecognized: {0x0a, 0x01, 0x41}}]:
    [Marshal] emits the three bytes as they are, and [Unmarshal] reads them
    as field 1, so the message that comes back has [ConfigId = "A"] and no
    unrecognized bytes. *)
Lemma C2_unrecognized_bytes_read_as_a_field :
  AdminConfig_Marshal unrecognized_example = Ok [x0a; x01; x41]
  /\ AdminConfig_Unmarshal AdminConfig_zero [x0a; x01; x41]
     = Ok {| ConfigId := [x41]; AdminConfig_XXX_unrecognized := None |}
  /\ ~ (exists b m', AdminConfig_Marshal unrecognized_example = Ok b
                     /\ AdminConfig_Unmarshal AdminConfig_zero b = Ok m'
                     /\ ConfigId m' = ConfigId unrecognized_example
                     /\ bytes_of (AdminConfig_XXX_unrecognized m')
                        = bytes_of (AdminConfig_XXX_unrecognized unrecognized_example)).
Proof.
  split; [reflexivity | split; [reflexivity | ]].
  intros [b [m' [Hb [Hm' [Hid _]]]]].
  vm_compute in Hb. injection Hb as <-.
  vm_compute in Hm'. injection Hm' as <-. discriminate.
Qed.

(** C2 (amended): for every message of the three types whose unrecognized
    bytes are a sequence of whole fields with numbers the schema does not
    know (what decoding leaves there), whose oneof, when set, holds a wrapper
    with its message in it, and whose encoding is shorter than 2^63 bytes,
    [Unmarshal] of the bytes [Marshal] produces, into a fresh value, succeeds
    and gives the message back field for field: the same scalar fields, the
    same oneof variant with the same payload, and the same unrecognized bytes
    (an empty non-nil slice of them comes back as nil).  The imported message
    types are assumed to keep the marshal contract and to read back what they
    marshal. *)
Theorem C2_round_trip {E : Externals}
  (TapConfig_wire : v3_TapConfig -> list byte)
  (ConfigSource_wire : v4alpha_ConfigSource -> list byte) :
  marshal_contract TapConfig_wire -> marshal_contract ConfigSource_wire ->
  unmarshal_contract TapConfig_wire -> unmarshal_contract ConfigSource_wire ->
  (forall m : AdminConfig,
     AdminConfig_valid m ->
     exists b, AdminConfig_Marshal m = Ok b
               /\ AdminConfig_Unmarshal AdminConfig_zero b = Ok (AdminConfig_canon m))
  /\ (forall m : CommonExtensionConfig_TapDSConfig,
        TapDSConfig_valid ConfigSource_wire m ->
        exists b, TapDSConfig_Marshal m = Ok b
                  /\ TapDSConfig_Unmarshal TapDSConfig_zero b = Ok (TapDSConfig_canon m))
  /\ (forall m : CommonExtensionConfig,
        CommonExtensionConfig_valid TapConfig_wire ConfigSource_wire m ->
        exists b, CommonExtensionConfig_Marshal m = Ok b
                  /\ CommonExtensionConfig_Unmarshal CommonExtensionConfig_zero b
                     = Ok (CommonExtensionConfig_canon m)).
Proof.
  intros HTm HCm HTu HCu. split; [ | split].
  - intros m Hm. exists (AdminConfig_wire m).
    split; [apply AdminConfig_Marshal_wire | now apply AdminConfig_round_trip].
  - intros m Hm. exists (TapDSConfig_wire ConfigSource_wire m).
    split; [now apply TapDSConfig_Marshal_wire | now apply TapDSConfig_round_trip].
  - intros m Hm. exists (CommonExtensionConfig_wire TapConfig_wire ConfigSource_wire m).
    split.
    + apply CommonExtensionConfig_Marshal_wire; try assumption.
      eapply CommonExtensionConfig_valid_wrapper_present, Hm.
    + now apply CommonExtensionConfig_round_trip.
Qed.

Lemma C2_witness :
  exists b,
    CommonExtensionConfig_Marshal static_example = Ok b
    /\ CommonExtensionConfig_Unmarshal CommonExtensionConfig_zero b
       = Ok (CommonExtensionConfig_canon static_example).
Proof.
  apply (C2_round_trip (E := Flag_externals) Flag_wire Flag_wire
           Flag_marshal_contract Flag_marshal_contract
           Flag_unmarshal_contract Flag_unmarshal_contract).
  split; [exact I | split].
  - apply (unknown_fields_cons _ [x20; x07] []); [vm_compute; reflexivity | constructor].
  - vm_compute. reflexivity.
Defined.

(** ** C5 *)

(** C5 as stated does not hold: a strict prefix that ends where a field of
    the encoding ends decodes, to the message of the fields before the cut.
    The empty prefix of the ten bytes of ["filter-1"] decodes to the empty
    message; the first three of the five bytes of a message with
    [ConfigId = "a"] and a field 2 kept from a newer schema decode to the
    message without that field; the first four of the seven bytes of a
    [TapDSConfig] with both fields decode to one without its [Name]. *)
Lemma C5_prefix_at_a_field_boundary_decodes :
  (AdminConfig_Marshal filter_1 = Ok ([] ++ x0a :: x08 :: list_byte_of_string "filter-1")
   /\ AdminConfig_Unmarshal AdminConfig_zero [] = Ok AdminConfig_zero)
  /\ (AdminConfig_Marshal newer_schema_example = Ok ([x0a; x01; x61] ++ [x10; x05])
      /\ AdminConfig_Unmarshal AdminConfig_zero [x0a; x01; x61]
         = Ok {| ConfigId := [x61]; AdminConfig_XXX_unrecognized := None |})
  /\ (TapDSConfig_Marshal (tapds_example [x6e])
      = Ok ([x0a; x02; x08; x01] ++ [x12; x01; x6e])
      /\ TapDSConfig_Unmarshal TapDSConfig_zero [x0a; x02; x08; x01]
         = Ok (tapds_example [])).
Proof. repeat split; vm_compute; reflexivity. Qed.

(** C5 (amended): for each of the three messages, a prefix of an input that
    [Unmarshal] decodes -- so a prefix of the encoding of a message that
    survives the round trip -- fails with [io.ErrUnexpectedEOF] or decodes;
    it does not fail otherwise, panic or loop.  It fails with
    [io.ErrUnexpectedEOF] whenever it stops inside a field: behind any input
    that decodes, a field cut after its first and before its last byte is
    reported so, while the whole field decodes.  (The imported message types
    are assumed to keep the marshal and unmarshal contracts.) *)
Theorem C5_prefix_is_truncated_or_ends_at_a_field {E : Externals}
  (TapConfig_wire : v3_TapConfig -> list byte)
  (ConfigSource_wire : v4alpha_ConfigSource -> list byte) :
  marshal_contract TapConfig_wire -> marshal_contract ConfigSource_wire ->
  unmarshal_contract TapConfig_wire -> unmarshal_contract ConfigSource_wire ->
  (cut_inside_a_field_fails AdminConfig_Unmarshal AdminConfig_Unmarshal_field
   /\ cut_inside_a_field_fails TapDSConfig_Unmarshal TapDSConfig_Unmarshal_field
   /\ cut_inside_a_field_fails CommonExtensionConfig_Unmarshal
        CommonExtensionConfig_Unmarshal_field)
  /\ (prefix_fails_or_decodes AdminConfig_Unmarshal
      /\ prefix_fails_or_decodes TapDSConfig_Unmarshal
      /\ prefix_fails_or_decodes CommonExtensionConfig_Unmarshal)
  /\ ((forall m b p q,
         AdminConfig_valid m -> AdminConfig_Marshal m = Ok b -> b = p ++ q ->
         AdminConfig_Unmarshal AdminConfig_zero p = Err ErrUnexpectedEOF
         \/ exists m', AdminConfig_Unmarshal AdminConfig_zero p = Ok m')
      /\ (forall m b p q,
            TapDSConfig_valid ConfigSource_wire m -> TapDSConfig_Marshal m = Ok b ->
            b = p ++ q ->
            TapDSConfig_Unmarshal TapDSConfig_zero p = Err ErrUnexpectedEOF
            \/ exists m', TapDSConfig_Unmarshal TapDSConfig_zero p = Ok m')
      /\ (forall m b p q,
            CommonExtensionConfig_valid TapConfig_wire ConfigSource_wire m ->
            CommonExtensionConfig_Marshal m = Ok b -> b = p ++ q ->
            CommonExtensionConfig_Unmarshal CommonExtensionConfig_zero p
            = Err ErrUnexpectedEOF
            \/ exists m', CommonExtensionConfig_Unmarshal CommonExtensionConfig_zero p
                          = Ok m')).
Proof.
  intros HTm HCm HTu HCu.
  pose proof (decoder_prefix "AdminConfig" AdminConfig_arms AdminConfig_add_unrecognized
                _ _ AdminConfig_field_generic AdminConfig_Unmarshal_loop) as PA.
  pose proof (decoder_prefix "TapDSConfig" TapDSConfig_arms TapDSConfig_add_unrecognized
                _ _ TapDSConfig_field_generic TapDSConfig_Unmarshal_loop) as PT.
  pose proof (decoder_prefix "CommonExtensionConfig" CommonExtensionConfig_arms
                CommonExtensionConfig_add_unrecognized
                _ _ CommonExtensionConfig_field_generic
                CommonExtensionConfig_Unmarshal_loop) as PC.
  split; [split; [ | split] | split; [repeat split; assumption | split; [ | split]]].
  - apply (decoder_cut "AdminConfig" AdminConfig_arms AdminConfig_add_unrecognized
             _ _ AdminConfig_field_generic AdminConfig_Unmarshal_loop).
  - apply (decoder_cut "TapDSConfig" TapDSConfig_arms TapDSConfig_add_unrecognized
             _ _ TapDSConfig_field_generic TapDSConfig_Unmarshal_loop).
  - apply (decoder_cut "CommonExtensionConfig" CommonExtensionConfig_arms
             CommonExtensionConfig_add_unrecognized
             _ _ CommonExtensionConfig_field_generic
             CommonExtensionConfig_Unmarshal_loop).
  - intros m b p q Hm Hb Hpq.
    rewrite AdminConfig_Marshal_wire in Hb. injection Hb as <-.
    apply (PA AdminConfig_zero (AdminConfig_wire m) (AdminConfig_canon m) p q);
      [now apply AdminConfig_round_trip | apply Hm | assumption].
  - intros m b p q Hm Hb Hpq.
    rewrite (TapDSConfig_Marshal_wire ConfigSource_wire HCm) in Hb. injection Hb as <-.
    apply (PT TapDSConfig_zero (TapDSConfig_wire ConfigSource_wire m)
             (TapDSConfig_canon m) p q);
      [now apply TapDSConfig_round_trip | apply Hm | assumption].
  - intros m b p q Hm Hb Hpq.
    rewrite (CommonExtensionConfig_Marshal_wire TapConfig_wire ConfigSource_wire HTm HCm)
      in Hb by (eapply CommonExtensionConfig_valid_wrapper_present, Hm).
    injection Hb as <-.
    apply (PC CommonExtensionConfig_zero
             (CommonExtensionConfig_wire TapConfig_wire ConfigSource_wire m)
             (CommonExtensionConfig_canon m) p q);
      [now apply CommonExtensionConfig_round_trip | apply Hm | assumption].
Qed.

Lemma C5_witness :
  TapDSConfig_Unmarshal (E := Flag_externals) TapDSConfig_zero
    ([x0a; x02; x08; x01] ++ [x12; x05; x6e; x61]) = Err ErrUnexpectedEOF.
Proof.
  refine (proj2 (proj1 (proj2 (proj1
            (C5_prefix_is_truncated_or_ends_at_a_field (E := Flag_externals)
               Flag_wire Flag_wire Flag_marshal_contract Flag_marshal_contract
               Flag_unmarshal_contract Flag_unmarshal_contract)))
            TapDSConfig_zero [x0a; x02; x08; x01]
            (tapds_example [])
            [x12; x05; x6e; x61; x6d; x65; x31]
            (tapds_example [x6e; x61; x6d; x65; x31]) _ _ _ _)
            [x12; x05; x6e; x61] [x6d; x65; x31] _ _ _).
  - vm_compute. reflexivity.
  - vm_compute. reflexivity.
  - discriminate.
  - vm_compute. reflexivity.
  - reflexivity.
  - discriminate.
  - discriminate.
Defined.

(** ** C6 *)

(** C6 as stated does not hold for wire type 4: the loop tests for an end
    group tag before it looks at the field number, so field 1 with wire type
    4 (the byte 0x0c) is reported as an end group outside a group, not as a
    wrong wire type for the field. *)
Lemma C6_end_group_on_a_known_field :
  AdminConfig_Unmarshal AdminConfig_zero [x0c]
  = Err (ErrEndGroupForNonGroup "AdminConfig")
  /\ AdminConfig_Unmarshal AdminConfig_zero [x0c] <> Err (ErrWrongWireType 4 "ConfigId")
  /\ CommonExtensionConfig_Unmarshal (E := Flag_externals) CommonExtensionConfig_zero [x14]
     = Err (ErrEndGroupForNonGroup "CommonExtensionConfig").
Proof. repeat split; try (vm_compute; reflexivity). vm_compute. discriminate. Qed.

(** C6 (amended): in each of the three [Unmarshal] routines, behind any
    input that decodes, a tag whose field number the schema knows and whose
    wire type is neither 2 nor 4 fails with the wrong-wireType error, which
    carries this wire type and the name of the field; with wire type 4 it
    fails with the error of an end group outside a group. *)
Theorem C6_wire_type_of_known_fields {E : Externals} :
  wire_type_is_checked "AdminConfig" AdminConfig_arms AdminConfig_Unmarshal
  /\ wire_type_is_checked "TapDSConfig" TapDSConfig_arms TapDSConfig_Unmarshal
  /\ wire_type_is_checked "CommonExtensionConfig" CommonExtensionConfig_arms
       CommonExtensionConfig_Unmarshal.
Proof.
  split; [ | split].
  - apply (decoder_wire_type "AdminConfig" AdminConfig_arms AdminConfig_add_unrecognized
             _ _ AdminConfig_field_generic AdminConfig_Unmarshal_loop
             AdminConfig_arms_positive).
  - apply (decoder_wire_type "TapDSConfig" TapDSConfig_arms TapDSConfig_add_unrecognized
             _ _ TapDSConfig_field_generic TapDSConfig_Unmarshal_loop
             TapDSConfig_arms_positive).
  - apply (decoder_wire_type "CommonExtensionConfig" CommonExtensionConfig_arms
             CommonExtensionConfig_add_unrecognized
             _ _ CommonExtensionConfig_field_generic
             CommonExtensionConfig_Unmarshal_loop
             CommonExtensionConfig_arms_positive).
Qed.

Lemma C6_witness :
  CommonExtensionConfig_Unmarshal (E := Flag_externals) CommonExtensionConfig_zero
    ([x12; x02; x08; x01] ++ [x1d; x01; x02; x03; x04])
  = Err (ErrWrongWireType 5 "TapdsConfig").
Proof.
  assert (H2 : int (Z.land 29 7) <> 2) by (vm_compute; discriminate).
  assert (H4 : int (Z.land 29 7) <> 4) by (vm_compute; discriminate).
  exact (proj1 (proj2 (proj2 (C6_wire_type_of_known_fields (E := Flag_externals)))
                  CommonExtensionConfig_zero [x12; x02; x08; x01]
                  static_example_decoded [x1d; x01; x02; x03; x04] 29
                  (Cursor 5 [x01; x02; x03; x04]) _
                  eq_refl eq_refl eq_refl eq_refl) H2 H4).
Defined.

(** ** C7 *)

(** C7 as stated does not hold for lengths that reach past the end of the
    input.  [skipCommon] does not compare the length of a length-delimited
    field with the input: on the two bytes 0x0a 0x05 it returns 7 and no
    error; the caller makes the comparison.  And a length prefix that is not
    negative but so large that the end position wraps is reported by
    [Unmarshal] as an invalid length, not as truncated input: field 1 with
    stringLen 2^63 - 1. *)
Lemma C7_length_past_the_end :
  (skipCommon [x0a; x05] = Ok 7 /\ len [x0a; x05] = 2)
  /\ (read_length StringLen
        (Cursor 1 [xff; xff; xff; xff; xff; xff; xff; xff; x7f])
      = Ok (2 ^ 63 - 1, Cursor 10 [])
      /\ AdminConfig_Unmarshal AdminConfig_zero
           [x0a; xff; xff; xff; xff; xff; xff; xff; xff; x7f]
         = Err ErrInvalidLengthCommon).
Proof. repeat split; vm_compute; reflexivity. Qed.

(** C7 (amended): in each of the three [Unmarshal] loops a tag or a length
    prefix of ten bytes with the continuation bit fails with
    [ErrIntOverflowCommon]; a length prefix that is negative, or whose end
    position wraps, fails with [ErrInvalidLengthCommon]; one whose end
    position lies past the input, and an unknown field that [skipCommon]
    ends past the input, fails with [io.ErrUnexpectedEOF].  Behind any input
    that decodes, the error of the iteration is the error of [Unmarshal],
    and an error of [skipCommon] is the error of the iteration.  [skipCommon]
    itself fails with [ErrIntOverflowCommon] on a tag, a varint value or a
    length prefix of ten continuation bytes and with [ErrInvalidLengthCommon]
    on a negative length or an end position that wraps; otherwise it returns
    the end position, also when that lies past its input. *)
Theorem C7_varints_and_lengths_are_checked {E : Externals} :
  (checks_varints_and_lengths "AdminConfig" AdminConfig_arms AdminConfig_Unmarshal_field
   /\ checks_varints_and_lengths "TapDSConfig" TapDSConfig_arms
        TapDSConfig_Unmarshal_field
   /\ checks_varints_and_lengths "CommonExtensionConfig" CommonExtensionConfig_arms
        CommonExtensionConfig_Unmarshal_field)
  /\ (reports_the_error_reached AdminConfig_Unmarshal AdminConfig_Unmarshal_field
      /\ reports_the_error_reached TapDSConfig_Unmarshal TapDSConfig_Unmarshal_field
      /\ reports_the_error_reached CommonExtensionConfig_Unmarshal
           CommonExtensionConfig_Unmarshal_field)
  /\ (returns_the_error_of_skipCommon "AdminConfig" AdminConfig_arms
        AdminConfig_Unmarshal_field
      /\ returns_the_error_of_skipCommon "TapDSConfig" TapDSConfig_arms
           TapDSConfig_Unmarshal_field
      /\ returns_the_error_of_skipCommon "CommonExtensionConfig"
           CommonExtensionConfig_arms CommonExtensionConfig_Unmarshal_field)
  /\ skipCommon_checks.
Proof.
  split; [split; [ | split] | split; [split; [ | split] | split; [split; [ | split] | ]]].
  - apply (decoder_checks "AdminConfig" AdminConfig_arms AdminConfig_add_unrecognized
             _ AdminConfig_field_generic).
  - apply (decoder_checks "TapDSConfig" TapDSConfig_arms TapDSConfig_add_unrecognized
             _ TapDSConfig_field_generic).
  - apply (decoder_checks "CommonExtensionConfig" CommonExtensionConfig_arms
             CommonExtensionConfig_add_unrecognized
             _ CommonExtensionConfig_field_generic).
  - apply (decoder_reports "AdminConfig" AdminConfig_arms AdminConfig_add_unrecognized
             _ _ AdminConfig_field_generic AdminConfig_Unmarshal_loop).
  - apply (decoder_reports "TapDSConfig" TapDSConfig_arms TapDSConfig_add_unrecognized
             _ _ TapDSConfig_field_generic TapDSConfig_Unmarshal_loop).
  - apply (decoder_reports "CommonExtensionConfig" CommonExtensionConfig_arms
             CommonExtensionConfig_add_unrecognized
             _ _ CommonExtensionConfig_field_generic
             CommonExtensionConfig_Unmarshal_loop).
  - apply (decoder_skip_error "AdminConfig" AdminConfig_arms AdminConfig_add_unrecognized
             _ AdminConfig_field_generic).
  - apply (decoder_skip_error "TapDSConfig" TapDSConfig_arms TapDSConfig_add_unrecognized
             _ TapDSConfig_field_generic).
  - apply (decoder_skip_error "CommonExtensionConfig" CommonExtensionConfig_arms
             CommonExtensionConfig_add_unrecognized
             _ CommonExtensionConfig_field_generic).
  - exact skipCommon_checked.
Qed.

Lemma C7_witness :
  skipCommon ([x82; x80; x80; x80; x80; x80; x80; x80; x80; x80] ++ [x01; x00])
  = Err ErrIntOverflowCommon
  /\ AdminConfig_Unmarshal AdminConfig_zero ([x10; x05] ++ [x0a; x85; x00])
     = Err ErrUnexpectedEOF.
Proof.
  pose proof (C7_varints_and_lengths_are_checked (E := Flag_externals))
    as [[CA _] [[RA _] [_ S]]].
  split.
  - apply (proj1 S); [ | reflexivity].
    repeat constructor; vm_compute; discriminate.
  - apply (RA AdminConfig_zero [x10; x05]
             {| ConfigId := []; AdminConfig_XXX_unrecognized := Some [x10; x05] |}).
    + vm_compute. reflexivity.
    + discriminate.
    + vm_compute. reflexivity.
    + refine (proj2 (proj2 (proj1 (proj2 (proj2 CA)) _ _ (Cursor 2 [x0a; x85; x00]) 1 _
                (Cursor 3 [x85; x00]) 5 (Cursor 5 []) _ _ _ _)) _ _).
      * vm_compute. reflexivity.
      * vm_compute. reflexivity.
      * vm_compute. reflexivity.
      * vm_compute. split; [discriminate | reflexivity].
      * vm_compute. discriminate.
      * vm_compute. split; reflexivity.
Defined.

(** ** C8 *)

(** C8 as stated does not hold when the branch the oneof is set to holds no
    message: the wrapper's [MarshalToSizedBuffer] writes the tag inside its
    [if m.AdminConfig != nil], so a [CommonExtensionConfig] whose oneof is a
    [CommonExtensionConfig_AdminConfig] with a nil [AdminConfig] marshals to
    no byte at all, and the output does not begin with 0x0a. *)
Lemma C8_branch_without_message_is_empty :
  GetConfigType (Some nil_payload_example)
  = Some (ConfigType_AdminConfig (Some {| AdminConfig' := None |}))
  /\ bytes_of (XXX_unrecognized nil_payload_example) = []
  /\ CommonExtensionConfig_Marshal nil_payload_example = Ok []
  /\ ~ (exists r, CommonExtensionConfig_Marshal nil_payload_example = Ok (x0a :: r)).
Proof.
  split; [reflexivity | split; [reflexivity | split; [reflexivity | ]]].
  intros [r H]. vm_compute in H. discriminate.
Qed.

(** C8 (amended): for every [CommonExtensionConfig] without unrecognized
    bytes whose oneof is set to a branch that holds a message, [Marshal]
    produces the tag byte of this branch (0x0a for AdminConfig, 0x12 for
    StaticConfig, 0x1a for TapdsConfig), the length of the encoding of this
    message as a varint, and this encoding, and nothing else.  When the
    branch holds no message the output is empty.  (The imported message types
    are assumed to keep the marshal contract; the encoding of a [v3.TapConfig]
    is the one of this contract.) *)
Theorem C8_only_the_branch_that_is_set {E : Externals}
  (TapConfig_wire : v3_TapConfig -> list byte)
  (ConfigSource_wire : v4alpha_ConfigSource -> list byte) :
  marshal_contract TapConfig_wire -> marshal_contract ConfigSource_wire ->
  forall m : CommonExtensionConfig,
    bytes_of (XXX_unrecognized m) = [] ->
    (forall a,
       ConfigType m = Some (ConfigType_AdminConfig (Some {| AdminConfig' := Some a |})) ->
       exists p, AdminConfig_Marshal a = Ok p
                 /\ CommonExtensionConfig_Marshal m
                    = Ok (x0a :: uvarint (uint64 (len p)) ++ p))
    /\ (forall t,
          ConfigType m
          = Some (ConfigType_StaticConfig (Some {| StaticConfig := Some t |})) ->
          CommonExtensionConfig_Marshal m
          = Ok (x12 :: uvarint (uint64 (len (TapConfig_wire t))) ++ TapConfig_wire t))
    /\ (forall d,
          ConfigType m = Some (ConfigType_TapdsConfig (Some {| TapdsConfig := Some d |})) ->
          exists p, TapDSConfig_Marshal d = Ok p
                    /\ CommonExtensionConfig_Marshal m
                       = Ok (x1a :: uvarint (uint64 (len p)) ++ p))
    /\ (ConfigType m = Some (ConfigType_AdminConfig (Some {| AdminConfig' := None |}))
        \/ ConfigType m
           = Some (ConfigType_StaticConfig (Some {| StaticConfig := None |}))
        \/ ConfigType m = Some (ConfigType_TapdsConfig (Some {| TapdsConfig := None |})) ->
        CommonExtensionConfig_Marshal m = Ok []).
Proof.
  intros HT HC m Hu.
  pose proof (CommonExtensionConfig_Marshal_wire TapConfig_wire ConfigSource_wire HT HC m)
    as HM.
  unfold wrapper_present, CommonExtensionConfig_wire in HM. rewrite Hu, app_nil_r in HM.
  split; [ | split; [ | split]].
  - intros a Ha. rewrite Ha in HM. exists (AdminConfig_wire a).
    split; [apply AdminConfig_Marshal_wire | exact (HM I)].
  - intros t Ht. rewrite Ht in HM. exact (HM I).
  - intros d Hd. rewrite Hd in HM. exists (TapDSConfig_wire ConfigSource_wire d).
    split; [now apply TapDSConfig_Marshal_wire | exact (HM I)].
  - intros [H | [H | H]]; rewrite H in HM; exact (HM I).
Qed.

Lemma C8_witness :
  exists p,
    AdminConfig_Marshal filter_1 = Ok p
    /\ CommonExtensionConfig_Marshal admin_example
       = Ok (x0a :: uvarint (uint64 (len p)) ++ p).
Proof.
  apply (proj1 (C8_only_the_branch_that_is_set (E := Flag_externals) Flag_wire Flag_wire
                  Flag_marshal_contract Flag_marshal_contract admin_example eq_refl)).
  reflexivity.
Defined.

(** * Further properties of the code *)

(** ** Varint sizes *)

(** X1: for a [uint64] [x], [sovCommon x] lies between 1 and 10 and is the
    number of groups of seven bits [x] needs: it is at most [k] exactly when
    [x < 2^(7k)]. *)
Theorem X1_sovCommon_counts_groups x :
  0 <= x < 2 ^ 64 ->
  1 <= sovCommon x <= 10
  /\ forall k, 1 <= k -> (sovCommon x <= k <-> x < 2 ^ (7 * k)).
Proof.
  intros Hx. rewrite sovCommon_log2 by lia.
  pose proof (Z.log2_nonneg x) as HL.
  assert (H64 : Z.log2 x < 64).
  { destruct (Z.eq_dec x 0) as [-> | Hne]; [cbn; lia | ].
    apply Z.log2_lt_pow2; lia. }
  split; [split; [apply Z.div_le_lower_bound | apply Z.div_le_upper_bound]; lia | ].
  intros k Hk.
  assert (Hiff : x < 2 ^ (7 * k) <-> Z.log2 x < 7 * k).
  { destruct (Z.eq_dec x 0) as [-> | Hne].
    - cbn [Z.log2]. split; intros _; [lia | apply Z.pow_pos_nonneg; lia].
    - apply Z.log2_lt_pow2; lia. }
  rewrite Hiff. split; intros H.
  - destruct (Z.lt_ge_cases (Z.log2 x) (7 * k)) as [Hlt | Hge]; [assumption | ].
    assert (k + 1 <= (Z.log2 x + 7) / 7) by (apply Z.div_le_lower_bound; lia). lia.
  - apply Z.lt_succ_r. apply Z.div_lt_upper_bound; lia.
Qed.

Lemma X1_witness : 1 <= sovCommon 300 <= 10 /\ (sovCommon 300 <= 2 <-> 300 < 2 ^ (7 * 2)).
Proof.
  destruct (X1_sovCommon_counts_groups 300 ltac:(lia)) as [H1 H2].
  split; [exact H1 | apply H2; lia].
Defined.

Lemma lxor_ones_64 a : 0 <= a < 2 ^ 64 -> Z.lxor a (2 ^ 64 - 1) = 2 ^ 64 - 1 - a.
Proof.
  intros Ha.
  assert (Hnot : Z.land (Z.lnot a) (Z.ones 64) = 2 ^ 64 - 1 - a).
  { rewrite Z.land_ones by lia. unfold Z.lnot. rewrite <- Z.sub_1_r.
    replace (- a - 1) with (2 ^ 64 - 1 - a + (- 1) * 2 ^ 64) by lia.
    rewrite Z.mod_add by lia. apply Z.mod_small. lia. }
  rewrite <- Hnot.
  assert (Hland : a = Z.land a (Z.ones 64)).
  { rewrite Z.land_ones by lia. symmetry. apply Z.mod_small. lia. }
  rewrite Hland at 1. change (2 ^ 64 - 1) with (Z.ones 64).
  apply Z.bits_inj'. intros n Hn.
  rewrite Z.lxor_spec, !Z.land_spec, Z.lnot_spec by assumption.
  destruct (Z.testbit a n), (Z.testbit (Z.ones 64) n); reflexivity.
Qed.

(** X2: [sozCommon] is the varint size of the zigzag encoding: for a signed
    64-bit [v], [sozCommon(uint64(v))] is [sovCommon] of [2v] when [v] is
    not negative and of [-2v - 1] when it is. *)
Theorem X2_sozCommon_is_the_zigzag_size v :
  - 2 ^ 63 <= v < 2 ^ 63 ->
  sozCommon (uint64 v) = sovCommon (if v <? 0 then - 2 * v - 1 else 2 * v).
Proof.
  intros Hv. unfold sozCommon. f_equal.
  destruct (v <? 0) eqn:E; [apply Z.ltb_lt in E | apply Z.ltb_ge in E].
  - assert (Hx : uint64 v = v + 2 ^ 64).
    { unfold uint64. replace v with (v + 2 ^ 64 + (- 1) * 2 ^ 64) at 1 by lia.
      rewrite Z.mod_add by lia. apply Z.mod_small. lia. }
    rewrite Hx. rewrite int_wraps_negative by lia.
    replace (v + 2 ^ 64 - 2 ^ 64) with v by lia.
    rewrite Z.shiftr_div_pow2 by lia.
    assert (Hd : v / 2 ^ 63 = - 1).
    { symmetry. apply (Z.div_unique v (2 ^ 63) (- 1) (v + 2 ^ 63)); lia. }
    rewrite Hd. rewrite Z.shiftl_mul_pow2 by lia.
    assert (H2 : uint64 ((v + 2 ^ 64) * 2 ^ 1) = 2 * v + 2 ^ 64).
    { unfold uint64. replace ((v + 2 ^ 64) * 2 ^ 1) with (2 * v + 2 ^ 64 + 1 * 2 ^ 64) by lia.
      rewrite Z.mod_add by lia. apply Z.mod_small. lia. }
    rewrite H2. change (uint64 (- 1)) with (2 ^ 64 - 1).
    rewrite lxor_ones_64 by lia. rewrite uint64_small by lia. lia.
  - rewrite (uint64_small v) by lia. rewrite int_small by lia.
    rewrite Z.shiftr_div_pow2, Z.div_small by lia.
    change (uint64 0) with 0. rewrite Z.lxor_0_r.
    rewrite Z.shiftl_mul_pow2 by lia. change (2 ^ 1) with 2.
    rewrite (uint64_small (v * 2)) by lia. rewrite uint64_small by lia. lia.
Qed.

Lemma X2_witness : sozCommon (uint64 (- 64)) = sovCommon 127.
Proof. apply (X2_sozCommon_is_the_zigzag_size (- 64)). lia. Defined.

(** ** encodeVarintCommon *)

(** X3: for a [uint64] [v] and a position [offset] with room for
    [sovCommon v] bytes in front of it, [encodeVarintCommon] writes
    [sovCommon v] bytes that end at [offset], leaves every other byte of the
    buffer as it is and returns the position of the first one; the varint
    loop at the head of every [Unmarshal] iteration reads [v] back from
    these bytes and stops behind them. *)
Theorem X3_encodeVarintCommon_writes_a_varint dAtA offset v :
  0 <= v < 2 ^ 64 -> sovCommon v <= offset <= len dAtA ->
  exists bs,
    len bs = sovCommon v
    /\ encodeVarintCommon dAtA offset v
       = Ok (take (offset - sovCommon v) dAtA ++ bs ++ drop offset dAtA,
             offset - sovCommon v)
    /\ forall j r,
         varint or_uint64 (Cursor j (bs ++ r)) = Ok (v, Cursor (j + sovCommon v) r).
Proof.
  intros Hv Ho. exists (uvarint v). split; [now apply len_uvarint | split].
  - now apply encodeVarintCommon_spec.
  - intros j r. rewrite varint_uvarint_uint64 by assumption.
    now rewrite len_uvarint.
Qed.

Lemma X3_witness :
  exists bs,
    len bs = sovCommon 300
    /\ encodeVarintCommon [x00; x00; x00; x00] 3 300
       = Ok (take (3 - sovCommon 300) [x00; x00; x00; x00] ++ bs
               ++ drop 3 [x00; x00; x00; x00], 3 - sovCommon 300)
    /\ forall j r,
         varint or_uint64 (Cursor j (bs ++ r)) = Ok (300, Cursor (j + sovCommon 300) r).
Proof.
  apply X3_encodeVarintCommon_writes_a_varint; [lia | vm_compute; split; discriminate].
Defined.

Lemma store_out_of_range dAtA i b :
  i < 0 \/ len dAtA <= i -> store dAtA i b = Panic IndexOutOfRange.
Proof.
  intros H. unfold store.
  destruct (0 <=? i) eqn:H1; [apply Z.leb_le in H1 | reflexivity].
  destruct (i <? len dAtA) eqn:H2; [apply Z.ltb_lt in H2; lia | reflexivity].
Qed.

Lemma store_len dAtA i b dAtA' :
  store dAtA i b = Ok dAtA' -> 0 <= i < len dAtA /\ len dAtA' = len dAtA.
Proof.
  unfold store. intros H.
  destruct (0 <=? i) eqn:H1; [apply Z.leb_le in H1 | discriminate].
  destruct (i <? len dAtA) eqn:H2; [apply Z.ltb_lt in H2 | discriminate].
  injection H as <-. rewrite len_app, len_cons, len_take, len_drop by lia. lia.
Qed.

Lemma encodeVarint_out_of_range n : forall v dAtA offset (base : Z),
  0 <= v < 2 ^ (7 * Z.of_nat (S n)) ->
  offset < 0 \/ len dAtA < offset + sovCommon v ->
  ('(dAtA, offset, v) <- encodeVarint_loop (S n) dAtA offset v ;;
   dAtA <- store dAtA offset (uint8 v) ;;
   Ok (dAtA, base))
  = Panic IndexOutOfRange.
Proof.
  induction n as [ | n IH]; intros v dAtA offset base Hv Ho;
    rewrite encodeVarint_loop_S; destruct (128 <=? v) eqn:H;
    [apply Z.leb_le in H | apply Z.leb_gt in H | apply Z.leb_le in H | apply Z.leb_gt in H].
  - change (2 ^ (7 * Z.of_nat 1)) with 128 in Hv. lia.
  - cbn [bind]. rewrite sovCommon_small in Ho by lia.
    rewrite store_out_of_range by lia. reflexivity.
  - rewrite sovCommon_step in Ho by lia.
    pose proof (sovCommon_pos (Z.shiftr v 7) ltac:(apply Z.shiftr_nonneg; lia)) as Hs.
    destruct (store dAtA offset (uint8 (Z.lor (Z.land v 127) 128))) as [d' | | | ] eqn:Hst.
    + cbn [bind]. pose proof (store_len _ _ _ _ Hst) as [Hin Hlen].
      apply IH; [apply shiftr7_bound; lia | right; lia].
    + unfold store in Hst. destruct (_ && _); discriminate.
    + unfold store in Hst. destruct (_ && _); [discriminate | ].
      injection Hst as <-. reflexivity.
    + unfold store in Hst. destruct (_ && _); discriminate.
  - cbn [bind]. rewrite sovCommon_small in Ho by lia.
    rewrite store_out_of_range by lia. reflexivity.
Qed.

Lemma encodeVarintCommon_out_of_range dAtA offset v :
  0 <= v < 2 ^ 64 -> offset < sovCommon v \/ len dAtA < offset ->
  encodeVarintCommon dAtA offset v = Panic IndexOutOfRange.
Proof.
  intros Hv Ho. unfold encodeVarintCommon. cbv zeta.
  apply (encodeVarint_out_of_range 9).
  - change (2 ^ (7 * Z.of_nat 10)) with (2 ^ 70). lia.
  - lia.
Qed.

(** X4: [encodeVarintCommon] does not check its bounds: when fewer than
    [sovCommon v] bytes lie in front of [offset], or [offset] lies behind the
    buffer, it panics with an index out of range. *)
Theorem X4_encodeVarintCommon_panics_out_of_bounds dAtA offset v :
  0 <= v < 2 ^ 64 -> offset < sovCommon v \/ len dAtA < offset ->
  encodeVarintCommon dAtA offset v = Panic IndexOutOfRange.
Proof. apply encodeVarintCommon_out_of_range. Qed.

Lemma X4_witness : encodeVarintCommon [x00; x00; x00] 1 300 = Panic IndexOutOfRange.
Proof.
  apply X4_encodeVarintCommon_panics_out_of_bounds; [lia | left; vm_compute; reflexivity].
Defined.

(** ** MarshalToSizedBuffer, MarshalTo and XXX_Marshal *)

Lemma MarshalTo_of_marshals g w dAtA :
  marshals g w -> len w <= cap dAtA ->
  MarshalTo_of (len w) g dAtA = Ok (w ++ drop (len w) (upto_cap dAtA), len w).
Proof.
  intros Hg Hc. unfold MarshalTo_of, cap in *. cbv zeta.
  rewrite (in_prefix_marshals g w _ _ Hg) by lia.
  rewrite Z.sub_diag, take_nonpos by lia. reflexivity.
Qed.

Lemma MarshalTo_of_short size g dAtA :
  cap dAtA < size -> MarshalTo_of size g dAtA = Panic SliceBoundsOutOfRange.
Proof.
  intros Hc. unfold MarshalTo_of, in_prefix, slice_to, cap in *. cbv zeta.
  destruct (size <=? len (upto_cap dAtA)) eqn:H; [apply Z.leb_le in H; lia | ].
  rewrite andb_false_r. reflexivity.
Qed.

Lemma XXX_Marshal_of_marshals lib g w b :
  marshals g w -> len w <= cap b ->
  XXX_Marshal_of lib g b false
  = Ok (take (cap b - len w) (upto_cap b) ++ w,
        take (len w) (take (cap b - len w) (upto_cap b) ++ w)).
Proof.
  intros Hg Hc. unfold XXX_Marshal_of, cap in *. cbv zeta.
  pose proof (len_nonneg w) as Hw.
  rewrite (Hg _ Hc). cbn [bind]. unfold slice_to.
  rewrite len_app, len_take by lia.
  destruct (0 <=? len w) eqn:H0; [ | apply Z.leb_gt in H0; lia].
  destruct (len w <=? len (upto_cap b) - len w + len w) eqn:H1;
    [ | apply Z.leb_gt in H1; lia].
  reflexivity.
Qed.

(** X5: each [MarshalToSizedBuffer], given a buffer of at least [Size]
    bytes, writes the bytes that [Marshal] returns into the last [Size]
    bytes of the buffer, leaves the bytes in front of them as they are and
    returns [Size].  (The imported message types are assumed to keep the
    marshal contract; a [CommonExtensionConfig] holds no nil wrapper pointer
    in its oneof.) *)
Theorem X5_MarshalToSizedBuffer_fills_the_end {E : Externals}
  (TapConfig_wire : v3_TapConfig -> list byte)
  (ConfigSource_wire : v4alpha_ConfigSource -> list byte) :
  marshal_contract TapConfig_wire -> marshal_contract ConfigSource_wire ->
  (forall m dAtA,
     AdminConfig_Size (Some m) <= len dAtA ->
     exists b,
       AdminConfig_Marshal m = Ok b /\ len b = AdminConfig_Size (Some m)
       /\ AdminConfig_MarshalToSizedBuffer m dAtA
          = Ok (take (len dAtA - AdminConfig_Size (Some m)) dAtA ++ b,
                AdminConfig_Size (Some m)))
  /\ (forall m dAtA,
        TapDSConfig_Size (Some m) <= len dAtA ->
        exists b,
          TapDSConfig_Marshal m = Ok b /\ len b = TapDSConfig_Size (Some m)
          /\ TapDSConfig_MarshalToSizedBuffer m dAtA
             = Ok (take (len dAtA - TapDSConfig_Size (Some m)) dAtA ++ b,
                   TapDSConfig_Size (Some m)))
  /\ (forall m dAtA,
        wrapper_present m ->
        CommonExtensionConfig_Size (Some m) <= len dAtA ->
        exists b,
          CommonExtensionConfig_Marshal m = Ok b
          /\ len b = CommonExtensionConfig_Size (Some m)
          /\ CommonExtensionConfig_MarshalToSizedBuffer m dAtA
             = Ok (take (len dAtA - CommonExtensionConfig_Size (Some m)) dAtA ++ b,
                   CommonExtensionConfig_Size (Some m))).
Proof.
  intros HT HC. split; [ | split].
  - intros m dAtA Hl. exists (AdminConfig_wire m).
    rewrite AdminConfig_Size_wire in *.
    split; [apply AdminConfig_Marshal_wire | split; [reflexivity | ]].
    now apply AdminConfig_marshals.
  - intros m dAtA Hl. exists (TapDSConfig_wire ConfigSource_wire m).
    rewrite (TapDSConfig_Size_wire ConfigSource_wire HC) in *.
    split; [now apply TapDSConfig_Marshal_wire | split; [reflexivity | ]].
    now apply (TapDSConfig_marshals ConfigSource_wire HC).
  - intros m dAtA Hm Hl.
    exists (CommonExtensionConfig_wire TapConfig_wire ConfigSource_wire m).
    rewrite (CommonExtensionConfig_Size_wire TapConfig_wire ConfigSource_wire HT HC) in *.
    split; [now apply CommonExtensionConfig_Marshal_wire | split; [reflexivity | ]].
    now apply (CommonExtensionConfig_marshals TapConfig_wire ConfigSource_wire HT HC).
Qed.

Lemma X5_witness :
  exists b,
    CommonExtensionConfig_Marshal static_example = Ok b
    /\ len b = CommonExtensionConfig_Size (Some static_example)
    /\ CommonExtensionConfig_MarshalToSizedBuffer static_example
         [x01; x02; x03; x04; x05; x06; x07; x08]
       = Ok (take (len [x01; x02; x03; x04; x05; x06; x07; x08]
                   - CommonExtensionConfig_Size (Some static_example))
               [x01; x02; x03; x04; x05; x06; x07; x08] ++ b,
             CommonExtensionConfig_Size (Some static_example)).
Proof.
  apply (proj2 (proj2 (X5_MarshalToSizedBuffer_fills_the_end (E := Flag_externals)
                         Flag_wire Flag_wire Flag_marshal_contract Flag_marshal_contract))).
  - exact I.
  - vm_compute. discriminate.
Defined.

Lemma copy_at_out_of_range dAtA i src :
  i < 0 -> copy_at dAtA i src = Panic SliceBoundsOutOfRange.
Proof.
  intros H. unfold copy_at, slice_from.
  destruct (0 <=? i) eqn:H1; [apply Z.leb_le in H1; lia | reflexivity].
Qed.

Lemma put_unrecognized_short u dAtA i :
  0 <= i -> i < len (bytes_of u) ->
  put_unrecognized u dAtA i = Panic SliceBoundsOutOfRange.
Proof.
  destruct u as [u | ]; cbn [bytes_of put_unrecognized].
  - intros _ H. rewrite copy_at_out_of_range by lia. reflexivity.
  - change (@len byte []) with 0. lia.
Qed.

Lemma put_string_short tag s dAtA i :
  0 <= i <= len dAtA -> i < len (string_field tag s) ->
  exists p, put_string tag s dAtA i = Panic p.
Proof.
  intros Hi Hs. rewrite len_string_field in Hs. unfold put_string.
  destruct (len s >? 0) eqn:E; [ | lia]. cbv zeta.
  pose proof (len_nonneg s) as Hls.
  pose proof (uint64_range (len s)) as Hv.
  pose proof (sovCommon_pos (uint64 (len s)) ltac:(lia)) as Hsov.
  destruct (Z.lt_ge_cases (i - len s) 0) as [Hneg | Hpos].
  { rewrite copy_at_out_of_range by lia. eexists. reflexivity. }
  rewrite copy_at_spec by lia. cbn [bind].
  set (d1 := take (i - len s) dAtA ++ s ++ drop (i - len s + len s) dAtA).
  assert (Hd1 : len d1 = len dAtA) by (apply frame_len; lia).
  destruct (Z.lt_ge_cases (i - len s) (sovCommon (uint64 (len s)))) as [Hv1 | Hv2].
  { rewrite encodeVarintCommon_out_of_range by (assumption || lia).
    eexists. reflexivity. }
  rewrite encodeVarintCommon_spec by (assumption || lia). cbn [bind].
  rewrite store_out_of_range by lia. eexists. reflexivity.
Qed.

(** X6: [AdminConfig.MarshalToSizedBuffer] on a buffer shorter than [Size]
    returns no error: it panics, with a slice bound or an index out of
    range. *)
Theorem X6_MarshalToSizedBuffer_panics_on_a_short_buffer m dAtA :
  len dAtA < AdminConfig_Size (Some m) ->
  exists p, AdminConfig_MarshalToSizedBuffer m dAtA = Panic p.
Proof.
  intros H. rewrite AdminConfig_Size_wire in H. unfold AdminConfig_wire in H.
  rewrite len_app in H. unfold AdminConfig_MarshalToSizedBuffer. cbv zeta.
  pose proof (len_nonneg dAtA) as Hd.
  pose proof (len_nonneg (bytes_of (AdminConfig_XXX_unrecognized m))) as Hu.
  destruct (Z.lt_ge_cases (len dAtA) (len (bytes_of (AdminConfig_XXX_unrecognized m))))
    as [Hshort | Hfits].
  - rewrite put_unrecognized_short by lia. eexists. reflexivity.
  - rewrite (emits_put_unrecognized _ dAtA (len dAtA)) by lia. cbn [bind].
    set (u := bytes_of (AdminConfig_XXX_unrecognized m)) in *.
    set (d1 := take (len dAtA - len u) dAtA ++ u ++ drop (len dAtA) dAtA).
    assert (Hd1 : len d1 = len dAtA) by (apply frame_len; lia).
    destruct (put_string_short x0a (ConfigId m) d1 (len dAtA - len u)) as [p Hp];
      [lia | lia | ].
    rewrite Hp. eexists. reflexivity.
Qed.

Lemma X6_witness :
  exists p, AdminConfig_MarshalToSizedBuffer filter_1 [x00; x00; x00; x00; x00; x00; x00; x00; x00]
            = Panic p.
Proof.
  apply X6_MarshalToSizedBuffer_panics_on_a_short_buffer. vm_compute. reflexivity.
Defined.

(** X7: each [MarshalTo], given a slice whose capacity is at least [Size],
    writes the bytes that [Marshal] returns at the front of the slice,
    leaves what lies behind them as it is and returns [Size]; given a slice
    of smaller capacity it panics on [dAtA[:size]].  The length of the slice
    plays no part.  (The imported message types are assumed to keep the
    marshal contract; a [CommonExtensionConfig] holds no nil wrapper pointer
    in its oneof.) *)
Theorem X7_MarshalTo_fills_the_front {E : Externals}
  (TapConfig_wire : v3_TapConfig -> list byte)
  (ConfigSource_wire : v4alpha_ConfigSource -> list byte) :
  marshal_contract TapConfig_wire -> marshal_contract ConfigSource_wire ->
  (forall m dAtA,
     (AdminConfig_Size (Some m) <= cap dAtA ->
      exists b,
        AdminConfig_Marshal m = Ok b
        /\ AdminConfig_MarshalTo m dAtA
           = Ok (b ++ drop (len b) (upto_cap dAtA), AdminConfig_Size (Some m)))
     /\ (cap dAtA < AdminConfig_Size (Some m) ->
         AdminConfig_MarshalTo m dAtA = Panic SliceBoundsOutOfRange))
  /\ (forall m dAtA,
        (TapDSConfig_Size (Some m) <= cap dAtA ->
         exists b,
           TapDSConfig_Marshal m = Ok b
           /\ TapDSConfig_MarshalTo m dAtA
              = Ok (b ++ drop (len b) (upto_cap dAtA), TapDSConfig_Size (Some m)))
        /\ (cap dAtA < TapDSConfig_Size (Some m) ->
            TapDSConfig_MarshalTo m dAtA = Panic SliceBoundsOutOfRange))
  /\ (forall m dAtA,
        (wrapper_present m -> CommonExtensionConfig_Size (Some m) <= cap dAtA ->
         exists b,
           CommonExtensionConfig_Marshal m = Ok b
           /\ CommonExtensionConfig_MarshalTo m dAtA
              = Ok (b ++ drop (len b) (upto_cap dAtA),
                    CommonExtensionConfig_Size (Some m)))
        /\ (cap dAtA < CommonExtensionConfig_Size (Some m) ->
            CommonExtensionConfig_MarshalTo m dAtA = Panic SliceBoundsOutOfRange)).
Proof.
  intros HT HC. split; [ | split]; intros m dAtA; (split; [ | apply MarshalTo_of_short]).
  - intros Hl. exists (AdminConfig_wire m). unfold AdminConfig_MarshalTo.
    rewrite AdminConfig_Size_wire in *.
    split; [apply AdminConfig_Marshal_wire | ].
    apply MarshalTo_of_marshals; [apply AdminConfig_marshals | assumption].
  - intros Hl. exists (TapDSConfig_wire ConfigSource_wire m). unfold TapDSConfig_MarshalTo.
    rewrite (TapDSConfig_Size_wire ConfigSource_wire HC) in *.
    split; [now apply TapDSConfig_Marshal_wire | ].
    apply MarshalTo_of_marshals; [now apply TapDSConfig_marshals | assumption].
  - intros Hm Hl. exists (CommonExtensionConfig_wire TapConfig_wire ConfigSource_wire m).
    unfold CommonExtensionConfig_MarshalTo.
    rewrite (CommonExtensionConfig_Size_wire TapConfig_wire ConfigSource_wire HT HC) in *.
    split; [now apply CommonExtensionConfig_Marshal_wire | ].
    apply MarshalTo_of_marshals; [now apply CommonExtensionConfig_marshals | assumption].
Qed.

Lemma X7_witness :
  exists b,
    AdminConfig_Marshal newer_schema_example = Ok b
    /\ AdminConfig_MarshalTo newer_schema_example
         (Slice [x01; x02; x03; x04; x05; x06; x07] 0)
       = Ok (b ++ drop (len b) (upto_cap (Slice [x01; x02; x03; x04; x05; x06; x07] 0)),
             AdminConfig_Size (Some newer_schema_example)).
Proof.
  apply (proj1 (proj1 (X7_MarshalTo_fills_the_front (E := Flag_externals)
                         Flag_wire Flag_wire Flag_marshal_contract Flag_marshal_contract)
                  newer_schema_example (Slice [x01; x02; x03; x04; x05; x06; x07] 0))).
  vm_compute. discriminate.
Defined.

(** X8: [XXX_Marshal] with [deterministic] false writes the encoding into
    the last [Size] bytes of the capacity of [b] and returns the first
    [Size] bytes of [b].  So it returns the bytes that [Marshal] returns when
    the capacity of [b] is exactly [Size]; when the capacity is twice [Size]
    or more, what it returns are bytes that [b] held before the call.  (The
    imported message types are assumed to keep the marshal contract; a
    [CommonExtensionConfig] holds no nil wrapper pointer in its oneof.) *)
Theorem X8_XXX_Marshal_needs_the_exact_capacity {E : Externals}
  (TapConfig_wire : v3_TapConfig -> list byte)
  (ConfigSource_wire : v4alpha_ConfigSource -> list byte) :
  marshal_contract TapConfig_wire -> marshal_contract ConfigSource_wire ->
  (forall lib m b,
     AdminConfig_Size (Some m) <= cap b ->
     exists w arr r,
       AdminConfig_Marshal m = Ok w
       /\ AdminConfig_XXX_Marshal lib m b false = Ok (arr, r)
       /\ arr = take (cap b - len w) (upto_cap b) ++ w
       /\ r = take (len w) arr
       /\ (cap b = AdminConfig_Size (Some m) -> r = w)
       /\ (2 * AdminConfig_Size (Some m) <= cap b -> r = take (len w) (upto_cap b)))
  /\ (forall lib m b,
        TapDSConfig_Size (Some m) <= cap b ->
        exists w arr r,
          TapDSConfig_Marshal m = Ok w
          /\ TapDSConfig_XXX_Marshal lib m b false = Ok (arr, r)
          /\ arr = take (cap b - len w) (upto_cap b) ++ w
          /\ r = take (len w) arr
          /\ (cap b = TapDSConfig_Size (Some m) -> r = w)
          /\ (2 * TapDSConfig_Size (Some m) <= cap b -> r = take (len w) (upto_cap b)))
  /\ (forall lib m b,
        wrapper_present m -> CommonExtensionConfig_Size (Some m) <= cap b ->
        exists w arr r,
          CommonExtensionConfig_Marshal m = Ok w
          /\ CommonExtensionConfig_XXX_Marshal lib m b false = Ok (arr, r)
          /\ arr = take (cap b - len w) (upto_cap b) ++ w
          /\ r = take (len w) arr
          /\ (cap b = CommonExtensionConfig_Size (Some m) -> r = w)
          /\ (2 * CommonExtensionConfig_Size (Some m) <= cap b ->
              r = take (len w) (upto_cap b))).
Proof.
  intros HT HC.
  assert (Hgen : forall lib g w b,
            marshals g w -> len w <= cap b ->
            exists arr r,
              XXX_Marshal_of lib g b false = Ok (arr, r)
              /\ arr = take (cap b - len w) (upto_cap b) ++ w
              /\ r = take (len w) arr
              /\ (cap b = len w -> r = w)
              /\ (2 * len w <= cap b -> r = take (len w) (upto_cap b))).
  { intros lib g w b Hg Hc. pose proof (len_nonneg w) as Hw.
    do 2 eexists. split; [apply (XXX_Marshal_of_marshals lib g w b Hg Hc) | ].
    unfold cap in *.
    split; [reflexivity | split; [reflexivity | split]].
    - intros Heq. rewrite Heq, Z.sub_diag. rewrite (take_nonpos 0) by lia.
      apply (take_all (len w) w). lia.
    - intros H2. rewrite take_app_l by (rewrite len_take; lia).
      apply take_take. lia. }
  split; [ | split].
  - intros lib m b Hl. exists (AdminConfig_wire m).
    rewrite AdminConfig_Size_wire in *.
    destruct (Hgen (lib m) _ _ b (AdminConfig_marshals m) Hl) as [arr [r H]].
    exists arr, r. split; [apply AdminConfig_Marshal_wire | exact H].
  - intros lib m b Hl. exists (TapDSConfig_wire ConfigSource_wire m).
    rewrite (TapDSConfig_Size_wire ConfigSource_wire HC) in *.
    destruct (Hgen (lib m) _ _ b (TapDSConfig_marshals ConfigSource_wire HC m) Hl)
      as [arr [r H]].
    exists arr, r. split; [now apply TapDSConfig_Marshal_wire | exact H].
  - intros lib m b Hm Hl.
    exists (CommonExtensionConfig_wire TapConfig_wire ConfigSource_wire m).
    rewrite (CommonExtensionConfig_Size_wire TapConfig_wire ConfigSource_wire HT HC) in *.
    destruct (Hgen (lib m) _ _ b
                (CommonExtensionConfig_marshals TapConfig_wire ConfigSource_wire HT HC m Hm)
                Hl) as [arr [r H]].
    exists arr, r. split; [now apply CommonExtensionConfig_Marshal_wire | exact H].
Qed.

Lemma X8_witness :
  exists w arr r,
    AdminConfig_Marshal newer_schema_example = Ok w
    /\ AdminConfig_XXX_Marshal (fun _ _ _ => Err (ErrForeign "proto")) newer_schema_example
         (Slice [x01; x02; x03; x04; x05; x06; x07; x08; x09; x0a] 0) false = Ok (arr, r)
    /\ arr = take (cap (Slice [x01; x02; x03; x04; x05; x06; x07; x08; x09; x0a] 0) - len w)
               (upto_cap (Slice [x01; x02; x03; x04; x05; x06; x07; x08; x09; x0a] 0)) ++ w
    /\ r = take (len w) arr
    /\ (cap (Slice [x01; x02; x03; x04; x05; x06; x07; x08; x09; x0a] 0)
        = AdminConfig_Size (Some newer_schema_example) -> r = w)
    /\ (2 * AdminConfig_Size (Some newer_schema_example)
        <= cap (Slice [x01; x02; x03; x04; x05; x06; x07; x08; x09; x0a] 0) ->
        r = take (len w)
              (upto_cap (Slice [x01; x02; x03; x04; x05; x06; x07; x08; x09; x0a] 0))).
Proof.
  apply (proj1 (X8_XXX_Marshal_needs_the_exact_capacity (E := Flag_externals)
                  Flag_wire Flag_wire Flag_marshal_contract Flag_marshal_contract)).
  vm_compute. discriminate.
Defined.

(** ** skipCommon *)

Lemma read_varint_terminated acc pre : forall shift v i b r,
  continuation_bytes pre -> shift + 7 * len pre < 64 -> byte_val b < 128 ->
  exists x, read_varint acc shift v i (pre ++ b :: r) = Ok (x, Cursor (i + len pre + 1) r).
Proof.
  unfold continuation_bytes.
  induction pre as [ | a pre IH]; intros shift v i b r Hall Hlen Hb.
  - change (@len byte []) with 0 in *. cbn [app]. rewrite read_varint_cons.
    destruct (64 <=? shift) eqn:Hs; [apply Z.leb_le in Hs; lia | ].
    destruct (byte_val b <? 128) eqn:Hlt; [ | apply Z.ltb_ge in Hlt; lia].
    eexists. do 2 f_equal. f_equal. lia.
  - rewrite len_cons in *. pose proof (len_nonneg pre) as Hp.
    inversion Hall as [ | ? ? Ha Hall']; subst.
    rewrite <- app_comm_cons, read_varint_cons.
    destruct (64 <=? shift) eqn:Hs; [apply Z.leb_le in Hs; lia | ].
    destruct (byte_val a <? 128) eqn:Hlt; [apply Z.ltb_lt in Hlt; lia | ].
    destruct (IH (shift + 7) (acc v a shift) (i + 1) b r Hall' ltac:(lia) Hb) as [x Hx].
    exists x. rewrite Hx. do 2 f_equal. f_equal. lia.
Qed.

(** X9: what [skipCommon] does with the first field of its input, by the
    wire type of its tag.  Wire types 1 and 5 add 8 and 4 to the position
    behind the tag without looking at the input; wire type 0 steps over the
    bytes of one varint; wire type 4 fails with
    [ErrUnexpectedEndOfGroupCommon]; wire types 6 and 7 fail with the
    illegal-wireType error.  An empty input fails with
    [io.ErrUnexpectedEOF]. *)
Theorem X9_skipCommon_by_wire_type bs wire c1 :
  len bs < 2 ^ 62 ->
  varint or_uint64 (Cursor 0 bs) = Ok (wire, c1) ->
  skipCommon [] = Err ErrUnexpectedEOF
  /\ (int (Z.land wire 7) = 1 -> skipCommon bs = Ok (iNdEx c1 + 8))
  /\ (int (Z.land wire 7) = 5 -> skipCommon bs = Ok (iNdEx c1 + 4))
  /\ (int (Z.land wire 7) = 0 ->
      forall pre b r,
        rest c1 = pre ++ b :: r -> continuation_bytes pre -> len pre < 10 ->
        byte_val b < 128 ->
        skipCommon bs = Ok (iNdEx c1 + len pre + 1))
  /\ (int (Z.land wire 7) = 4 -> skipCommon bs = Err ErrUnexpectedEndOfGroupCommon)
  /\ (int (Z.land wire 7) = 6 \/ int (Z.land wire 7) = 7 ->
      skipCommon bs = Err (ErrIllegalWireType (int (Z.land wire 7)))).
Proof.
  intros Hb Hv. rewrite (skipCommon_first _ _ _ Hv).
  pose proof (len_nonneg bs) as Hbs.
  unfold varint in Hv. cbn [iNdEx rest] in Hv.
  apply read_varint_inv in Hv. destruct Hv as [k [Hk ->]]. cbn [iNdEx rest].
  split; [reflexivity | ].
  split; [ | split; [ | split; [ | split]]].
  - intros ->. cbn [skip_value bind iNdEx]. rewrite int_small by lia.
    destruct (0 + k + 8 <? 0) eqn:E; [apply Z.ltb_lt in E; lia | reflexivity].
  - intros ->. cbn [skip_value bind iNdEx]. rewrite int_small by lia.
    destruct (0 + k + 4 <? 0) eqn:E; [apply Z.ltb_lt in E; lia | reflexivity].
  - intros -> pre b r Hr Hall Hlen Hlt. cbn [skip_value]. unfold varint.
    cbn [iNdEx rest]. rewrite Hr.
    destruct (read_varint_terminated (fun v _ _ => v) pre 0 0 (0 + k) b r Hall
                ltac:(lia) Hlt) as [x ->].
    cbn [bind iNdEx]. pose proof (len_nonneg pre).
    destruct (0 + k + len pre + 1 <? 0) eqn:E; [apply Z.ltb_lt in E; lia | reflexivity].
  - intros ->. reflexivity.
  - intros [-> | ->]; reflexivity.
Qed.

Lemma X9_witness :
  skipCommon [] = Err ErrUnexpectedEOF
  /\ (int (Z.land 9 7) = 1 -> skipCommon [x09; x01] = Ok (iNdEx (Cursor 1 [x01]) + 8))
  /\ (int (Z.land 9 7) = 5 -> skipCommon [x09; x01] = Ok (iNdEx (Cursor 1 [x01]) + 4))
  /\ (int (Z.land 9 7) = 0 ->
      forall pre b r,
        rest (Cursor 1 [x01]) = pre ++ b :: r -> continuation_bytes pre -> len pre < 10 ->
        byte_val b < 128 ->
        skipCommon [x09; x01] = Ok (iNdEx (Cursor 1 [x01]) + len pre + 1))
  /\ (int (Z.land 9 7) = 4 -> skipCommon [x09; x01] = Err ErrUnexpectedEndOfGroupCommon)
  /\ (int (Z.land 9 7) = 6 \/ int (Z.land 9 7) = 7 ->
      skipCommon [x09; x01] = Err (ErrIllegalWireType (int (Z.land 9 7)))).
Proof.
  apply (X9_skipCommon_by_wire_type [x09; x01] 9 (Cursor 1 [x01]));
    vm_compute; reflexivity.
Defined.

(** X10: when [skipCommon] succeeds its result is positive, so the loop of
    its caller moves on, and the result does not depend on what follows the
    field: with more bytes appended the result is the same, and on a prefix
    of the input it is the same or the call fails with
    [io.ErrUnexpectedEOF]. *)
Theorem X10_skipCommon_looks_at_one_field bs n :
  len bs < 2 ^ 63 -> skipCommon bs = Ok n ->
  0 < n < 2 ^ 63
  /\ (forall r, skipCommon (bs ++ r) = Ok n)
  /\ (forall p q, bs = p ++ q ->
        skipCommon p = Err ErrUnexpectedEOF \/ skipCommon p = Ok n).
Proof.
  intros Hb H. split; [now apply (skipCommon_range bs) | split].
  - intros r. now apply skipCommon_app.
  - intros p q ->. now apply (skipCommon_prefix p q).
Qed.

Lemma X10_witness :
  0 < 7 < 2 ^ 63
  /\ (forall r, skipCommon ([x0a; x05] ++ r) = Ok 7)
  /\ (forall p q, [x0a; x05] = p ++ q ->
        skipCommon p = Err ErrUnexpectedEOF \/ skipCommon p = Ok 7).
Proof.
  apply (X10_skipCommon_looks_at_one_field [x0a; x05] 7); vm_compute; reflexivity.
Defined.

(** ** The decoding loops *)

Lemma read_tag_shift msg j bs fn wt c' j' :
  read_tag msg (Cursor j bs) = Ok (fn, wt, c') ->
  read_tag msg (Cursor j' bs) = Ok (fn, wt, Cursor (iNdEx c' - j + j') (rest c')).
Proof.
  intros H. apply read_tag_inv in H. destruct H as [wire [Hv [-> [-> [H4 H0]]]]].
  apply read_tag_intro; try assumption.
  unfold varint in *. cbn [iNdEx rest] in *. now apply read_varint_shift.
Qed.

Lemma read_length_shift k j bs n c' j' :
  read_length k (Cursor j bs) = Ok (n, c') ->
  read_length k (Cursor j' bs) = Ok (n, Cursor (iNdEx c' - j + j') (rest c')).
Proof.
  destruct k; cbn [read_length]; unfold read_msglen, read_stringLen, varint;
    cbn [iNdEx rest]; intros H.
  - now apply read_varint_shift.
  - inv_bind H. destruct x as [x c1]. injection H as <- <-.
    rewrite (read_varint_shift _ _ _ _ _ _ _ j' Hx). reflexivity.
Qed.

Section Sequence.

Context {M : Type} (msg : string) (arms : Z -> option (field_arm M))
  (add : M -> list byte -> M).

Local Abbreviation step := (generic_field msg arms add).

(** An iteration does not depend on where in the input its field lies. *)
Lemma generic_field_shift l m j bs m' c' l' j' :
  0 <= j -> j + len bs = l -> l < 2 ^ 63 ->
  0 <= j' -> j' + len bs = l' -> l' < 2 ^ 63 ->
  step l m (Cursor j bs) = Ok (m', c') ->
  step l' m (Cursor j' bs) = Ok (m', Cursor (iNdEx c' - j + j') (rest c')).
Proof.
  intros Hj Hl Hb Hj' Hl' Hb' H. pose proof (len_nonneg bs) as Hbs.
  unfold generic_field in *.
  inv_bind H. destruct x as [[fn wt] c1].
  rewrite (read_tag_shift _ _ _ _ _ _ j' Hx). cbn [bind].
  apply read_tag_progress in Hx. destruct Hx as [k1 [Hk1 ->]]. cbn [iNdEx rest].
  destruct (arms fn) as [arm | ].
  - destruct (negb (wt =? 2)); [discriminate | ].
    inv_bind H. destruct x as [n c2].
    rewrite (read_length_shift _ _ _ _ _ (j + k1 - j + j') Hx). cbn [bind].
    pose proof (read_length_range _ _ _ _ Hx) as Hn.
    apply read_length_inv in Hx. destruct Hx as [k2 [Hk2 ->]]. cbn [iNdEx rest].
    rewrite len_drop in Hk2 by lia.
    inv_bind H. destruct x as [s c3].
    apply payload_inv in Hx. destruct Hx as [Hn0 [Hp [-> ->]]].
    rewrite int_add_exact in * by lia.
    inv_bind H. injection H as <- <-. cbn [iNdEx rest].
    rewrite payload_intro by (rewrite ?int_small by lia; lia).
    rewrite int_small by lia. cbn [bind].
    replace (j + k1 + k2 - (j + k1) + (j + k1 - j + j') + n
             - (j + k1 + k2 - (j + k1) + (j + k1 - j + j')))
      with (j + k1 + k2 + n - (j + k1 + k2)) by lia.
    rewrite Hx. cbn [bind]. do 2 f_equal. f_equal. lia.
  - inv_bind H. destruct x as [chunk c3]. injection H as <- <-.
    unfold skip_unknown in *. cbn [rest] in *. inv_bind Hx.
    rewrite Hx0. cbn [bind].
    apply skipCommon_range in Hx0; [ | lia].
    apply payload_inv in Hx. destruct Hx as [Hn0 [Hp [-> ->]]].
    rewrite int_add_exact in * by lia.
    rewrite payload_intro by (rewrite ?int_small by lia; lia).
    rewrite int_small by lia. cbn [iNdEx rest].
    replace (j' + x - j') with (j + x - j) by lia.
    cbn [bind]. do 2 f_equal. f_equal. lia.
Qed.

Lemma unmarshal_loop_shift fuel : forall l m j bs m' l' j',
  0 <= j -> j + len bs = l -> l < 2 ^ 63 ->
  0 <= j' -> j' + len bs = l' -> l' < 2 ^ 63 ->
  unmarshal_loop step fuel l m (Cursor j bs) = Ok m' ->
  unmarshal_loop step fuel l' m (Cursor j' bs) = Ok m'.
Proof.
  induction fuel as [ | fuel IH]; intros l m j bs m' l' j' Hj Hl Hb Hj' Hl' Hb' H;
    pose proof (len_nonneg bs) as Hbs.
  - cbn [unmarshal_loop iNdEx] in H.
    destruct (j <? l) eqn:E; [discriminate | ]. apply Z.ltb_ge in E.
    assert (bs = []) as -> by (apply len_zero_nil; lia).
    change (@len byte []) with 0 in *.
    destruct (j >? l); [discriminate | ]. injection H as <-.
    replace j' with l' by lia. apply (unmarshal_loop_done msg arms add).
  - destruct (Z.eq_dec j l) as [-> | Hne].
    + assert (bs = []) as -> by (apply len_zero_nil; lia).
      change (@len byte []) with 0 in *.
      rewrite (unmarshal_loop_done msg arms add) in H. injection H as <-.
      replace j' with l' by lia. apply (unmarshal_loop_done msg arms add).
    + rewrite (unmarshal_loop_S msg arms add) in H by lia.
      inv_bind H. destruct x as [m2 c2].
      rewrite (unmarshal_loop_S msg arms add) by lia.
      rewrite (generic_field_shift l m j bs m2 c2 l' j' Hj Hl Hb Hj' Hl' Hb' Hx).
      cbn [bind].
      destruct (generic_field_inv msg arms add l m j bs m2 c2 Hj Hl Hb Hx)
        as [k [Hk ->]]. cbn [iNdEx rest].
      apply (IH l m2 (j + k) (drop k bs) m' l' (j + k - j + j')); try lia;
        try (rewrite len_drop by lia; lia). assumption.
Qed.

(** The fuel plays no part once there is one unit for each byte. *)
Lemma unmarshal_loop_enough_fuel fuel : forall fuel' l m j bs,
  0 <= j -> j + len bs = l -> l < 2 ^ 63 ->
  (List.length bs <= fuel)%nat -> (List.length bs <= fuel')%nat ->
  unmarshal_loop step fuel l m (Cursor j bs) = unmarshal_loop step fuel' l m (Cursor j bs).
Proof.
  induction fuel as [ | fuel IH]; intros fuel' l m j bs Hj Hl Hb Hf Hf';
    pose proof (len_nonneg bs) as Hbs.
  - destruct bs; [ | cbn in Hf; lia]. change (@len byte []) with 0 in Hl.
    replace j with l by lia. now rewrite !(unmarshal_loop_done msg arms add).
  - destruct (Z.eq_dec j l) as [-> | Hne];
      [now rewrite !(unmarshal_loop_done msg arms add) | ].
    destruct fuel' as [ | fuel'].
    { destruct bs; [change (@len byte []) with 0 in Hl; lia | cbn in Hf'; lia]. }
    rewrite !(unmarshal_loop_S msg arms add) by lia.
    destruct (step l m (Cursor j bs)) as [[m2 c2] | | | ] eqn:Hstep; try reflexivity.
    cbn [bind].
    destruct (generic_field_inv msg arms add l m j bs m2 c2 Hj Hl Hb Hstep)
      as [k [Hk ->]].
    apply IH; try lia; try (rewrite len_drop by lia; lia);
      unfold drop, len in *; rewrite length_skipn; lia.
Qed.

Lemma run_sequence m d1 m1 d2 m2 :
  unmarshal_loop step (List.length d1) (len d1) m (Cursor 0 d1) = Ok m1 ->
  len (d1 ++ d2) < 2 ^ 63 ->
  (unmarshal_loop step (List.length (d1 ++ d2)) (len (d1 ++ d2)) m (Cursor 0 (d1 ++ d2))
   = Ok m2
   <-> unmarshal_loop step (List.length d2) (len d2) m1 (Cursor 0 d2) = Ok m2).
Proof.
  intros H Hb.
  destruct (run_app msg arms add m d1 m1 d2 H Hb) as [fuel [Hfuel ->]].
  pose proof (len_nonneg d1) as H1. pose proof (len_nonneg d2) as H2.
  rewrite len_app in *.
  rewrite (unmarshal_loop_enough_fuel fuel (List.length d2) _ m1 (len d1) d2)
    by (lia || apply Nat.le_refl).
  split; intros Hs.
  - apply (unmarshal_loop_shift _ (len d1 + len d2) m1 (len d1) d2 m2 (len d2) 0);
      (lia || assumption).
  - apply (unmarshal_loop_shift _ (len d2) m1 0 d2 m2 (len d1 + len d2) (len d1));
      (lia || assumption).
Qed.

End Sequence.

Section DecoderFacts.

Context {M : Type} (msg : string) (arms : Z -> option (field_arm M))
  (add : M -> list byte -> M)
  (field : Z -> M -> cursor -> outcome (M * cursor))
  (Unmarshal : M -> list byte -> outcome M).
Hypothesis field_generic : forall l m c, field l m c = generic_field msg arms add l m c.
Hypothesis Unmarshal_loop :
  forall m d, Unmarshal m d = unmarshal_loop field (List.length d) (len d) m (Cursor 0 d).

Lemma decoder_sequence : decodes_in_sequence Unmarshal.
Proof.
  intros m d1 m1 d2 m2 H Hb.
  rewrite !(Unmarshal_run msg arms add field Unmarshal field_generic Unmarshal_loop) in *.
  now apply run_sequence.
Qed.

Lemma decoder_illegal_tag : illegal_tag_is_rejected msg Unmarshal.
Proof.
  intros m d1 m1 bs wire c H Hv H4 H0 Hb.
  assert (Hne : bs <> []).
  { intros ->. unfold varint in Hv. cbn in Hv. discriminate. }
  apply (decoder_reports msg arms add field Unmarshal field_generic Unmarshal_loop
           m d1 m1 bs _ H Hne Hb).
  rewrite field_generic. unfold generic_field, read_tag. rewrite Hv. cbn [bind].
  destruct (int (Z.land wire 7) =? 4) eqn:E4; [apply Z.eqb_eq in E4; contradiction | ].
  destruct (int32 (Z.shiftr wire 3) <=? 0) eqn:E0; [ | apply Z.leb_gt in E0; lia].
  reflexivity.
Qed.

End DecoderFacts.

(** X11: in each of the three [Unmarshal] routines, behind any input that
    decodes, a tag whose field number is not positive once converted to
    [int32] (field number 0, or one with bit 31 set) and whose wire type is
    not 4 fails with the illegal-tag error, which carries the field number
    and the whole tag value. *)
Theorem X11_illegal_tags_are_rejected {E : Externals} :
  illegal_tag_is_rejected "AdminConfig" AdminConfig_Unmarshal
  /\ illegal_tag_is_rejected "TapDSConfig" TapDSConfig_Unmarshal
  /\ illegal_tag_is_rejected "CommonExtensionConfig" CommonExtensionConfig_Unmarshal.
Proof.
  split; [ | split].
  - apply (decoder_illegal_tag "AdminConfig" AdminConfig_arms AdminConfig_add_unrecognized
             _ _ AdminConfig_field_generic AdminConfig_Unmarshal_loop).
  - apply (decoder_illegal_tag "TapDSConfig" TapDSConfig_arms TapDSConfig_add_unrecognized
             _ _ TapDSConfig_field_generic TapDSConfig_Unmarshal_loop).
  - apply (decoder_illegal_tag "CommonExtensionConfig" CommonExtensionConfig_arms
             CommonExtensionConfig_add_unrecognized
             _ _ CommonExtensionConfig_field_generic
             CommonExtensionConfig_Unmarshal_loop).
Qed.

Lemma X11_witness :
  AdminConfig_Unmarshal AdminConfig_zero ([x0a; x01; x41] ++ [x02; x01; x41])
  = Err (ErrIllegalTag "AdminConfig" 0 2)
  /\ AdminConfig_Unmarshal AdminConfig_zero
       ([] ++ [x82; x80; x80; x80; x40; x01; x41])
     = Err (ErrIllegalTag "AdminConfig" (- 2 ^ 31) (2 ^ 34 + 2)).
Proof.
  pose proof (proj1 (X11_illegal_tags_are_rejected (E := Flag_externals))) as H.
  split.
  - apply (H AdminConfig_zero [x0a; x01; x41]
             {| ConfigId := [x41]; AdminConfig_XXX_unrecognized := None |}
             [x02; x01; x41] 2 (Cursor 4 [x01; x41]));
      try (vm_compute; reflexivity); vm_compute; discriminate.
  - apply (H AdminConfig_zero [] AdminConfig_zero
             [x82; x80; x80; x80; x40; x01; x41] (2 ^ 34 + 2) (Cursor 5 [x01; x41]));
      try (vm_compute; reflexivity); vm_compute; discriminate.
Defined.

(** X12: [Unmarshal] does not reset its receiver, and decoding is
    sequential: when an input [d1] decodes into [m] and gives [m1], the
    input [d1] followed by [d2] decodes into [m] and gives [m2] exactly when
    [d2] decodes into [m1] and gives [m2].  In particular the empty input
    leaves the receiver as it is. *)
Theorem X12_decoding_is_sequential {E : Externals} :
  (decodes_in_sequence AdminConfig_Unmarshal
   /\ decodes_in_sequence TapDSConfig_Unmarshal
   /\ decodes_in_sequence CommonExtensionConfig_Unmarshal)
  /\ ((forall m, AdminConfig_Unmarshal m [] = Ok m)
      /\ (forall m, TapDSConfig_Unmarshal m [] = Ok m)
      /\ (forall m, CommonExtensionConfig_Unmarshal m [] = Ok m)).
Proof.
  split; split; [ | split | | split ].
  - apply (decoder_sequence "AdminConfig" AdminConfig_arms AdminConfig_add_unrecognized
             _ _ AdminConfig_field_generic AdminConfig_Unmarshal_loop).
  - apply (decoder_sequence "TapDSConfig" TapDSConfig_arms TapDSConfig_add_unrecognized
             _ _ TapDSConfig_field_generic TapDSConfig_Unmarshal_loop).
  - apply (decoder_sequence "CommonExtensionConfig" CommonExtensionConfig_arms
             CommonExtensionConfig_add_unrecognized
             _ _ CommonExtensionConfig_field_generic
             CommonExtensionConfig_Unmarshal_loop).
  - apply (decoder_nil "AdminConfig" AdminConfig_arms AdminConfig_add_unrecognized
             _ _ AdminConfig_field_generic AdminConfig_Unmarshal_loop).
  - apply (decoder_nil "TapDSConfig" TapDSConfig_arms TapDSConfig_add_unrecognized
             _ _ TapDSConfig_field_generic TapDSConfig_Unmarshal_loop).
  - apply (decoder_nil "CommonExtensionConfig" CommonExtensionConfig_arms
             CommonExtensionConfig_add_unrecognized
             _ _ CommonExtensionConfig_field_generic
             CommonExtensionConfig_Unmarshal_loop).
Qed.

Lemma X12_witness :
  AdminConfig_Unmarshal AdminConfig_zero ([x10; x05; x0a; x01; x41] ++ [x0a; x01; x42; x18; x01])
  = Ok {| ConfigId := [x42]; AdminConfig_XXX_unrecognized := Some [x10; x05; x18; x01] |}
  <-> AdminConfig_Unmarshal
        {| ConfigId := [x41]; AdminConfig_XXX_unrecognized := Some [x10; x05] |}
        [x0a; x01; x42; x18; x01]
      = Ok {| ConfigId := [x42]; AdminConfig_XXX_unrecognized := Some [x10; x05; x18; x01] |}.
Proof.
  apply (proj1 (proj1 (X12_decoding_is_sequential (E := Flag_externals))));
    vm_compute; reflexivity.
Defined.

(** ** Fields of the schema *)

(** A tag spread over the bytes [t]: its varint ends with [t]. *)
Lemma read_tag_bytes msg t wire :
  varint or_uint64 (Cursor 0 t) = Ok (wire, Cursor (len t) []) ->
  int (Z.land wire 7) <> 4 -> 0 < int32 (Z.shiftr wire 3) ->
  forall j bs,
    read_tag msg (Cursor j (t ++ bs))
    = Ok (int32 (Z.shiftr wire 3), int (Z.land wire 7), Cursor (j + len t) bs).
Proof.
  intros Hv H4 H0 j bs. apply read_tag_intro; try assumption.
  unfold varint in *. cbn [iNdEx rest] in *.
  apply (read_varint_shift _ _ _ _ _ _ _ j) in Hv.
  apply (read_varint_app _ _ _ _ _ _ _ bs) in Hv. cbn [iNdEx rest app] in Hv.
  rewrite Hv. do 2 f_equal. f_equal. lia.
Qed.

Section KnownField.

Context {M : Type} (msg : string) (arms : Z -> option (field_arm M))
  (add : M -> list byte -> M).

Local Abbreviation step := (generic_field msg arms add).

(** A [case] arm on a field with tag bytes [t], the length of [s] and [s]. *)
Lemma generic_field_known_bytes m j t fn arm s r :
  (forall j bs, read_tag msg (Cursor j (t ++ bs)) = Ok (fn, 2, Cursor (j + len t) bs)) ->
  arms fn = Some arm ->
  0 <= j -> j + len (t ++ uvarint (uint64 (len s)) ++ s) + len r < 2 ^ 63 ->
  step (j + len (t ++ uvarint (uint64 (len s)) ++ s) + len r) m
    (Cursor j ((t ++ uvarint (uint64 (len s)) ++ s) ++ r))
  = (m' <- arm_store arm m s ;;
     Ok (m', Cursor (j + len (t ++ uvarint (uint64 (len s)) ++ s)) r)).
Proof.
  intros Htag Harm Hj Hb.
  pose proof (len_nonneg s). pose proof (len_nonneg r). pose proof (len_nonneg t).
  rewrite !len_app in *.
  pose proof (uint64_range (len s)) as Hu.
  rewrite len_uvarint in * by assumption.
  pose proof (sovCommon_pos (uint64 (len s)) ltac:(lia)) as Hsov.
  unfold generic_field.
  rewrite <- !app_assoc, Htag. cbn [bind]. rewrite Harm.
  change (negb (2 =? 2)) with false. cbv iota.
  assert (Hs64 : 0 <= len s < 2 ^ 64) by lia.
  rewrite (uint64_small _ Hs64) in *.
  rewrite read_length_uvarint by lia. cbn [bind].
  rewrite len_uvarint by lia.
  rewrite payload_exact by lia. cbn [bind].
  rewrite take_app_len, drop_app_len.
  destruct (arm_store arm m s); cbn [bind]; try reflexivity.
  do 2 f_equal. f_equal. lia.
Qed.

Lemma run_known_bytes m d1 m1 t fn arm s :
  unmarshal_loop step (List.length d1) (len d1) m (Cursor 0 d1) = Ok m1 ->
  (forall j bs, read_tag msg (Cursor j (t ++ bs)) = Ok (fn, 2, Cursor (j + len t) bs)) ->
  arms fn = Some arm ->
  len (d1 ++ t ++ uvarint (uint64 (len s)) ++ s) < 2 ^ 63 ->
  unmarshal_loop step (List.length (d1 ++ t ++ uvarint (uint64 (len s)) ++ s))
    (len (d1 ++ t ++ uvarint (uint64 (len s)) ++ s)) m
    (Cursor 0 (d1 ++ t ++ uvarint (uint64 (len s)) ++ s))
  = arm_store arm m1 s.
Proof.
  intros H Htag Harm Hb.
  set (f := t ++ uvarint (uint64 (len s)) ++ s) in *.
  destruct (run_app msg arms add m d1 m1 f H Hb) as [fuel [Hfuel ->]].
  pose proof (len_nonneg d1) as H1.
  assert (Hf : 0 < len f).
  { unfold f. rewrite !len_app, len_uvarint by apply uint64_range.
    pose proof (sovCommon_pos (uint64 (len s)) ltac:(apply uint64_range)).
    pose proof (len_nonneg t). pose proof (len_nonneg s). lia. }
  destruct fuel as [ | fuel]; [unfold len in Hf; lia | ].
  rewrite len_app in *.
  rewrite (unmarshal_loop_S msg arms add) by lia.
  pose proof (generic_field_known_bytes m1 (len d1) t fn arm s [] Htag Harm H1) as Hk.
  fold f in Hk. rewrite app_nil_r in Hk. change (@len byte []) with 0 in Hk.
  rewrite Z.add_0_r in Hk. rewrite Hk by lia.
  destruct (arm_store arm m1 s); cbn [bind]; try reflexivity.
  apply (unmarshal_loop_done msg arms add).
Qed.

End KnownField.

Section KnownFieldDecoder.

Context {M : Type} (msg : string) (arms : Z -> option (field_arm M))
  (add : M -> list byte -> M)
  (field : Z -> M -> cursor -> outcome (M * cursor))
  (Unmarshal : M -> list byte -> outcome M).
Hypothesis field_generic : forall l m c, field l m c = generic_field msg arms add l m c.
Hypothesis Unmarshal_loop :
  forall m d, Unmarshal m d = unmarshal_loop field (List.length d) (len d) m (Cursor 0 d).

(** Behind an input that decodes, a field of the schema gives what its
    [case] arm gives, value, error or panic. *)
Lemma decoder_known_bytes m d1 m1 t wire arm s :
  Unmarshal m d1 = Ok m1 ->
  varint or_uint64 (Cursor 0 t) = Ok (wire, Cursor (len t) []) ->
  int (Z.land wire 7) = 2 -> 0 < int32 (Z.shiftr wire 3) ->
  arms (int32 (Z.shiftr wire 3)) = Some arm ->
  len (d1 ++ t ++ uvarint (uint64 (len s)) ++ s) < 2 ^ 63 ->
  Unmarshal m (d1 ++ t ++ uvarint (uint64 (len s)) ++ s) = arm_store arm m1 s.
Proof.
  intros H Hv H2 H0 Harm Hb.
  rewrite !(Unmarshal_run msg arms add field Unmarshal field_generic Unmarshal_loop) in *.
  apply (run_known_bytes msg arms add m d1 m1 t (int32 (Z.shiftr wire 3)) arm s);
    try assumption.
  intros j bs. rewrite <- H2. apply read_tag_bytes; [assumption | lia | assumption].
Qed.

End KnownFieldDecoder.

(** X13: what a field of the schema does to the receiver, behind any input
    that decodes.  A string field replaces the string, whatever it was, and
    leaves the rest of the message.  Field 1 of [TapDSConfig] is decoded by
    the imported [Unmarshal] into the [ConfigSource] that is already there,
    or into a fresh one when there is none.  A field 1, 2 or 3 of
    [CommonExtensionConfig] is decoded into a fresh message, which replaces
    the oneof.  An error of the nested [Unmarshal] is the error of the
    call. *)
Theorem X13_fields_of_the_schema {E : Externals} :
  (forall m d1 m1 s,
     AdminConfig_Unmarshal m d1 = Ok m1 -> len (d1 ++ message_field x0a s) < 2 ^ 63 ->
     AdminConfig_Unmarshal m (d1 ++ message_field x0a s)
     = Ok {| ConfigId := s;
             AdminConfig_XXX_unrecognized := AdminConfig_XXX_unrecognized m1 |})
  /\ (forall m d1 m1 s,
        TapDSConfig_Unmarshal m d1 = Ok m1 ->
        (len (d1 ++ message_field x12 s) < 2 ^ 63 ->
         TapDSConfig_Unmarshal m (d1 ++ message_field x12 s)
         = Ok {| ConfigSource := ConfigSource m1; Name := s;
                 TapDSConfig_XXX_unrecognized := TapDSConfig_XXX_unrecognized m1 |})
        /\ (len (d1 ++ message_field x0a s) < 2 ^ 63 ->
            TapDSConfig_Unmarshal m (d1 ++ message_field x0a s)
            = (cs <- msg_Unmarshal match ConfigSource m1 with
                                   | Some cs => cs
                                   | None => msg_zero
                                   end s ;;
               Ok {| ConfigSource := Some cs; Name := Name m1;
                     TapDSConfig_XXX_unrecognized := TapDSConfig_XXX_unrecognized m1 |})))
  /\ (forall m d1 m1 s,
        CommonExtensionConfig_Unmarshal m d1 = Ok m1 ->
        (len (d1 ++ message_field x0a s) < 2 ^ 63 ->
         CommonExtensionConfig_Unmarshal m (d1 ++ message_field x0a s)
         = (v <- AdminConfig_Unmarshal AdminConfig_zero s ;;
            Ok {| ConfigType :=
                    Some (ConfigType_AdminConfig (Some {| AdminConfig' := Some v |}));
                  XXX_unrecognized := XXX_unrecognized m1 |}))
        /\ (len (d1 ++ message_field x12 s) < 2 ^ 63 ->
            CommonExtensionConfig_Unmarshal m (d1 ++ message_field x12 s)
            = (v <- msg_Unmarshal msg_zero s ;;
               Ok {| ConfigType :=
                       Some (ConfigType_StaticConfig (Some {| StaticConfig := Some v |}));
                     XXX_unrecognized := XXX_unrecognized m1 |}))
        /\ (len (d1 ++ message_field x1a s) < 2 ^ 63 ->
            CommonExtensionConfig_Unmarshal m (d1 ++ message_field x1a s)
            = (v <- TapDSConfig_Unmarshal TapDSConfig_zero s ;;
               Ok {| ConfigType :=
                       Some (ConfigType_TapdsConfig (Some {| TapdsConfig := Some v |}));
                     XXX_unrecognized := XXX_unrecognized m1 |}))).
Proof.
  split; [ | split].
  - intros m d1 m1 s H Hb.
    exact (decoder_known_bytes "AdminConfig" AdminConfig_arms AdminConfig_add_unrecognized
             _ _ AdminConfig_field_generic AdminConfig_Unmarshal_loop
             m d1 m1 [x0a] 10 _ s H eq_refl eq_refl eq_refl eq_refl Hb).
  - intros m d1 m1 s H. split; intros Hb.
    + exact (decoder_known_bytes "TapDSConfig" TapDSConfig_arms
               TapDSConfig_add_unrecognized
               _ _ TapDSConfig_field_generic TapDSConfig_Unmarshal_loop
               m d1 m1 [x12] 18 _ s H eq_refl eq_refl eq_refl eq_refl Hb).
    + exact (decoder_known_bytes "TapDSConfig" TapDSConfig_arms
               TapDSConfig_add_unrecognized
               _ _ TapDSConfig_field_generic TapDSConfig_Unmarshal_loop
               m d1 m1 [x0a] 10 _ s H eq_refl eq_refl eq_refl eq_refl Hb).
  - intros m d1 m1 s H. split; [ | split]; intros Hb.
    + exact (decoder_known_bytes "CommonExtensionConfig" CommonExtensionConfig_arms
               CommonExtensionConfig_add_unrecognized
               _ _ CommonExtensionConfig_field_generic
               CommonExtensionConfig_Unmarshal_loop
               m d1 m1 [x0a] 10 _ s H eq_refl eq_refl eq_refl eq_refl Hb).
    + exact (decoder_known_bytes "CommonExtensionConfig" CommonExtensionConfig_arms
               CommonExtensionConfig_add_unrecognized
               _ _ CommonExtensionConfig_field_generic
               CommonExtensionConfig_Unmarshal_loop
               m d1 m1 [x12] 18 _ s H eq_refl eq_refl eq_refl eq_refl Hb).
    + exact (decoder_known_bytes "CommonExtensionConfig" CommonExtensionConfig_arms
               CommonExtensionConfig_add_unrecognized
               _ _ CommonExtensionConfig_field_generic
               CommonExtensionConfig_Unmarshal_loop
               m d1 m1 [x1a] 26 _ s H eq_refl eq_refl eq_refl eq_refl Hb).
Qed.

Lemma X13_witness :
  TapDSConfig_Unmarshal (E := Flag_externals) TapDSConfig_zero
    ([x0a; x02; x08; x01; x12; x01; x6e] ++ message_field x0a [])
  = (cs <- msg_Unmarshal match ConfigSource (tapds_example [x6e]) with
                         | Some cs => cs
                         | None => msg_zero
                         end [] ;;
     Ok {| ConfigSource := Some cs; Name := Name (tapds_example [x6e]);
           TapDSConfig_XXX_unrecognized :=
             TapDSConfig_XXX_unrecognized (tapds_example [x6e]) |}).
Proof.
  apply (proj2 (proj1 (proj2 (X13_fields_of_the_schema (E := Flag_externals)))
                  TapDSConfig_zero [x0a; x02; x08; x01; x12; x01; x6e]
                  (tapds_example [x6e]) [] eq_refl)).
  vm_compute. reflexivity.
Defined.

(** X14: the [case] labels are compared with the field number converted to
    [int32], so a tag of several bytes whose field number is 1 plus a
    multiple of 2^32, with wire type 2, is decoded by [AdminConfig.Unmarshal]
    as field 1: its payload becomes [ConfigId]. *)
Theorem X14_field_numbers_are_taken_as_int32 m d1 m1 t wire s :
  AdminConfig_Unmarshal m d1 = Ok m1 ->
  varint or_uint64 (Cursor 0 t) = Ok (wire, Cursor (len t) []) ->
  int (Z.land wire 7) = 2 -> int32 (Z.shiftr wire 3) = 1 ->
  len (d1 ++ t ++ uvarint (uint64 (len s)) ++ s) < 2 ^ 63 ->
  AdminConfig_Unmarshal m (d1 ++ t ++ uvarint (uint64 (len s)) ++ s)
  = Ok {| ConfigId := s;
          AdminConfig_XXX_unrecognized := AdminConfig_XXX_unrecognized m1 |}.
Proof.
  intros H Hv H2 H1 Hb.
  rewrite (decoder_known_bytes "AdminConfig" AdminConfig_arms AdminConfig_add_unrecognized
             _ _ AdminConfig_field_generic AdminConfig_Unmarshal_loop
             m d1 m1 t wire
             {| arm_name := "ConfigId"; arm_len := StringLen;
                arm_store := fun m s =>
                  Ok {| ConfigId := s;
                        AdminConfig_XXX_unrecognized := AdminConfig_XXX_unrecognized m |} |}
             s H Hv H2);
    [reflexivity | lia | rewrite H1; reflexivity | assumption].
Qed.

Lemma X14_witness :
  Z.shiftr (2 ^ 35 + 10) 3 = 2 ^ 32 + 1
  /\ AdminConfig_Unmarshal AdminConfig_zero
       ([] ++ [x8a; x80; x80; x80; x80; x01] ++ uvarint (uint64 (len [x41])) ++ [x41])
     = Ok {| ConfigId := [x41];
             AdminConfig_XXX_unrecognized :=
               AdminConfig_XXX_unrecognized AdminConfig_zero |}.
Proof.
  split; [reflexivity | ].
  apply (X14_field_numbers_are_taken_as_int32 AdminConfig_zero [] AdminConfig_zero
           [x8a; x80; x80; x80; x80; x01] (2 ^ 35 + 10) [x41]);
    vm_compute; reflexivity.
Defined.

(** ** The error of an end group outside a group *)

Lemma bind_not_error {A B} (c : outcome A) (k : A -> outcome B) e :
  c <> Err e -> (forall x, c = Ok x -> k x <> Err e) -> bind c k <> Err e.
Proof.
  intros Hc Hk. destruct c; cbn [bind]; try discriminate; [now apply Hk | ].
  intros Heq. apply Hc. now injection Heq as ->.
Qed.

Lemma read_varint_not_end_group acc bs : forall shift v i,
  read_varint acc shift v i bs <> Err ErrUnexpectedEndOfGroupCommon.
Proof.
  induction bs as [ | b bs IH]; intros shift v i.
  - rewrite read_varint_nil. destruct (64 <=? shift); discriminate.
  - rewrite read_varint_cons. destruct (64 <=? shift); [discriminate | ].
    destruct (byte_val b <? 128); [discriminate | apply IH].
Qed.

Lemma skip_value_not_end_group wt depth c :
  wt <> 4 \/ depth <> 0 -> skip_value wt depth c <> Err ErrUnexpectedEndOfGroupCommon.
Proof.
  intros H.
  destruct (skip_value_cases wt) as [-> | [-> | [-> | [-> | [-> | [-> | Hw]]]]]];
    [ | | | | | | rewrite Hw; discriminate ]; cbn [skip_value]; try discriminate.
  - apply bind_not_error; [apply read_varint_not_end_group | intros [x c1] _; discriminate].
  - apply bind_not_error; [apply read_varint_not_end_group | ].
    intros [x c1] _. destruct (x <? 0); discriminate.
  - destruct (depth =? 0) eqn:E; [apply Z.eqb_eq in E; lia | discriminate].
Qed.

Lemma skip_value_depth wt depth c c' depth' :
  skip_value wt depth c = Ok (c', depth') -> 0 <= depth -> 0 <= depth'.
Proof.
  destruct (skip_value_cases wt) as [-> | [-> | [-> | [-> | [-> | [-> | Hw]]]]]];
    [ | | | | | | rewrite Hw; discriminate ]; cbn [skip_value]; intros H Hd.
  - inv_bind H. destruct x as [x c1]. injection H as _ <-. assumption.
  - injection H as _ <-. assumption.
  - inv_bind H. destruct x as [x c1]. destruct (x <? 0); [discriminate | ].
    injection H as _ <-. assumption.
  - injection H as _ <-. lia.
  - destruct (depth =? 0) eqn:E; [discriminate | ]. apply Z.eqb_neq in E.
    injection H as _ <-. lia.
  - injection H as _ <-. assumption.
Qed.

(** Inside a group, or in front of a tag that is no end group. *)
Lemma skipCommon_loop_not_end_group fuel : forall depth c,
  0 < depth
  \/ (depth = 0
      /\ forall wire c1, varint or_uint64 c = Ok (wire, c1) -> int (Z.land wire 7) <> 4) ->
  skipCommon_loop fuel depth c <> Err ErrUnexpectedEndOfGroupCommon.
Proof.
  induction fuel as [ | fuel IH]; intros depth [j bs] H;
    destruct bs as [ | b bs]; try (rewrite skipCommon_loop_nil; discriminate).
  - discriminate.
  - rewrite skipCommon_loop_step.
    apply bind_not_error; [apply read_varint_not_end_group | ]. intros [wire c1] Hv.
    apply bind_not_error.
    { apply skip_value_not_end_group.
      destruct H as [H | [_ H]]; [right; lia | left; eapply H, Hv]. }
    intros [c2 depth2] Hs.
    destruct (iNdEx c2 <? 0); [discriminate | ].
    destruct (depth2 =? 0) eqn:E; [discriminate | ]. apply Z.eqb_neq in E.
    apply IH. left.
    assert (0 <= depth2) by (apply (skip_value_depth _ _ _ _ _ Hs); lia). lia.
Qed.

Section EndGroup.

Context {M : Type} (msg : string) (arms : Z -> option (field_arm M))
  (add : M -> list byte -> M).
Hypothesis arms_not_end_group :
  forall fn arm m s,
    arms fn = Some arm -> arm_store arm m s <> Err ErrUnexpectedEndOfGroupCommon.

Lemma payload_not_end_group l n c : payload l n c <> Err ErrUnexpectedEndOfGroupCommon.
Proof.
  unfold payload. destruct (n <? 0); [discriminate | ]. cbv zeta.
  destruct (_ <? 0); [discriminate | ]. destruct (_ >? l); discriminate.
Qed.

Lemma generic_field_not_end_group l m c :
  generic_field msg arms add l m c <> Err ErrUnexpectedEndOfGroupCommon.
Proof.
  unfold generic_field.
  apply bind_not_error.
  { unfold read_tag. apply bind_not_error; [apply read_varint_not_end_group | ].
    intros [wire c1] _. destruct (_ =? 4); [discriminate | ].
    destruct (_ <=? 0); discriminate. }
  intros [[fn wt] c1] Htag. destruct (arms fn) as [arm | ] eqn:Harm.
  - destruct (negb (wt =? 2)); [discriminate | ].
    apply bind_not_error.
    { destruct (arm_len arm); cbn [read_length]; unfold read_msglen, read_stringLen.
      - apply read_varint_not_end_group.
      - apply bind_not_error;
          [apply read_varint_not_end_group | intros [x c2] _; discriminate]. }
    intros [n c2] _. apply bind_not_error; [apply payload_not_end_group | ].
    intros [s c3] _. apply bind_not_error; [now apply (arms_not_end_group fn) | discriminate].
  - apply bind_not_error; [ | intros [chunk c3] _; discriminate].
    unfold skip_unknown. apply bind_not_error; [ | intros n _; apply payload_not_end_group].
    apply skipCommon_loop_not_end_group. right. split; [reflexivity | ].
    intros wire' c1' Hv'.
    apply read_tag_inv in Htag. destruct Htag as [wire [Hv [_ [-> [H4 _]]]]].
    unfold varint in Hv, Hv'. cbn [iNdEx rest] in Hv'.
    apply (read_varint_shift _ _ _ _ _ _ _ 0) in Hv. rewrite Hv in Hv'.
    injection Hv' as <- _. assumption.
Qed.

Lemma unmarshal_loop_not_end_group fuel : forall l m c,
  unmarshal_loop (generic_field msg arms add) fuel l m c
  <> Err ErrUnexpectedEndOfGroupCommon.
Proof.
  induction fuel as [ | fuel IH]; intros l m c; cbn [unmarshal_loop];
    destruct (iNdEx c <? l); try discriminate;
    try (destruct (iNdEx c >? l); discriminate).
  apply bind_not_error; [apply generic_field_not_end_group | ].
  intros [m2 c2] _. apply IH.
Qed.

End EndGroup.

(** X15: [skipCommon] fails with [ErrUnexpectedEndOfGroupCommon] only on an
    input that begins with an end-group tag, and the [Unmarshal] loops
    reject such a tag before they call it: [AdminConfig.Unmarshal] never
    returns [ErrUnexpectedEndOfGroupCommon], and neither do the two other
    routines unless an imported [Unmarshal] does. *)
Theorem X15_no_unexpected_end_of_group {E : Externals} :
  (forall bs,
     skipCommon bs = Err ErrUnexpectedEndOfGroupCommon ->
     exists wire c1,
       varint or_uint64 (Cursor 0 bs) = Ok (wire, c1) /\ int (Z.land wire 7) = 4)
  /\ never_unexpected_end_of_group AdminConfig_Unmarshal
  /\ ((forall t s, msg_Unmarshal (Message := ConfigSource_ops) t s
                   <> Err ErrUnexpectedEndOfGroupCommon) ->
      never_unexpected_end_of_group TapDSConfig_Unmarshal)
  /\ ((forall t s, msg_Unmarshal (Message := TapConfig_ops) t s
                   <> Err ErrUnexpectedEndOfGroupCommon) ->
      (forall t s, msg_Unmarshal (Message := ConfigSource_ops) t s
                   <> Err ErrUnexpectedEndOfGroupCommon) ->
      never_unexpected_end_of_group CommonExtensionConfig_Unmarshal).
Proof.
  assert (HA : never_unexpected_end_of_group AdminConfig_Unmarshal).
  { intros m d.
    rewrite (Unmarshal_run "AdminConfig" AdminConfig_arms AdminConfig_add_unrecognized
               _ _ AdminConfig_field_generic AdminConfig_Unmarshal_loop).
    apply unmarshal_loop_not_end_group. intros fn arm m0 s Harm.
    destruct fn as [ | [[p | p | ] | [p | p | ] | ] | p]; cbn in Harm; try discriminate.
    injection Harm as <-. discriminate. }
  assert (HT : (forall t s, msg_Unmarshal (Message := ConfigSource_ops) t s
                            <> Err ErrUnexpectedEndOfGroupCommon) ->
               never_unexpected_end_of_group TapDSConfig_Unmarshal).
  { intros HC m d.
    rewrite (Unmarshal_run "TapDSConfig" TapDSConfig_arms TapDSConfig_add_unrecognized
               _ _ TapDSConfig_field_generic TapDSConfig_Unmarshal_loop).
    apply unmarshal_loop_not_end_group. intros fn arm m0 s Harm.
    destruct fn as [ | [[p | p | ] | [p | p | ] | ] | p]; cbn in Harm; try discriminate;
      injection Harm as <-; cbn [arm_store]; [discriminate | ].
    apply bind_not_error; [apply HC | discriminate]. }
  split; [ | split; [exact HA | split; [exact HT | ]]].
  - intros bs H.
    destruct (varint or_uint64 (Cursor 0 bs)) as [[wire c1] | | | ] eqn:Hv.
    + destruct (Z.eq_dec (int (Z.land wire 7)) 4) as [H4 | H4]; [now exists wire, c1 | ].
      exfalso. revert H. apply skipCommon_loop_not_end_group. right.
      split; [reflexivity | ]. intros wire' c1' Hv'. rewrite Hv in Hv'.
      now injection Hv' as <- _.
    + exfalso. revert H. apply skipCommon_loop_not_end_group. right.
      split; [reflexivity | ]. intros wire' c1' Hv'. rewrite Hv in Hv'. discriminate.
    + exfalso. revert H. apply skipCommon_loop_not_end_group. right.
      split; [reflexivity | ]. intros wire' c1' Hv'. rewrite Hv in Hv'. discriminate.
    + exfalso. revert H. apply skipCommon_loop_not_end_group. right.
      split; [reflexivity | ]. intros wire' c1' Hv'. rewrite Hv in Hv'. discriminate.
  - intros HTap HC m d.
    rewrite (Unmarshal_run "CommonExtensionConfig" CommonExtensionConfig_arms
               CommonExtensionConfig_add_unrecognized
               _ _ CommonExtensionConfig_field_generic
               CommonExtensionConfig_Unmarshal_loop).
    apply unmarshal_loop_not_end_group. intros fn arm m0 s Harm.
    destruct fn as [ | [[p | p | ] | [p | p | ] | ] | p]; cbn in Harm; try discriminate;
      injection Harm as <-; cbn [arm_store]; (apply bind_not_error; [ | discriminate]).
    + now apply HT.
    + apply HTap.
    + apply HA.
Qed.

Lemma X15_witness :
  exists wire c1,
    varint or_uint64 (Cursor 0 [x0c; x01]) = Ok (wire, c1) /\ int (Z.land wire 7) = 4.
Proof.
  apply (proj1 (X15_no_unexpected_end_of_group (E := Flag_externals)) [x0c; x01]).
  reflexivity.
Defined.

(** ** The bytes [skipCommon] delimits are a field of their own *)

Ltac same_up_to_lia := repeat first [reflexivity | lia | f_equal].

Lemma drop_take {A} k m (l : list A) :
  0 <= k <= m -> drop k (take m l) = take (m - k) (drop k l).
Proof.
  intros H. unfold drop, take. rewrite skipn_firstn_comm. f_equal. lia.
Qed.

Lemma read_varint_take acc bs : forall shift v i x c' m,
  read_varint acc shift v i bs = Ok (x, c') -> iNdEx c' - i <= m ->
  read_varint acc shift v i (take m bs)
  = Ok (x, Cursor (iNdEx c') (take (m - (iNdEx c' - i)) (rest c'))).
Proof.
  induction bs as [ | b bs IH]; intros shift v i x c' m H Hm.
  - rewrite read_varint_nil in H. destruct (64 <=? shift); discriminate.
  - pose proof (read_varint_inv _ _ _ _ _ _ _ H) as [k [Hk Hc]].
    assert (0 < m) by (subst c'; cbn [iNdEx] in Hm; lia).
    rewrite take_cons by assumption. rewrite read_varint_cons in *.
    destruct (64 <=? shift); [discriminate | ].
    destruct (byte_val b <? 128).
    + injection H as <- <-. cbn [iNdEx rest]. same_up_to_lia.
    + rewrite (IH _ _ _ _ _ (m - 1) H) by lia. same_up_to_lia.
Qed.

Lemma skip_value_take wt depth j bs c' d' m :
  0 <= j -> j + len bs < 2 ^ 63 ->
  skip_value wt depth (Cursor j bs) = Ok (c', d') -> 0 <= iNdEx c' ->
  iNdEx c' - j <= m ->
  skip_value wt depth (Cursor j (take m bs))
  = Ok (Cursor (iNdEx c') (take (m - (iNdEx c' - j)) (rest c')), d').
Proof.
  intros Hj Hb H Hpos Hm. pose proof (len_nonneg bs) as Hl.
  destruct (skip_value_cases wt) as [-> | [-> | [-> | [-> | [-> | [-> | Hbad]]]]]];
    [ | | | | | | rewrite Hbad in H; discriminate ];
    cbn [skip_value iNdEx rest] in *.
  - inv_bind H. destruct x as [x0 c1]. injection H as <- <-.
    unfold varint in *. cbn [iNdEx rest] in *.
    rewrite (read_varint_take _ _ _ _ _ _ _ m Hx) by assumption. reflexivity.
  - injection H as <- <-. cbn [iNdEx rest] in *.
    assert (He : int (j + 8) = j + 8) by (apply int_add_exact; lia).
    rewrite He in *. rewrite drop_take by lia. same_up_to_lia.
  - inv_bind H. destruct x as [n c1].
    unfold varint in *. cbn [iNdEx rest] in *.
    pose proof (read_varint_result or_int (fun n => - 2 ^ 63 <= n < 2 ^ 63) bs
                  ltac:(intros; apply int_range) _ _ _ _ _ Hx) as Hn.
    pose proof (read_varint_inv _ _ _ _ _ _ _ Hx) as [k [Hk Hc]].
    destruct (n <? 0) eqn:E; [discriminate | ]. apply Z.ltb_ge in E.
    injection H as <- <-. subst c1. cbn [iNdEx rest] in *.
    assert (He : int (j + k + n) = j + k + n) by (apply int_add_exact; lia).
    rewrite He in *.
    rewrite (read_varint_take _ _ _ _ _ _ _ m Hx) by (cbn [iNdEx]; lia).
    cbn [bind iNdEx rest].
    destruct (n <? 0) eqn:E'; [apply Z.ltb_lt in E'; lia | ].
    rewrite He. rewrite drop_take by lia. same_up_to_lia.
  - injection H as <- <-. cbn [iNdEx rest]. same_up_to_lia.
  - destruct (depth =? 0); [discriminate | ].
    injection H as <- <-. cbn [iNdEx rest]. same_up_to_lia.
  - injection H as <- <-. cbn [iNdEx rest] in *.
    assert (He : int (j + 4) = j + 4) by (apply int_add_exact; lia).
    rewrite He in *. rewrite drop_take by lia. same_up_to_lia.
Qed.

Lemma skipCommon_loop_unfold fuel depth c :
  rest c <> [] ->
  skipCommon_loop (S fuel) depth c
  = ('(wire, c) <- varint or_uint64 c ;;
     '(c, depth) <- skip_value (int (Z.land wire 7)) depth c ;;
     if iNdEx c <? 0 then Err ErrInvalidLengthCommon
     else if depth =? 0 then Ok (iNdEx c)
     else skipCommon_loop fuel depth c).
Proof.
  destruct c as [j [ | b bs]]; [intros H; now contradiction H | reflexivity].
Qed.

Lemma skipCommon_loop_take fuel : forall depth j bs n,
  0 <= j -> j + len bs < 2 ^ 63 ->
  skipCommon_loop fuel depth (Cursor j bs) = Ok n ->
  forall m fuel', n - j <= m -> (List.length (take m bs) <= fuel')%nat ->
    skipCommon_loop fuel' depth (Cursor j (take m bs)) = Ok n.
Proof.
  induction fuel as [ | fuel IH]; intros depth j bs n Hj Hb H m fuel' Hm Hfuel.
  - destruct bs; cbn in H; discriminate.
  - pose proof (skipCommon_loop_range _ _ _ _ _ Hj Hb H) as Hn.
    destruct bs as [ | b bs]; [cbn in H; discriminate | ].
    assert (Hne : take m (b :: bs) <> []) by (rewrite take_cons by lia; discriminate).
    destruct fuel' as [ | fuel'].
    { destruct (take m (b :: bs)); [contradiction | cbn in Hfuel; lia]. }
    rewrite skipCommon_loop_step in H. rewrite skipCommon_loop_unfold by assumption.
    inv_bind H. destruct x as [wire c1].
    unfold varint in Hx |- *. cbn [iNdEx rest] in Hx |- *.
    pose proof (read_varint_inv _ _ _ _ _ _ _ Hx) as [k [Hk Hc]].
    inv_bind H. destruct x as [c2 d2].
    destruct (iNdEx c2 <? 0) eqn:E2; [discriminate | ]. apply Z.ltb_ge in E2.
    subst c1.
    assert (Hb1 : j + k + len (drop k (b :: bs)) < 2 ^ 63) by (rewrite len_drop; lia).
    assert (Hjk : 0 <= j + k) by lia.
    pose proof (skip_value_range _ _ _ _ _ _ Hjk Hb1 Hx0 E2) as [Hj2 [Hb2 _]].
    assert (Hle : iNdEx c2 <= n).
    { destruct (d2 =? 0); [injection H as Hn2; lia | ].
      destruct c2 as [j2 r2]. cbn [iNdEx rest] in *.
      pose proof (skipCommon_loop_range _ _ _ _ _ E2 Hb2 H). lia. }
    rewrite (read_varint_take _ _ _ _ _ _ _ m Hx) by (cbn [iNdEx]; lia).
    cbn [bind iNdEx rest]. replace (m - (j + k - j)) with (m - k) by lia.
    assert (Hlen1 : (List.length (take (m - k) (drop k (b :: bs)))
                     < List.length (take m (b :: bs)))%nat).
    { rewrite <- drop_take by lia. unfold drop, len in *. rewrite length_skipn.
      assert (0 < List.length (take m (b :: bs)))%nat
        by (destruct (take m (b :: bs)); [contradiction | cbn; lia]).
      lia. }
    assert (Hm1 : iNdEx c2 - (j + k) <= m - k) by lia.
    pose proof (skip_value_take _ _ _ _ _ _ (m - k) Hjk Hb1 Hx0 E2 Hm1) as Hs.
    rewrite Hs. cbn [bind iNdEx].
    destruct (iNdEx c2 <? 0) eqn:E2'; [apply Z.ltb_lt in E2'; lia | ].
    destruct (d2 =? 0); [assumption | ].
    pose proof (skip_value_length _ _ _ _ _ Hs) as Hlen2.
    destruct c2 as [j2 r2]. cbn [iNdEx rest] in *.
    replace (m - k - (j2 - (j + k))) with (m - (j2 - j)) in * by lia.
    apply (IH d2 j2 r2 n E2 Hb2 H); lia.
Qed.

Lemma skipCommon_take bs n :
  len bs < 2 ^ 63 -> skipCommon bs = Ok n -> skipCommon (take n bs) = Ok n.
Proof.
  unfold skipCommon. intros Hb H.
  apply (skipCommon_loop_take _ 0 0 bs n (Z.le_refl 0) ltac:(lia) H n); [lia | ].
  apply Nat.le_refl.
Qed.

Lemma skipCommon_Ok_tag bs n :
  skipCommon bs = Ok n -> exists wire c1, varint or_uint64 (Cursor 0 bs) = Ok (wire, c1).
Proof.
  unfold skipCommon. intros H. destruct bs as [ | b bs]; [discriminate | ].
  cbn [List.length] in H. rewrite skipCommon_loop_step in H.
  inv_bind H. destruct x as [wire c1]. now exists wire, c1.
Qed.

Lemma unknown_fields_snoc known u f :
  unknown_fields known u -> is_unknown_field known f = true ->
  unknown_fields known (u ++ f).
Proof.
  intros Hu Hf. induction Hu as [ | f0 d Hf0 Hd IH].
  - cbn [app]. rewrite <- (app_nil_r f). apply unknown_fields_cons; [assumption | constructor].
  - rewrite <- app_assoc. now apply unknown_fields_cons.
Qed.

Lemma unrecognized_decoded_append {M : Type} (arms : Z -> option (field_arm M)) u f :
  unrecognized_decoded arms u -> is_unknown_field (has_arm arms) f = true ->
  unrecognized_decoded arms (append u f).
Proof.
  intros [Hu Hne] Hf. split.
  - rewrite bytes_of_append. now apply unknown_fields_snoc.
  - pose proof (is_unknown_field_nonempty _ _ Hf) as Hfne.
    destruct u as [u | ], f as [ | b f]; cbn [append]; try contradiction; try discriminate.
    intros Heq. injection Heq as Heq. apply app_eq_nil in Heq. destruct Heq. discriminate.
Qed.

Section ChunkInvariant.

Context {M : Type} (msg : string) (arms : Z -> option (field_arm M))
  (add : M -> list byte -> M).

Local Abbreviation step := (generic_field msg arms add).

(** What a successful iteration did: a [case] arm on a payload inside the
    input, or the [default:] arm on one whole field the schema does not
    know. *)
Lemma generic_field_cases l m j bs m' c' :
  0 <= j -> j + len bs = l -> l < 2 ^ 63 ->
  step l m (Cursor j bs) = Ok (m', c') ->
  (exists fn arm s,
     arms fn = Some arm /\ len s < 2 ^ 63 /\ arm_store arm m s = Ok m')
  \/ (exists f, is_unknown_field (has_arm arms) f = true /\ m' = add m f).
Proof.
  intros Hj Hl Hb H. pose proof (len_nonneg bs) as Hbs. unfold generic_field in H.
  inv_bind H. destruct x as [[fn wt] c1]. rename Hx into Htag.
  destruct (arms fn) as [arm | ] eqn:Harm.
  - left. destruct (negb (wt =? 2)); [discriminate | ].
    inv_bind H. destruct x as [n c2]. inv_bind H. destruct x as [s c3].
    inv_bind H. injection H as <- _.
    exists fn, arm, s. split; [assumption | split; [ | assumption]].
    apply read_tag_progress in Htag. destruct Htag as [k1 [Hk1 ->]].
    apply read_length_inv in Hx. destruct Hx as [k2 [Hk2 ->]].
    apply payload_length in Hx0. cbn [rest] in Hx0.
    pose proof (length_drop_le k2 (drop k1 bs)). pose proof (length_drop_le k1 bs).
    unfold len in *. lia.
  - right. inv_bind H. destruct x as [chunk c3]. injection H as <- _.
    unfold skip_unknown in Hx. cbn [rest] in Hx. inv_bind Hx.
    pose proof (skipCommon_range bs x ltac:(lia) Hx0) as Hr.
    apply payload_inv in Hx. destruct Hx as [Hn0 [Hp [-> _]]].
    rewrite int_add_exact in * by lia.
    replace (j + x - j) with x by lia.
    exists (take x bs). split; [ | reflexivity].
    pose proof (skipCommon_take bs x ltac:(lia) Hx0) as Hs.
    destruct (skipCommon_Ok_tag _ _ Hs) as [wire' [c1' Hv']].
    apply read_tag_inv in Htag. destruct Htag as [wire [Hv [-> [-> [H4 H0]]]]].
    assert (wire' = wire) as ->.
    { unfold varint in *. cbn [iNdEx rest] in *.
      apply (read_varint_app _ _ _ _ _ _ _ (drop x bs)) in Hv'.
      rewrite take_drop in Hv'.
      apply (read_varint_shift _ _ _ _ _ _ _ 0) in Hv. rewrite Hv in Hv'.
      now injection Hv' as ->. }
    unfold is_unknown_field. rewrite Hv', Hs. cbv zeta.
    unfold has_arm. rewrite Harm. rewrite len_take by lia. rewrite Z.eqb_refl.
    destruct (int (Z.land wire 7) =? 4) eqn:E4; [apply Z.eqb_eq in E4; contradiction | ].
    destruct (0 <? int32 (Z.shiftr wire 3)) eqn:E0; [reflexivity | apply Z.ltb_ge in E0; lia].
Qed.

Lemma unmarshal_loop_invariant_fields (P : M -> Prop) :
  (forall fn arm m s m',
     arms fn = Some arm -> len s < 2 ^ 63 -> P m -> arm_store arm m s = Ok m' -> P m') ->
  (forall m f, is_unknown_field (has_arm arms) f = true -> P m -> P (add m f)) ->
  forall fuel l m j bs m',
    0 <= j -> j + len bs = l -> l < 2 ^ 63 -> P m ->
    unmarshal_loop step fuel l m (Cursor j bs) = Ok m' -> P m'.
Proof.
  intros Harms Hadd.
  induction fuel as [ | fuel IH]; intros l m j bs m' Hj Hl Hb Hm H;
    pose proof (len_nonneg bs) as Hbs; cbn [unmarshal_loop iNdEx] in H;
    destruct (j <? l) eqn:E.
  - discriminate.
  - destruct (j >? l); [discriminate | ]. now injection H as <-.
  - apply Z.ltb_lt in E. inv_bind H. destruct x as [m2 c2].
    destruct (generic_field_inv msg arms add l m j bs m2 c2 Hj Hl Hb Hx) as [k [Hk ->]].
    apply (IH l m2 (j + k) (drop k bs) m'); try lia;
      [rewrite len_drop by lia; lia | | assumption].
    destruct (generic_field_cases l m j bs m2 _ Hj Hl Hb Hx)
      as [[fn [arm [s [Harm [Hs Hst]]]]] | [f [Hf ->]]].
    + now apply (Harms fn arm m s).
    + now apply Hadd.
  - destruct (j >? l); [discriminate | ]. now injection H as <-.
Qed.

End ChunkInvariant.

Section DecodedInvariant.

Context {M : Type} (msg : string) (arms : Z -> option (field_arm M))
  (add : M -> list byte -> M)
  (field : Z -> M -> cursor -> outcome (M * cursor))
  (Unmarshal : M -> list byte -> outcome M).
Hypothesis field_generic : forall l m c, field l m c = generic_field msg arms add l m c.
Hypothesis Unmarshal_loop :
  forall m d, Unmarshal m d = unmarshal_loop field (List.length d) (len d) m (Cursor 0 d).

Lemma decoder_invariant_fields (P : M -> Prop) :
  (forall fn arm m s m',
     arms fn = Some arm -> len s < 2 ^ 63 -> P m -> arm_store arm m s = Ok m' -> P m') ->
  (forall m f, is_unknown_field (has_arm arms) f = true -> P m -> P (add m f)) ->
  forall m d m', len d < 2 ^ 63 -> P m -> Unmarshal m d = Ok m' -> P m'.
Proof.
  intros Harms Hadd m d m' Hd Hm H.
  rewrite (Unmarshal_run msg arms add field Unmarshal field_generic Unmarshal_loop) in H.
  exact (unmarshal_loop_invariant_fields msg arms add P Harms Hadd _ _ m 0 d m'
           (Z.le_refl 0) eq_refl Hd Hm H).
Qed.

End DecodedInvariant.

Lemma AdminConfig_Unmarshal_decoded m d m' :
  len d < 2 ^ 63 -> AdminConfig_decoded m -> AdminConfig_Unmarshal m d = Ok m' ->
  AdminConfig_decoded m'.
Proof.
  apply (decoder_invariant_fields "AdminConfig" AdminConfig_arms
           AdminConfig_add_unrecognized
           _ _ AdminConfig_field_generic AdminConfig_Unmarshal_loop AdminConfig_decoded).
  - intros fn arm m0 s m1 Harm _ Hm Hs.
    destruct fn as [ | [[p | p | ] | [p | p | ] | ] | p]; cbn in Harm; try discriminate.
    injection Harm as <-. cbn [arm_store] in Hs. injection Hs as <-. exact Hm.
  - intros m0 f Hf Hm. now apply unrecognized_decoded_append.
Qed.

Lemma AdminConfig_zero_decoded : AdminConfig_decoded AdminConfig_zero.
Proof. split; [constructor | discriminate]. Qed.

Lemma AdminConfig_decoded_canon m : AdminConfig_decoded m -> AdminConfig_canon m = m.
Proof.
  intros [_ Hne]. destruct m as [s u]. unfold AdminConfig_canon.
  cbn [ConfigId AdminConfig_XXX_unrecognized] in *. now rewrite normalize_id.
Qed.

Section DecodedMessages.

Context {E : Externals}.

Lemma TapDSConfig_Unmarshal_decoded m d m' :
  len d < 2 ^ 63 -> TapDSConfig_decoded m -> TapDSConfig_Unmarshal m d = Ok m' ->
  TapDSConfig_decoded m'.
Proof.
  apply (decoder_invariant_fields "TapDSConfig" TapDSConfig_arms
           TapDSConfig_add_unrecognized
           _ _ TapDSConfig_field_generic TapDSConfig_Unmarshal_loop TapDSConfig_decoded).
  - intros fn arm m0 s m1 Harm _ Hm Hs.
    destruct fn as [ | [[p | p | ] | [p | p | ] | ] | p]; cbn in Harm; try discriminate;
      injection Harm as <-; cbn [arm_store] in Hs.
    + injection Hs as <-. exact Hm.
    + inv_bind Hs. injection Hs as <-. exact Hm.
  - intros m0 f Hf Hm. now apply unrecognized_decoded_append.
Qed.

Lemma TapDSConfig_zero_decoded : TapDSConfig_decoded TapDSConfig_zero.
Proof. split; [constructor | discriminate]. Qed.

Lemma TapDSConfig_decoded_canon m : TapDSConfig_decoded m -> TapDSConfig_canon m = m.
Proof.
  intros [_ Hne]. destruct m as [cs s u]. unfold TapDSConfig_canon.
  cbn [ConfigSource Name TapDSConfig_XXX_unrecognized] in *. now rewrite normalize_id.
Qed.

Lemma CommonExtensionConfig_Unmarshal_decoded m d m' :
  len d < 2 ^ 63 -> CommonExtensionConfig_decoded m ->
  CommonExtensionConfig_Unmarshal m d = Ok m' -> CommonExtensionConfig_decoded m'.
Proof.
  apply (decoder_invariant_fields "CommonExtensionConfig" CommonExtensionConfig_arms
           CommonExtensionConfig_add_unrecognized
           _ _ CommonExtensionConfig_field_generic CommonExtensionConfig_Unmarshal_loop
           CommonExtensionConfig_decoded).
  - intros fn arm m0 s m1 Harm Hlen [_ Hu] Hs.
    destruct fn as [ | [[p | p | ] | [p | p | ] | ] | p]; cbn in Harm; try discriminate;
      injection Harm as <-; cbn [arm_store] in Hs; inv_bind Hs; injection Hs as <-;
      (split; [ | exact Hu]); cbn [ConfigType set_ConfigType ConfigType_decoded].
    + apply (TapDSConfig_Unmarshal_decoded TapDSConfig_zero s x Hlen
               TapDSConfig_zero_decoded Hx).
    + exact I.
    + apply (AdminConfig_Unmarshal_decoded AdminConfig_zero s x Hlen
               AdminConfig_zero_decoded Hx).
  - intros m0 f Hf [Hx Hu]. split; [exact Hx | now apply unrecognized_decoded_append].
Qed.

Lemma CommonExtensionConfig_zero_decoded :
  CommonExtensionConfig_decoded CommonExtensionConfig_zero.
Proof. split; [exact I | split; [constructor | discriminate]]. Qed.

Lemma CommonExtensionConfig_decoded_canon m :
  CommonExtensionConfig_decoded m -> CommonExtensionConfig_canon m = m.
Proof.
  intros [Hx [_ Hne]]. destruct m as [x u]. unfold CommonExtensionConfig_canon.
  cbn [ConfigType XXX_unrecognized] in *. rewrite normalize_id by assumption.
  f_equal.
  destruct x as [[[[[a | ]] | ] | [[[a | ]] | ] | [[[a | ]] | ]] | ];
    cbn [ConfigType_decoded] in Hx; try contradiction;
    cbn [option_map ConfigType_canon]; try reflexivity.
  - now rewrite AdminConfig_decoded_canon.
  - now rewrite TapDSConfig_decoded_canon.
Qed.

End DecodedMessages.

(** X16: what [Unmarshal] leaves in [XXX_unrecognized].  Into a receiver
    whose unrecognized bytes are nil or a sequence of at least one whole
    field with a number the schema does not know -- so into a fresh
    message -- decoding gives a message with unrecognized bytes of this
    kind again, never an empty slice that is not nil and never part of a
    field; the message in the oneof of a decoded [CommonExtensionConfig] is
    of this kind too, and its wrapper is never nil. *)
Theorem X16_unrecognized_bytes_are_whole_fields {E : Externals} :
  (forall m d m',
     len d < 2 ^ 63 -> AdminConfig_decoded m -> AdminConfig_Unmarshal m d = Ok m' ->
     AdminConfig_decoded m')
  /\ (forall m d m',
        len d < 2 ^ 63 -> TapDSConfig_decoded m -> TapDSConfig_Unmarshal m d = Ok m' ->
        TapDSConfig_decoded m')
  /\ (forall m d m',
        len d < 2 ^ 63 -> CommonExtensionConfig_decoded m ->
        CommonExtensionConfig_Unmarshal m d = Ok m' -> CommonExtensionConfig_decoded m')
  /\ (AdminConfig_decoded AdminConfig_zero
      /\ TapDSConfig_decoded TapDSConfig_zero
      /\ CommonExtensionConfig_decoded CommonExtensionConfig_zero).
Proof.
  split; [exact AdminConfig_Unmarshal_decoded | ].
  split; [exact TapDSConfig_Unmarshal_decoded | ].
  split; [exact CommonExtensionConfig_Unmarshal_decoded | ].
  split; [exact AdminConfig_zero_decoded | ].
  split; [exact TapDSConfig_zero_decoded | exact CommonExtensionConfig_zero_decoded].
Qed.

Lemma X16_witness :
  AdminConfig_decoded
    {| ConfigId := [x41]; AdminConfig_XXX_unrecognized := Some [x10; x05; x1d; x01; x02; x03; x04] |}.
Proof.
  pose proof (X16_unrecognized_bytes_are_whole_fields (E := Flag_externals))
    as [HA [_ [_ [HZ _]]]].
  apply (HA AdminConfig_zero [x10; x05; x0a; x01; x41; x1d; x01; x02; x03; x04]);
    [vm_compute; reflexivity | exact HZ | vm_compute; reflexivity].
Defined.

Section Stability.

Context {E : Externals}.
Variable TapConfig_wire : v3_TapConfig -> list byte.
Variable ConfigSource_wire : v4alpha_ConfigSource -> list byte.

Lemma AdminConfig_decoded_valid m :
  AdminConfig_decoded m -> len (AdminConfig_wire m) < 2 ^ 63 -> AdminConfig_valid m.
Proof. intros [Hu _] Hl. now split. Qed.

Lemma TapDSConfig_decoded_valid m :
  TapDSConfig_decoded m -> len (TapDSConfig_wire ConfigSource_wire m) < 2 ^ 63 ->
  TapDSConfig_valid ConfigSource_wire m.
Proof. intros [Hu _] Hl. now split. Qed.

Lemma CommonExtensionConfig_decoded_valid m :
  CommonExtensionConfig_decoded m ->
  len (CommonExtensionConfig_wire TapConfig_wire ConfigSource_wire m) < 2 ^ 63 ->
  CommonExtensionConfig_valid TapConfig_wire ConfigSource_wire m.
Proof.
  intros [Hx [Hu _]] Hl. split; [ | now split].
  unfold CommonExtensionConfig_wire in Hl. rewrite len_app in Hl.
  pose proof (len_nonneg (bytes_of (XXX_unrecognized m))) as Hb.
  destruct (ConfigType m) as [[[[[a | ]] | ] | [[[a | ]] | ] | [[[a | ]] | ]] | ];
    cbn [ConfigType_decoded ConfigType_valid ConfigType_wire] in *;
    try contradiction; try exact I.
  - apply AdminConfig_decoded_valid; [assumption | ].
    rewrite len_message_field in Hl.
    pose proof (sovCommon_pos (uint64 (len (AdminConfig_wire a)))
                  ltac:(apply uint64_range)). lia.
  - apply TapDSConfig_decoded_valid; [assumption | ].
    rewrite len_message_field in Hl.
    pose proof (sovCommon_pos (uint64 (len (TapDSConfig_wire ConfigSource_wire a)))
                  ltac:(apply uint64_range)). lia.
Qed.

End Stability.

(** X17: a message that [Unmarshal] gave, from any input into a fresh
    message, is one that [Marshal] and [Unmarshal] give back: [Marshal]
    succeeds on it, and [Unmarshal] of these bytes into a fresh message
    gives the same message, field for field.  (The imported message types
    are assumed to keep the marshal and unmarshal contracts.) *)
Theorem X17_a_decoded_message_survives_the_round_trip {E : Externals}
  (TapConfig_wire : v3_TapConfig -> list byte)
  (ConfigSource_wire : v4alpha_ConfigSource -> list byte) :
  marshal_contract TapConfig_wire -> marshal_contract ConfigSource_wire ->
  unmarshal_contract TapConfig_wire -> unmarshal_contract ConfigSource_wire ->
  (forall d m,
     len d < 2 ^ 63 -> AdminConfig_Unmarshal AdminConfig_zero d = Ok m ->
     exists b,
       AdminConfig_Marshal m = Ok b
       /\ (len b < 2 ^ 63 -> AdminConfig_Unmarshal AdminConfig_zero b = Ok m))
  /\ (forall d m,
        len d < 2 ^ 63 -> TapDSConfig_Unmarshal TapDSConfig_zero d = Ok m ->
        exists b,
          TapDSConfig_Marshal m = Ok b
          /\ (len b < 2 ^ 63 -> TapDSConfig_Unmarshal TapDSConfig_zero b = Ok m))
  /\ (forall d m,
        len d < 2 ^ 63 ->
        CommonExtensionConfig_Unmarshal CommonExtensionConfig_zero d = Ok m ->
        exists b,
          CommonExtensionConfig_Marshal m = Ok b
          /\ (len b < 2 ^ 63 ->
              CommonExtensionConfig_Unmarshal CommonExtensionConfig_zero b = Ok m)).
Proof.
  intros HTm HCm HTu HCu. split; [ | split].
  - intros d m Hd H.
    pose proof (AdminConfig_Unmarshal_decoded _ _ _ Hd AdminConfig_zero_decoded H) as Hm.
    exists (AdminConfig_wire m). split; [apply AdminConfig_Marshal_wire | ].
    intros Hb. rewrite AdminConfig_round_trip by now apply AdminConfig_decoded_valid.
    now rewrite AdminConfig_decoded_canon.
  - intros d m Hd H.
    pose proof (TapDSConfig_Unmarshal_decoded _ _ _ Hd TapDSConfig_zero_decoded H) as Hm.
    exists (TapDSConfig_wire ConfigSource_wire m).
    split; [now apply TapDSConfig_Marshal_wire | ].
    intros Hb.
    rewrite (TapDSConfig_round_trip ConfigSource_wire HCu)
      by now apply TapDSConfig_decoded_valid.
    now rewrite TapDSConfig_decoded_canon.
  - intros d m Hd H.
    pose proof (CommonExtensionConfig_Unmarshal_decoded _ _ _ Hd
                  CommonExtensionConfig_zero_decoded H) as Hm.
    exists (CommonExtensionConfig_wire TapConfig_wire ConfigSource_wire m).
    assert (Hw : wrapper_present m).
    { destruct Hm as [Hx _]. unfold wrapper_present.
      destruct (ConfigType m) as [[[[[a | ]] | ] | [[[a | ]] | ] | [[[a | ]] | ]] | ];
        cbn [ConfigType_decoded] in Hx; try contradiction; exact I. }
    split; [now apply CommonExtensionConfig_Marshal_wire | ].
    intros Hb.
    rewrite (CommonExtensionConfig_round_trip TapConfig_wire ConfigSource_wire HTu HCu)
      by now apply CommonExtensionConfig_decoded_valid.
    now rewrite CommonExtensionConfig_decoded_canon.
Qed.

Lemma X17_witness :
  exists b,
    CommonExtensionConfig_Marshal static_example = Ok b
    /\ (len b < 2 ^ 63 ->
        CommonExtensionConfig_Unmarshal CommonExtensionConfig_zero b = Ok static_example).
Proof.
  apply (proj2 (proj2 (X17_a_decoded_message_survives_the_round_trip
                         (E := Flag_externals) Flag_wire Flag_wire
                         Flag_marshal_contract Flag_marshal_contract
                         Flag_unmarshal_contract Flag_unmarshal_contract))
           [x1a; x00; x20; x07; x12; x02; x08; x01]).
  - vm_compute. reflexivity.
  - vm_compute. reflexivity.
Defined.

(** ** Decoding into a receiver that is not empty *)

Lemma AdminConfig_Unmarshal_merge m0 m :
  AdminConfig_valid m ->
  AdminConfig_Unmarshal m0 (AdminConfig_wire m) = Ok (AdminConfig_merge m0 m).
Proof.
  intros [Hu Hb]. unfold AdminConfig_wire, AdminConfig_merge in *. destruct m as [s u].
  cbn [ConfigId AdminConfig_XXX_unrecognized] in *.
  pose proof (decoder_nil "AdminConfig" AdminConfig_arms AdminConfig_add_unrecognized
                _ _ AdminConfig_field_generic AdminConfig_Unmarshal_loop m0) as H0.
  assert (H1 : AdminConfig_Unmarshal m0 ([] ++ string_field x0a s)
               = Ok {| ConfigId := if len s >? 0 then s else ConfigId m0;
                       AdminConfig_XXX_unrecognized := AdminConfig_XXX_unrecognized m0 |}).
  { destruct (Z_gt_dec (len s) 0) as [Hs | Hs].
    - rewrite string_field_message_field in * by assumption.
      destruct (len s >? 0) eqn:E; [ | rewrite Z.gtb_ltb in E; apply Z.ltb_ge in E; lia].
      eapply (decoder_known_field "AdminConfig" AdminConfig_arms AdminConfig_add_unrecognized
               _ _ AdminConfig_field_generic AdminConfig_Unmarshal_loop);
        [exact H0 | apply read_tag_x0a | reflexivity | reflexivity | ].
      cbn [app]. rewrite len_app in Hb. pose proof (len_nonneg (bytes_of u)). lia.
    - destruct (string_field_empty x0a s Hs) as [-> ->].
      change (@len byte [] >? 0) with false. cbv iota. destruct m0. exact H0. }
  cbn [app] in H1.
  apply (decoder_keeps_unknown_fields "AdminConfig" AdminConfig_arms
           AdminConfig_add_unrecognized _ _ AdminConfig_field_generic
           AdminConfig_Unmarshal_loop AdminConfig_add_nil AdminConfig_add_app
           _ _ _ _ H1 Hu Hb).
Qed.

Section MergeFacts.

Context {E : Externals}.
Variable TapConfig_wire : v3_TapConfig -> list byte.
Variable ConfigSource_wire : v4alpha_ConfigSource -> list byte.
Hypothesis TapConfig_unmarshal : unmarshal_contract TapConfig_wire.
Hypothesis ConfigSource_unmarshal : unmarshal_contract ConfigSource_wire.

Lemma TapDSConfig_Unmarshal_merge m0 m :
  TapDSConfig_valid ConfigSource_wire m ->
  ConfigSource m0 = None \/ ConfigSource m = None ->
  TapDSConfig_Unmarshal m0 (TapDSConfig_wire ConfigSource_wire m)
  = Ok (TapDSConfig_merge m0 m).
Proof.
  intros [Hu Hb] Hcs. unfold TapDSConfig_wire, TapDSConfig_merge in *.
  destruct m as [cs s u].
  cbn [ConfigSource Name TapDSConfig_XXX_unrecognized] in *.
  set (F1 := match cs with
             | Some cs => message_field x0a (ConfigSource_wire cs)
             | None => []
             end) in *.
  rewrite !len_app in Hb.
  pose proof (len_nonneg F1) as HF1.
  pose proof (len_nonneg (string_field x12 s)) as HF2.
  pose proof (len_nonneg (bytes_of u)) as HF3.
  pose proof (decoder_nil "TapDSConfig" TapDSConfig_arms TapDSConfig_add_unrecognized
                _ _ TapDSConfig_field_generic TapDSConfig_Unmarshal_loop m0)
    as H0.
  assert (H1 : TapDSConfig_Unmarshal m0 ([] ++ F1)
               = Ok {| ConfigSource := match cs with
                                       | Some cs => Some cs
                                       | None => ConfigSource m0
                                       end;
                       Name := Name m0;
                       TapDSConfig_XXX_unrecognized := TapDSConfig_XXX_unrecognized m0 |}).
  { subst F1. destruct cs as [cs | ]; [ | destruct m0; exact H0].
    destruct Hcs as [Hcs | Hcs]; [ | discriminate].
    eapply (decoder_known_field "TapDSConfig" TapDSConfig_arms TapDSConfig_add_unrecognized
              _ _ TapDSConfig_field_generic TapDSConfig_Unmarshal_loop);
      [exact H0 | apply read_tag_x0a | reflexivity | | cbn [app]; lia].
    cbn [arm_store]. rewrite Hcs, ConfigSource_unmarshal. reflexivity. }
  cbn [app] in H1.
  assert (H2 : TapDSConfig_Unmarshal m0 (F1 ++ string_field x12 s)
               = Ok {| ConfigSource := match cs with
                                       | Some cs => Some cs
                                       | None => ConfigSource m0
                                       end;
                       Name := if len s >? 0 then s else Name m0;
                       TapDSConfig_XXX_unrecognized := TapDSConfig_XXX_unrecognized m0 |}).
  { destruct (Z_gt_dec (len s) 0) as [Hs | Hs].
    - rewrite string_field_message_field in * by assumption.
      destruct (len s >? 0) eqn:Egt;
        [ | rewrite Z.gtb_ltb in Egt; apply Z.ltb_ge in Egt; lia].
      eapply (decoder_known_field "TapDSConfig" TapDSConfig_arms TapDSConfig_add_unrecognized
                _ _ TapDSConfig_field_generic TapDSConfig_Unmarshal_loop);
        [exact H1 | apply read_tag_x12 | reflexivity | reflexivity | rewrite len_app; lia].
    - destruct (string_field_empty x12 s Hs) as [-> ->]. rewrite app_nil_r.
      change (@len byte [] >? 0) with false. cbv iota. exact H1. }
  rewrite app_assoc.
  apply (decoder_keeps_unknown_fields "TapDSConfig" TapDSConfig_arms
           TapDSConfig_add_unrecognized _ _ TapDSConfig_field_generic
           TapDSConfig_Unmarshal_loop TapDSConfig_add_nil TapDSConfig_add_app
           _ _ _ _ H2 Hu).
  rewrite !len_app. lia.
Qed.

Lemma CommonExtensionConfig_Unmarshal_merge m0 m :
  CommonExtensionConfig_valid TapConfig_wire ConfigSource_wire m ->
  CommonExtensionConfig_Unmarshal m0
    (CommonExtensionConfig_wire TapConfig_wire ConfigSource_wire m)
  = Ok (CommonExtensionConfig_merge m0 m).
Proof.
  intros [Hx [Hu Hb]]. unfold CommonExtensionConfig_wire, CommonExtensionConfig_merge in *.
  destruct m as [x u]. cbn [ConfigType XXX_unrecognized] in *.
  set (F1 := match x with
             | Some x => ConfigType_wire TapConfig_wire ConfigSource_wire x
             | None => []
             end) in *.
  rewrite len_app in Hb.
  pose proof (len_nonneg F1) as HF1. pose proof (len_nonneg (bytes_of u)) as HF3.
  pose proof (decoder_nil "CommonExtensionConfig" CommonExtensionConfig_arms
                CommonExtensionConfig_add_unrecognized
                _ _ CommonExtensionConfig_field_generic CommonExtensionConfig_Unmarshal_loop
                m0) as H0.
  assert (H1 : CommonExtensionConfig_Unmarshal m0 ([] ++ F1)
               = Ok {| ConfigType := match x with
                                     | Some x => Some (ConfigType_canon x)
                                     | None => ConfigType m0
                                     end;
                       XXX_unrecognized := XXX_unrecognized m0 |}).
  { subst F1. destruct x as [[[[[a | ]] | ] | [[[a | ]] | ] | [[[a | ]] | ]] | ];
      cbn [ConfigType_valid] in Hx; try contradiction; try (destruct m0; exact H0);
      cbn [ConfigType_wire ConfigType_canon] in *.
    - eapply (decoder_known_field "CommonExtensionConfig" CommonExtensionConfig_arms
                CommonExtensionConfig_add_unrecognized
                _ _ CommonExtensionConfig_field_generic CommonExtensionConfig_Unmarshal_loop);
        [exact H0 | apply read_tag_x0a | reflexivity | | cbn [app]; lia].
      cbn [arm_store]. rewrite (AdminConfig_round_trip a Hx). reflexivity.
    - eapply (decoder_known_field "CommonExtensionConfig" CommonExtensionConfig_arms
                CommonExtensionConfig_add_unrecognized
                _ _ CommonExtensionConfig_field_generic CommonExtensionConfig_Unmarshal_loop);
        [exact H0 | apply read_tag_x12 | reflexivity | | cbn [app]; lia].
      cbn [arm_store]. rewrite TapConfig_unmarshal. reflexivity.
    - eapply (decoder_known_field "CommonExtensionConfig" CommonExtensionConfig_arms
                CommonExtensionConfig_add_unrecognized
                _ _ CommonExtensionConfig_field_generic CommonExtensionConfig_Unmarshal_loop);
        [exact H0 | apply read_tag_x1a | reflexivity | | cbn [app]; lia].
      cbn [arm_store].
      rewrite (TapDSConfig_round_trip ConfigSource_wire ConfigSource_unmarshal a Hx).
      reflexivity. }
  cbn [app] in H1.
  apply (decoder_keeps_unknown_fields "CommonExtensionConfig" CommonExtensionConfig_arms
           CommonExtensionConfig_add_unrecognized _ _ CommonExtensionConfig_field_generic
           CommonExtensionConfig_Unmarshal_loop CommonExtensionConfig_add_nil
           CommonExtensionConfig_add_app _ _ _ _ H1 Hu).
  rewrite len_app. lia.
Qed.

End MergeFacts.

(** X18: [Unmarshal] merges.  The bytes [Marshal] gives for a message [m]
    (one that survives the round trip), decoded into a receiver [m0], give
    the receiver with the strings of [m] that are not empty and the oneof of
    [m] when it is set in place of its own, and with the unrecognized bytes
    of [m] appended to its own.  So the encodings of two messages, one
    after the other, decode to the merge of the two.  (The imported message
    types are assumed to keep the marshal and unmarshal contracts; for
    [TapDSConfig] the receiver or [m] has no [ConfigSource], which the
    imported [Unmarshal] would merge.) *)
Theorem X18_unmarshal_merges {E : Externals}
  (TapConfig_wire : v3_TapConfig -> list byte)
  (ConfigSource_wire : v4alpha_ConfigSource -> list byte) :
  marshal_contract TapConfig_wire -> marshal_contract ConfigSource_wire ->
  unmarshal_contract TapConfig_wire -> unmarshal_contract ConfigSource_wire ->
  ((forall m0 m b,
      AdminConfig_valid m -> AdminConfig_Marshal m = Ok b ->
      AdminConfig_Unmarshal m0 b = Ok (AdminConfig_merge m0 m))
   /\ (forall m0 m b,
         TapDSConfig_valid ConfigSource_wire m ->
         ConfigSource m0 = None \/ ConfigSource m = None ->
         TapDSConfig_Marshal m = Ok b ->
         TapDSConfig_Unmarshal m0 b = Ok (TapDSConfig_merge m0 m))
   /\ (forall m0 m b,
         CommonExtensionConfig_valid TapConfig_wire ConfigSource_wire m ->
         CommonExtensionConfig_Marshal m = Ok b ->
         CommonExtensionConfig_Unmarshal m0 b = Ok (CommonExtensionConfig_merge m0 m)))
  /\ ((forall m1 m2 b1 b2,
         AdminConfig_valid m1 -> AdminConfig_valid m2 ->
         AdminConfig_Marshal m1 = Ok b1 -> AdminConfig_Marshal m2 = Ok b2 ->
         len (b1 ++ b2) < 2 ^ 63 ->
         AdminConfig_Unmarshal AdminConfig_zero (b1 ++ b2)
         = Ok (AdminConfig_merge (AdminConfig_canon m1) m2))
      /\ (forall m1 m2 b1 b2,
            CommonExtensionConfig_valid TapConfig_wire ConfigSource_wire m1 ->
            CommonExtensionConfig_valid TapConfig_wire ConfigSource_wire m2 ->
            CommonExtensionConfig_Marshal m1 = Ok b1 ->
            CommonExtensionConfig_Marshal m2 = Ok b2 ->
            len (b1 ++ b2) < 2 ^ 63 ->
            CommonExtensionConfig_Unmarshal CommonExtensionConfig_zero (b1 ++ b2)
            = Ok (CommonExtensionConfig_merge (CommonExtensionConfig_canon m1) m2))).
Proof.
  intros HTm HCm HTu HCu.
  assert (HA : forall m0 m b,
            AdminConfig_valid m -> AdminConfig_Marshal m = Ok b ->
            AdminConfig_Unmarshal m0 b = Ok (AdminConfig_merge m0 m)).
  { intros m0 m b Hm Hb. rewrite AdminConfig_Marshal_wire in Hb. injection Hb as <-.
    now apply AdminConfig_Unmarshal_merge. }
  assert (HC : forall m0 m b,
            CommonExtensionConfig_valid TapConfig_wire ConfigSource_wire m ->
            CommonExtensionConfig_Marshal m = Ok b ->
            CommonExtensionConfig_Unmarshal m0 b = Ok (CommonExtensionConfig_merge m0 m)).
  { intros m0 m b Hm Hb.
    rewrite (CommonExtensionConfig_Marshal_wire TapConfig_wire ConfigSource_wire HTm HCm)
      in Hb by (eapply CommonExtensionConfig_valid_wrapper_present, Hm).
    injection Hb as <-. now apply CommonExtensionConfig_Unmarshal_merge. }
  split; [split; [exact HA | split; [ | exact HC]] | split].
  - intros m0 m b Hm Hcs Hb.
    rewrite (TapDSConfig_Marshal_wire ConfigSource_wire HCm) in Hb. injection Hb as <-.
    now apply TapDSConfig_Unmarshal_merge.
  - intros m1 m2 b1 b2 H1 H2 Hb1 Hb2 Hl.
    apply (decoder_sequence "AdminConfig" AdminConfig_arms AdminConfig_add_unrecognized
             _ _ AdminConfig_field_generic AdminConfig_Unmarshal_loop
             AdminConfig_zero b1 (AdminConfig_canon m1) b2 _);
      [ | assumption | now apply HA].
    rewrite AdminConfig_Marshal_wire in Hb1. injection Hb1 as <-.
    now apply AdminConfig_round_trip.
  - intros m1 m2 b1 b2 H1 H2 Hb1 Hb2 Hl.
    apply (decoder_sequence "CommonExtensionConfig" CommonExtensionConfig_arms
             CommonExtensionConfig_add_unrecognized
             _ _ CommonExtensionConfig_field_generic CommonExtensionConfig_Unmarshal_loop
             CommonExtensionConfig_zero b1 (CommonExtensionConfig_canon m1) b2 _);
      [ | assumption | now apply HC].
    rewrite (CommonExtensionConfig_Marshal_wire TapConfig_wire ConfigSource_wire HTm HCm)
      in Hb1 by (eapply CommonExtensionConfig_valid_wrapper_present, H1).
    injection Hb1 as <-. now apply CommonExtensionConfig_round_trip.
Qed.

Lemma X18_witness :
  CommonExtensionConfig_Unmarshal admin_example [x12; x02; x08; x01; x20; x07]
  = Ok (CommonExtensionConfig_merge admin_example static_example).
Proof.
  apply (proj2 (proj2 (proj1 (X18_unmarshal_merges (E := Flag_externals) Flag_wire Flag_wire
                                Flag_marshal_contract Flag_marshal_contract
                                Flag_unmarshal_contract Flag_unmarshal_contract)))
           admin_example static_example).
  - split; [exact I | split].
    + apply (unknown_fields_cons _ [x20; x07] []); [vm_compute; reflexivity | constructor].
    + vm_compute. reflexivity.
  - vm_compute. reflexivity.
Defined.

(** ** Groups in [skipCommon] *)

(** One [switch wireType], at another position, inside [d] more groups and
    with more input behind. *)
Lemma skip_value_nested wt e j0 f c' e' j r d :
  0 <= j0 -> j0 + len f < 2 ^ 63 -> 0 <= j -> j + len (f ++ r) < 2 ^ 63 ->
  skip_value wt e (Cursor j0 f) = Ok (c', e') -> 0 <= iNdEx c' ->
  iNdEx c' - j0 <= len f -> 0 <= e -> 0 <= d ->
  skip_value wt (e + d) (Cursor j (f ++ r))
  = Ok (Cursor (iNdEx c' - j0 + j) (drop (iNdEx c' - j0) (f ++ r)), e' + d).
Proof.
  intros Hj0 Hb0 Hj Hb H Hpos Hin He0 Hd.
  pose proof (len_nonneg f) as Hf. pose proof (len_nonneg r) as Hr.
  rewrite len_app in Hb.
  destruct (skip_value_cases wt) as [-> | [-> | [-> | [-> | [-> | [-> | Hbad]]]]]];
    [ | | | | | | rewrite Hbad in H; discriminate ];
    cbn [skip_value iNdEx rest] in *.
  - inv_bind H. destruct x as [x0 c1]. injection H as <- <-.
    unfold varint in *. cbn [iNdEx rest] in *.
    apply (read_varint_shift _ _ _ _ _ _ _ j) in Hx.
    apply (read_varint_app _ _ _ _ _ _ _ r) in Hx. cbn [iNdEx rest] in Hx.
    rewrite Hx. cbn [bind].
    pose proof (read_varint_inv _ _ _ _ _ _ _ Hx) as [k [Hk Hc]].
    injection Hc as Hi Hc. rewrite Hc. same_up_to_lia.
  - injection H as <- <-. cbn [iNdEx rest] in *.
    assert (He : int (j0 + 8) = j0 + 8) by (apply int_add_exact; lia).
    rewrite He in *. rewrite int_small by lia. same_up_to_lia.
  - inv_bind H. destruct x as [n c1].
    unfold varint in *. cbn [iNdEx rest] in *.
    pose proof (read_varint_result or_int (fun n => - 2 ^ 63 <= n < 2 ^ 63) f
                  ltac:(intros; apply int_range) _ _ _ _ _ Hx) as Hn.
    pose proof (read_varint_inv _ _ _ _ _ _ _ Hx) as [k [Hk Hc]].
    destruct (n <? 0) eqn:En; [discriminate | ].
    pose proof En as En'. apply Z.ltb_ge in En'.
    injection H as <- <-. subst c1. cbn [iNdEx rest] in *.
    assert (He : int (j0 + k + n) = j0 + k + n) by (apply int_add_exact; lia).
    rewrite He in *.
    apply (read_varint_shift _ _ _ _ _ _ _ j) in Hx.
    apply (read_varint_app _ _ _ _ _ _ _ r) in Hx. cbn [iNdEx rest] in Hx.
    rewrite Hx. cbn [bind iNdEx rest]. rewrite En.
    rewrite int_small by lia.
    rewrite <- drop_app_l by lia. rewrite drop_drop by lia. same_up_to_lia.
  - injection H as <- <-. cbn [iNdEx rest].
    rewrite drop_nonpos by lia. same_up_to_lia.
  - destruct (e =? 0) eqn:Ee; [discriminate | ]. apply Z.eqb_neq in Ee.
    injection H as <- <-. cbn [iNdEx rest].
    destruct (e + d =? 0) eqn:Eed.
    + apply Z.eqb_eq in Eed. lia.
    + rewrite drop_nonpos by lia. same_up_to_lia.
  - injection H as <- <-. cbn [iNdEx rest] in *.
    assert (He : int (j0 + 4) = j0 + 4) by (apply int_add_exact; lia).
    rewrite He in *. rewrite int_small by lia. same_up_to_lia.
Qed.

Lemma skipCommon_loop_nested fuel : forall e j0 f n,
  0 <= e -> 0 <= j0 -> j0 + len f < 2 ^ 63 ->
  skipCommon_loop fuel e (Cursor j0 f) = Ok n -> n <= j0 + len f ->
  forall d j r fuel',
    0 < d -> 0 <= j -> j + len (f ++ r) < 2 ^ 63 ->
    (List.length (f ++ r) <= fuel')%nat ->
    exists fuel'',
      (List.length (drop (n - j0) (f ++ r)) <= fuel'')%nat
      /\ skipCommon_loop fuel' (e + d) (Cursor j (f ++ r))
         = skipCommon_loop fuel'' d (Cursor (n - j0 + j) (drop (n - j0) (f ++ r))).
Proof.
  induction fuel as [ | fuel IH]; intros e j0 f n He Hj0 Hb0 H Hn d j r fuel' Hd Hj Hb Hfuel.
  - destruct f; cbn in H; discriminate.
  - destruct f as [ | b f]; [cbn in H; discriminate | ].
    destruct fuel' as [ | fuel']; [cbn in Hfuel; lia | ].
    pose proof (len_nonneg (b :: f)) as Hf. pose proof (len_nonneg r) as Hr.
    rewrite skipCommon_loop_step in H.
    rewrite skipCommon_loop_unfold by (cbn [rest]; discriminate).
    inv_bind H. destruct x as [wire c1].
    unfold varint in Hx |- *. cbn [iNdEx rest] in Hx |- *.
    pose proof (read_varint_inv _ _ _ _ _ _ _ Hx) as [k [Hk Hc]]. subst c1.
    apply (read_varint_shift _ _ _ _ _ _ _ j) in Hx.
    apply (read_varint_app _ _ _ _ _ _ _ r) in Hx. cbn [iNdEx rest] in Hx.
    rewrite Hx. cbn [bind].
    inv_bind H. destruct x as [c2 e2].
    destruct (iNdEx c2 <? 0) eqn:E2; [discriminate | ].
    pose proof E2 as E2'. apply Z.ltb_ge in E2'.
    assert (Hjk : 0 <= j0 + k) by lia.
    assert (Hb1 : j0 + k + len (drop k (b :: f)) < 2 ^ 63) by (rewrite len_drop; lia).
    pose proof (skip_value_range _ _ _ _ _ _ Hjk Hb1 Hx0 E2') as [Hj2 [Hb2 Hlen2]].
    pose proof (skip_value_depth _ _ _ _ _ Hx0 He) as He2.
    assert (Hle : iNdEx c2 <= n).
    { destruct (e2 =? 0); [injection H as Hn2; lia | ].
      destruct c2 as [j2 r2]. cbn [iNdEx rest] in *.
      pose proof (skipCommon_loop_range _ _ _ _ _ E2' Hb2 H). lia. }
    assert (Hin : iNdEx c2 - (j0 + k) <= len (drop k (b :: f)))
      by (rewrite len_drop by lia; lia).
    rewrite len_app in Hb.
    pose proof (skip_value_nested _ _ _ _ _ _ (j0 + k - j0 + j) r d Hjk Hb1
                  ltac:(lia) ltac:(rewrite len_app, len_drop by lia; lia)
                  Hx0 E2' Hin He ltac:(lia)) as Hs.
    rewrite Hs. cbn [bind iNdEx].
    destruct (iNdEx c2 - (j0 + k) + (j0 + k - j0 + j) <? 0) eqn:E3;
      [apply Z.ltb_lt in E3; lia | ].
    assert (Hrest : drop (iNdEx c2 - (j0 + k)) (drop k (b :: f) ++ r)
                    = drop (iNdEx c2 - j0) ((b :: f) ++ r)).
    { rewrite <- drop_app_l by lia. rewrite drop_drop by lia. same_up_to_lia. }
    rewrite Hrest.
    destruct (e2 =? 0) eqn:Ee2.
    + apply Z.eqb_eq in Ee2. injection H as <-.
      destruct (e2 + d =? 0) eqn:Eed; [apply Z.eqb_eq in Eed; lia | ].
      exists fuel'. split.
      * pose proof (length_drop_le (iNdEx c2 - j0) ((b :: f) ++ r)) as Hl.
        assert (0 < iNdEx c2 - j0) by lia.
        unfold drop in *. rewrite length_skipn in *. cbn [List.length app] in *. lia.
      * subst e2. rewrite Z.add_0_l. same_up_to_lia.
    + apply Z.eqb_neq in Ee2.
      destruct (e2 + d =? 0) eqn:Eed; [apply Z.eqb_eq in Eed; lia | ].
      destruct c2 as [j2 r2]. cbn [iNdEx rest] in *.
      assert (Hne : r2 <> []).
      { intros ->. rewrite skipCommon_loop_nil in H. discriminate. }
      pose proof (skip_value_nested _ _ _ _ _ _ (j0 + k) [] 0 Hjk Hb1
                    Hjk ltac:(rewrite app_nil_r; lia)
                    Hx0 E2' Hin He ltac:(lia)) as Hs0.
      rewrite app_nil_r, Z.add_0_r, Hx0 in Hs0. injection Hs0 as _ Hr2.
      cbn [iNdEx] in Hr2.
      assert (Hlen : len r2 = len (b :: f) - (j2 - j0)).
      { rewrite Hr2. rewrite drop_drop by lia. rewrite len_drop by lia. lia. }
      assert (Hr2' : drop (j2 - j0) ((b :: f) ++ r) = r2 ++ r).
      { rewrite Hr2. rewrite drop_drop by lia. rewrite drop_app_l by lia.
        same_up_to_lia. }
      rewrite Hr2'.
      destruct (IH e2 j2 r2 n He2 E2' Hb2 H ltac:(lia) d (j2 - (j0 + k) + (j0 + k - j0 + j))
                  r fuel' Hd ltac:(lia) ltac:(rewrite len_app; lia))
        as [fuel'' [Hf'' Heq]].
      { pose proof (len_nonneg r2). apply (f_equal (@List.length byte)) in Hr2'.
        unfold drop in Hr2'. rewrite length_skipn in Hr2'.
        cbn [List.length app] in *. lia. }
      exists fuel''. rewrite Heq.
      assert (Hd2 : drop (n - j2) (r2 ++ r) = drop (n - j0) ((b :: f) ++ r)).
      { rewrite <- Hr2'. rewrite drop_drop by lia. same_up_to_lia. }
      rewrite Hd2 in *. split; [assumption | same_up_to_lia].
Qed.

Lemma skipCommon_loop_fields u :
  skipped_fields u ->
  forall d j r fuel',
    0 < d -> 0 <= j -> j + len (u ++ r) < 2 ^ 63 ->
    (List.length (u ++ r) <= fuel')%nat ->
    exists fuel'',
      (List.length r <= fuel'')%nat
      /\ skipCommon_loop fuel' d (Cursor j (u ++ r))
         = skipCommon_loop fuel'' d (Cursor (j + len u) r).
Proof.
  induction 1 as [ | f u Hf Hu IH]; intros d j r fuel' Hd Hj Hb Hfuel.
  - exists fuel'. split; [assumption | ]. cbn [app]. change (@len byte []) with 0.
    same_up_to_lia.
  - rewrite <- app_assoc in *. rewrite !len_app in Hb.
    pose proof (len_nonneg f) as Hlf. pose proof (len_nonneg u) as Hlu.
    pose proof (len_nonneg r) as Hlr.
    unfold skipCommon in Hf.
    destruct (skipCommon_loop_nested _ 0 0 f (len f) (Z.le_refl 0) (Z.le_refl 0)
                ltac:(lia) Hf ltac:(lia) d j (u ++ r) fuel' Hd Hj
                ltac:(rewrite !len_app; lia) Hfuel) as [fuel1 [Hf1 Heq]].
    rewrite Z.add_0_l, Z.sub_0_r in Heq. rewrite Z.sub_0_r in Hf1.
    rewrite drop_app_len in *. rewrite Heq.
    destruct (IH d (len f + j) r fuel1 Hd ltac:(lia) ltac:(rewrite len_app; lia) Hf1)
      as [fuel2 [Hf2 Heq2]].
    exists fuel2. split; [assumption | ]. rewrite Heq2, len_app. same_up_to_lia.
Qed.

(** X19: [skipCommon] steps over a group as one field.  On a start-group
    tag, fields that it steps over whole, and an end-group tag, it returns
    the length of the three together, whatever follows; so a group may hold
    groups.  Without the end-group tag it fails with
    [io.ErrUnexpectedEOF]. *)
Theorem X19_skipCommon_steps_over_a_group sg ws eg we u r :
  varint or_uint64 (Cursor 0 sg) = Ok (ws, Cursor (len sg) []) -> int (Z.land ws 7) = 3 ->
  varint or_uint64 (Cursor 0 eg) = Ok (we, Cursor (len eg) []) -> int (Z.land we 7) = 4 ->
  skipped_fields u ->
  len (sg ++ u ++ eg ++ r) < 2 ^ 63 ->
  skipCommon (sg ++ u ++ eg ++ r) = Ok (len (sg ++ u ++ eg))
  /\ skipped_fields (sg ++ u ++ eg)
  /\ skipCommon (sg ++ u) = Err ErrUnexpectedEOF.
Proof.
  intros Hs Hs3 He He4 Hu Hb.
  pose proof (len_nonneg sg) as Hlsg. pose proof (len_nonneg u) as Hlu.
  pose proof (len_nonneg eg) as Hleg. pose proof (len_nonneg r) as Hlr.
  assert (Hsg : 0 < len sg).
  { unfold varint in Hs. cbn [iNdEx rest] in Hs.
    apply read_varint_inv in Hs. destruct Hs as [k [Hk Hc]]. lia. }
  assert (Hgen : forall t,
            len (sg ++ u ++ t) < 2 ^ 63 ->
            exists fuel,
              (List.length t <= fuel)%nat
              /\ skipCommon (sg ++ u ++ t)
                 = skipCommon_loop fuel 1 (Cursor (len sg + len u) t)).
  { intros t Ht. rewrite !len_app in Ht. pose proof (len_nonneg t) as Hlt.
    pose proof Hs as Hs'. unfold varint in Hs'. cbn [iNdEx rest] in Hs'.
    apply (read_varint_app _ _ _ _ _ _ _ (u ++ t)) in Hs'. cbn [iNdEx rest app] in Hs'.
    rewrite (skipCommon_first (sg ++ u ++ t) ws (Cursor (len sg) (u ++ t)) Hs').
    rewrite Hs3. cbn [skip_value bind iNdEx].
    destruct (len sg <? 0) eqn:E0; [apply Z.ltb_lt in E0; lia | ].
    change (0 + 1 =? 0) with false. cbv iota. change (0 + 1) with 1.
    assert (Hfuel0 : (List.length (u ++ t) <= List.length (sg ++ u ++ t) - 1)%nat).
    { rewrite !length_app. unfold len in Hsg. lia. }
    destruct (skipCommon_loop_fields u Hu 1 (len sg) t
                (List.length (sg ++ u ++ t) - 1) ltac:(lia) ltac:(lia)
                ltac:(rewrite len_app; lia) Hfuel0) as [fuel [Hfuel Heq]].
    exists fuel. split; [assumption | exact Heq]. }
  assert (Hwhole : forall t, len (sg ++ u ++ eg ++ t) < 2 ^ 63 ->
            skipCommon (sg ++ u ++ eg ++ t) = Ok (len (sg ++ u ++ eg))).
  { intros t Ht. destruct (Hgen (eg ++ t) Ht) as [fuel [Hfuel ->]].
    rewrite !len_app in Ht.
    assert (Heg : 0 < len eg).
    { unfold varint in He. cbn [iNdEx rest] in He.
      apply read_varint_inv in He. destruct He as [k [Hk Hc]]. lia. }
    destruct fuel as [ | fuel].
    { rewrite length_app in Hfuel. unfold len in Heg. lia. }
    rewrite skipCommon_loop_unfold
      by (cbn [rest]; destruct eg; [cbn in Heg; lia | discriminate]).
    pose proof He as He'. unfold varint in He' |- *. cbn [iNdEx rest] in He' |- *.
    apply (read_varint_shift _ _ _ _ _ _ _ (len sg + len u)) in He'.
    apply (read_varint_app _ _ _ _ _ _ _ t) in He'. cbn [iNdEx rest app] in He'.
    rewrite He'. cbn [bind]. rewrite He4. cbn [skip_value].
    change (1 =? 0) with false. cbv iota. cbn [bind iNdEx].
    destruct (len eg - 0 + (len sg + len u) <? 0) eqn:E0; [apply Z.ltb_lt in E0; lia | ].
    change (1 - 1 =? 0) with true. cbv iota. rewrite !len_app. same_up_to_lia. }
  split; [now apply Hwhole | split].
  - rewrite <- (app_nil_r (sg ++ u ++ eg)). apply skipped_fields_cons; [ | constructor].
    rewrite <- (app_nil_r eg) at 1. apply Hwhole.
    rewrite !len_app in *. change (@len byte []) with 0. lia.
  - destruct (Hgen [] ltac:(rewrite !len_app in *; change (@len byte []) with 0; lia))
      as [fuel [_ Heq]].
    rewrite app_nil_r in Heq. rewrite Heq. apply skipCommon_loop_nil.
Qed.

Lemma X19_witness :
  skipCommon ([x0b] ++ ([x10; x05] ++ [x1b; x1c] ++ []) ++ [x0c] ++ [x0a; x01])
  = Ok (len ([x0b] ++ ([x10; x05] ++ [x1b; x1c] ++ []) ++ [x0c]))
  /\ skipped_fields ([x0b] ++ ([x10; x05] ++ [x1b; x1c] ++ []) ++ [x0c])
  /\ skipCommon ([x0b] ++ ([x10; x05] ++ [x1b; x1c] ++ [])) = Err ErrUnexpectedEOF.
Proof.
  apply (X19_skipCommon_steps_over_a_group [x0b] 11 [x0c] 12);
    try (vm_compute; reflexivity).
  apply skipped_fields_cons; [reflexivity | ].
  apply skipped_fields_cons; [reflexivity | constructor].
Defined.

(** * Fields of the wire format, anywhere in an input *)

(** ** Varints in the wire format and the varint loops *)

Lemma or_uint64_sum v b shift :
  0 <= shift <= 64 -> 0 <= v < 2 ^ shift ->
  or_uint64 v b shift = uint64 (v + Z.land (byte_val b) 127 * 2 ^ shift).
Proof.
  intros Hs Hv. unfold or_uint64, uint64.
  rewrite Z.shiftl_mul_pow2 by lia.
  set (c := Z.land (byte_val b) 127).
  assert (H64 : 2 ^ 64 = 2 ^ (64 - shift) * 2 ^ shift)
    by (rewrite <- Z.pow_add_r by lia; f_equal; lia).
  assert (Hm : (c * 2 ^ shift) mod 2 ^ 64 = (c mod 2 ^ (64 - shift)) * 2 ^ shift).
  { rewrite H64. apply Z.mul_mod_distr_r; lia. }
  rewrite Hm. rewrite lor_low_high by lia.
  rewrite <- Hm. rewrite Zplus_mod_idemp_r. reflexivity.
Qed.

Lemma int_congruent a b : (a - b) mod 2 ^ 64 = 0 -> int a = int b.
Proof.
  intros H. unfold int. f_equal.
  apply Z.mod_divide in H; [ | lia]. destruct H as [k Hk].
  replace (a + 2 ^ 63) with (b + 2 ^ 63 + k * 2 ^ 64) by lia.
  apply Z_mod_plus_full.
Qed.

Lemma int_multiple z s :
  0 <= s <= 64 -> exists k, int (z * 2 ^ s) = k * 2 ^ s.
Proof.
  intros Hs. unfold int.
  assert (H64 : 2 ^ 64 = 2 ^ (64 - s) * 2 ^ s)
    by (rewrite <- Z.pow_add_r by lia; f_equal; lia).
  pose proof (Z.div_mod (z * 2 ^ s + 2 ^ 63) (2 ^ 64) ltac:(lia)) as Hd.
  set (q := (z * 2 ^ s + 2 ^ 63) / 2 ^ 64) in *.
  exists (z - 2 ^ (64 - s) * q).
  assert (Hm : (z * 2 ^ s + 2 ^ 63) mod 2 ^ 64 = z * 2 ^ s + 2 ^ 63 - 2 ^ 64 * q) by lia.
  rewrite Hm, H64. ring.
Qed.

Lemma or_int_sum v b shift :
  0 <= shift <= 64 -> 0 <= v < 2 ^ shift ->
  or_int v b shift = int (v + Z.land (byte_val b) 127 * 2 ^ shift).
Proof.
  intros Hs Hv. unfold or_int.
  rewrite Z.shiftl_mul_pow2 by lia.
  set (c := Z.land (byte_val b) 127).
  destruct (int_multiple c shift Hs) as [k Hk]. rewrite Hk.
  rewrite lor_low_high by lia. rewrite <- Hk.
  apply int_congruent.
  replace (v + int (c * 2 ^ shift) - (v + c * 2 ^ shift))
    with (int (c * 2 ^ shift) - c * 2 ^ shift) by lia.
  unfold int.
  pose proof (Z.div_mod (c * 2 ^ shift + 2 ^ 63) (2 ^ 64) ltac:(lia)) as Hd.
  replace ((c * 2 ^ shift + 2 ^ 63) mod 2 ^ 64 - 2 ^ 63 - c * 2 ^ shift)
    with (- ((c * 2 ^ shift + 2 ^ 63) / 2 ^ 64) * 2 ^ 64) by lia.
  apply Z_mod_mult.
Qed.

Lemma land_127_range x : 0 <= Z.land x 127 < 128.
Proof. rewrite land_127. apply Z.mod_pos_bound. lia. Qed.

Lemma is_varint_upto_nonempty n v : is_varint_upto n v = true -> v <> [].
Proof. destruct n, v; cbn; congruence. Qed.

Lemma varint_value_nonneg v : 0 <= varint_value v.
Proof.
  induction v as [ | b v IH]; cbn [varint_value]; [lia | ].
  pose proof (land_127_range (byte_val b)). lia.
Qed.

(** A varint loop on the bytes of a varint, from any accumulator. *)
Lemma read_varint_wire acc (wrap : Z -> Z)
  (Hacc : forall v b s, 0 <= s <= 64 -> 0 <= v < 2 ^ s ->
     acc v b s = wrap (v + Z.land (byte_val b) 127 * 2 ^ s))
  (Hwrap : forall z, 0 <= z < 2 ^ 63 -> wrap z = z) n :
  forall v shift a i r,
    is_varint_upto n v = true -> 0 <= shift -> shift + 7 * Z.of_nat n <= 70 ->
    0 <= a < 2 ^ shift ->
    read_varint acc shift a i (v ++ r)
    = Ok (wrap (a + varint_value v * 2 ^ shift), Cursor (i + len v) r).
Proof.
  induction n as [ | n IH]; intros v shift a i r Hv Hs Hn Ha; [destruct v; discriminate | ].
  destruct v as [ | b v]; [discriminate | ].
  cbn [is_varint_upto] in Hv. cbn [app]. rewrite read_varint_cons.
  destruct (64 <=? shift) eqn:E64; [apply Z.leb_le in E64; lia | ].
  pose proof (land_127_range (byte_val b)) as Hc.
  destruct (byte_val b <? 128) eqn:Eb.
  - destruct v as [ | b' v]; [ | discriminate].
    rewrite Hacc by lia. cbn [varint_value app]. change (len [b]) with 1.
    do 2 f_equal. f_equal. lia.
  - assert (Hn1 : (1 <= n)%nat) by (destruct n; [destruct v; discriminate | lia]).
    assert (Hp : 2 ^ (shift + 7) = 128 * 2 ^ shift)
      by (rewrite Z.pow_add_r by lia; change (2 ^ 7) with 128; lia).
    assert (H63 : 2 ^ (shift + 7) <= 2 ^ 63) by (apply Z.pow_le_mono_r; lia).
    rewrite Hacc by lia. rewrite Hwrap by nia.
    rewrite (IH v (shift + 7) _ (i + 1) r Hv) by nia.
    cbn [varint_value]. rewrite len_cons. rewrite Hp.
    do 2 f_equal; [f_equal; lia | f_equal; lia].
Qed.

Lemma varint_wire_uint64 v j r :
  is_varint v ->
  varint or_uint64 (Cursor j (v ++ r)) = Ok (uint64 (varint_value v), Cursor (j + len v) r).
Proof.
  intros Hv. unfold varint. cbn [iNdEx rest].
  rewrite (read_varint_wire or_uint64 uint64 or_uint64_sum
             ltac:(intros; apply uint64_small; lia) 10 v 0 0 j r Hv) by lia.
  do 2 f_equal. f_equal. change (2 ^ 0) with 1. lia.
Qed.

Lemma varint_wire_int v j r :
  is_varint v ->
  varint or_int (Cursor j (v ++ r)) = Ok (int (varint_value v), Cursor (j + len v) r).
Proof.
  intros Hv. unfold varint. cbn [iNdEx rest].
  rewrite (read_varint_wire or_int int or_int_sum
             ltac:(intros; apply int_small; lia) 10 v 0 0 j r Hv) by lia.
  do 2 f_equal. f_equal. change (2 ^ 0) with 1. lia.
Qed.

(** The bytes a varint loop has read are a varint. *)
Lemma read_varint_parse acc bs : forall n shift a i x c',
  read_varint acc shift a i bs = Ok (x, c') ->
  0 <= shift -> 64 <= shift + 7 * Z.of_nat n ->
  exists v, bs = v ++ rest c' /\ iNdEx c' = i + len v /\ is_varint_upto n v = true.
Proof.
  induction bs as [ | b bs IH]; intros n shift a i x c' H Hs Hn.
  - rewrite read_varint_nil in H. destruct (64 <=? shift); discriminate.
  - rewrite read_varint_cons in H.
    destruct (64 <=? shift) eqn:E64; [discriminate | ]. apply Z.leb_gt in E64.
    destruct n as [ | n]; [lia | ].
    destruct (byte_val b <? 128) eqn:Eb.
    + injection H as <- <-. exists [b]. cbn [rest iNdEx app is_varint_upto].
      rewrite Eb, len_cons, len_nil. repeat split. 
    + destruct (IH n _ _ _ _ _ H ltac:(lia) ltac:(lia)) as [v [Hbs [Hi Hv]]].
      exists (b :: v). cbn [app is_varint_upto]. rewrite Eb, len_cons.
      repeat split; [now f_equal | lia | assumption].
Qed.

Lemma varint_parse acc j bs x c' :
  varint acc (Cursor j bs) = Ok (x, c') ->
  exists v, bs = v ++ rest c' /\ iNdEx c' = j + len v /\ is_varint v.
Proof.
  intros H. unfold varint in H. cbn [iNdEx rest] in H.
  exact (read_varint_parse acc bs 10 0 0 j x c' H (Z.le_refl 0) ltac:(lia)).
Qed.

Lemma varint_parse_uint64 j bs wire c' :
  varint or_uint64 (Cursor j bs) = Ok (wire, c') ->
  exists t, bs = t ++ rest c' /\ iNdEx c' = j + len t /\ is_tag t wire.
Proof.
  intros H. destruct (varint_parse _ _ _ _ _ H) as [t [Hbs [Hi Ht]]].
  exists t. repeat split; try assumption.
  rewrite Hbs in H. rewrite varint_wire_uint64 in H by assumption. congruence.
Qed.

Lemma varint_parse_int j bs n c' :
  varint or_int (Cursor j bs) = Ok (n, c') ->
  exists v, bs = v ++ rest c' /\ iNdEx c' = j + len v /\ is_varint v
            /\ n = int (varint_value v).
Proof.
  intros H. destruct (varint_parse _ _ _ _ _ H) as [v [Hbs [Hi Hv]]].
  exists v. repeat split; try assumption.
  rewrite Hbs in H. rewrite varint_wire_int in H by assumption. congruence.
Qed.

Lemma is_tag_nonempty t wire : is_tag t wire -> 0 < len t.
Proof.
  intros [Ht _]. apply is_varint_upto_nonempty in Ht.
  destruct t; [contradiction | rewrite len_cons; pose proof (len_nonneg t); lia].
Qed.

Lemma is_varint_nonempty v : is_varint v -> 0 < len v.
Proof.
  intros Ht. apply is_varint_upto_nonempty in Ht.
  destruct v; [contradiction | rewrite len_cons; pose proof (len_nonneg v); lia].
Qed.

Lemma wire_type_int wire : int (Z.land wire 7) = Z.land wire 7.
Proof.
  apply int_small. change 7 with (Z.ones 3). rewrite (Z.land_ones wire 3) by lia.
  pose proof (Z.mod_pos_bound wire (2 ^ 3) ltac:(lia)).
  change (2 ^ 3) with 8 in *. lia.
Qed.

(** A length that is the length of a payload, as [uint64] and as [int]. *)
Lemma length_of_payload x n :
  0 <= n < 2 ^ 63 -> (uint64 x = n <-> int x = n).
Proof.
  intros Hn. unfold uint64, int.
  pose proof (Z.div_mod x (2 ^ 64) ltac:(lia)) as Hd.
  pose proof (Z.mod_pos_bound x (2 ^ 64) ltac:(lia)) as Hm.
  split; intros H.
  - replace (x + 2 ^ 63) with (n + 2 ^ 63 + (x / 2 ^ 64) * 2 ^ 64) by lia.
    rewrite Z_mod_plus_full. rewrite Z.mod_small by lia. lia.
  - pose proof (Z.div_mod (x + 2 ^ 63) (2 ^ 64) ltac:(lia)) as Hd'.
    pose proof (Z.mod_pos_bound (x + 2 ^ 63) (2 ^ 64) ltac:(lia)) as Hm'.
    assert (Hx : x = n + ((x + 2 ^ 63) / 2 ^ 64) * 2 ^ 64) by lia.
    rewrite Hx at 1. rewrite Z_mod_plus_full. apply Z.mod_small. lia.
Qed.

(** ** The bytes [skipCommon] steps over are a field of the wire format *)

Lemma take_add {A} a b (l : list A) :
  0 <= a <= len l -> 0 <= b -> take (a + b) l = take a l ++ take b (drop a l).
Proof.
  intros Ha Hb. rewrite <- (take_drop a l) at 1.
  rewrite take_app_r by (rewrite len_take by lia; lia).
  rewrite len_take by lia. do 2 f_equal. lia.
Qed.

(** The [switch wireType] on a field that is no group. *)
Lemma skip_value_parse wt depth j bs c' d' :
  0 <= j -> j + len bs < 2 ^ 63 ->
  skip_value wt depth (Cursor j bs) = Ok (c', d') -> 0 <= iNdEx c' ->
  wt <> 3 -> wt <> 4 ->
  d' = depth /\ j <= iNdEx c' /\ rest c' = drop (iNdEx c' - j) bs
  /\ (iNdEx c' - j <= len bs -> is_value wt (take (iNdEx c' - j) bs)).
Proof.
  intros Hj Hb H Hpos H3 H4. pose proof (len_nonneg bs) as Hbs.
  destruct (skip_value_cases wt) as [-> | [-> | [-> | [-> | [-> | [-> | Hbad]]]]]];
    [ | | | contradiction | contradiction | | rewrite Hbad in H; discriminate ];
    cbn [skip_value iNdEx rest] in H.
  - inv_bind H. destruct x as [x0 c1]. injection H as <- <-.
    destruct (varint_parse _ _ _ _ _ Hx) as [v [Hbs' [Hi Hv]]].
    pose proof (len_nonneg v). rewrite Hi.
    replace (j + len v - j) with (len v) by lia.
    rewrite Hbs'. rewrite drop_app_len, take_app_len.
    split; [reflexivity | split; [lia | split; [reflexivity | intros _; exact Hv]]].
  - injection H as <- <-. cbn [iNdEx rest] in *.
    assert (He : int (j + 8) = j + 8) by (apply int_add_exact; lia).
    rewrite He. replace (j + 8 - j) with 8 by lia.
    split; [reflexivity | split; [lia | split; [reflexivity | ]]].
    intros H8. cbn [is_value]. apply len_take. lia.
  - inv_bind H. destruct x as [n c1].
    destruct (varint_parse_int _ _ _ _ Hx) as [v [Hbs' [Hi [Hv Hn]]]].
    pose proof (int_range (varint_value v)) as Hr. rewrite <- Hn in Hr.
    pose proof (len_nonneg v) as Hlv. pose proof (len_nonneg (rest c1)) as Hl1.
    assert (Hlen : len bs = len v + len (rest c1)) by (rewrite Hbs' at 1; apply len_app).
    destruct (n <? 0) eqn:En; [discriminate | ]. apply Z.ltb_ge in En.
    injection H as <- <-. cbn [iNdEx rest] in *.
    rewrite Hi in *.
    assert (He : int (j + len v + n) = j + len v + n) by (apply int_add_exact; lia).
    rewrite He. replace (j + len v + n - j) with (len v + n) by lia.
    split; [reflexivity | split; [lia | split]].
    + rewrite Hbs'. rewrite <- (drop_drop n (len v)) by lia.
      now rewrite drop_app_len.
    + intros Hin. cbn [is_value].
      exists v, (take n (rest c1)). repeat split; try assumption.
      * rewrite Hbs'. rewrite take_app_r by lia. do 2 f_equal. lia.
      * rewrite len_take by lia. apply length_of_payload; [lia | now symmetry].
  - injection H as <- <-. cbn [iNdEx rest] in *.
    assert (He : int (j + 4) = j + 4) by (apply int_add_exact; lia).
    rewrite He. replace (j + 4 - j) with 4 by lia.
    split; [reflexivity | split; [lia | split; [reflexivity | ]]].
    intros H8. cbn [is_value]. apply len_take. lia.
Qed.

Lemma wire_field_of_value wire t v :
  is_tag t wire -> Z.land wire 7 <> 3 -> is_value (Z.land wire 7) v ->
  wire_field wire (t ++ v).
Proof.
  intros Ht H3 Hv. pose proof (wire_type_int wire) as Hw.
  pose proof (int_range (Z.land wire 7)) as Hr. rewrite Hw in Hr.
  destruct (skip_value_cases (Z.land wire 7))
    as [E | [E | [E | [E | [E | [E | Hbad]]]]]]; try rewrite E in Hv;
    cbn [is_value] in Hv; try contradiction.
  - now apply wire_field_varint.
  - now apply wire_field_fixed64.
  - destruct Hv as [n [s [-> [Hn Hs]]]]. now apply wire_field_bytes.
  - now apply wire_field_fixed32.
  - specialize (Hbad 0 (Cursor 0 [])).
    destruct (Z.land wire 7) as [ | [[[ | | ] | [ | | ] | ] | [[ | | ] | [ | | ] | ] | ] | ];
      cbn [is_value] in Hv; try contradiction; cbn in Hbad; discriminate.
Qed.

Lemma wire_fields_app u v : wire_fields u -> wire_fields v -> wire_fields (u ++ v).
Proof.
  induction 1 as [ | wire f u Hf Hu IH]; intros Hv; [assumption | ].
  rewrite <- app_assoc. eapply wire_fields_cons; eauto.
Qed.

Lemma wire_fields_one wire f : wire_field wire f -> wire_fields f.
Proof.
  intros H. rewrite <- (app_nil_r f). eapply wire_fields_cons; [eassumption | constructor].
Qed.

Lemma closes_groups_field wire f d x :
  wire_field wire f -> closes_groups (S d) x -> closes_groups (S d) (f ++ x).
Proof.
  intros Hf [u [we [e [x' [-> [Hu [He [H4 Hx]]]]]]]].
  exists (f ++ u), we, e, x'.
  split; [now rewrite <- app_assoc | ].
  split; [eapply wire_fields_cons; eassumption | ].
  split; [assumption | split; assumption].
Qed.

Lemma skipCommon_loop_parse fuel : forall depth j bs n,
  0 <= depth -> 0 <= j -> j + len bs < 2 ^ 63 ->
  skipCommon_loop fuel depth (Cursor j bs) = Ok n -> n <= j + len bs ->
  (depth = 0 -> exists wire, wire_field wire (take (n - j) bs))
  /\ (0 < depth -> closes_groups (Z.to_nat depth) (take (n - j) bs)).
Proof.
  induction fuel as [ | fuel IH]; intros depth j bs n Hd Hj Hb H Hn.
  { destruct bs; cbn in H; discriminate. }
  destruct bs as [ | b0 bs0]; [cbn in H; discriminate | ].
  rewrite skipCommon_loop_step in H. set (bs := b0 :: bs0) in *.
  inv_bind H. destruct x as [wire [j1 r1]].
  destruct (varint_parse_uint64 _ _ _ _ Hx) as [t [Hbs [Hi Ht]]].
  cbn [iNdEx rest] in Hbs, Hi. subst j1.
  pose proof (is_tag_nonempty _ _ Ht) as Hlt.
  pose proof (len_nonneg r1) as Hlr.
  assert (Hlen : len bs = len t + len r1) by (rewrite Hbs; apply len_app).
  inv_bind H. destruct x as [[j2 r2] e2]. rewrite wire_type_int in Hx0.
  cbn [iNdEx] in H.
  destruct (j2 <? 0) eqn:E2; [discriminate | ]. apply Z.ltb_ge in E2.
  assert (Hb1 : j + len t + len r1 < 2 ^ 63) by lia.
  assert (Hj1 : 0 <= j + len t) by lia.
  destruct (Z.eq_dec (Z.land wire 7) 3) as [W3 | W3];
    [ | destruct (Z.eq_dec (Z.land wire 7) 4) as [W4 | W4]].
  - (* the start of a group *)
    rewrite W3 in Hx0. cbn [skip_value] in Hx0. injection Hx0 as <- <- <-.
    destruct (depth + 1 =? 0) eqn:E0; [apply Z.eqb_eq in E0; lia | ].
    pose proof (skipCommon_loop_range _ _ _ _ _ Hj1 Hb1 H) as Hr.
    destruct (IH (depth + 1) (j + len t) r1 n ltac:(lia) ltac:(lia) Hb1 H ltac:(lia))
      as [_ IH1].
    specialize (IH1 ltac:(lia)).
    replace (Z.to_nat (depth + 1)) with (S (Z.to_nat depth)) in IH1 by lia.
    destruct IH1 as [u [we [e [x' [Hx' [Hu [He [H4 Hc]]]]]]]].
    assert (Htake : take (n - j) bs = t ++ u ++ e ++ x').
    { rewrite Hbs. rewrite take_app_r by lia. rewrite <- Hx'. do 2 f_equal. lia. }
    rewrite Htake. split.
    + intros ->. cbn [Z.to_nat closes_groups] in Hc. subst x'. rewrite app_nil_r.
      exists wire. eapply wire_field_group; eassumption.
    + intros Hpos. destruct (Z.to_nat depth) as [ | d'] eqn:Ed; [lia | ].
      replace (t ++ u ++ e ++ x') with ((t ++ u ++ e) ++ x')
        by (now rewrite <- !app_assoc).
      eapply closes_groups_field; [ | exact Hc].
      eapply wire_field_group; eassumption.
  - (* the end of a group *)
    rewrite W4 in Hx0. cbn [skip_value] in Hx0.
    destruct (depth =? 0) eqn:E0; [discriminate | ]. apply Z.eqb_neq in E0.
    injection Hx0 as <- <- <-.
    split; [intros ->; contradiction | intros _].
    replace (Z.to_nat depth) with (S (Z.to_nat (depth - 1))) by lia.
    destruct (depth - 1 =? 0) eqn:E1.
    + apply Z.eqb_eq in E1. injection H as <-.
      replace (Z.to_nat (depth - 1)) with O by lia.
      exists [], wire, t, []. cbn [closes_groups app].
      split; [ | split; [constructor | split; [assumption | split; [assumption | reflexivity]]]].
      rewrite app_nil_r, Hbs. replace (j + len t - j) with (len t) by lia.
      apply take_app_len.
    + apply Z.eqb_neq in E1.
      pose proof (skipCommon_loop_range _ _ _ _ _ Hj1 Hb1 H) as Hr.
      destruct (IH (depth - 1) (j + len t) r1 n ltac:(lia) ltac:(lia) Hb1 H ltac:(lia))
        as [_ IH1].
      specialize (IH1 ltac:(lia)).
      exists [], wire, t, (take (n - (j + len t)) r1). cbn [app].
      split; [ | split; [constructor | split; [assumption | split; assumption]]].
      rewrite Hbs. rewrite take_app_r by lia. do 2 f_equal. lia.
  - (* a field that is no group *)
    destruct (skip_value_parse _ _ _ _ _ _ Hj1 Hb1 Hx0 E2 W3 W4)
      as [-> [Hj2 [Hr2 Hval]]].
    cbn [iNdEx rest] in Hj2, Hr2, Hval.
    destruct (depth =? 0) eqn:E0.
    + apply Z.eqb_eq in E0. injection H as <-.
      split; [intros _ | lia].
      exists wire. rewrite Hbs. rewrite take_app_r by lia.
      apply wire_field_of_value; try assumption.
      replace (j2 - j - len t) with (j2 - (j + len t)) by lia. apply Hval. lia.
    + apply Z.eqb_neq in E0.
      split; [intros ->; contradiction | intros Hpos].
      assert (Hne : r2 <> []).
      { intros ->. rewrite skipCommon_loop_nil in H. discriminate. }
      assert (Hin : j2 - (j + len t) < len r1).
      { destruct (Z_lt_dec (j2 - (j + len t)) (len r1)) as [Hlt2 | Hge]; [assumption | ].
        rewrite drop_all in Hr2 by lia. contradiction. }
      assert (Hl2 : len r2 = len r1 - (j2 - (j + len t)))
        by (rewrite Hr2; apply len_drop; lia).
      assert (Hb2 : j2 + len r2 < 2 ^ 63) by lia.
      pose proof (skipCommon_loop_range _ _ _ _ _ E2 Hb2 H) as Hr.
      destruct (IH depth j2 r2 n Hd E2 ltac:(lia) H ltac:(lia)) as [_ IH1].
      specialize (IH1 Hpos).
      destruct (Z.to_nat depth) as [ | d'] eqn:Ed; [lia | ].
      assert (Htake : take (n - j) bs
                      = (t ++ take (j2 - (j + len t)) r1) ++ take (n - j2) r2).
      { rewrite Hbs. rewrite take_app_r by lia. rewrite <- app_assoc. f_equal.
        rewrite Hr2. rewrite <- take_add by lia. f_equal. lia. }
      rewrite Htake.
      apply (closes_groups_field wire); [ | exact IH1].
      apply wire_field_of_value; try assumption. apply Hval. lia.
Qed.

Lemma skipCommon_parse f :
  len f < 2 ^ 63 -> skipCommon f = Ok (len f) -> exists wire, wire_field wire f.
Proof.
  intros Hb H. unfold skipCommon in H.
  destruct (skipCommon_loop_parse _ 0 0 f (len f) (Z.le_refl 0) (Z.le_refl 0)
              ltac:(lia) H ltac:(lia)) as [H0 _].
  rewrite Z.sub_0_r, take_all in H0 by lia. now apply H0.
Qed.

(** ** [skipCommon] steps over a field of the wire format *)

Lemma read_varint_wire_skip acc n : forall v shift a i r,
  is_varint_upto n v = true -> shift + 7 * Z.of_nat n <= 70 ->
  exists x, read_varint acc shift a i (v ++ r) = Ok (x, Cursor (i + len v) r).
Proof.
  induction n as [ | n IH]; intros v shift a i r Hv Hn; [destruct v; discriminate | ].
  destruct v as [ | b v]; [discriminate | ].
  cbn [is_varint_upto] in Hv. cbn [app]. rewrite read_varint_cons.
  destruct (64 <=? shift) eqn:E64; [apply Z.leb_le in E64; lia | ].
  destruct (byte_val b <? 128) eqn:Eb.
  - destruct v as [ | b' v]; [ | discriminate].
    eexists. cbn [app]. change (len [b]) with 1. reflexivity.
  - destruct (IH v (shift + 7) (acc a b shift) (i + 1) r Hv ltac:(lia)) as [x Hx].
    exists x. rewrite Hx, len_cons. do 2 f_equal. f_equal. lia.
Qed.

Lemma wire_field_tag wire f :
  wire_field wire f -> exists t r, f = t ++ r /\ is_tag t wire.
Proof. destruct 1; eauto. Qed.

Lemma wire_field_reads_tag wire f j x :
  wire_field wire f -> exists c, varint or_uint64 (Cursor j (f ++ x)) = Ok (wire, c).
Proof.
  intros Hf. destruct (wire_field_tag _ _ Hf) as [t [r [-> [Ht ->]]]].
  rewrite <- app_assoc, varint_wire_uint64 by assumption. eauto.
Qed.

Lemma wire_field_type wire f :
  wire_field wire f -> Z.land wire 7 <> 4 /\ Z.land wire 7 <> 6 /\ Z.land wire 7 <> 7.
Proof. destruct 1; lia. Qed.

Lemma wire_field_nonempty wire f : wire_field wire f -> 0 < len f.
Proof.
  intros Hf. destruct (wire_field_tag _ _ Hf) as [t [r [-> Ht]]].
  apply is_tag_nonempty in Ht. rewrite len_app. pose proof (len_nonneg r). lia.
Qed.

(** A field that is no group. *)
Lemma skipCommon_value wire t v :
  is_tag t wire -> is_value (Z.land wire 7) v -> len (t ++ v) < 2 ^ 63 ->
  skipCommon (t ++ v) = Ok (len (t ++ v)).
Proof.
  intros Ht Hv Hb. pose proof (is_tag_nonempty _ _ Ht) as Hlt.
  pose proof (len_nonneg v) as Hlv. rewrite len_app in *.
  destruct Ht as [Ht ->].
  rewrite (skipCommon_first _ _ _ (varint_wire_uint64 t 0 v Ht)).
  rewrite wire_type_int. rewrite Z.add_0_l.
  destruct (skip_value_cases (Z.land (uint64 (varint_value t)) 7))
    as [E | [E | [E | [E | [E | [E | Hbad]]]]]]; try rewrite E in *;
    cbn [is_value] in Hv; try contradiction; cbn [skip_value iNdEx rest].
  - unfold varint. cbn [iNdEx rest].
    destruct (read_varint_wire_skip (fun v _ _ => v) 10 v 0 0 (len t) []
                Hv ltac:(lia)) as [x Hx].
    rewrite app_nil_r in Hx. rewrite Hx. cbn [bind iNdEx].
    destruct (len t + len v <? 0) eqn:E0; [apply Z.ltb_lt in E0; lia | reflexivity].
  - cbn [bind iNdEx]. rewrite int_small by lia.
    destruct (len t + 8 <? 0) eqn:E0; [apply Z.ltb_lt in E0; lia | ].
    change (0 =? 0) with true. cbv iota. f_equal. lia.
  - destruct Hv as [n [s [-> [Hn Hs]]]].
    pose proof (len_nonneg s) as Hls. pose proof (len_nonneg n) as Hln.
    rewrite len_app in *.
    rewrite varint_wire_int by assumption. cbn [bind iNdEx rest].
    apply length_of_payload in Hs; [ | lia]. rewrite Hs.
    destruct (len s <? 0) eqn:E1; [apply Z.ltb_lt in E1; lia | ].
    cbn [bind iNdEx]. rewrite int_small by lia.
    destruct (len t + len n + len s <? 0) eqn:E0; [apply Z.ltb_lt in E0; lia | ].
    change (0 =? 0) with true. cbv iota. f_equal. lia.
  - cbn [bind iNdEx]. rewrite int_small by lia.
    destruct (len t + 4 <? 0) eqn:E0; [apply Z.ltb_lt in E0; lia | ].
    change (0 =? 0) with true. cbv iota. f_equal. lia.
  - specialize (Hbad 0 (Cursor 0 [])).
    destruct (Z.land (uint64 (varint_value t)) 7)
      as [ | [[[ | | ] | [ | | ] | ] | [[ | | ] | [ | | ] | ] | ] | ];
      cbn [is_value] in Hv; try contradiction; cbn in Hbad; discriminate.
Qed.

(** A group: its tag, fields and an end-group tag. *)
Lemma skipCommon_group sg ws eg we u :
  is_tag sg ws -> Z.land ws 7 = 3 -> is_tag eg we -> Z.land we 7 = 4 ->
  skipped_fields u -> len (sg ++ u ++ eg) < 2 ^ 63 ->
  skipCommon (sg ++ u ++ eg) = Ok (len (sg ++ u ++ eg)).
Proof.
  intros Hs Hs3 He He4 Hu Hb.
  pose proof (is_tag_nonempty _ _ Hs) as Hsg. pose proof (is_tag_nonempty _ _ He) as Heg.
  pose proof (len_nonneg u) as Hlu. rewrite !len_app in *.
  destruct Hs as [Hs ->]. destruct He as [He ->].
  rewrite (skipCommon_first _ _ _ (varint_wire_uint64 sg 0 (u ++ eg) Hs)).
  rewrite wire_type_int, Hs3, Z.add_0_l. cbn [skip_value bind iNdEx].
  destruct (len sg <? 0) eqn:E0; [apply Z.ltb_lt in E0; lia | ].
  change (0 + 1 =? 0) with false. cbv iota. change (0 + 1) with 1.
  assert (Hfuel0 : (List.length (u ++ eg) <= List.length (sg ++ u ++ eg) - 1)%nat).
  { rewrite !length_app. unfold len in Hsg. lia. }
  assert (Hb1 : len sg + len (u ++ eg) < 2 ^ 63) by (rewrite len_app; lia).
  destruct (skipCommon_loop_fields u Hu 1 (len sg) eg
              (List.length (sg ++ u ++ eg) - 1) ltac:(lia) ltac:(lia) Hb1 Hfuel0)
    as [fuel [Hfuel ->]].
  destruct fuel as [ | fuel]; [unfold len in Heg; lia | ].
  rewrite skipCommon_loop_unfold
    by (cbn [rest]; destruct eg; [cbn in Heg; lia | discriminate]).
  rewrite <- (app_nil_r eg) at 1. rewrite varint_wire_uint64 by assumption.
  cbn [bind]. rewrite wire_type_int, He4. cbn [skip_value].
  change (1 =? 0) with false. cbv iota. cbn [bind iNdEx].
  destruct (len sg + len u + len eg <? 0) eqn:E1; [apply Z.ltb_lt in E1; lia | ].
  change (1 - 1 =? 0) with true. cbv iota. f_equal. lia.
Qed.

Lemma wire_format_skipCommon :
  (forall wire f, wire_field wire f -> len f < 2 ^ 63 -> skipCommon f = Ok (len f))
  /\ (forall u, wire_fields u -> len u < 2 ^ 63 -> skipped_fields u).
Proof.
  apply wire_format_mutual.
  - intros wire t v Ht H0 Hv Hb. apply (skipCommon_value wire); [assumption | | assumption].
    rewrite H0. exact Hv.
  - intros wire t v Ht H1 Hv Hb. apply (skipCommon_value wire); [assumption | | assumption].
    rewrite H1. exact Hv.
  - intros wire t n s Ht H2 Hn Hs Hb.
    apply (skipCommon_value wire); [assumption | | assumption].
    rewrite H2. cbn [is_value]. eauto.
  - intros wire t u we e Ht H3 Hu IH He H4 Hb.
    apply (skipCommon_group t wire e we); try assumption.
    apply IH. rewrite !len_app in Hb.
    pose proof (len_nonneg t). pose proof (len_nonneg e). lia.
  - intros wire t v Ht H5 Hv Hb. apply (skipCommon_value wire); [assumption | | assumption].
    rewrite H5. exact Hv.
  - intros _. constructor.
  - intros wire f u Hf IHf Hu IHu Hb. rewrite len_app in Hb.
    pose proof (len_nonneg f). pose proof (len_nonneg u).
    apply skipped_fields_cons; [apply IHf | apply IHu]; lia.
Qed.

Lemma wire_field_skipCommon wire f r :
  wire_field wire f -> len f < 2 ^ 63 -> skipCommon (f ++ r) = Ok (len f).
Proof.
  intros Hf Hb. apply skipCommon_app. now apply (proj1 wire_format_skipCommon wire).
Qed.

(** The fields the [default:] arm takes are the fields of the wire format
    with a number the schema does not know. *)
Lemma is_unknown_field_wire known f :
  len f < 2 ^ 63 -> (is_unknown_field known f = true <-> unknown_wire_field known f).
Proof.
  intros Hb. split.
  - intros H. apply is_unknown_field_inv in H.
    destruct H as [wire [c [Hv [H4 [H0 [Hk Hs]]]]]].
    destruct (skipCommon_parse f Hb Hs) as [wire' Hf].
    destruct (wire_field_reads_tag wire' f 0 [] Hf) as [c' Hv'].
    rewrite app_nil_r, Hv in Hv'. injection Hv' as <- _.
    exists wire. auto.
  - intros [wire [Hf [H0 Hk]]].
    destruct (wire_field_reads_tag wire f 0 [] Hf) as [c' Hv'].
    rewrite app_nil_r in Hv'.
    pose proof (wire_field_skipCommon wire f [] Hf Hb) as Hs. rewrite app_nil_r in Hs.
    destruct (wire_field_type _ _ Hf) as [H4 _].
    unfold is_unknown_field. rewrite Hv', Hs. cbv zeta.
    rewrite wire_type_int, Hk, Z.eqb_refl.
    destruct (Z.land wire 7 =? 4) eqn:E4; [apply Z.eqb_eq in E4; contradiction | ].
    destruct (0 <? int32 (Z.shiftr wire 3)) eqn:E0; [reflexivity | apply Z.ltb_ge in E0; lia].
Qed.

(** ** One iteration of an [Unmarshal] loop, on a field of the wire format *)

Lemma int_uint64 x : int (uint64 x) = int x.
Proof.
  apply int_congruent. unfold uint64.
  pose proof (Z.div_mod x (2 ^ 64) ltac:(lia)) as Hd.
  replace (x mod 2 ^ 64 - x) with (- (x / 2 ^ 64) * 2 ^ 64) by lia.
  apply Z_mod_mult.
Qed.

(** A length prefix that is the length of [s], read by either kind of
    length loop. *)
Lemma read_length_wire k n (s : list byte) j r :
  is_varint n -> uint64 (varint_value n) = len s -> len s < 2 ^ 63 ->
  read_length k (Cursor j (n ++ r)) = Ok (len s, Cursor (j + len n) r).
Proof.
  intros Hn Hs Hb. pose proof (len_nonneg s) as Hls.
  pose proof (proj1 (length_of_payload (varint_value n) (len s) ltac:(lia)) Hs) as Hi.
  destruct k; cbn [read_length]; unfold read_msglen, read_stringLen.
  - rewrite varint_wire_int by assumption. now rewrite Hi.
  - rewrite varint_wire_uint64 by assumption. cbn [bind].
    now rewrite int_uint64, Hi.
Qed.

Lemma read_length_parse k j bs ln c' :
  read_length k (Cursor j bs) = Ok (ln, c') ->
  exists n, bs = n ++ rest c' /\ iNdEx c' = j + len n /\ is_varint n
            /\ ln = int (varint_value n).
Proof.
  intros H. destruct k; cbn [read_length] in H; unfold read_msglen, read_stringLen in H.
  - now apply varint_parse_int.
  - inv_bind H. destruct x as [sl c2]. injection H as <- <-.
    destruct (varint_parse_uint64 _ _ _ _ Hx) as [n [Hbs [Hi [Hn ->]]]].
    exists n. rewrite int_uint64. auto.
Qed.

Lemma read_tag_wire msg t wire j bs :
  is_tag t wire -> Z.land wire 7 <> 4 -> 0 < int32 (Z.shiftr wire 3) ->
  read_tag msg (Cursor j (t ++ bs))
  = Ok (int32 (Z.shiftr wire 3), Z.land wire 7, Cursor (j + len t) bs).
Proof.
  intros [Ht ->] H4 H0. rewrite <- (wire_type_int (uint64 (varint_value t))) at 1.
  apply read_tag_intro; [now apply varint_wire_uint64 | now rewrite wire_type_int | assumption].
Qed.

Section WireField.

Context {M : Type} (msg : string) (arms : Z -> option (field_arm M))
  (add : M -> list byte -> M).

Local Abbreviation step := (generic_field msg arms add).

(** A [case] arm on a length-delimited field of the schema, whatever the
    encoding of its tag and of its length. *)
Lemma generic_field_known_wire m j wire t n s arm r :
  is_tag t wire -> Z.land wire 7 = 2 -> 0 < int32 (Z.shiftr wire 3) ->
  arms (int32 (Z.shiftr wire 3)) = Some arm ->
  is_varint n -> uint64 (varint_value n) = len s ->
  0 <= j -> j + len (t ++ n ++ s) + len r < 2 ^ 63 ->
  step (j + len (t ++ n ++ s) + len r) m (Cursor j ((t ++ n ++ s) ++ r))
  = (m' <- arm_store arm m s ;; Ok (m', Cursor (j + len (t ++ n ++ s)) r)).
Proof.
  intros Ht H2 H0 Harm Hn Hs Hj Hb.
  pose proof (len_nonneg s). pose proof (len_nonneg r). pose proof (len_nonneg t).
  pose proof (len_nonneg n). rewrite !len_app in *.
  unfold generic_field. rewrite <- !app_assoc.
  rewrite (read_tag_wire msg t wire) by (try assumption; lia).
  cbn [bind]. rewrite Harm, H2. change (negb (2 =? 2)) with false. cbv iota.
  rewrite (read_length_wire _ n s) by (try assumption; lia). cbn [bind].
  rewrite payload_exact by lia. cbn [bind].
  rewrite take_app_len, drop_app_len.
  destruct (arm_store arm m s); cbn [bind]; try reflexivity.
  do 2 f_equal. f_equal. lia.
Qed.

(** What a successful iteration has read: a length-delimited field of the
    schema, or one field the schema does not know. *)
Lemma generic_field_parse l m j bs m' c' :
  0 <= j -> j + len bs = l -> l < 2 ^ 63 ->
  step l m (Cursor j bs) = Ok (m', c') ->
  exists f,
    bs = f ++ rest c' /\ iNdEx c' = j + len f
    /\ ((exists wire t n s arm,
           f = t ++ n ++ s /\ is_tag t wire /\ Z.land wire 7 = 2
           /\ 0 < int32 (Z.shiftr wire 3)
           /\ arms (int32 (Z.shiftr wire 3)) = Some arm
           /\ is_varint n /\ uint64 (varint_value n) = len s
           /\ arm_store arm m s = Ok m')
        \/ (is_unknown_field (has_arm arms) f = true /\ m' = add m f)).
Proof.
  intros Hj Hl Hb H. pose proof (len_nonneg bs) as Hbs. unfold generic_field in H.
  inv_bind H. destruct x as [[fn wt] c1]. rename Hx into Htag.
  destruct (arms fn) as [arm | ] eqn:Harm.
  - destruct (wt =? 2) eqn:E2; [ | discriminate]. apply Z.eqb_eq in E2. subst wt.
    cbn [negb] in H.
    inv_bind H. destruct x as [ln c2]. inv_bind H. destruct x as [s c3].
    inv_bind H. injection H as <- <-.
    apply read_tag_inv in Htag. destruct Htag as [wire [Hv [-> [Hwt [H4 H0]]]]].
    rewrite wire_type_int in Hwt.
    destruct (varint_parse_uint64 _ _ _ _ Hv) as [t [Hbst [Hit Ht]]].
    destruct c1 as [j1 r1]. cbn [iNdEx rest] in Hbst, Hit.
    destruct (read_length_parse _ _ _ _ _ Hx) as [n [Hbsn [Hin [Hn Hln]]]].
    destruct c2 as [j2 r2]. cbn [iNdEx rest] in Hbsn, Hin.
    apply payload_inv in Hx0. destruct Hx0 as [Hln0 [Hp [-> ->]]].
    pose proof (len_nonneg t). pose proof (len_nonneg n). pose proof (len_nonneg r2).
    assert (Hlen : len bs = len t + len n + len r2)
      by (rewrite Hbst, Hbsn, !len_app; lia).
    pose proof (int_range (varint_value n)) as Hr. rewrite <- Hln in Hr.
    assert (He : int (j2 + ln) = j2 + ln) by (apply int_add_exact; lia).
    rewrite He in *. replace (j2 + ln - j2) with ln in * by lia.
    assert (Hls : len (take ln r2) = ln) by (apply len_take; lia).
    exists (t ++ n ++ take ln r2). cbn [iNdEx rest].
    split; [ | split].
    + rewrite Hbst, Hbsn, <- !app_assoc. now rewrite take_drop.
    + rewrite !len_app, Hls. lia.
    + left. exists wire, t, n, (take ln r2), arm.
      split; [reflexivity | ]. do 5 (split; [assumption || lia | ]).
      split; [ | assumption].
      rewrite Hls. apply length_of_payload; [lia | now symmetry].
  - inv_bind H. destruct x as [chunk c3]. injection H as <- <-.
    unfold skip_unknown in Hx. cbn [rest] in Hx. inv_bind Hx.
    pose proof (skipCommon_range bs x ltac:(lia) Hx0) as Hr.
    apply payload_inv in Hx. destruct Hx as [Hn0 [Hp [-> ->]]].
    assert (He : int (j + x) = j + x) by (apply int_add_exact; lia).
    rewrite He in *. replace (j + x - j) with x by lia.
    exists (take x bs). cbn [iNdEx rest].
    split; [now rewrite take_drop | split; [rewrite len_take by lia; lia | ]].
    right. split; [ | reflexivity].
    pose proof (skipCommon_take bs x ltac:(lia) Hx0) as Hs.
    destruct (skipCommon_Ok_tag _ _ Hs) as [wire' [c1' Hv']].
    apply read_tag_inv in Htag. destruct Htag as [wire [Hv [-> [-> [H4 H0]]]]].
    assert (wire' = wire) as ->.
    { unfold varint in *. cbn [iNdEx rest] in *.
      apply (read_varint_app _ _ _ _ _ _ _ (drop x bs)) in Hv'.
      rewrite take_drop in Hv'.
      apply (read_varint_shift _ _ _ _ _ _ _ 0) in Hv. rewrite Hv in Hv'.
      now injection Hv' as ->. }
    unfold is_unknown_field. rewrite Hv', Hs. cbv zeta.
    unfold has_arm. rewrite Harm. rewrite len_take by lia. rewrite Z.eqb_refl.
    destruct (int (Z.land wire 7) =? 4) eqn:E4; [apply Z.eqb_eq in E4; contradiction | ].
    destruct (0 <? int32 (Z.shiftr wire 3)) eqn:E0; [reflexivity | apply Z.ltb_ge in E0; lia].
Qed.

End WireField.

(** ** A decoder, field by field *)

Lemma unknown_wire_fields_app known u v :
  unknown_wire_fields known u -> unknown_wire_fields known v ->
  unknown_wire_fields known (u ++ v).
Proof.
  induction 1 as [ | f u Hf Hu IH]; intros Hv; [assumption | ].
  rewrite <- app_assoc. apply unknown_wire_fields_cons; auto.
Qed.

Lemma unknown_fields_wire known u :
  len u < 2 ^ 63 -> (unknown_fields known u <-> unknown_wire_fields known u).
Proof.
  intros Hb. split.
  - induction 1 as [ | f d Hf Hd IH]; [constructor | ].
    rewrite len_app in Hb. pose proof (len_nonneg f). pose proof (len_nonneg d).
    apply unknown_wire_fields_cons; [apply is_unknown_field_wire; [lia | assumption] | ].
    apply IH. lia.
  - induction 1 as [ | f d Hf Hd IH]; [constructor | ].
    rewrite len_app in Hb. pose proof (len_nonneg f). pose proof (len_nonneg d).
    apply unknown_fields_cons; [apply is_unknown_field_wire; [lia | assumption] | ].
    apply IH. lia.
Qed.

Section WireDecoder.

Context {M : Type} (msg : string) (arms : Z -> option (field_arm M))
  (add : M -> list byte -> M)
  (field : Z -> M -> cursor -> outcome (M * cursor))
  (Unmarshal : M -> list byte -> outcome M).
Hypothesis field_generic : forall l m c, field l m c = generic_field msg arms add l m c.
Hypothesis Unmarshal_loop :
  forall m d, Unmarshal m d = unmarshal_loop field (List.length d) (len d) m (Cursor 0 d).
Hypothesis add_nil : forall m, add m [] = m.
Hypothesis add_app : forall m a b, add (add m a) b = add m (a ++ b).

Local Abbreviation run_eq := (Unmarshal_run msg arms add field Unmarshal field_generic
                                Unmarshal_loop).
Local Abbreviation nil_eq := (decoder_nil msg arms add field Unmarshal field_generic
                                Unmarshal_loop).
Local Abbreviation sequence := (decoder_sequence msg arms add field Unmarshal field_generic
                                  Unmarshal_loop).

(** A field the schema does not know, alone. *)
Lemma decoder_unknown_first m f :
  unknown_wire_field (has_arm arms) f -> len f < 2 ^ 63 ->
  Unmarshal m f = Ok (add m f).
Proof.
  intros Hf Hb.
  pose proof (decoder_keeps_unknown_fields msg arms add field Unmarshal field_generic
                Unmarshal_loop add_nil add_app m [] m f (nil_eq m)) as H.
  apply H; [ | exact Hb].
  rewrite <- (app_nil_r f). apply unknown_fields_cons; [ | constructor].
  now apply is_unknown_field_wire.
Qed.

(** A field of the schema, alone. *)
Lemma decoder_known_first m wire t n s arm :
  is_tag t wire -> Z.land wire 7 = 2 -> 0 < int32 (Z.shiftr wire 3) ->
  arms (int32 (Z.shiftr wire 3)) = Some arm ->
  is_varint n -> uint64 (varint_value n) = len s ->
  len (t ++ n ++ s) < 2 ^ 63 ->
  Unmarshal m (t ++ n ++ s) = arm_store arm m s.
Proof.
  intros Ht H2 H0 Harm Hn Hs Hb. rewrite run_eq.
  set (f := t ++ n ++ s) in *.
  assert (Hf : 0 < len f).
  { unfold f. rewrite !len_app. pose proof (is_tag_nonempty _ _ Ht).
    pose proof (len_nonneg n). pose proof (len_nonneg s). lia. }
  destruct (List.length f) as [ | fuel] eqn:Ef; [unfold len in Hf; lia | ].
  rewrite (unmarshal_loop_S msg arms add) by lia.
  pose proof (generic_field_known_wire msg arms add m 0 wire t n s arm [] Ht H2 H0 Harm
                Hn Hs (Z.le_refl 0)) as Hk.
  fold f in Hk. rewrite app_nil_r in Hk. change (@len byte []) with 0 in Hk.
  rewrite !Z.add_0_l, Z.add_0_r in Hk. rewrite Hk by lia.
  destruct (arm_store arm m s); cbn [bind]; try reflexivity.
  apply (unmarshal_loop_done msg arms add).
Qed.

(** The first field of an input that decodes. *)
Lemma decoder_front m d m' :
  len d < 2 ^ 63 -> d <> [] -> Unmarshal m d = Ok m' ->
  exists f d' m1,
    d = f ++ d' /\ 0 < len f /\ Unmarshal m1 d' = Ok m'
    /\ ((exists wire t n s arm,
           f = t ++ n ++ s /\ is_tag t wire /\ Z.land wire 7 = 2
           /\ 0 < int32 (Z.shiftr wire 3)
           /\ arms (int32 (Z.shiftr wire 3)) = Some arm
           /\ is_varint n /\ uint64 (varint_value n) = len s
           /\ arm_store arm m s = Ok m1)
        \/ (unknown_wire_field (has_arm arms) f /\ m1 = add m f)).
Proof.
  intros Hb Hne H. rewrite run_eq in H.
  pose proof (len_nonneg d) as Hld.
  assert (Hpos : 0 < len d).
  { destruct d; [contradiction | rewrite len_cons; pose proof (len_nonneg d); lia]. }
  destruct (List.length d) as [ | fuel] eqn:Ef; [unfold len in Hpos; lia | ].
  rewrite (unmarshal_loop_S msg arms add) in H by lia.
  inv_bind H. destruct x as [m1 c1].
  destruct (generic_field_inv msg arms add _ _ _ _ _ _ (Z.le_refl 0) (Z.add_0_l _) Hb Hx)
    as [k [Hk Hc]].
  destruct (generic_field_parse msg arms add _ _ _ _ _ _ (Z.le_refl 0) (Z.add_0_l _) Hb Hx)
    as [f [Hd [Hi Hshape]]].
  subst c1. cbn [iNdEx rest] in Hd, Hi. rewrite Z.add_0_l in Hi.
  assert (Hlf : len f = k) by lia.
  assert (Hlen : len d = len f + len (drop k d)) by (rewrite Hd at 1; apply len_app).
  exists f, (drop k d), m1. split; [exact Hd | split; [lia | split]].
  - rewrite run_eq.
    assert (Hk0 : 0 <= k) by lia.
    assert (Hkl : k + len (drop k d) = len d) by lia.
    assert (Hb' : 0 + len (drop k d) < 2 ^ 63) by lia.
    pose proof (unmarshal_loop_shift msg arms add fuel (len d) m1 k (drop k d) m'
                  (len (drop k d)) 0 Hk0 Hkl Hb (Z.le_refl 0) (Z.add_0_l _)
                  ltac:(lia) H) as Hs.
    rewrite <- Hs.
    apply (unmarshal_loop_enough_fuel msg arms add); try lia.
    unfold len in *. lia.
  - destruct Hshape as [Hknown | [Hu ->]]; [left; exact Hknown | right].
    split; [ | reflexivity]. apply is_unknown_field_wire; [lia | assumption].
Qed.

(** Decoding an input is decoding its fields one after the other. *)
Lemma decodes_Unmarshal m d m' :
  decodes arms add m d m' -> len d < 2 ^ 63 -> Unmarshal m d = Ok m'.
Proof.
  induction 1 as [m | m wire t n s arm m1 d m' Ht H2 H0 Harm Hn Hs Hst Hd IH
                    | m f d m' Hf Hd IH]; intros Hb.
  - apply nil_eq.
  - replace (t ++ n ++ s ++ d) with ((t ++ n ++ s) ++ d) in *
      by (now rewrite <- !app_assoc).
    pose proof (len_nonneg (t ++ n ++ s)). pose proof (len_nonneg d).
    assert (Hb' : len ((t ++ n ++ s) ++ d) < 2 ^ 63) by exact Hb.
    rewrite len_app in Hb.
    apply (sequence m (t ++ n ++ s) m1 d m'); [ | exact Hb' | apply IH; lia].
    rewrite (decoder_known_first m wire t n s arm) by (try assumption; lia).
    exact Hst.
  - pose proof (len_nonneg f). pose proof (len_nonneg d).
    assert (Hb' : len (f ++ d) < 2 ^ 63) by exact Hb.
    rewrite len_app in Hb.
    apply (sequence m f (add m f) d m'); [ | exact Hb' | apply IH; lia].
    apply decoder_unknown_first; [assumption | lia].
Qed.

Lemma Unmarshal_decodes : forall (k : nat) m d m',
  (List.length d <= k)%nat -> len d < 2 ^ 63 ->
  Unmarshal m d = Ok m' -> decodes arms add m d m'.
Proof.
  induction k as [ | k IH]; intros m d m' Hk Hb H.
  - destruct d; [ | cbn in Hk; lia]. rewrite nil_eq in H. injection H as <-. constructor.
  - destruct d as [ | b d0] eqn:Ed.
    { rewrite nil_eq in H. injection H as <-. constructor. }
    rewrite <- Ed in *.
    destruct (decoder_front m d m' Hb ltac:(rewrite Ed; discriminate) H)
      as [f [d' [m1 [Hd [Hf [H' Hshape]]]]]].
    assert (Hlen : len d = len f + len d') by (rewrite Hd at 1; apply len_app).
    pose proof (len_nonneg d') as Hld'.
    assert (Hk' : (List.length d' <= k)%nat).
    { rewrite Ed in Hk. cbn [List.length] in Hk. rewrite Ed in Hlen.
      unfold len in *. cbn [List.length] in Hlen. lia. }
    pose proof (IH m1 d' m' Hk' ltac:(lia) H') as Hdec.
    rewrite Hd.
    destruct Hshape as [[wire [t [n [s [arm [-> [Ht [H2 [H0 [Harm [Hn [Hs Hst]]]]]]]]]]]]
                       | [Hu ->]].
    + rewrite <- !app_assoc. eapply decodes_known; eassumption.
    + now apply decodes_unknown.
Qed.

(** A run of fields the schema does not know, alone. *)
Lemma decoder_unknown_run m u :
  unknown_wire_fields (has_arm arms) u -> len u < 2 ^ 63 ->
  Unmarshal m u = Ok (add m u).
Proof.
  intros Hu Hb.
  apply (decoder_keeps_unknown_fields msg arms add field Unmarshal field_generic
           Unmarshal_loop add_nil add_app m [] m u (nil_eq m)); [ | exact Hb].
  now apply unknown_fields_wire.
Qed.

(** Behind any input that decodes, a run of fields the schema does not know
    is read to its last byte and added, whatever follows. *)
Lemma decoder_keeps_anywhere : keeps_unknown_fields_anywhere arms Unmarshal add.
Proof.
  intros m d1 m1 u H Hu Hb. pose proof (len_nonneg d1). pose proof (len_nonneg u).
  assert (Hb1 : len (d1 ++ u) < 2 ^ 63) by exact Hb. rewrite len_app in Hb.
  assert (Hrun : Unmarshal m (d1 ++ u) = Ok (add m1 u)).
  { apply (sequence m d1 m1 u); [assumption | exact Hb1 | ].
    apply decoder_unknown_run; [assumption | lia]. }
  split; [exact Hrun | ]. intros d2 m2 Hb2.
  rewrite app_assoc in *. now apply sequence.
Qed.

(** Behind any input that decodes, a field of the schema goes through its
    [case] arm, whatever the encoding of its tag and length and whatever
    follows. *)
Lemma decoder_known_anywhere m d1 m1 wire t n s arm m1' d2 m2 :
  Unmarshal m d1 = Ok m1 ->
  is_tag t wire -> Z.land wire 7 = 2 -> 0 < int32 (Z.shiftr wire 3) ->
  arms (int32 (Z.shiftr wire 3)) = Some arm ->
  is_varint n -> uint64 (varint_value n) = len s ->
  arm_store arm m1 s = Ok m1' ->
  len (d1 ++ (t ++ n ++ s) ++ d2) < 2 ^ 63 ->
  (Unmarshal m (d1 ++ (t ++ n ++ s) ++ d2) = Ok m2 <-> Unmarshal m1' d2 = Ok m2).
Proof.
  intros H Ht H2 H0 Harm Hn Hs Hst Hb.
  pose proof (len_nonneg d1). pose proof (len_nonneg (t ++ n ++ s)).
  pose proof (len_nonneg d2).
  assert (Hb' : len ((d1 ++ t ++ n ++ s) ++ d2) < 2 ^ 63) by (now rewrite <- app_assoc).
  rewrite !len_app in Hb.
  rewrite app_assoc. apply sequence; [ | exact Hb'].
  apply (sequence m d1 m1 (t ++ n ++ s)); [assumption | rewrite !len_app; lia | ].
  rewrite (decoder_known_first m1 wire t n s arm) by (try assumption; rewrite !len_app; lia).
  exact Hst.
Qed.

(** The last field of the schema in an input that decodes: the fields
    behind it are fields the schema does not know. *)
Lemma decodes_last_known m d m' :
  decodes arms add m d m' ->
  (unknown_wire_fields (has_arm arms) d /\ m' = add m d)
  \/ exists d1 m1 wire t n s arm m2 d2,
       d = d1 ++ (t ++ n ++ s) ++ d2 /\ decodes arms add m d1 m1
       /\ is_tag t wire /\ Z.land wire 7 = 2 /\ 0 < int32 (Z.shiftr wire 3)
       /\ arms (int32 (Z.shiftr wire 3)) = Some arm
       /\ is_varint n /\ uint64 (varint_value n) = len s
       /\ arm_store arm m1 s = Ok m2
       /\ unknown_wire_fields (has_arm arms) d2 /\ m' = add m2 d2.
Proof.
  induction 1 as [m | m wire t n s arm m1 d m' Ht H2 H0 Harm Hn Hs Hst Hd IH
                    | m f d m' Hf Hd IH].
  - left. split; [constructor | now rewrite add_nil].
  - right. destruct IH as [[Hu ->] | IH].
    + exists [], m, wire, t, n, s, arm, m1, d. cbn [app]. rewrite <- !app_assoc.
      split; [reflexivity | split; [constructor | ]].
      repeat (split; [assumption | ]). reflexivity.
    + destruct IH as [d1 [m1' [wire' [t' [n' [s' [arm' [m2 [d2 IH]]]]]]]]].
      destruct IH as [-> [Hd1 Hrest]].
      exists ((t ++ n ++ s) ++ d1), m1', wire', t', n', s', arm', m2, d2.
      split; [now rewrite <- !app_assoc | split; [ | exact Hrest]].
      rewrite <- !app_assoc. eapply decodes_known; eassumption.
  - destruct IH as [[Hu ->] | IH].
    + left. split; [now apply unknown_wire_fields_cons | apply add_app].
    + right. destruct IH as [d1 [m1' [wire' [t' [n' [s' [arm' [m2 [d2 IH]]]]]]]]].
      destruct IH as [-> [Hd1 Hrest]].
      exists (f ++ d1), m1', wire', t', n', s', arm', m2, d2.
      split; [now rewrite <- !app_assoc | split; [ | exact Hrest]].
      now apply decodes_unknown.
Qed.

End WireDecoder.

(** ** The fields of an input *)

Lemma wire_field_prefix_free w f d w' f' d' :
  wire_field w f -> wire_field w' f' -> f ++ d = f' ++ d' ->
  len f < 2 ^ 63 -> len f' < 2 ^ 63 ->
  f = f' /\ d = d' /\ w = w'.
Proof.
  intros Hf Hf' Heq Hb Hb'.
  pose proof (wire_field_skipCommon w f d Hf Hb) as Hs.
  pose proof (wire_field_skipCommon w' f' d' Hf' Hb') as Hs'.
  rewrite Heq, Hs' in Hs. injection Hs as Hlen.
  assert (f = f') as <-.
  { rewrite <- (take_app_len f d), Heq, <- Hlen. apply take_app_len. }
  apply app_inv_head in Heq. repeat split; [assumption | ].
  destruct (wire_field_reads_tag w f 0 [] Hf) as [c Hc].
  destruct (wire_field_reads_tag w' f 0 [] Hf') as [c' Hc'].
  rewrite Hc in Hc'. now injection Hc' as ->.
Qed.

Lemma input_fields_inv known x u :
  input_fields known x u ->
  (x = [] /\ u = [])
  \/ exists wire f d u0,
       x = f ++ d /\ wire_field wire f /\ input_fields known d u0
       /\ ((known (int32 (Z.shiftr wire 3)) = true /\ u = u0)
           \/ (known (int32 (Z.shiftr wire 3)) = false /\ u = f ++ u0)).
Proof.
  destruct 1 as [ | wire f d u Hf Hk Hd | wire f d u Hf Hk Hd]; [now left | | ];
    right; exists wire, f, d, u; auto 10.
Qed.

(** An input is a sequence of fields in one way only. *)
Lemma input_fields_unique known d u :
  input_fields known d u -> len d < 2 ^ 63 ->
  forall u', input_fields known d u' -> u = u'.
Proof.
  induction 1 as [ | wire f d u Hf Hk Hd IH | wire f d u Hf Hk Hd IH]; intros Hb u' H';
    apply input_fields_inv in H';
    destruct H' as [[Hx ->] | [wire' [f' [d' [u0 [Hx [Hf' [Hd' Hcase]]]]]]]].
  - reflexivity.
  - pose proof (wire_field_nonempty _ _ Hf'). symmetry in Hx.
    apply app_eq_nil in Hx. destruct Hx as [-> _]. cbn in *. lia.
  - pose proof (wire_field_nonempty _ _ Hf).
    apply app_eq_nil in Hx. destruct Hx as [-> _]. cbn in *. lia.
  - pose proof (len_nonneg f). pose proof (len_nonneg d).
    pose proof (len_nonneg f'). pose proof (len_nonneg d').
    assert (Hb' : len (f' ++ d') < 2 ^ 63) by (now rewrite <- Hx).
    rewrite len_app in Hb, Hb'.
    destruct (wire_field_prefix_free _ _ _ _ _ _ Hf Hf' Hx ltac:(lia) ltac:(lia))
      as [<- [<- <-]].
    destruct Hcase as [[_ ->] | [Hk' _]]; [apply IH; [lia | assumption] | congruence].
  - pose proof (wire_field_nonempty _ _ Hf).
    apply app_eq_nil in Hx. destruct Hx as [-> _]. cbn in *. lia.
  - pose proof (len_nonneg f). pose proof (len_nonneg d).
    pose proof (len_nonneg f'). pose proof (len_nonneg d').
    assert (Hb' : len (f' ++ d') < 2 ^ 63) by (now rewrite <- Hx).
    rewrite len_app in Hb, Hb'.
    destruct (wire_field_prefix_free _ _ _ _ _ _ Hf Hf' Hx ltac:(lia) ltac:(lia))
      as [<- [<- <-]].
    destruct Hcase as [[Hk' _] | [_ ->]]; [congruence | ].
    f_equal. apply IH; [lia | assumption].
Qed.

Section WireStore.

Context {M : Type} (msg : string) (arms : Z -> option (field_arm M))
  (add : M -> list byte -> M)
  (field : Z -> M -> cursor -> outcome (M * cursor))
  (Unmarshal : M -> list byte -> outcome M)
  (unrecognized : M -> option (list byte)).
Hypothesis field_generic : forall l m c, field l m c = generic_field msg arms add l m c.
Hypothesis Unmarshal_loop :
  forall m d, Unmarshal m d = unmarshal_loop field (List.length d) (len d) m (Cursor 0 d).
Hypothesis arm_unrecognized :
  forall fn arm m s m',
    arms fn = Some arm -> arm_store arm m s = Ok m' -> unrecognized m' = unrecognized m.
Hypothesis add_unrecognized :
  forall m f, unrecognized (add m f) = append (unrecognized m) f.

Lemma decodes_input_fields m d m' :
  decodes arms add m d m' ->
  exists u, input_fields (has_arm arms) d u
            /\ unrecognized m' = append (unrecognized m) u.
Proof.
  induction 1 as [m | m wire t n s arm m1 d m' Ht H2 H0 Harm Hn Hs Hst Hd IH
                    | m f d m' Hf Hd IH].
  - exists []. split; [constructor | ]. rewrite append_nil. now destruct (unrecognized m).
  - destruct IH as [u [Hu IH]]. exists u. split.
    + replace (t ++ n ++ s ++ d) with ((t ++ n ++ s) ++ d) by (now rewrite <- !app_assoc).
      apply (input_fields_known _ wire); [now apply wire_field_bytes | | assumption].
      unfold has_arm. now rewrite Harm.
    + rewrite IH. f_equal. eapply arm_unrecognized; eassumption.
  - destruct IH as [u [Hu IH]]. destruct Hf as [wire [Hf [H0 Hk]]].
    exists (f ++ u). split; [now apply (input_fields_unknown _ wire) | ].
    now rewrite IH, add_unrecognized, append_append.
Qed.

Lemma decoder_stores : stores_the_unknown_fields arms Unmarshal unrecognized.
Proof.
  intros m d m' Hb H.
  apply (Unmarshal_decodes msg arms add field Unmarshal field_generic Unmarshal_loop
           (List.length d) m d m' (Nat.le_refl _) Hb) in H.
  destruct (decodes_input_fields m d m' H) as [u [Hu Hst]].
  split; [now exists u | ].
  intros u' Hu'. rewrite <- (input_fields_unique _ d u Hu Hb u' Hu').
  split; [exact Hst | now rewrite Hst, bytes_of_append].
Qed.

End WireStore.

(** ** C3 *)

(** C3 as stated does not hold for every message: a
    [CommonExtensionConfig] whose oneof holds a nil wrapper pointer keeps
    the field 4 of the input [20 07] when it is decoded into, and [Marshal]
    of the result panics ([Size] answers 0 on the nil wrapper and its
    [MarshalToSizedBuffer] dereferences it), so the bytes kept are not
    written again. *)
Lemma C3_nil_wrapper_keeps_and_panics :
  CommonExtensionConfig_Unmarshal nil_wrapper_example [x20; x07] = Ok nil_wrapper_decoded
  /\ XXX_unrecognized nil_wrapper_decoded = Some [x20; x07]
  /\ CommonExtensionConfig_Marshal nil_wrapper_decoded = Panic NilDereference.
Proof. repeat split. Qed.

(** C3 (amended): [skipCommon] steps over one field of the wire format,
    groups included, whatever follows it, and what it delimits is such a
    field.  In each of the three [Unmarshal] routines fields of the wire
    format whose number is positive as an [int32] and not a [case] label
    are not rejected, wherever they stand in the input: behind any input
    that decodes their bytes, tags included, are added as they are to
    [XXX_unrecognized] and decoding goes on behind their last byte.  An
    input that decodes is a sequence of fields, in one way only, and
    [XXX_unrecognized] is afterwards what the receiver held followed by the
    fields with such numbers, in their order, and nothing else.  [Marshal]
    writes the known fields and, after them, the unrecognized bytes as they
    are; so the encoding of a decoded message ends with the receiver's
    unrecognized bytes and those fields.  (The imported message types are
    assumed to keep the marshal contract; a [CommonExtensionConfig] that is
    marshalled or decoded into holds no nil wrapper pointer in its oneof;
    an input, a Go slice, is shorter than 2^63 bytes.) *)
Theorem C3_unknown_fields_are_kept {E : Externals}
  (TapConfig_wire : v3_TapConfig -> list byte)
  (ConfigSource_wire : v4alpha_ConfigSource -> list byte) :
  marshal_contract TapConfig_wire -> marshal_contract ConfigSource_wire ->
  ((forall wire f r,
      wire_field wire f -> len f < 2 ^ 63 -> skipCommon (f ++ r) = Ok (len f))
   /\ (forall f,
         len f < 2 ^ 63 -> skipCommon f = Ok (len f) -> exists wire, wire_field wire f))
  /\ (keeps_unknown_fields_anywhere AdminConfig_arms AdminConfig_Unmarshal
        AdminConfig_add_unrecognized
      /\ keeps_unknown_fields_anywhere TapDSConfig_arms TapDSConfig_Unmarshal
           TapDSConfig_add_unrecognized
      /\ keeps_unknown_fields_anywhere CommonExtensionConfig_arms
           CommonExtensionConfig_Unmarshal CommonExtensionConfig_add_unrecognized)
  /\ (stores_the_unknown_fields AdminConfig_arms AdminConfig_Unmarshal
        AdminConfig_XXX_unrecognized
      /\ stores_the_unknown_fields TapDSConfig_arms TapDSConfig_Unmarshal
           TapDSConfig_XXX_unrecognized
      /\ stores_the_unknown_fields CommonExtensionConfig_arms
           CommonExtensionConfig_Unmarshal XXX_unrecognized)
  /\ ((forall m : AdminConfig,
         AdminConfig_Marshal m
         = Ok (string_field x0a (ConfigId m)
               ++ bytes_of (AdminConfig_XXX_unrecognized m)))
      /\ (forall m : CommonExtensionConfig_TapDSConfig,
            TapDSConfig_Marshal m
            = Ok ((match ConfigSource m with
                   | Some cs => message_field x0a (ConfigSource_wire cs)
                   | None => []
                   end ++ string_field x12 (Name m))
                  ++ bytes_of (TapDSConfig_XXX_unrecognized m)))
      /\ (forall m : CommonExtensionConfig,
            wrapper_present m ->
            CommonExtensionConfig_Marshal m
            = Ok (match ConfigType m with
                  | Some x => ConfigType_wire TapConfig_wire ConfigSource_wire x
                  | None => []
                  end ++ bytes_of (XXX_unrecognized m))))
  /\ ((forall m d m' u,
         len d < 2 ^ 63 -> AdminConfig_Unmarshal m d = Ok m' ->
         input_fields (has_arm AdminConfig_arms) d u ->
         AdminConfig_Marshal m'
         = Ok (string_field x0a (ConfigId m')
               ++ bytes_of (AdminConfig_XXX_unrecognized m) ++ u))
      /\ (forall m d m' u,
            len d < 2 ^ 63 -> TapDSConfig_Unmarshal m d = Ok m' ->
            input_fields (has_arm TapDSConfig_arms) d u ->
            TapDSConfig_Marshal m'
            = Ok ((match ConfigSource m' with
                   | Some cs => message_field x0a (ConfigSource_wire cs)
                   | None => []
                   end ++ string_field x12 (Name m'))
                  ++ bytes_of (TapDSConfig_XXX_unrecognized m) ++ u))
      /\ (forall m d m' u,
            wrapper_present m ->
            len d < 2 ^ 63 -> CommonExtensionConfig_Unmarshal m d = Ok m' ->
            input_fields (has_arm CommonExtensionConfig_arms) d u ->
            CommonExtensionConfig_Marshal m'
            = Ok (match ConfigType m' with
                  | Some x => ConfigType_wire TapConfig_wire ConfigSource_wire x
                  | None => []
                  end ++ bytes_of (XXX_unrecognized m) ++ u))).
Proof.
  intros HT HC.
  pose proof (decoder_keeps_anywhere "AdminConfig" AdminConfig_arms
                AdminConfig_add_unrecognized _ _ AdminConfig_field_generic
                AdminConfig_Unmarshal_loop AdminConfig_add_nil AdminConfig_add_app) as KA.
  pose proof (decoder_keeps_anywhere "TapDSConfig" TapDSConfig_arms
                TapDSConfig_add_unrecognized _ _ TapDSConfig_field_generic
                TapDSConfig_Unmarshal_loop TapDSConfig_add_nil TapDSConfig_add_app) as KT.
  pose proof (decoder_keeps_anywhere "CommonExtensionConfig"
                CommonExtensionConfig_arms CommonExtensionConfig_add_unrecognized _ _
                CommonExtensionConfig_field_generic CommonExtensionConfig_Unmarshal_loop
                CommonExtensionConfig_add_nil CommonExtensionConfig_add_app) as KC.
  assert (SA : stores_the_unknown_fields AdminConfig_arms AdminConfig_Unmarshal
                 AdminConfig_XXX_unrecognized).
  { apply (decoder_stores "AdminConfig" AdminConfig_arms AdminConfig_add_unrecognized
             _ _ _ AdminConfig_field_generic AdminConfig_Unmarshal_loop);
      [ | reflexivity].
    intros fn arm m s m' Harm Hs.
    destruct fn as [ | [p | p | ] | p]; cbn in Harm; try discriminate.
    injection Harm as <-. cbn [arm_store] in Hs. now injection Hs as <-. }
  assert (ST : stores_the_unknown_fields TapDSConfig_arms TapDSConfig_Unmarshal
                 TapDSConfig_XXX_unrecognized).
  { apply (decoder_stores "TapDSConfig" TapDSConfig_arms TapDSConfig_add_unrecognized
             _ _ _ TapDSConfig_field_generic TapDSConfig_Unmarshal_loop);
      [ | reflexivity].
    intros fn arm m s m' Harm Hs.
    destruct fn as [ | [[p | p | ] | [p | p | ] | ] | p]; cbn in Harm; try discriminate;
      injection Harm as <-; cbn [arm_store] in Hs.
    - now injection Hs as <-.
    - inv_bind Hs. now injection Hs as <-. }
  assert (SC : stores_the_unknown_fields CommonExtensionConfig_arms
                 CommonExtensionConfig_Unmarshal XXX_unrecognized).
  { apply (decoder_stores "CommonExtensionConfig" CommonExtensionConfig_arms
             CommonExtensionConfig_add_unrecognized
             _ _ _ CommonExtensionConfig_field_generic CommonExtensionConfig_Unmarshal_loop);
      [ | reflexivity].
    intros fn arm m s m' Harm Hs.
    destruct fn as [ | [[p | p | ] | [p | p | ] | ] | p]; cbn in Harm; try discriminate;
      injection Harm as <-; cbn [arm_store] in Hs; inv_bind Hs; now injection Hs as <-. }
  split; [split; [intros wire f r; apply wire_field_skipCommon | exact skipCommon_parse] | ].
  split; [split; [exact KA | split; [exact KT | exact KC]] | ].
  split; [split; [exact SA | split; [exact ST | exact SC]] | ].
  split; [split; [ | split] | split; [ | split]].
  - intros m. apply AdminConfig_Marshal_wire.
  - intros m. rewrite <- app_assoc.
    apply (TapDSConfig_Marshal_wire ConfigSource_wire HC).
  - intros m Hm. now apply CommonExtensionConfig_Marshal_wire.
  - intros m d m' u Hb H Hu.
    rewrite AdminConfig_Marshal_wire. unfold AdminConfig_wire.
    now rewrite (proj2 (proj2 (SA m d m' Hb H) u Hu)).
  - intros m d m' u Hb H Hu.
    rewrite (TapDSConfig_Marshal_wire ConfigSource_wire HC). unfold TapDSConfig_wire.
    rewrite (proj2 (proj2 (ST m d m' Hb H) u Hu)). now rewrite <- !app_assoc.
  - intros m d m' u Hm Hb H Hu.
    pose proof (CommonExtensionConfig_Unmarshal_wrapper_present m d m' Hm H) as Hm'.
    rewrite (CommonExtensionConfig_Marshal_wire TapConfig_wire ConfigSource_wire HT HC)
      by exact Hm'.
    unfold CommonExtensionConfig_wire.
    now rewrite (proj2 (proj2 (SC m d m' Hb H) u Hu)).
Qed.

Lemma C3_witness :
  AdminConfig_Unmarshal AdminConfig_zero
    ([x0a; x01; x41] ++ (([x10] ++ [x85; x00]) ++ ([x1d] ++ [x01; x02; x03; x04]) ++ [])
     ++ [x0a; x01; x42])
  = Ok {| ConfigId := [x42];
          AdminConfig_XXX_unrecognized := Some [x10; x85; x00; x1d; x01; x02; x03; x04] |}
  <-> AdminConfig_Unmarshal
        (AdminConfig_add_unrecognized
           {| ConfigId := [x41]; AdminConfig_XXX_unrecognized := None |}
           (([x10] ++ [x85; x00]) ++ ([x1d] ++ [x01; x02; x03; x04]) ++ []))
        [x0a; x01; x42]
      = Ok {| ConfigId := [x42];
              AdminConfig_XXX_unrecognized :=
                Some [x10; x85; x00; x1d; x01; x02; x03; x04] |}.
Proof.
  refine (proj2 (proj1 (proj1 (proj2 (C3_unknown_fields_are_kept (E := Flag_externals)
                                        Flag_wire Flag_wire
                                        Flag_marshal_contract Flag_marshal_contract)))
                   AdminConfig_zero [x0a; x01; x41] _ _ _ _ _) [x0a; x01; x42] _ _).
  - vm_compute. reflexivity.
  - apply unknown_wire_fields_cons; [ | apply unknown_wire_fields_cons; [ | constructor]].
    + exists 16. split; [ | split; vm_compute; reflexivity].
      apply wire_field_varint; [split | | ]; vm_compute; reflexivity.
    + exists 29. split; [ | split; vm_compute; reflexivity].
      apply wire_field_fixed32; [split | | ]; vm_compute; reflexivity.
  - vm_compute. reflexivity.
  - vm_compute. reflexivity.
Defined.

(** ** C4 *)

(** C4 as stated does not hold on every input that decodes: the decoder
    takes the field number of a tag as an [int32].  In the input below the
    last field whose number is 1, 2 or 3 is the first one, field 1 with an
    [AdminConfig] of [ConfigId = "A"]; the tag behind it has the field
    number 2^32 + 3 and wire type 2, and its empty payload is decoded as
    field 3: the oneof ends as a [TapdsConfig] and [GetAdminConfig] returns
    nil. *)
Lemma C4_field_number_is_taken_as_int32 :
  is_tag [x9a; x80; x80; x80; x80; x01] ((2 ^ 32 + 3) * 8 + 2)
  /\ Z.shiftr ((2 ^ 32 + 3) * 8 + 2) 3 = 2 ^ 32 + 3
  /\ CommonExtensionConfig_Unmarshal CommonExtensionConfig_zero [x0a; x03; x0a; x01; x41]
     = Ok admin_A_decoded
  /\ CommonExtensionConfig_Unmarshal CommonExtensionConfig_zero
       ([x0a; x03; x0a; x01; x41] ++ [x9a; x80; x80; x80; x80; x01; x00])
     = Ok tapds_empty_decoded
  /\ GetAdminConfig (Some tapds_empty_decoded) = Ok None
  /\ GetTapdsConfig (Some tapds_empty_decoded) = Ok (Some TapDSConfig_zero).
Proof. repeat split; vm_compute; reflexivity. Qed.

(** C4 (amended): each time [CommonExtensionConfig.Unmarshal] reads a
    length-delimited field whose number is 1, 2 or 3 as an [int32],
    whatever the encoding of its tag and length and whatever variant the
    input before it has left in the oneof, it decodes the payload into a
    fresh message, builds the wrapper of that number around it and stores
    it in [ConfigType]; decoding goes on behind the field from there, and
    fields the schema does not know leave the wrapper where it is.  For
    every input that decodes (an input, a Go slice, is shorter than 2^63
    bytes), either it holds fields the schema does not know only and the
    oneof is the receiver's, or the oneof is the wrapper of the last field
    numbered 1, 2 or 3 as an [int32], around the message its payload
    decodes to.  The getter of the variant a message holds returns its
    payload and the two other getters return nil; no message has two
    getters return a payload. *)
Theorem C4_last_oneof_field_wins {E : Externals} :
  (forall m d1 m1 wire t n s x d2,
     CommonExtensionConfig_Unmarshal m d1 = Ok m1 ->
     is_tag t wire -> Z.land wire 7 = 2 ->
     is_varint n -> uint64 (varint_value n) = len s ->
     oneof_of_field (int32 (Z.shiftr wire 3)) s x ->
     len (d1 ++ (t ++ n ++ s) ++ d2) < 2 ^ 63 ->
     (forall m2,
        CommonExtensionConfig_Unmarshal m (d1 ++ (t ++ n ++ s) ++ d2) = Ok m2
        <-> CommonExtensionConfig_Unmarshal (set_ConfigType m1 x) d2 = Ok m2)
     /\ (unknown_wire_fields (has_arm CommonExtensionConfig_arms) d2 ->
         exists m2,
           CommonExtensionConfig_Unmarshal m (d1 ++ (t ++ n ++ s) ++ d2) = Ok m2
           /\ ConfigType m2 = Some x))
  /\ (forall m d m',
        len d < 2 ^ 63 -> CommonExtensionConfig_Unmarshal m d = Ok m' ->
        (unknown_wire_fields (has_arm CommonExtensionConfig_arms) d
         /\ ConfigType m' = ConfigType m)
        \/ exists d1 m1 wire t n s d2 x,
             d = d1 ++ (t ++ n ++ s) ++ d2
             /\ CommonExtensionConfig_Unmarshal m d1 = Ok m1
             /\ is_tag t wire /\ Z.land wire 7 = 2
             /\ is_varint n /\ uint64 (varint_value n) = len s
             /\ unknown_wire_fields (has_arm CommonExtensionConfig_arms) d2
             /\ oneof_of_field (int32 (Z.shiftr wire 3)) s x
             /\ ConfigType m' = Some x)
  /\ ((forall (m : CommonExtensionConfig) v,
         ConfigType m = Some (ConfigType_AdminConfig (Some {| AdminConfig' := Some v |})) ->
         GetAdminConfig (Some m) = Ok (Some v)
         /\ GetStaticConfig (Some m) = Ok None /\ GetTapdsConfig (Some m) = Ok None)
      /\ (forall (m : CommonExtensionConfig) v,
            ConfigType m = Some (ConfigType_StaticConfig (Some {| StaticConfig := Some v |})) ->
            GetAdminConfig (Some m) = Ok None
            /\ GetStaticConfig (Some m) = Ok (Some v) /\ GetTapdsConfig (Some m) = Ok None)
      /\ (forall (m : CommonExtensionConfig) v,
            ConfigType m = Some (ConfigType_TapdsConfig (Some {| TapdsConfig := Some v |})) ->
            GetAdminConfig (Some m) = Ok None
            /\ GetStaticConfig (Some m) = Ok None /\ GetTapdsConfig (Some m) = Ok (Some v)))
  /\ (forall (m : CommonExtensionConfig) a t d,
        ~ (GetAdminConfig (Some m) = Ok (Some a) /\ GetStaticConfig (Some m) = Ok (Some t))
        /\ ~ (GetAdminConfig (Some m) = Ok (Some a) /\ GetTapdsConfig (Some m) = Ok (Some d))
        /\ ~ (GetStaticConfig (Some m) = Ok (Some t) /\ GetTapdsConfig (Some m) = Ok (Some d))).
Proof.
  pose proof (decoder_known_anywhere "CommonExtensionConfig" CommonExtensionConfig_arms
                CommonExtensionConfig_add_unrecognized _ _
                CommonExtensionConfig_field_generic CommonExtensionConfig_Unmarshal_loop)
    as KC.
  split; [ | split; [ | split]].
  - intros m d1 m1 wire t n s x d2 H Ht H2 Hn Hs Hx Hb.
    assert (Hiff : forall m2,
              CommonExtensionConfig_Unmarshal m (d1 ++ (t ++ n ++ s) ++ d2) = Ok m2
              <-> CommonExtensionConfig_Unmarshal (set_ConfigType m1 x) d2 = Ok m2).
    { intros m2.
      destruct Hx as [[Hfn [v [Hv ->]]] | [[Hfn [v [Hv ->]]] | [Hfn [v [Hv ->]]]]];
        (eapply (KC m d1 m1 wire t n s); try eassumption;
         [ rewrite Hfn; lia
         | rewrite Hfn; reflexivity
         | cbn [arm_store]; rewrite Hv; reflexivity ]). }
    split; [exact Hiff | ]. intros Hu.
    exists (CommonExtensionConfig_add_unrecognized (set_ConfigType m1 x) d2).
    split; [ | reflexivity]. apply Hiff.
    apply (decoder_unknown_run "CommonExtensionConfig" CommonExtensionConfig_arms
             CommonExtensionConfig_add_unrecognized _ _
             CommonExtensionConfig_field_generic CommonExtensionConfig_Unmarshal_loop
             CommonExtensionConfig_add_nil CommonExtensionConfig_add_app);
      [assumption | ].
    rewrite !len_app in Hb. pose proof (len_nonneg d1). pose proof (len_nonneg t).
    pose proof (len_nonneg n). pose proof (len_nonneg s). lia.
  - intros m d m' Hb H.
    apply (Unmarshal_decodes "CommonExtensionConfig" CommonExtensionConfig_arms
             CommonExtensionConfig_add_unrecognized _ _
             CommonExtensionConfig_field_generic CommonExtensionConfig_Unmarshal_loop
             (List.length d) m d m' (Nat.le_refl _) Hb) in H.
    destruct (decodes_last_known CommonExtensionConfig_arms
                CommonExtensionConfig_add_unrecognized
                CommonExtensionConfig_add_nil CommonExtensionConfig_add_app m d m' H)
      as [[Hu ->] | [d1 [m1 [wire [t [n [s [arm [m2 [d2 Hlast]]]]]]]]]].
    { left. split; [assumption | reflexivity]. }
    right.
    destruct Hlast as [-> [Hd1 [Ht [H2 [H0 [Harm [Hn [Hs [Hst [Hu ->]]]]]]]]]].
    assert (Hx : exists x, oneof_of_field (int32 (Z.shiftr wire 3)) s x
                           /\ ConfigType m2 = Some x).
    { remember (int32 (Z.shiftr wire 3)) as fn eqn:Efn. clear Efn.
      destruct fn as [ | [[p | p | ] | [p | p | ] | ] | p]; cbn in Harm; try discriminate;
        injection Harm as <-; cbn [arm_store] in Hst; inv_bind Hst; injection Hst as <-;
        (eexists; split; [ | reflexivity]).
      - right; right. split; [reflexivity | ]. now exists x.
      - right; left. split; [reflexivity | ]. now exists x.
      - left. split; [reflexivity | ]. now exists x. }
    destruct Hx as [x [Hx Hc]].
    exists d1, m1, wire, t, n, s, d2, x.
    split; [reflexivity | split].
    { apply (decodes_Unmarshal "CommonExtensionConfig" CommonExtensionConfig_arms
               CommonExtensionConfig_add_unrecognized _ _
               CommonExtensionConfig_field_generic CommonExtensionConfig_Unmarshal_loop
               CommonExtensionConfig_add_nil CommonExtensionConfig_add_app);
        [assumption | ].
      rewrite len_app in Hb. pose proof (len_nonneg ((t ++ n ++ s) ++ d2)). lia. }
    do 5 (split; [assumption | ]). split; [assumption | exact Hc].
  - unfold GetAdminConfig, GetStaticConfig, GetTapdsConfig, GetConfigType.
    split; [ | split]; intros m v ->; repeat split.
  - intros m a t d. unfold GetAdminConfig, GetStaticConfig, GetTapdsConfig, GetConfigType.
    destruct (ConfigType m) as [[[x | ] | [x | ] | [x | ]] | ];
      repeat split; intros [H1 H2]; discriminate.
Qed.

Lemma C4_witness :
  CommonExtensionConfig_Unmarshal (E := Flag_externals) CommonExtensionConfig_zero
    ([x12; x02; x08; x01] ++ ([x0a] ++ [x83; x00] ++ [x0a; x01; x41]) ++ [x20; x07])
  = Ok (CommonExtensionConfig_add_unrecognized
          (set_ConfigType static_example_decoded
             (ConfigType_AdminConfig
                (Some {| AdminConfig' :=
                           Some {| ConfigId := [x41];
                                   AdminConfig_XXX_unrecognized := None |} |})))
          [x20; x07])
  <-> CommonExtensionConfig_Unmarshal
        (set_ConfigType static_example_decoded
           (ConfigType_AdminConfig
              (Some {| AdminConfig' :=
                         Some {| ConfigId := [x41];
                                 AdminConfig_XXX_unrecognized := None |} |})))
        [x20; x07]
      = Ok (CommonExtensionConfig_add_unrecognized
              (set_ConfigType static_example_decoded
                 (ConfigType_AdminConfig
                    (Some {| AdminConfig' :=
                               Some {| ConfigId := [x41];
                                       AdminConfig_XXX_unrecognized := None |} |})))
              [x20; x07]).
Proof.
  refine (proj1 (proj1 (C4_last_oneof_field_wins (E := Flag_externals))
                   CommonExtensionConfig_zero [x12; x02; x08; x01] static_example_decoded
                   10 [x0a] [x83; x00] [x0a; x01; x41] _ [x20; x07] _ _ _ _ _ _ _) _).
  - vm_compute. reflexivity.
  - split; vm_compute; reflexivity.
  - reflexivity.
  - reflexivity.
  - vm_compute. reflexivity.
  - left. split; [vm_compute; reflexivity | ].
    eexists. split; [vm_compute; reflexivity | reflexivity].
  - vm_compute. reflexivity.
Defined.
